(** * The HTTP VFS backend worker (js/vfs-http-worker-bundle.js)

    A shallow embedding of the backend thread that serves SQLite pages over
    HTTP range requests: the bundled [LRUCache] class, the file registry and
    page cache built on it, the four asynchronous backend methods ([xOpen],
    [xAccess], [xRead], [xFilesize]) and the [workMessage] dispatcher that
    reports their outcome through the consumer's lock cell.

    Asynchronous functions are embedded as trees of a small coroutine monad
    [Co]: a node either performs an action on the worker's state, suspends on
    a promise ([yield p]) or finishes.  A scheduler interleaves the suspended
    coroutines, which is all the concurrency a single JavaScript thread has. *)

From stdpp Require Import gmap strings list fin_maps pretty.
From Stdlib Require Import ZArith Lia.
From Stdlib.Strings Require Import Byte.

Open Scope Z_scope.
Set Warnings "-clear-no-such-hyp".

(** ** Exceptions and fallible results *)

(** The exceptions the worker can raise.  The message strings of the source are
    kept as structured constructors so that a property can name the error. *)
Inductive Err : Type :=
| ErrNotOpen (name : string)           (* `File ${name} not open` *)
| ErrMissingArgs                       (* 'Mandatory arguments missing' *)
| ErrPageSizeOver (pageSize maxPageSize : Z)
                                       (* `${pageSize} is over the maximum configured ...` *)
| ErrSpansPageBoundary (offset n : Z)  (* `Read chunk ... spans across a page-boundary` *)
| ErrInvalidResponse                   (* `Invalid HTTP response received: ...` *)
| TypeError (msg : string)
| RangeError (msg : string)
| FetchFailed (reason : string)        (* the rejection of a fetch() promise *)
| UndefinedIndex.                      (* an index read from next/prev/sizes gave undefined *)

Inductive res (A : Type) : Type :=
| Ok (a : A)
| Exn (e : Err).
Arguments Ok {A} a.
Arguments Exn {A} e.

Definition res_bind {A B} (m : res A) (k : A → res B) : res B :=
  match m with
  | Ok a => k a
  | Exn e => Exn e
  end.

Notation "'let?' x := m 'in' k" := (res_bind m (fun x => k))
  (at level 10, x name, m at level 200, k at level 200).
Notation "'let?' ' pat := m 'in' k" := (res_bind m (fun x => match x with pat => k end))
  (at level 10, pat pattern, m at level 200, k at level 200).

Definition of_option {A} (o : option A) : res A :=
  match o with
  | Some a => Ok a
  | None => Exn UndefinedIndex
  end.

(** ** The LRUCache class *)

Module LRU.

(** const isPosInt = n => n && n === Math.floor(n) && n > 0 && isFinite(n) *)
Definition isPosInt (n : Z) : bool := 0 <? n.

(** The array class picked for [next] and [prev]: [getUintArray(max)] when
    [max] is not 0, a plain [Array] otherwise. *)
Inductive ArrayClass : Type :=
| PlainArray             (* Array, ZeroArray: a write past the end extends it *)
| UintArray (bits : N).  (* Uint8Array, Uint16Array, Uint32Array of length max *)

Definition getUintArray (max : nat) : option ArrayClass :=
  let m := N.of_nat max in
  if (m =? 0)%N then None
  else if (m <=? 2 ^ 8)%N then Some (UintArray 8)
  else if (m <=? 2 ^ 16)%N then Some (UintArray 16)
  else if (m <=? 2 ^ 32)%N then Some (UintArray 32)
  else if (m <=? 2 ^ 53 - 1)%N then Some PlainArray
  else None.

(** [new UintArray(max)]: [max] cells holding 0 (no cell for a plain Array of
    length 0). *)
Definition zeros {A} (zero : A) (max : nat) : gmap nat A :=
  list_to_map ((λ i, (i, zero)) <$> seq 0 max).

(** [a[i] = x]: a typed array drops a write out of range and wraps the value
    to its element width; a plain array takes any index. *)
Definition store (cls : ArrayClass) (max : nat) (a : gmap nat nat) (i x : nat)
  : gmap nat nat :=
  match cls with
  | PlainArray => <[i:=x]> a
  | UintArray bits =>
      if decide (i < max)%nat
      then <[i:=N.to_nat (N.of_nat x mod 2 ^ bits)]> a
      else a
  end.

Section Cache.
Context {K : Type} `{Countable K} {V : Type} `{EqDecision V}.

(** The fields of an LRUCache instance that the worker's caches use (no ttl, no
    dispose hooks, no fetchMethod).  [keyList] and [valList] hold [null] in the
    cells that have no binding here.  [free] is the index stack, top first. *)
Record LRUCache : Type := mkLRU {
  max_ : nat;
  maxSize : Z;
  maxEntrySize : Z;
  sizeCalculation : option (V → Z);
  arrayClass : ArrayClass;
  keyMap : gmap K nat;
  keyList : gmap nat K;
  valList : gmap nat V;
  next : gmap nat nat;
  prev : gmap nat nat;
  head_ : nat;
  tail_ : nat;
  free : list nat;
  initialFill : nat;
  size_ : nat;
  calculatedSize : Z;
  sizes : gmap nat Z
}.

Definition with_keyMap (m : gmap K nat) (c : LRUCache) : LRUCache :=
  mkLRU (max_ c) (maxSize c) (maxEntrySize c) (sizeCalculation c) (arrayClass c)
    m (keyList c) (valList c) (next c) (prev c) (head_ c) (tail_ c) (free c)
    (initialFill c) (size_ c) (calculatedSize c) (sizes c).
Definition with_keyList (m : gmap nat K) (c : LRUCache) : LRUCache :=
  mkLRU (max_ c) (maxSize c) (maxEntrySize c) (sizeCalculation c) (arrayClass c)
    (keyMap c) m (valList c) (next c) (prev c) (head_ c) (tail_ c) (free c)
    (initialFill c) (size_ c) (calculatedSize c) (sizes c).
Definition with_valList (m : gmap nat V) (c : LRUCache) : LRUCache :=
  mkLRU (max_ c) (maxSize c) (maxEntrySize c) (sizeCalculation c) (arrayClass c)
    (keyMap c) (keyList c) m (next c) (prev c) (head_ c) (tail_ c) (free c)
    (initialFill c) (size_ c) (calculatedSize c) (sizes c).
Definition with_next (m : gmap nat nat) (c : LRUCache) : LRUCache :=
  mkLRU (max_ c) (maxSize c) (maxEntrySize c) (sizeCalculation c) (arrayClass c)
    (keyMap c) (keyList c) (valList c) m (prev c) (head_ c) (tail_ c) (free c)
    (initialFill c) (size_ c) (calculatedSize c) (sizes c).
Definition with_prev (m : gmap nat nat) (c : LRUCache) : LRUCache :=
  mkLRU (max_ c) (maxSize c) (maxEntrySize c) (sizeCalculation c) (arrayClass c)
    (keyMap c) (keyList c) (valList c) (next c) m (head_ c) (tail_ c) (free c)
    (initialFill c) (size_ c) (calculatedSize c) (sizes c).
Definition with_head (h : nat) (c : LRUCache) : LRUCache :=
  mkLRU (max_ c) (maxSize c) (maxEntrySize c) (sizeCalculation c) (arrayClass c)
    (keyMap c) (keyList c) (valList c) (next c) (prev c) h (tail_ c) (free c)
    (initialFill c) (size_ c) (calculatedSize c) (sizes c).
Definition with_tail (t : nat) (c : LRUCache) : LRUCache :=
  mkLRU (max_ c) (maxSize c) (maxEntrySize c) (sizeCalculation c) (arrayClass c)
    (keyMap c) (keyList c) (valList c) (next c) (prev c) (head_ c) t (free c)
    (initialFill c) (size_ c) (calculatedSize c) (sizes c).
Definition with_free (f : list nat) (c : LRUCache) : LRUCache :=
  mkLRU (max_ c) (maxSize c) (maxEntrySize c) (sizeCalculation c) (arrayClass c)
    (keyMap c) (keyList c) (valList c) (next c) (prev c) (head_ c) (tail_ c) f
    (initialFill c) (size_ c) (calculatedSize c) (sizes c).
Definition with_initialFill (n : nat) (c : LRUCache) : LRUCache :=
  mkLRU (max_ c) (maxSize c) (maxEntrySize c) (sizeCalculation c) (arrayClass c)
    (keyMap c) (keyList c) (valList c) (next c) (prev c) (head_ c) (tail_ c) (free c)
    n (size_ c) (calculatedSize c) (sizes c).
Definition with_size (n : nat) (c : LRUCache) : LRUCache :=
  mkLRU (max_ c) (maxSize c) (maxEntrySize c) (sizeCalculation c) (arrayClass c)
    (keyMap c) (keyList c) (valList c) (next c) (prev c) (head_ c) (tail_ c) (free c)
    (initialFill c) n (calculatedSize c) (sizes c).
Definition with_calculatedSize (z : Z) (c : LRUCache) : LRUCache :=
  mkLRU (max_ c) (maxSize c) (maxEntrySize c) (sizeCalculation c) (arrayClass c)
    (keyMap c) (keyList c) (valList c) (next c) (prev c) (head_ c) (tail_ c) (free c)
    (initialFill c) (size_ c) z (sizes c).
Definition with_sizes (m : gmap nat Z) (c : LRUCache) : LRUCache :=
  mkLRU (max_ c) (maxSize c) (maxEntrySize c) (sizeCalculation c) (arrayClass c)
    (keyMap c) (keyList c) (valList c) (next c) (prev c) (head_ c) (tail_ c) (free c)
    (initialFill c) (size_ c) (calculatedSize c) m.

(** [constructor(options)] for the options the worker passes: [max],
    [maxSize] and [sizeCalculation]; every other option keeps its default, so
    [maxEntrySize = maxEntrySize || maxSize] is [maxSize] and [ttl] is 0. *)
Definition new (max : nat) (maxSz : Z) (sizeCalc : option (V → Z)) : res LRUCache :=
  let? cls := (if decide (max = 0%nat) then Ok PlainArray
               else match getUintArray max with
                    | Some cls => Ok cls
                    | None => Exn (RangeError "invalid max value")
                    end) in
  let maxEntrySz := maxSz in
  if bool_decide (is_Some sizeCalc) && (maxSz =? 0) && (maxEntrySz =? 0)
  then Exn (TypeError "cannot set sizeCalculation without setting maxSize or maxEntrySize")
  else if negb (maxEntrySz =? 0) && negb (maxSz =? 0) && negb (isPosInt maxSz)
  then Exn (TypeError "maxSize must be a positive integer if specified")
  else if negb (maxEntrySz =? 0) && negb (isPosInt maxEntrySz)
  then Exn (TypeError "maxEntrySize must be a positive integer if specified")
  else if bool_decide (max = 0%nat) && (maxSz =? 0)
  then Exn (TypeError "At least one of max, maxSize, or ttl is required")
  else Ok {| max_ := max; maxSize := maxSz; maxEntrySize := maxEntrySz;
             sizeCalculation := sizeCalc; arrayClass := cls;
             keyMap := ∅; keyList := ∅; valList := ∅;
             next := match cls with UintArray _ => zeros 0%nat max | PlainArray => ∅ end;
             prev := match cls with UintArray _ => zeros 0%nat max | PlainArray => ∅ end;
             head_ := 0; tail_ := 0; free := []; initialFill := 1; size_ := 0;
             calculatedSize := 0;
             sizes := if maxEntrySz =? 0 then ∅ else zeros 0 max |}.

(** Size tracking is installed by [initializeSizeTracking] when
    [maxEntrySize !== 0]; otherwise the prototype's no-op methods stay. *)
Definition tracksSize (c : LRUCache) : bool := negb (maxEntrySize c =? 0).

(** removeItemSize(index) *)
Definition removeItemSize (index : nat) (c : LRUCache) : res LRUCache :=
  if tracksSize c then
    let? sz := of_option (sizes c !! index) in
    Ok (with_sizes (<[index:=0]> (sizes c))
          (with_calculatedSize (calculatedSize c - sz) c))
  else Ok c.

(** requireSize(k, v, size, sizeCalculation) with [size = 0], the value [set]
    passes when its caller gives no size.  No value the worker stores is a
    background fetch (none carries a [__staleWhileFetching] property). *)
Definition requireSize (v : V) (c : LRUCache) : res Z :=
  if tracksSize c then
    match sizeCalculation c with
    | Some f =>
        let size := f v in
        if isPosInt size then Ok size
        else Exn (TypeError "sizeCalculation return invalid (expect positive integer)")
    | None => Exn (TypeError "invalid size value (must be positive integer)")
    end
  else
    match sizeCalculation c with
    | Some _ => Exn (TypeError "cannot set size without setting maxSize or maxEntrySize on cache")
    | None => Ok 0
    end.

(** evict(free) *)
Definition evict (toFree : bool) (c : LRUCache) : res (nat * LRUCache) :=
  let head := head_ c in
  let k := keyList c !! head in
  let? c := removeItemSize head c in
  let c := if toFree
           then with_free (head :: free c)
                  (with_valList (delete head (valList c))
                     (with_keyList (delete head (keyList c)) c))
           else c in
  let? nh := of_option (next c !! head) in
  let c := with_head nh c in
  let c := match k with
           | Some k => with_keyMap (delete k (keyMap c)) c
           | None => c
           end in
  Ok (head, with_size (size_ c - 1)%nat c).

(** The loop of addItemSize: [while (this.calculatedSize > maxSize) this.evict(true)].
    [fuel] bounds the iterations by the number of entries present. *)
Fixpoint evictWhile (fuel : nat) (limit : Z) (c : LRUCache) : res LRUCache :=
  if calculatedSize c >? limit then
    match fuel with
    | O => Exn UndefinedIndex
    | S fuel => let? '(_, c) := evict true c in evictWhile fuel limit c
    end
  else Ok c.

(** addItemSize(index, size) *)
Definition addItemSize (index : nat) (size : Z) (c : LRUCache) : res LRUCache :=
  if tracksSize c then
    let c := with_sizes (<[index:=size]> (sizes c)) c in
    let? c := (if negb (maxSize c =? 0)
               then evictWhile (size_ c) (maxSize c - size) c
               else Ok c) in
    let? sz := of_option (sizes c !! index) in
    Ok (with_calculatedSize (calculatedSize c + sz) c)
  else Ok c.

(** connect(p, n) *)
Definition connect (p n : nat) (c : LRUCache) : LRUCache :=
  let c := with_prev (store (arrayClass c) (max_ c) (prev c) n p) c in
  with_next (store (arrayClass c) (max_ c) (next c) p n) c.

(** moveToTail(index) *)
Definition moveToTail (index : nat) (c : LRUCache) : res LRUCache :=
  if decide (index ≠ tail_ c) then
    let? c := (if decide (index = head_ c)
          then let? nh := of_option (next c !! index) in Ok (with_head nh c)
          else let? p := of_option (prev c !! index) in
               let? n := of_option (next c !! index) in
               Ok (connect p n c)) in
    let c := connect (tail_ c) index c in
    Ok (with_tail index c)
  else Ok c.

(** newIndex() *)
Definition newIndex (c : LRUCache) : res (nat * LRUCache) :=
  if decide (size_ c = 0)%nat then Ok (tail_ c, c)
  else if decide (size_ c = max_ c ∧ max_ c ≠ 0)%nat then evict false c
  else match free c with
       | i :: rest => Ok (i, with_free rest c)
       | [] => Ok (initialFill c, with_initialFill (S (initialFill c)) c)
       end.

(** clear() *)
Definition clear (c : LRUCache) : LRUCache :=
  mkLRU (max_ c) (maxSize c) (maxEntrySize c) (sizeCalculation c) (arrayClass c)
    ∅ ∅ ∅ (next c) (prev c) 0 0 [] 1 0 0 ((λ _, 0) <$> sizes c).

(** delete(k) *)
Definition delete (k : K) (c : LRUCache) : res (bool * LRUCache) :=
  if decide (size_ c ≠ 0)%nat then
    match keyMap c !! k with
    | Some index =>
        if decide (size_ c = 1)%nat then Ok (true, clear c)
        else
          let? c := removeItemSize index c in
          let c := with_keyMap (base.delete k (keyMap c)) c in
          let c := with_keyList (base.delete index (keyList c)) c in
          let c := with_valList (base.delete index (valList c)) c in
          let? c := (if decide (index = tail_ c)
                then let? p := of_option (prev c !! index) in Ok (with_tail p c)
                else if decide (index = head_ c)
                then let? n := of_option (next c !! index) in Ok (with_head n c)
                else let? p := of_option (prev c !! index) in
                     let? n := of_option (next c !! index) in
                     let c := with_next (store (arrayClass c) (max_ c) (next c) p n) c in
                     Ok (with_prev (store (arrayClass c) (max_ c) (prev c) n p) c)) in
          Ok (true, with_free (index :: free c) (with_size (size_ c - 1)%nat c))
    | None => Ok (false, c)
    end
  else Ok (false, c).

(** set(k, v) *)
Definition set (k : K) (v : V) (c : LRUCache) : res LRUCache :=
  let? size := requireSize v c in
  if negb (maxEntrySize c =? 0) && (size >? maxEntrySize c) then
    let? '(_, c) := delete k c in Ok c
  else
    match (if decide (size_ c = 0)%nat then None else keyMap c !! k) with
    | None =>
        let? '(index, c) := newIndex c in
        let c := with_keyList (<[index:=k]> (keyList c)) c in
        let c := with_valList (<[index:=v]> (valList c)) c in
        let c := with_keyMap (<[k:=index]> (keyMap c)) c in
        let c := with_next (store (arrayClass c) (max_ c) (next c) (tail_ c) index) c in
        let c := with_prev (store (arrayClass c) (max_ c) (prev c) index (tail_ c)) c in
        let c := with_tail index c in
        let c := with_size (S (size_ c)) c in
        addItemSize index size c
    | Some index =>
        let? c := moveToTail index c in
        if decide (valList c !! index = Some v) then Ok c
        else
          let? c := removeItemSize index c in
          let c := with_valList (<[index:=v]> (valList c)) c in
          addItemSize index size c
    end.

(** get(k) *)
Definition get (k : K) (c : LRUCache) : res (option V * LRUCache) :=
  match keyMap c !! k with
  | Some index =>
      let value := valList c !! index in
      let? c := moveToTail index c in
      Ok (value, c)
  | None => Ok (None, c)
  end.

(** peek(k): like get(), but without any LRU updating *)
Definition peek (k : K) (c : LRUCache) : option V :=
  index ← keyMap c !! k; valList c !! index.

(** rindexes(): the indexes from [head] (least recently used) to [tail]. *)
Fixpoint rindexesFrom (fuel : nat) (i : nat) (c : LRUCache) : list nat :=
  match fuel with
  | O => []
  | S fuel =>
      match keyList c !! i with
      | Some k =>
          if decide (keyMap c !! k = Some i) then
            i :: (if decide (i = tail_ c) then []
                  else match next c !! i with
                       | Some j => rindexesFrom fuel j c
                       | None => []
                       end)
          else []
      | None => []
      end
  end.

Definition rindexes (c : LRUCache) : list nat :=
  if decide (size_ c = 0)%nat then [] else rindexesFrom (size_ c) (head_ c) c.

(** rentries(): the bindings, least recently used first. *)
Definition rentries (c : LRUCache) : list (K * V) :=
  omap (λ i, k ← keyList c !! i; v ← valList c !! i; Some (k, v)) (rindexes c).

(** The bytes the cache accounts for its bindings: the sum of
    [sizeCalculation] over the stored values. *)
Definition residentSize (c : LRUCache) : Z :=
  match sizeCalculation c with
  | Some f => foldr (λ kv acc, f kv.2 + acc) 0 (rentries c)
  | None => 0
  end.

End Cache.

Arguments LRUCache K {_ _} V.

End LRU.

(** ** Numbers

    A Number is a double.  The Numbers that reach a cache key or a cache value
    are made from a BigInt page by [Number(page)], [+ 1] and [- 1]: integers
    that a double holds exactly, or an infinity past the largest double. *)
Inductive Num : Type :=
| NFin (z : Z)
| NInf
| NNegInf.

Global Instance Num_eq_dec : EqDecision Num.
Proof. solve_decision. Defined.

(** The double nearest to an integer, ties to the even significand:
    [Number(z)] of a BigInt, and the rounding of an integer sum.  Integers up
    to 2^53 are exact; past 2^1024 - 2^970 the result is an infinity. *)
Definition toNumber (z : Z) : Num :=
  let a := Z.abs z in
  if a <=? 2 ^ 53 then NFin z
  else
    let e := Z.log2 a - 52 in
    let q := a / 2 ^ e in
    let r := a mod 2 ^ e in
    let half := 2 ^ (e - 1) in
    let q := if (half <? r) || ((r =? half) && Z.odd q) then q + 1 else q in
    if 2 ^ 1024 <=? q * 2 ^ e then (if z <? 0 then NNegInf else NInf)
    else NFin (Z.sgn z * (q * 2 ^ e)).

(** [x + d] for an integer [d]: the exact sum, rounded. *)
Definition numAdd (x : Num) (d : Z) : Num :=
  match x with
  | NFin z => toNumber (z + d)
  | _ => x
  end.

(** A double that need not be an integer, as the fraction [n / d]. *)
Inductive Dbl : Type :=
| DFin (n d : Z)
| DInf
| DNegInf
| DNaN.

(** The double nearest to a positive fraction: 53 significant bits, ties to
    even, down to the subnormal step 2^-1074. *)
Definition roundPos (n d : Z) : Dbl :=
  let e := Z.log2 n - Z.log2 d - 53 in
  let scaled e := if 0 <=? e then (n, d * 2 ^ e) else (n * 2 ^ (- e), d) in
  let e := if 2 ^ 53 <=? (scaled e).1 / (scaled e).2 then e + 1 else e in
  let e := Z.max e (-1074) in
  let '(num, den) := scaled e in
  let q := num / den in
  let r := num mod den in
  let q := if (den <? 2 * r) || ((2 * r =? den) && Z.odd q) then q + 1 else q in
  if 0 <=? e then (if 2 ^ 1024 <=? q * 2 ^ e then DInf else DFin (q * 2 ^ e) 1)
  else DFin q (2 ^ (- e)).

Definition negDbl (x : Dbl) : Dbl :=
  match x with
  | DFin n d => DFin (- n) d
  | DInf => DNegInf
  | DNegInf => DInf
  | DNaN => DNaN
  end.

Definition ofNum (x : Num) : Dbl :=
  match x with
  | NFin z => DFin z 1
  | NInf => DInf
  | NNegInf => DNegInf
  end.

(** The double nearest to [n / d], for [0 < d]. *)
Definition roundRat (n d : Z) : Dbl :=
  if n mod d =? 0 then ofNum (toNumber (n / d))
  else if 0 <? n then roundPos n d
  else negDbl (roundPos (- n) d).

(** [x / y] for Numbers that are integers. *)
Definition numDiv (x y : Z) : Dbl :=
  if y =? 0 then (if x =? 0 then DNaN else if 0 <? x then DInf else DNegInf)
  else if 0 <? y then roundRat x y
  else roundRat (- x) (- y).

(** [x + y] *)
Definition dblAdd (x : Num) (y : Dbl) : Dbl :=
  match x, y with
  | NFin z, DFin n d => roundRat (z * d + n) d
  | NFin _, _ => y
  | NInf, (DNegInf | DNaN) => DNaN
  | NInf, _ => DInf
  | NNegInf, (DInf | DNaN) => DNaN
  | NNegInf, _ => DNegInf
  end.

(** [x < y] *)
Definition numLt (x : Num) (y : Dbl) : bool :=
  match x, y with
  | _, DNaN => false
  | NFin z, DFin n d => z * d <? n
  | NFin _, DInf => true
  | NFin _, DNegInf => false
  | NInf, _ => false
  | NNegInf, DNegInf => false
  | NNegInf, _ => true
  end.

(** Number::toString: the least number [k] of digits [s] for which
    [s * 10^(n - k)] reads back as the same double, the nearest such [s]. *)
Fixpoint digitsOf (fuel : nat) (k : Z) (a n : Z) : Z * Z * Z :=
  let scale := 10 ^ (n - k) in
  let lo := a / scale in
  let hi := lo + 1 in
  let okLo := bool_decide (toNumber (lo * scale) = NFin a) in
  let okHi := bool_decide (toNumber (hi * scale) = NFin a) in
  let nearerHi := (hi * scale - a <? a - lo * scale)
                  || ((hi * scale - a =? a - lo * scale) && Z.even hi) in
  let s := if okLo && okHi then (if nearerHi then hi else lo)
           else if okLo then lo else hi in
  match fuel with
  | S fuel =>
      if okLo || okHi
      then (if s =? 10 ^ k then (1, 1, n + 1) else (s, k, n))
      else digitsOf fuel (k + 1) a n
  | O => (a, n, n)
  end.

(** The exponential notation of a Number of 22 digits or more. *)
Definition exponential (a : Z) : string :=
  let n := Z.of_nat (String.length (pretty a)) in
  let '(s, k, n) := digitsOf 17 1 a n in
  let digits := pretty s in
  let mantissa :=
    match digits with
    | String d rest => if k =? 1 then String d "" else String d ("." +:+ rest)
    | EmptyString => ""
    end in
  mantissa +:+ "e+" +:+ pretty (n - 1).

(** String(x): decimal digits below 10^21, exponential notation from there. *)
Definition numberToString (x : Num) : string :=
  match x with
  | NFin z =>
      if Z.abs z <? 10 ^ 21 then pretty z
      else if z <? 0 then "-" +:+ exponential (- z) else exponential z
  | NInf => "Infinity"
  | NNegInf => "-Infinity"
  end.

(** ** Values, file entries and the worker's state *)

Global Instance byte_eq_dec : EqDecision byte := Byte.byte_eq_dec.

(** The JavaScript values that flow through the caches and the promises. *)
Inductive Val : Type :=
| VUndefined
| VFalse
| VNum (n : Num)
| VBytes (b : list byte)   (* a Uint8Array *)
| VPromise (p : nat)       (* a Promise, by identity *)
| VEntry (id : Z).         (* a file entry object, by identity (its unique id) *)

Global Instance Val_eq_dec : EqDecision Val.
Proof. solve_decision. Defined.

Definition truthy (v : Val) : bool :=
  match v with
  | VUndefined | VFalse => false
  | VNum n => negb (bool_decide (n = NFin 0))
  | VBytes _ | VPromise _ | VEntry _ => true
  end.

Definition isPromise (v : Val) : bool :=
  match v with VPromise _ => true | _ => false end.

(** { url, id: nextId++, size, pageSize: null } *)
Record FileEntry : Type := mkEntry {
  e_url : string;
  e_id : Z;
  e_size : Z;
  pageSize : option Z   (* None is null *)
}.

(** The options of the 'init' message; an absent field is undefined. *)
Record Options : Type := mkOptions {
  maxPageSize : option Z;
  cacheSize : option Z
}.

(** const defaultOptions = { maxPageSize: 4096, cacheSize: 1024, headers: {} } *)
Definition defaultOptions : Options :=
  {| maxPageSize := Some 4096; cacheSize := Some 1024 |}.

(** A typed-array view: [length] bytes of array buffer [buf] from [byteOffset]. *)
Record View : Type := mkView {
  v_buf : nat;
  v_off : nat;
  v_len : nat
}.

(** consumers[id] = { id, port, shm, lock, buffer } *)
Record Consumer : Type := mkConsumer {
  c_id : Z;
  shm : nat;        (* the SharedArrayBuffer *)
  lock : View;      (* Int32Array(shm, maxPageSize) *)
  buffer : View     (* Uint8Array(shm, 0, maxPageSize) *)
}.

(** The state of a promise.  A fetch promise stays pending until the network
    answers; [resp.then(() => v)] settles with its parent. *)
Inductive PState : Type :=
| PendingHead (url : string)
| PendingRange (url : string) (first last : Z)
| Fulfilled (v : Val)
| Rejected (e : Err)
| ThenConst (parent : nat) (v : Val).

(** What the worker does that can be observed from outside its state. *)
Inductive Event : Type :=
| EvFetchHead (url : string) (p : nat)
| EvFetchRange (url : string) (first last : Z) (p : nat)  (* Range: bytes=first-last *)
| EvAtomicsStore (consumer : Z) (value : Z)
| EvAtomicsNotify (consumer : Z)
| EvPostMessage (msg : string)
| EvSetPageSize (id : Z) (value : Z)    (* entry.pageSize = value *)
| EvDebug (sys : string) (msg : string)
| EvWarn (msg : string)
| EvError (e : Err).

(** The module-level state of the worker: [options], [consumers], [files],
    [cache], [nextId]; the heap of file entries, promises and array buffers;
    and the trace of events, oldest first. *)
Record World : Type := mkWorld {
  options : option Options;
  consumers : gmap Z Consumer;
  files : LRU.LRUCache string Val;
  cache : option (LRU.LRUCache string Val);
  nextId : Z;
  heap : gmap Z FileEntry;
  promises : gmap nat PState;
  nextPromise : nat;
  buffers : gmap nat (list byte);
  nextBuffer : nat;
  swapNeeded : bool;   (* the platform is little-endian *)
  trace : list Event
}.

Definition with_options o (w : World) : World :=
  mkWorld o (consumers w) (files w) (cache w) (nextId w) (heap w) (promises w)
    (nextPromise w) (buffers w) (nextBuffer w) (swapNeeded w) (trace w).
Definition with_consumers c (w : World) : World :=
  mkWorld (options w) c (files w) (cache w) (nextId w) (heap w) (promises w)
    (nextPromise w) (buffers w) (nextBuffer w) (swapNeeded w) (trace w).
Definition with_files f (w : World) : World :=
  mkWorld (options w) (consumers w) f (cache w) (nextId w) (heap w) (promises w)
    (nextPromise w) (buffers w) (nextBuffer w) (swapNeeded w) (trace w).
Definition with_cache c (w : World) : World :=
  mkWorld (options w) (consumers w) (files w) c (nextId w) (heap w) (promises w)
    (nextPromise w) (buffers w) (nextBuffer w) (swapNeeded w) (trace w).
Definition with_nextId n (w : World) : World :=
  mkWorld (options w) (consumers w) (files w) (cache w) n (heap w) (promises w)
    (nextPromise w) (buffers w) (nextBuffer w) (swapNeeded w) (trace w).
Definition with_heap h (w : World) : World :=
  mkWorld (options w) (consumers w) (files w) (cache w) (nextId w) h (promises w)
    (nextPromise w) (buffers w) (nextBuffer w) (swapNeeded w) (trace w).
Definition with_promises p (w : World) : World :=
  mkWorld (options w) (consumers w) (files w) (cache w) (nextId w) (heap w) p
    (nextPromise w) (buffers w) (nextBuffer w) (swapNeeded w) (trace w).
Definition with_nextPromise n (w : World) : World :=
  mkWorld (options w) (consumers w) (files w) (cache w) (nextId w) (heap w) (promises w)
    n (buffers w) (nextBuffer w) (swapNeeded w) (trace w).
Definition with_buffers b (w : World) : World :=
  mkWorld (options w) (consumers w) (files w) (cache w) (nextId w) (heap w) (promises w)
    (nextPromise w) b (nextBuffer w) (swapNeeded w) (trace w).
Definition with_nextBuffer n (w : World) : World :=
  mkWorld (options w) (consumers w) (files w) (cache w) (nextId w) (heap w) (promises w)
    (nextPromise w) (buffers w) n (swapNeeded w) (trace w).
Definition with_trace t (w : World) : World :=
  mkWorld (options w) (consumers w) (files w) (cache w) (nextId w) (heap w) (promises w)
    (nextPromise w) (buffers w) (nextBuffer w) (swapNeeded w) t.

Definition emit (ev : Event) (w : World) : World :=
  with_trace (trace w ++ [ev]) w.

(** sizeCalculation: (value) => value.byteLength ?? 4 *)
Definition sizeCalculation (value : Val) : Z :=
  match value with
  | VBytes b => Z.of_nat (length b)
  | _ => 4
  end.

(** options?.maxPageSize ?? defaultOptions.maxPageSize *)
Definition maxPageSizeOf (o : option Options) : Z :=
  default 4096 (o ≫= maxPageSize).

(** (options?.cacheSize ?? defaultOptions.cacheSize) * 1024 *)
Definition maxSizeOf (o : option Options) : Z :=
  default 1024 (o ≫= cacheSize) * 1024.

(** The worker as the module is loaded: [files = new LRUCache({ max: 32 })],
    [cache] undefined, [nextId = 1], nothing allocated. *)
Definition initialWorld (littleEndian : bool) : res World :=
  let? f := LRU.new 32 0 None in
  Ok {| options := None; consumers := ∅; files := f; cache := None; nextId := 1;
        heap := ∅; promises := ∅; nextPromise := 0; buffers := ∅; nextBuffer := 0;
        swapNeeded := littleEndian; trace := [] |}.

(** The outcome of a settled promise, None while it is pending. *)
Definition settled (w : World) (p : nat) : option (res Val) :=
  match promises w !! p with
  | Some (Fulfilled v) => Some (Ok v)
  | Some (Rejected e) => Some (Exn e)
  | Some (ThenConst parent v) =>
      match promises w !! parent with
      | Some (Fulfilled _) => Some (Ok v)
      | Some (Rejected e) => Some (Exn e)
      | _ => None
      end
  | _ => None
  end.

(** ** Bytes and typed arrays *)

Definition byteOfZ (z : Z) : byte :=
  default x00 (Byte.of_N (Z.to_N (z mod 256))).

Definition byteToZ (b : byte) : Z := Z.of_N (Byte.to_N b).

(** The [len] bytes of an integer, least significant first. *)
Fixpoint bytesLE (len : nat) (z : Z) : list byte :=
  match len with
  | O => []
  | S len => byteOfZ z :: bytesLE len (z / 256)
  end.

(** The bytes of an element of a typed array, in platform order. *)
Definition elementBytes (littleEndian : bool) (len : nat) (z : Z) : list byte :=
  if littleEndian then bytesLE len z else reverse (bytesLE len z).

Fixpoint unsignedLE (bs : list byte) : Z :=
  match bs with
  | [] => 0
  | b :: bs => byteToZ b + 256 * unsignedLE bs
  end.

(** An element of an unsigned typed array read in platform order. *)
Definition elementValue (littleEndian : bool) (bs : list byte) : Z :=
  if littleEndian then unsignedLE bs else unsignedLE (reverse bs).

(** ntoh16 on one element:
    ((data[i] & 0xFF00) >> 8) | ((data[i] & 0x00FF) << 8) when swapNeeded *)
Definition ntoh16 (swap : bool) (x : Z) : Z :=
  if swap
  then Z.lor (Z.shiftr (Z.land x 0xFF00) 8) (Z.shiftl (Z.land x 0x00FF) 8)
  else x.

(** data.subarray(begin, end): a negative index counts from the end, and both
    are clamped to the array. *)
Definition subarray (data : list byte) (begin end_ : Z) : list byte :=
  let len := Z.of_nat (length data) in
  let clamp i := if i <? 0 then Z.max (len + i) 0 else Z.min i len in
  let b := clamp begin in
  let e := clamp end_ in
  take (Z.to_nat (e - b)) (drop (Z.to_nat b) data).

(** Overwrite the bytes of [l] from position [off] with [src]. *)
Definition overwrite (off : nat) (src l : list byte) : list byte :=
  take off l ++ src ++ drop (off + length src) l.

(** ** Coroutines

    An asynchronous function is a tree: it acts on the world, suspends on a
    promise until the scheduler resumes it with the promise's outcome, or
    finishes by returning or throwing. *)
Inductive Co (R : Type) : Type :=
| Ret (r : R)
| Throw (e : Err)
| Hang                                     (* a loop that never ends *)
| Act {X : Type} (a : World → X * World) (k : X → Co R)
| Await (p : nat) (k : res Val → Co R)    (* yield p *)
| Pause (k : Co R).                        (* resumed by a later microtask *)
Arguments Ret {R} r.
Arguments Throw {R} e.
Arguments Hang {R}.
Arguments Act {R X} a k.
Arguments Await {R} p k.
Arguments Pause {R} k.

Fixpoint bind {A B} (c : Co A) (f : A → Co B) : Co B :=
  match c with
  | Ret r => f r
  | Throw e => Throw e
  | Hang => Hang
  | Act a k => Act a (λ x, bind (k x) f)
  | Await p k => Await p (λ s, bind (k s) f)
  | Pause k => Pause (bind k f)
  end.

Section Programs.

Notation "x <- m ;; k" := (bind m (fun x => k))
  (at level 100, m at next level, right associativity).
Notation "m ;; k" := (bind m (fun _ => k))
  (at level 100, right associativity).

(** try { c } catch (e) { h e } *)
Fixpoint tryCatch {A} (c : Co A) (h : Err → Co A) : Co A :=
  match c with
  | Ret r => Ret r
  | Throw e => h e
  | Hang => Hang
  | Act a k => Act a (λ x, tryCatch (k x) h)
  | Await p k => Await p (λ s, tryCatch (k s) h)
  | Pause k => Pause (tryCatch k h)
  end.

(** [yield f(...)] for an async function [f]: the callee runs up to its first
    suspension at once; the caller is resumed, in a later microtask, with the
    callee's return value or with its exception. *)
Fixpoint call {A} (c : Co A) : Co A :=
  match c with
  | Ret r => Pause (Ret r)
  | Throw e => Pause (Throw e)
  | Hang => Hang
  | Act a k => Act a (λ x, call (k x))
  | Await p k => Await p (λ s, call (k s))
  | Pause k => Pause (call k)
  end.

(** An action that cannot throw, and one that can. *)
Definition act {X} (a : World → X * World) : Co X := Act a Ret.

Definition actRes {X} (a : World → res X * World) : Co X :=
  Act a (λ r, match r with Ok x => Ret x | Exn e => Throw e end).

(** [yield p] for a promise [p]; any other value is a TypeError of the model
    (the source only yields values it has tested with instanceof Promise). *)
Definition yield (v : Val) : Co Val :=
  match v with
  | VPromise p => Await p (λ s, match s with Ok v => Ret v | Exn e => Throw e end)
  | _ => Throw (TypeError "yield of a value that is not a promise")
  end.

(** if (x instanceof Promise) x = yield x *)
Definition awaitIfPromise (v : Val) : Co Val :=
  if isPromise v then yield v else Ret v.

(** ** Primitive actions *)

(** files.get(url) *)
Definition filesGet (url : string) (w : World) : res Val * World :=
  match LRU.get url (files w) with
  | Ok (v, f) => (Ok (default VUndefined v), with_files f w)
  | Exn e => (Exn e, w)
  end.

(** files.set(url, v) *)
Definition filesSet (url : string) (v : Val) (w : World) : res unit * World :=
  match LRU.set url v (files w) with
  | Ok f => (Ok tt, with_files f w)
  | Exn e => (Exn e, w)
  end.

Definition noCache : Err := TypeError "cache is undefined".

(** cache.get(key) *)
Definition cacheGet (key : string) (w : World) : res Val * World :=
  match cache w with
  | Some c =>
      match LRU.get key c with
      | Ok (v, c) => (Ok (default VUndefined v), with_cache (Some c) w)
      | Exn e => (Exn e, w)
      end
  | None => (Exn noCache, w)
  end.

(** cache.set(key, v) *)
Definition cacheSet (key : string) (v : Val) (w : World) : res unit * World :=
  match cache w with
  | Some c =>
      match LRU.set key v c with
      | Ok c => (Ok tt, with_cache (Some c) w)
      | Exn e => (Exn e, w)
      end
  | None => (Exn noCache, w)
  end.

(** cache.delete(key) *)
Definition cacheDelete (key : string) (w : World) : res unit * World :=
  match cache w with
  | Some c =>
      match LRU.delete key c with
      | Ok (_, c) => (Ok tt, with_cache (Some c) w)
      | Exn e => (Exn e, w)
      end
  | None => (Exn noCache, w)
  end.

Definition notAnEntry : Err := TypeError "not a file entry".

(** The entry object behind a value. *)
Definition entryOf (entry : Val) (w : World) : res FileEntry * World :=
  match entry with
  | VEntry id =>
      match heap w !! id with
      | Some e => (Ok e, w)
      | None => (Exn notAnEntry, w)
      end
  | _ => (Exn notAnEntry, w)
  end.

(** entry.pageSize = value *)
Definition setPageSize (entry : Val) (value : Z) (w : World) : res unit * World :=
  match entryOf entry w with
  | (Ok e, _) =>
      (Ok tt,
       emit (EvSetPageSize (e_id e) value)
         (with_heap (<[e_id e := mkEntry (e_url e) (e_id e) (e_size e) (Some value)]> (heap w)) w))
  | (Exn err, _) => (Exn err, w)
  end.

(** fetch(url, { method: 'HEAD' }).then(head => ...): the promise of the entry. *)
Definition fetchHead (url : string) (w : World) : Val * World :=
  let p := nextPromise w in
  (VPromise p,
   emit (EvFetchHead url p)
     (with_nextPromise (S p) (with_promises (<[p := PendingHead url]> (promises w)) w))).

(** fetch(url, { method: 'GET', headers: { Range: `bytes=${first}-${last}` } })
      .then(r => r.arrayBuffer()).then(r => new Uint8Array(r)) *)
Definition fetchRange (url : string) (first last : Z) (w : World) : Val * World :=
  let p := nextPromise w in
  (VPromise p,
   emit (EvFetchRange url first last p)
     (with_nextPromise (S p)
        (with_promises (<[p := PendingRange url first last]> (promises w)) w))).

(** resp.then(() => v) *)
Definition thenConst (resp : Val) (v : Val) (w : World) : res Val * World :=
  match resp with
  | VPromise parent =>
      let p := nextPromise w in
      (Ok (VPromise p),
       with_nextPromise (S p) (with_promises (<[p := ThenConst parent v]> (promises w)) w))
  | _ => (Exn (TypeError "then of a value that is not a promise"), w)
  end.

(** new ArrayBuffer(len) *)
Definition newArrayBuffer (len : nat) (w : World) : nat * World :=
  let b := nextBuffer w in
  (b, with_nextBuffer (S b) (with_buffers (<[b := replicate len x00]> (buffers w)) w)).

(** view.set(src): RangeError when the source is longer than the view. *)
Definition viewSet (view : View) (src : list byte) (w : World) : res unit * World :=
  if decide (length src ≤ v_len view)%nat then
    match buffers w !! v_buf view with
    | Some bytes =>
        (Ok tt, with_buffers (<[v_buf view := overwrite (v_off view) src bytes]> (buffers w)) w)
    | None => (Ok tt, w)   (* no view is without its buffer *)
    end
  else (Exn (RangeError "offset is out of bounds"), w).

(** The bytes under a view. *)
Definition viewBytes (view : View) (w : World) : list byte :=
  take (v_len view) (drop (v_off view) (default [] (buffers w !! v_buf view))).

Definition viewRead (view : View) (w : World) : list byte * World :=
  (viewBytes view w, w).

(** view[0] = value for a view of elements of [len] bytes. *)
Definition viewStoreElement (view : View) (len : nat) (value : Z) (w : World)
  : res unit * World :=
  if decide (len ≤ v_len view)%nat
  then viewSet (mkView (v_buf view) (v_off view) len) (elementBytes (swapNeeded w) len value) w
  else (Ok tt, w).   (* an index past the end of a typed array is ignored *)

(** An action that only adds an event to the trace. *)
Definition log (ev : Event) (w : World) : unit * World := (tt, emit ev w).

Definition debug (sys msg : string) : Co unit := act (log (EvDebug sys msg)).

Definition warn (msg : string) : Co unit := act (log (EvWarn msg)).

Definition consoleError (e : Err) : Co unit := act (log (EvError e)).

(** Atomics.store(consumer.lock, 0, value) *)
Definition storeLock (consumer : Consumer) (value : Z) (w : World) : res unit * World :=
  viewStoreElement (lock consumer) 4 value (emit (EvAtomicsStore (c_id consumer) value) w).

Definition atomicsStore (consumer : Consumer) (value : Z) : Co unit :=
  actRes (storeLock consumer value).

(** Atomics.notify(consumer.lock, 0) *)
Definition atomicsNotify (consumer : Consumer) : Co unit :=
  act (log (EvAtomicsNotify (c_id consumer))).

(** The platform's byte order, and the page size limit in force. *)
Definition getSwapNeeded (w : World) : bool * World := (swapNeeded w, w).

Definition getMaxPageSize (w : World) : Z * World := (maxPageSizeOf (options w), w).

(** entry.id + '|' + page, for a BigInt [page] *)
Definition cacheId (id page : Z) : string :=
  pretty id +:+ "|" +:+ pretty page.

(** entry.id + '|' + i, for a Number [i] *)
Definition cacheIdOf (id : Z) (i : Num) : string :=
  pretty id +:+ "|" +:+ numberToString i.

(** ** Messages *)

Inductive MsgName : Type :=
| MXOpen | MXAccess | MXRead | MXFilesize
| MOther (name : string).

(** A work message { msg, url, offset, n }; [offset] is a BigInt, [n] a Number. *)
Record WorkMsg : Type := mkMsg {
  msg : MsgName;
  url : string;
  offset : option Z;
  n : option Z
}.

(** The response to a HEAD request, as far as the worker reads it. *)
Inductive ContentLength : Type :=
| CLAbsent               (* headers.get('Content-Length') is null *)
| CLInteger (z : Z)
| CLMalformed.           (* BigInt() throws a SyntaxError on it *)

Record HeadResponse : Type := mkHead {
  status : Z;
  acceptRanges : bool;     (* headers.get('Accept-Ranges') === 'bytes' *)
  contentLength : ContentLength
}.

(** ** backendAsyncMethods *)

(** xOpen(msg) *)
Definition xOpen (m : WorkMsg) : Co Z :=
  entry <- actRes (filesGet (url m)) ;;
  entry <- awaitIfPromise entry ;;
  if decide (entry ≠ VUndefined) then Ret 0
  else
    (* Set a promise for the next opener of the same file to await upon *)
    entry <- act (fetchHead (url m)) ;;
    actRes (filesSet (url m) entry) ;;
    (* Replace it with the actual entry once resolved *)
    resolved <- yield entry ;;
    actRes (filesSet (url m) resolved) ;;
    Ret 0.

(** xAccess(msg, consumer) *)
Definition xAccess (m : WorkMsg) (consumer : Consumer) : Co Z :=
  let result := mkView (shm consumer) 0 4 in   (* new Uint32Array(consumer.shm, 0, 1) *)
  tryCatch
    (r <- call (xOpen m) ;;
     if decide (r = 0)
     then actRes (viewStoreElement result 4 1)
     else actRes (viewStoreElement result 4 0))
    (λ _, actRes (viewStoreElement result 4 0)) ;;
  Ret 0.

(** if (!entry.pageSize) *)
Definition pageSizeUnknown (e : FileEntry) : bool :=
  match pageSize e with
  | Some ps => ps =? 0
  | None => true
  end.

(** xRead, lines 1373-1386: the page size read by the discovery is stored.
    [Some r] is the early [return r]. *)
Definition storePageSize (entry : Val) (id : Z) (pageDataBuffer : nat) (r : Z)
  : Co (option Z) :=
  if decide (r ≠ 0) then Ret (Some r)
  else
    bytes <- act (viewRead (mkView pageDataBuffer 0 2)) ;;   (* new Uint16Array(pageDataBuffer) *)
    swap <- act getSwapNeeded ;;
    let pageData := ntoh16 swap (elementValue swap bytes) in
    actRes (setPageSize entry pageData) ;;
    debug "vfs" "page size is ..." ;;
    (if decide (pageData ≠ 1024) then
       (* If the page size is not 1024 we can't keep this "page" in the cache *)
       warn "Page size is not the recommended 1024" ;;
       actRes (cacheDelete (cacheId id 0))
     else Ret tt) ;;
    maxPS <- act getMaxPageSize ;;
    if pageData >? maxPS then Throw (ErrPageSizeOver pageData maxPS)
    else Ret None.

(** xRead, lines 1367-1387: determine the page size if we don't know it.
    It is in two big-endian bytes at offset 16 in what is always the first
    page. *)
Definition discoverPageSize (xRead : WorkMsg → View → Co Z) (m : WorkMsg) (entry : Val)
  : Co (option Z) :=
  e <- actRes (entryOf entry) ;;
  if pageSizeUnknown e then
    actRes (setPageSize entry 1024) ;;
    pageDataBuffer <- act (newArrayBuffer 2) ;;
    r <- call (xRead {| msg := MXRead; url := url m; offset := Some 16; n := Some 2 |}
                 (mkView pageDataBuffer 0 2)) ;;
    storePageSize entry (e_id e) pageDataBuffer r
  else Ret None.

(** for (let i = first; i < bound; i++): the values that [i] takes.  [None]
    when the loop never ends: [bound] is Infinity, or [i++] leaves [i] where it
    is (from 2^53 on, the next double is more than 1 away) while [i < bound]
    still holds. *)
Fixpoint countUp (fuel : nat) (i : Num) (bound : Dbl) : option (list Num) :=
  if numLt i bound then
    match fuel with
    | S fuel =>
        let next := numAdd i 1 in
        if decide (next = i) then None
        else rest ← countUp fuel next bound; Some (i :: rest)
    | O => None
    end
  else Some [].

(** More steps than a loop that ends can take: each adds at least 1 to [i]. *)
Definition stepsTo (first : Num) (bound : Dbl) : nat :=
  match first, bound with
  | NFin z, DFin n d => Z.to_nat (n / d - z + 2)
  | _, _ => 0
  end.

(** The pages after [page] that a chunk of [chunkSize] bytes covers: the [i] of
    [for (let i = Number(page) + 1; i < Number(page) + pages; i++)] with
    [pages = chunkSize / entry.pageSize], all Numbers.  [None] when the loop
    never ends: [pages] is Infinity (a positive chunk over a page size of 0),
    or the page is past 2^53. *)
Definition coveredPages (page : Num) (chunkSize pageSize : Z) : option (list Num) :=
  let pages := numDiv chunkSize pageSize in
  let first := numAdd page 1 in
  let bound := dblAdd page pages in
  countUp (stepsTo first bound) first bound.

Fixpoint forEach {A} (l : list A) (body : A → Co unit) : Co unit :=
  match l with
  | [] => Ret tt
  | x :: l => body x ;; forEach l body
  end.

(** xRead, lines 1421-1437: the size of the chunk to download.  If the previous
    page is in the cache, we double the page size. *)
Definition chunkSizeFor (entry : Val) (id page : Z) : Co Z :=
  e <- actRes (entryOf entry) ;;
  let chunkSize := default 0 (pageSize e) in
  prev <- (if page >? 0
           then actRes (cacheGet (cacheIdOf id (numAdd (toNumber page) (-1))))
           else Ret VFalse) ;;
  if truthy prev then
    prev <- awaitIfPromise prev ;;
    prev <- (match prev with
             | VNum r => actRes (cacheGet (cacheIdOf id r))
             | _ => Ret prev
             end) ;;
    prev <- awaitIfPromise prev ;;
    match prev with
    | VBytes b =>
        (* Valid superpage *)
        debug "cache" "downloading super page" ;;
        Ret (Z.of_nat (length b) * 2)
    | _ => Ret chunkSize
    end
  else Ret chunkSize.

(** xRead, lines 1438-1462: download a new segment of [chunkSize] bytes from
    [pageStart] and enter it in the cache. *)
Definition download (m : WorkMsg) (entry : Val) (id page pageStart chunkSize : Z)
  : Co Val :=
  e <- actRes (entryOf entry) ;;
  let pages := coveredPages (toNumber page) chunkSize (default 0 (pageSize e)) in
  debug "http" "downloading page" ;;
  resp <- act (fetchRange (url m) pageStart (pageStart + (chunkSize - 1))) ;;
  (* We synchronously set a Promise in the cache in case another thread
     tries to read the same segment *)
  actRes (cacheSet (cacheId id page) resp) ;;
  match pages with
  | Some pages =>
      (* These point to the parent super-page and resolve at the same time as resp *)
      forEach pages (λ i,
        ref <- actRes (thenConst resp (VNum (toNumber page))) ;;
        actRes (cacheSet (cacheIdOf id i) ref)) ;;
      data <- yield resp ;;
      match data with
      | VBytes b =>
          if decide (length b = 0%nat) then Throw ErrInvalidResponse
          else
            (* In case of a multiple-page segment, this is the parent super-page *)
            actRes (cacheSet (cacheId id page) data) ;;
            (* These point to the parent super-page *)
            forEach pages (λ i,
              actRes (cacheSet (cacheIdOf id i) (VNum (toNumber page)))) ;;
            Ret data
      | _ => Throw ErrInvalidResponse
      end
  | None => Hang
  end.

(** xRead, lines 1401-1418: the page is present as a segment of a super-page. *)
Definition dereference (id pageSize pageStart : Z) (data : Val) : Co (Val * Z) :=
  match data with
  | VNum root =>
      debug "cache" "cache hit (multi-page segment)" ;;
      match root with
      | NFin r =>
          let newPageStart := r * pageSize in
          data <- actRes (cacheGet (cacheIdOf id root)) ;;
          data <- awaitIfPromise data ;;
          match data with
          | VBytes _ => Ret (data, newPageStart)
          | _ =>
              (* Not all subpages are valid: the superpage was too big to fit
                 in the cache, or it was evicted before the subsegments *)
              Ret (VUndefined, pageStart)
          end
      | _ =>
          (* BigInt(data) *)
          Throw (RangeError "The number Infinity cannot be converted to a BigInt")
      end
  | _ => Ret (data, pageStart)
  end.

(** xRead, lines 1396-1418: what the cache holds for the page, and where the
    bytes it holds start. *)
Definition lookup (id pageSize page pageStart : Z) : Co (Val * Z) :=
  data <- actRes (cacheGet (cacheId id page)) ;;
  (* This means that another thread has requested this segment *)
  data <- awaitIfPromise data ;;
  dereference id pageSize pageStart data.

(** xRead, lines 1419-1463: the cache miss. *)
Definition fetchMiss (m : WorkMsg) (entry : Val) (id page pageStart : Z) : Co Val :=
  debug "cache" "cache miss" ;;
  chunkSize <- chunkSizeFor entry id page ;;
  download m entry id page pageStart chunkSize.

(** xRead, lines 1467-1469: the requested bytes are copied to the consumer. *)
Definition copyOut (buffer : View) (data : Val) (offset pageStart n : Z) : Co Z :=
  let pageOffset := offset - pageStart in
  match data with
  | VBytes b =>
      actRes (viewSet buffer (subarray b pageOffset (pageOffset + n))) ;;
      Ret 0
  | _ => Throw (TypeError "data.subarray is not a function")
  end.

(** xRead, lines 1396-1469: the page is served from the cache or downloaded. *)
Definition serve (m : WorkMsg) (buffer : View) (entry : Val)
    (id pageSize page pageStart offset n : Z) : Co Z :=
  found <- lookup id pageSize page pageStart ;;
  let '(data, pageStart) := found in
  data <- (match data with
           | VUndefined => fetchMiss m entry id page pageStart
           | _ => debug "cache" "cache hit" ;; Ret data
           end) ;;
  copyOut buffer data offset pageStart n.

(** xRead, lines 1388-1469: the read once the page size is known. *)
Definition readPage (m : WorkMsg) (buffer : View) (entry : Val) (offset n : Z)
  : Co Z :=
  e <- actRes (entryOf entry) ;;
  match pageSize e with
  | Some pageSize =>
      let len := n in
      if pageSize =? 0 then Throw (RangeError "Division by zero")
      else
        let page := offset `quot` pageSize in
        (if decide (page * pageSize ≠ offset)
         then debug "vfs" "Read chunk is not page-aligned" else Ret tt) ;;
        let pageStart := page * pageSize in
        if pageStart + pageSize <? offset + len
        then Throw (ErrSpansPageBoundary offset n)
        else serve m buffer entry (e_id e) pageSize page pageStart offset n
  | None => Throw (TypeError "Cannot convert null to a BigInt")
  end.

(** xRead(msg, consumer), with the recursive call left open. *)
Definition xReadBody (xRead : WorkMsg → View → Co Z) (m : WorkMsg) (buffer : View)
  : Co Z :=
  entry <- actRes (filesGet (url m)) ;;
  if negb (truthy entry) then Throw (ErrNotOpen (url m))
  else
    entry <- awaitIfPromise entry ;;
    match n m, offset m with
    | Some n, Some offset =>
        early <- discoverPageSize xRead m entry ;;
        match early with
        | Some r => Ret r
        | None => readPage m buffer entry offset n
        end
    | _, _ => Throw ErrMissingArgs
    end.

(** xRead with at most [depth] nested calls of itself (one is made by each
    page-size discovery). *)
Fixpoint xReadN (depth : nat) (m : WorkMsg) (buffer : View) : Co Z :=
  match depth with
  | O => Throw (RangeError "Maximum call stack size exceeded")
  | S depth => xReadBody (xReadN depth) m buffer
  end.

Definition maxNesting : nat := 16.

Definition xRead (m : WorkMsg) (consumer : Consumer) : Co Z :=
  xReadN maxNesting m (buffer consumer).

(** xFilesize(msg, consumer).  The error of a file that is not open names
    [msg.fid], a field that no message has: `File undefined not open`. *)
Definition xFilesize (m : WorkMsg) (consumer : Consumer) : Co Z :=
  entry <- actRes (filesGet (url m)) ;;
  if negb (truthy entry) then Throw (ErrNotOpen "undefined")
  else
    entry <- awaitIfPromise entry ;;
    e <- actRes (entryOf entry) ;;
    (* new BigInt64Array(consumer.shm, 0, 1) *)
    actRes (viewStoreElement (mkView (shm consumer) 0 8) 8 (e_size e)) ;;
    Ret 0.

(** What [backendAsyncMethods[name]] is: one of the four asynchronous methods,
    or a function that the object inherits from Object.prototype. *)
Inductive Member : Type :=
| Method (method : Co Z)
| Inherited (result : res Z).

(** The functions of Object.prototype, called as [f(data, this)] on
    backendAsyncMethods.  Those that return give a string, an object, false or
    undefined, which [Atomics.store] reads as 0; [__defineGetter__] and
    [__defineSetter__] throw, the consumer not being a function.  [__proto__]
    is an object and any other name is undefined: neither can be called. *)
Definition inherited (name : string) : option Member :=
  if decide (name ∈ ["constructor"; "hasOwnProperty"; "isPrototypeOf";
                     "propertyIsEnumerable"; "toLocaleString"; "toString";
                     "valueOf"; "__lookupGetter__"; "__lookupSetter__"])
  then Some (Inherited (Ok 0))
  else if decide (name ∈ ["__defineGetter__"; "__defineSetter__"])
  then Some (Inherited (Exn (TypeError "Getter or setter must be a function")))
  else None.

(** backendAsyncMethods[data.msg], applied to (data, this) *)
Definition backendAsyncMethods (data : WorkMsg) (this : Consumer) : option Member :=
  match msg data with
  | MXOpen => Some (Method (xOpen data))
  | MXAccess => Some (Method (xAccess data this))
  | MXRead => Some (Method (xRead data this))
  | MXFilesize => Some (Method (xFilesize data this))
  | MOther name => inherited name
  end.

(** [yield member(data, this)]: a method returns a promise; a value that is
    no promise resumes the caller in a later microtask; an exception of the
    call itself is thrown at once. *)
Definition invoke (member : Member) : Co Z :=
  match member with
  | Method method => call method
  | Inherited (Ok r) => Pause (Ret r)
  | Inherited (Exn e) => Throw e
  end.

(** The dispatcher's handler around an arbitrary member. *)
Definition workMessageWith (handler : option Member) (this : Consumer) : Co unit :=
  debug "threads" "Received new work message" ;;
  tryCatch
    (r <- match handler with
          | Some member => invoke member
          | None => Throw (TypeError "backendAsyncMethods[data.msg] is not a function")
          end ;;
     debug "threads" "operation successful" ;;
     atomicsStore this r)
    (λ e, consoleError e ;; atomicsStore this 1) ;;
  atomicsNotify this.

(** workMessage({ data }), bound to the consumer [this] *)
Definition workMessage (this : Consumer) (data : WorkMsg) : Co unit :=
  workMessageWith (backendAsyncMethods data this) this.

End Programs.

(** ** The event loop *)

(** A coroutine between two runs. *)
Inductive Task (R : Type) : Type :=
| Waiting (p : nat) (k : res Val → Co R)   (* suspended on promise p *)
| Paused (k : Co R)                         (* ready for its next microtask *)
| Finished (r : res R)
| Hung.
Arguments Waiting {R} p k.
Arguments Paused {R} k.
Arguments Finished {R} r.
Arguments Hung {R}.

(** Run a coroutine up to its next suspension. *)
Fixpoint runSync {R} (c : Co R) (w : World) : Task R * World :=
  match c with
  | Ret r => (Finished (Ok r), w)
  | Throw e => (Finished (Exn e), w)
  | Hang => (Hung, w)
  | Act a k => let '(x, w) := a w in runSync (k x) w
  | Await p k => (Waiting p k, w)
  | Pause k => (Paused k, w)
  end.

(** SYNC.HANDSHAKE *)
Definition HANDSHAKE : Z := 16777214.

Inductive ControlMsg : Type :=
| Handshake (id : Z)
| Init (o : option Options)
| Close
| Invalid.

(** globalThis.onmessage = ({ data }) => { switch (data.msg) ... } *)
Definition onmessage (data : ControlMsg) (w : World) : res unit * World :=
  let w := emit (EvDebug "threads" "Received new control message") w in
  match data with
  | Handshake id =>
      let maxPS := maxPageSizeOf (options w) in
      if (maxPS <? 0) || negb (maxPS mod 4 =? 0)
      then (Exn (RangeError "invalid length or offset"), w)
      else
        let '(shm, w) := newArrayBuffer (Z.to_nat maxPS + 4) w in
        let lock := mkView shm (Z.to_nat maxPS) 4 in
        let buffer := mkView shm 0 (Z.to_nat maxPS) in
        let w := emit (EvAtomicsStore id HANDSHAKE) w in
        match viewStoreElement lock 4 HANDSHAKE w with
        | (Ok _, w) =>
            let w := with_consumers (<[id := mkConsumer id shm lock buffer]> (consumers w)) w in
            (Ok tt, emit (EvPostMessage "ack") w)
        | (Exn e, w) => (Exn e, w)
        end
  | Init o =>
      let w := with_options o w in
      match LRU.new 0 (maxSizeOf o) (Some sizeCalculation) with
      | Ok c => (Ok tt, with_cache (Some c) w)
      | Exn e => (Exn e, w)
      end
  | Close => (Ok tt, emit (EvPostMessage "ack") w)
  | Invalid => (Exn (TypeError "Invalid message received by backend"), w)
  end.

(** What the event loop receives. *)
Inductive Input : Type :=
| Control (data : ControlMsg)                    (* a message to the worker *)
| Work (consumer : Z) (data : WorkMsg)           (* a message on a consumer's port *)
| Resume (task : nat)                            (* the microtask that resumes a coroutine *)
| RespondHead (p : nat) (head : HeadResponse)    (* the network answers a HEAD request *)
| RespondRange (p : nat) (body : list byte)      (* the network answers a range request *)
| FailFetch (p : nat) (reason : string).         (* a fetch() promise rejects *)

(** The dispatcher between two events: its world and its coroutines, one per
    work message received, in order of arrival. *)
Record Sys : Type := mkSys {
  world : World;
  tasks : list (Task unit)
}.

(** The callback of xOpen's [.then]: the entry made from the HEAD response. *)
Definition headCallback (url : string) (head : HeadResponse) (w : World) : res Val * World :=
  let w := if acceptRanges head then w
           else emit (EvWarn "Server does not advertise 'Accept-Ranges'") w in
  let id := nextId w in
  let w := with_nextId (id + 1) w in
  match contentLength head with
  | CLMalformed => (Exn (TypeError "Cannot convert to a BigInt"), w)
  | cl =>
      let size := match cl with CLInteger z => z | _ => 0 end in
      (Ok (VEntry id), with_heap (<[id := mkEntry url id size None]> (heap w)) w)
  end.

Definition settle (p : nat) (r : res Val) (w : World) : World :=
  with_promises (<[p := match r with Ok v => Fulfilled v | Exn e => Rejected e end]>
                   (promises w)) w.

(** One turn of the event loop; None when the input is not enabled. *)
Definition step (s : Sys) (i : Input) : option Sys :=
  let w := world s in
  match i with
  | Control data => Some (mkSys (onmessage data w).2 (tasks s))
  | Work id data =>
      this ← consumers w !! id;
      let '(t, w) := runSync (workMessage this data) w in
      Some (mkSys w (tasks s ++ [t]))
  | Resume i =>
      t ← tasks s !! i;
      match t with
      | Waiting p k =>
          r ← settled w p;
          let '(t, w) := runSync (k r) w in
          Some (mkSys w (<[i := t]> (tasks s)))
      | Paused k =>
          let '(t, w) := runSync k w in
          Some (mkSys w (<[i := t]> (tasks s)))
      | _ => None
      end
  | RespondHead p head =>
      match promises w !! p with
      | Some (PendingHead url) =>
          let '(r, w) := headCallback url head w in
          Some (mkSys (settle p r w) (tasks s))
      | _ => None
      end
  | RespondRange p body =>
      match promises w !! p with
      | Some (PendingRange _ _ _) => Some (mkSys (settle p (Ok (VBytes body)) w) (tasks s))
      | _ => None
      end
  | FailFetch p reason =>
      match promises w !! p with
      | Some (PendingHead _) | Some (PendingRange _ _ _) =>
          Some (mkSys (settle p (Exn (FetchFailed reason)) w) (tasks s))
      | _ => None
      end
  end.

Fixpoint run (s : Sys) (inputs : list Input) : option Sys :=
  match inputs with
  | [] => Some s
  | i :: inputs => s ← step s i; run s inputs
  end.

(** The dispatcher as the module is loaded. *)
Definition boot (littleEndian : bool) : res Sys :=
  let? w := initialWorld littleEndian in Ok (mkSys w []).

(** * Scenarios

    A file of [len] bytes whose bytes 16 and 17, the page size of the header of
    a database, are [hi] and [lo]; a server that answers range requests from
    it; three consumers and the messages they send. *)

(** The dispatcher after the events [inputs], from the loading of the module. *)
Definition after (littleEndian : bool) (inputs : list Input) : option Sys :=
  match boot littleEndian with
  | Ok s => run s inputs
  | Exn _ => None
  end.

(** The options of the init messages among the inputs. *)
Definition inits (inputs : list Input) : list (option Options) :=
  omap (λ i, match i with Control (Init o) => Some o | _ => None end) inputs.

Definition database (hi lo : byte) (len : Z) : list byte :=
  replicate 16 x01 ++ [hi; lo] ++ replicate (Z.to_nat len - 18) x02.

(** The body of the response to Range: bytes=first-last. *)
Definition rangeOf (file : list byte) (first last : Z) : list byte :=
  take (Z.to_nat (last - first + 1)) (drop (Z.to_nat first) file).

Definition openMsg : WorkMsg := mkMsg MXOpen "u" None None.

Definition readMsg (offset n : Z) : WorkMsg := mkMsg MXRead "u" (Some offset) (Some n).

(** A database of 8 pages of 1024 bytes. *)
Definition db1024 : list byte := database x04 x00 8192.

(** The worker is initialised with [cacheSize] KiB, three consumers shake
    hands, and consumer 7 opens the file: the server answers the HEAD
    request. *)
Definition opened (cacheSize : option Z) (status : Z) : list Input :=
  [Control (Init (Some (mkOptions None cacheSize)));
   Control (Handshake 7); Control (Handshake 8); Control (Handshake 9);
   Work 7 openMsg; RespondHead 0 (mkHead status true (CLInteger 8192));
   Resume 0; Resume 0].

(** Consumer 7 then reads the first page, which discovers the page size: the
    server answers the range request with the bytes of [file]. *)
Definition firstRead (file : list byte) : list Input :=
  [Work 7 (readMsg 0 1024); RespondRange 1 (rangeOf file 0 1023);
   Resume 1; Resume 1; Resume 1].

(** What a trace says of the network: the range requests, in order. *)
Definition fetches (w : World) : list (string * Z * Z * nat) :=
  omap (λ ev, match ev with
              | EvFetchRange url first last p => Some (url, first, last, p)
              | _ => None
              end) (trace w).

(** The HEAD requests. *)
Definition probes (w : World) : list (string * nat) :=
  omap (λ ev, match ev with
              | EvFetchHead url p => Some (url, p)
              | _ => None
              end) (trace w).

(** The statuses stored in the lock of a consumer, the handshake apart. *)
Definition statuses (consumer : Z) (w : World) : list Z :=
  omap (λ ev, match ev with
              | EvAtomicsStore id v =>
                  if decide (id = consumer ∧ v ≠ HANDSHAKE) then Some v else None
              | _ => None
              end) (trace w).

(** The values assigned to the page size of an entry. *)
Definition pageSizes (id : Z) (w : World) : list Z :=
  omap (λ ev, match ev with
              | EvSetPageSize id' v => if decide (id' = id) then Some v else None
              | _ => None
              end) (trace w).

(** The content of the page cache, least recently used first, with the length
    of a page in place of its bytes. *)
Definition cached (w : World) : list (string * Val) :=
  match cache w with
  | Some c =>
      (λ kv : string * Val,
         (kv.1, match kv.2 with VBytes b => VNum (NFin (Z.of_nat (length b))) | v => v end))
        <$> LRU.rentries c
  | None => []
  end.

(** The state of the tasks: the promise awaited, or how the task ended. *)
Inductive TaskState : Type :=
| TAwaits (p : nat) | TPaused | TDone | THung.

Definition taskStates (s : Sys) : list TaskState :=
  (λ t : Task unit,
     match t with
     | Waiting p _ => TAwaits p
     | Paused _ => TPaused
     | Finished _ => TDone
     | Hung => THung
     end) <$> tasks s.

(** The range requests that the network has not answered. *)
Definition outstanding (w : World) : list (nat * string * Z * Z) :=
  omap (λ p, match promises w !! p with
             | Some (PendingRange url first last) => Some (p, url, first, last)
             | _ => None
             end) (seq 0 (nextPromise w)).

(** The worker is initialised, consumer 7 shakes hands and opens the file, and
    the HEAD request fails. *)
Definition failedOpen : list Input :=
  [Control (Init None); Control (Handshake 7); Work 7 openMsg; FailFetch 0 "net";
   Resume 0; Resume 0].

(** Consumer 7 reads page 5, and the range request fails; consumer 7 reads
    page 5 again. *)
Definition failedRead : list Input :=
  opened None 200 ++ firstRead db1024 ++
  [Work 7 (readMsg 5120 1024); FailFetch 2 "net"; Resume 2; Resume 2].

Definition retriedRead : list Input :=
  failedRead ++ [Work 7 (readMsg 5120 1024); Resume 3; Resume 3].

(** Consumer 7 reads the pages 0, 1, 2 and 3 in order. *)
Definition sequential : list Input :=
  opened None 200 ++ firstRead db1024 ++
  [Work 7 (readMsg 1024 1024); RespondRange 2 (rangeOf db1024 1024 3071);
   Resume 2; Resume 2;
   Work 7 (readMsg 2048 1024); Resume 3;
   Work 7 (readMsg 3072 1024); RespondRange 4 (rangeOf db1024 3072 7167);
   Resume 4; Resume 4].

(** Consumer 7 reads the pages 0, 5 and 2. *)
Definition scattered : list Input :=
  opened None 200 ++ firstRead db1024 ++
  [Work 7 (readMsg 5120 1024); RespondRange 2 (rangeOf db1024 5120 6143);
   Resume 2; Resume 2;
   Work 7 (readMsg 2048 1024); RespondRange 3 (rangeOf db1024 2048 3071);
   Resume 3; Resume 3].

(** With a cache of 3 KiB, consumer 7 reads the pages 0 and 1, which downloads
    the pages 1 and 2 in one chunk, and then page 5, which evicts the chunk:
    the reference of page 2 to it stays. *)
Definition evicted : list Input :=
  opened (Some 3) 200 ++ firstRead db1024 ++
  [Work 7 (readMsg 1024 1024); RespondRange 2 (rangeOf db1024 1024 3071);
   Resume 2; Resume 2;
   Work 7 (readMsg 5120 1024); RespondRange 4 (rangeOf db1024 5120 6143);
   Resume 3; Resume 3].

(** Consumer 7 then reads page 2. *)
Definition rereadEvicted : list Input :=
  evicted ++ [Work 7 (readMsg 2048 1024); RespondRange 5 (rangeOf db1024 2048 3071);
              Resume 4; Resume 4].

(** While consumer 7 downloads page 5, the consumers 8 and 9 read page 6; then
    page 5 arrives and the three reads go on. *)
Definition concurrentReads : list Input :=
  opened None 200 ++ firstRead db1024 ++
  [Work 7 (readMsg 5120 1024); Work 8 (readMsg 6144 1024); Work 9 (readMsg 6144 1024);
   RespondRange 2 (rangeOf db1024 5120 6143); Resume 2; Resume 3; Resume 4].

(** A file whose bytes 16 and 17 are 0, read twice. *)
Definition db0 : list byte := database x00 x00 8192.

Definition zeroPageSize : list Input :=
  opened None 200 ++ firstRead db0 ++
  [Work 7 (readMsg 0 1024); RespondRange 2 (rangeOf db0 0 1023);
   Resume 2; Resume 2; Resume 2].

(** What a consumer finds in its buffer. *)
Definition received (consumer : Z) (len : nat) (w : World) : option (list byte) :=
  c ← consumers w !! consumer;
  Some (viewBytes (mkView (v_buf (buffer c)) (v_off (buffer c)) len) w).

(** The reads that were logged as not page-aligned. *)
Definition misaligned (w : World) : nat :=
  length (omap (λ ev, match ev with
                      | EvDebug sys msg =>
                          if ((sys =? "vfs") && (msg =? "Read chunk is not page-aligned"))%string
                          then Some tt else None
                      | _ => None
                      end) (trace w)).

(** Consumer 7 reads [n] bytes from [offset] of the opened file, whose page
    size is known; the page is in the cache. *)
Definition readWithin (offset n : Z) : list Input :=
  opened None 200 ++ firstRead db1024 ++ [Work 7 (readMsg offset n); Resume 2].

(** After the failed read of page 5, consumer 7 reads page 6. *)
Definition readAfterFailed : list Input :=
  failedRead ++ [Work 7 (readMsg 6144 1024); Resume 3; Resume 3].

(** After the chunk of the pages 1 and 2 was evicted, consumer 7 reads page 1
    again and the range request fails: the key of page 1, which the reference
    of page 2 names, holds the rejected promise.  Consumer 7 then reads
    page 2. *)
Definition failedRoot : list Input :=
  evicted ++ [Work 7 (readMsg 1024 1024); FailFetch 5 "net"; Resume 4; Resume 4].

Definition readFailedRoot : list Input :=
  failedRoot ++ [Work 7 (readMsg 2048 1024); Resume 5; Resume 5].

(** Consumer 7 reads the first page of a file whose bytes 16 and 17 are 0, and
    consumer 8 reads page 1 while the page size is the provisional 1024: it
    awaits the download of page 0.  The page arrives, the first read stores
    the page size 0 and fails, and the second read goes on. *)
Definition endlessLoop : list Input :=
  opened None 200 ++
  [Work 7 (readMsg 0 1024); Work 8 (readMsg 1024 1024);
   RespondRange 1 (rangeOf db0 0 1023); Resume 1; Resume 1; Resume 1; Resume 2].

Definition accessMsg : WorkMsg := mkMsg MXAccess "u" None None.

(** After the failed open, consumer 7 asks whether the file can be accessed. *)
Definition accessAfterFailedOpen : list Input :=
  failedOpen ++ [Work 7 accessMsg; Resume 1; Resume 1; Resume 1].

(** * Facts about the LRUCache class *)
Module LRUFacts.
Import LRU.

(** [linked nx pv l]: [l] is a chain of the doubly linked list. *)
Fixpoint linked (nx pv : gmap nat nat) (l : list nat) : Prop :=
  match l with
  | a :: r =>
      match r with
      | b :: _ => nx !! a = Some b ∧ pv !! b = Some a
      | [] => True
      end ∧ linked nx pv r
  | [] => True
  end.

Lemma linked_app nx pv l1 l2 :
  linked nx pv (l1 ++ l2) ↔
  linked nx pv l1 ∧ linked nx pv l2 ∧
  (∀ a b, last l1 = Some a → head l2 = Some b → nx !! a = Some b ∧ pv !! b = Some a).
Proof.
  induction l1 as [|a [|b r] IH]; simpl in *.
  - naive_solver.
  - destruct l2 as [|b l2]; simpl; naive_solver.
  - rewrite IH. clear IH. naive_solver.
Qed.

Lemma linked_frame nx pv nx' pv' l :
  NoDup l →
  (∀ a, a ∈ l → last l ≠ Some a → nx' !! a = nx !! a) →
  (∀ b, b ∈ l → head l ≠ Some b → pv' !! b = pv !! b) →
  linked nx pv l → linked nx' pv' l.
Proof.
  induction l as [|a [|b r] IH]; simpl; [done..|].
  intros Hnd Hn Hp [[Ha Hb] Hl].
  apply NoDup_cons in Hnd as [Ha_notin Hnd].
  split.
  - split.
    + rewrite Hn; [done|set_solver|].
      intros Hlast. apply Ha_notin.
      apply (last_Some_elem_of (b :: r)). done.
    + rewrite Hp; [done|set_solver|].
      intros [= ->]. set_solver.
  - apply IH; [done| | |done].
    + intros x Hx Hlast. apply Hn; [set_solver|]. done.
    + intros x Hx Hhead. apply Hp; [set_solver|].
      intros [= ->]. done.
Qed.

Section Invariant.
Context {K : Type} `{Countable K} {V : Type} `{EqDecision V}.
Implicit Types (c : LRUCache K V) (l : list nat).

(** An index of a typed array is below [max]. *)
Definition inRange c (i : nat) : Prop := max_ c ≠ 0%nat → (i < max_ c)%nat.

(** The binding held at index [i]. *)
Definition itemOk c (i : nat) : Prop :=
  ∃ k v, keyList c !! i = Some k ∧ keyMap c !! k = Some i ∧ valList c !! i = Some v ∧
         (tracksSize c = true →
          ∃ f, sizeCalculation c = Some f ∧ sizes c !! i = Some (f v) ∧ 0 < f v).

(** What the constructor fixes. *)
Record Config c : Prop := {
  cfg_entry : maxEntrySize c = maxSize c;
  cfg_pos : tracksSize c = true → 0 < maxSize c;
  cfg_max1 : max_ c ≠ 1%nat;
  cfg_cls : match arrayClass c with
            | UintArray bits => max_ c ≠ 0%nat ∧ (N.of_nat (max_ c) ≤ 2 ^ bits)%N
            | PlainArray => True
            end
}.

(** The doubly linked list of [c] is [l], least recently used first. *)
Record Links c l : Prop := {
  lk_nodup : NoDup l;
  lk_head : ∀ a, head l = Some a → head_ c = a;
  lk_tail : ∀ a, last l = Some a → tail_ c = a;
  lk_linked : linked (next c) (prev c) l;
  lk_range : ∀ i, i ∈ l → inRange c i
}.

(** The bindings of [c] sit at the indexes [l]; the other allocated indexes
    are on the free stack, or in [extra] while [set] is about to reuse them. *)
Record Store c l (extra : list nat) : Prop := {
  st_size : size_ c = length l;
  st_empty : l = [] → extra = [] →
             head_ c = 0%nat ∧ tail_ c = 0%nat ∧ free c = [] ∧ initialFill c = 1%nat;
  st_keyMap : ∀ k i, keyMap c !! k = Some i → i ∈ l ∧ keyList c !! i = Some k;
  st_items : ∀ i, i ∈ l → itemOk c i;
  st_alloc_nodup : NoDup (extra ++ free c);
  st_alloc_disj : ∀ i, i ∈ extra ++ free c → i ∉ l;
  st_lt : ∀ i, i ∈ l ∨ i ∈ extra ++ free c → (i < initialFill c)%nat;
  st_count : l ++ extra ≠ [] →
             initialFill c = (length l + length extra + length (free c))%nat;
  st_max : max_ c ≠ 0%nat →
           (length l + length extra ≤ max_ c ∧ initialFill c ≤ max_ c)%nat
}.

Definition sumSizes c l : Z :=
  foldr (λ i acc, default 0 (sizes c !! i) + acc) 0 l.

(** The accounting of [calculatedSize]. *)
Definition Sized c l : Prop :=
  tracksSize c = true →
  calculatedSize c = sumSizes c l ∧ calculatedSize c ≤ maxSize c.

Definition Repr c l : Prop := Links c l ∧ Store c l [] ∧ Sized c l.

(** The representation invariant of an LRUCache. *)
Definition wf c : Prop := Config c ∧ ∃ l, Repr c l.

Lemma store_insert c a i x :
  Config c → inRange c i → inRange c x →
  store (arrayClass c) (max_ c) a i x = <[i:=x]> a.
Proof.
  intros Hc Hi Hx. unfold store.
  destruct Hc as [_ _ _ Hcls]. destruct (arrayClass c) as [|bits]; [done|].
  destruct Hcls as [Hmax Hle].
  rewrite decide_True by (apply Hi; done).
  f_equal. specialize (Hx Hmax).
  rewrite N.mod_small by lia. lia.
Qed.

Lemma sumSizes_app c l1 l2 : sumSizes c (l1 ++ l2) = sumSizes c l1 + sumSizes c l2.
Proof. unfold sumSizes. induction l1; simpl; lia. Qed.

Lemma sumSizes_cons c i l :
  sumSizes c (i :: l) = default 0 (sizes c !! i) + sumSizes c l.
Proof. done. Qed.

Lemma sumSizes_ext c c' l :
  (∀ i, i ∈ l → sizes c' !! i = sizes c !! i) → sumSizes c' l = sumSizes c l.
Proof.
  unfold sumSizes. induction l as [|a l IH]; simpl; [done|].
  intros Hs. rewrite Hs by set_solver. rewrite IH; [done|]. intros; apply Hs; set_solver.
Qed.

Lemma itemOk_ext c c' i :
  itemOk c i →
  keyList c' !! i = keyList c !! i →
  valList c' !! i = valList c !! i →
  sizes c' !! i = sizes c !! i →
  (∀ k, keyList c !! i = Some k → keyMap c' !! k = Some i) →
  tracksSize c' = tracksSize c →
  sizeCalculation c' = sizeCalculation c →
  itemOk c' i.
Proof.
  intros (k & v & Hk & Hm & Hv & Hs) Ek Ev Es Em Et Ef.
  exists k, v. rewrite Ek, Ev, Es, Et, Ef. eauto.
Qed.


(** [c'] has the data of [c]: only the links may differ. *)
Record sameData c c' : Prop := {
  sd_max : max_ c' = max_ c;
  sd_maxSize : maxSize c' = maxSize c;
  sd_maxEntrySize : maxEntrySize c' = maxEntrySize c;
  sd_sizeCalculation : sizeCalculation c' = sizeCalculation c;
  sd_arrayClass : arrayClass c' = arrayClass c;
  sd_keyMap : keyMap c' = keyMap c;
  sd_keyList : keyList c' = keyList c;
  sd_valList : valList c' = valList c;
  sd_free : free c' = free c;
  sd_initialFill : initialFill c' = initialFill c;
  sd_size : size_ c' = size_ c;
  sd_calculatedSize : calculatedSize c' = calculatedSize c;
  sd_sizes : sizes c' = sizes c
}.

Lemma NoDup_mid (l1 : list nat) i l2 :
  NoDup (l1 ++ i :: l2) ↔
  NoDup l1 ∧ NoDup l2 ∧ i ∉ l1 ∧ i ∉ l2 ∧ (∀ x, x ∈ l1 → x ∉ l2).
Proof.
  rewrite NoDup_app, NoDup_cons. set_solver.
Qed.

Lemma last_cons_ne {A} (a : A) (r : list A) : r ≠ [] → last (a :: r) = last r.
Proof. destruct r; done. Qed.

Lemma head_app_ne {A} (l k : list A) : l ≠ [] → head (l ++ k) = head l.
Proof. by destruct l. Qed.

Lemma head_is_Some_ne {A} (l : list A) : l ≠ [] → ∃ a, head l = Some a.
Proof. destruct l; [done|eauto]. Qed.

Lemma last_is_Some_ne {A} (l : list A) : l ≠ [] → ∃ a, last l = Some a.
Proof. intros Hl. destruct (last l) eqn:E; [eauto|]. by apply last_None in E. Qed.

Lemma head_Some_elem_of {A} (l : list A) a : head l = Some a → a ∈ l.
Proof. destruct l; [done|]. intros [= ->]. set_solver. Qed.

Lemma linked_cons nx pv a r :
  linked nx pv (a :: r) ↔
  (∀ b, head r = Some b → nx !! a = Some b ∧ pv !! b = Some a) ∧ linked nx pv r.
Proof. destruct r; simpl; naive_solver. Qed.

Ltac solve_ne Hdisj :=
  let E := fresh in
  intros E; first
    [ done
    | subst; first
        [ done
        | match goal with H : _ ≠ _ |- _ => by apply H end
        | match goal with
          | H1 : ?x ∈ ?l1, H2 : ?x ∈ ?l2 |- _ => by apply (Hdisj x)
          end ] ].

Lemma moveToTail_spec c l1 i l2 :
  Config c → Links c (l1 ++ i :: l2) →
  ∃ c', moveToTail i c = Ok c' ∧ Links c' (l1 ++ l2 ++ [i]) ∧ sameData c c'.
Proof.
  intros Hcfg [Hnd Hhd Htl Hlk Hrg].
  assert (Hnd' := Hnd).
  apply NoDup_mid in Hnd' as (Hnd1 & Hnd2 & Hi1 & Hi2 & Hdisj).
  assert (Hri : inRange c i) by (apply Hrg; set_solver).
  assert (NoDup (l1 ++ l2 ++ [i])) as Hnd3.
  { apply NoDup_app. split; [done|]. split; [set_solver|].
    apply NoDup_app. split; [done|]. split; [set_solver|]. apply NoDup_singleton. }
  destruct (decide (l2 = [])) as [->|Hl2].
  { (* already the tail *)
    assert (tail_ c = i) as Ht. { apply Htl. by rewrite last_app. }
    exists c. unfold moveToTail.
    rewrite decide_False by (intros Hne; apply Hne; symmetry; exact Ht).
    split; [done|]. split; [|by constructor]. by constructor. }
  destruct (head_is_Some_ne l2 Hl2) as [n Hn].
  destruct (last_is_Some_ne l2 Hl2) as [t Ht].
  assert (tail_ c = t) as Etail.
  { apply Htl. rewrite last_app. rewrite last_cons_ne by done. by rewrite Ht. }
  assert (t ∈ l2) as Htin by (by apply last_Some_elem_of).
  assert (n ∈ l2) as Hnin by (by apply head_Some_elem_of).
  assert (t ≠ i) as Hti by (intros ->; done).
  assert (i ≠ n) as Hin by (intros ->; done).
  assert (Hrt : inRange c t) by (apply Hrg; set_solver).
  assert (Hrn : inRange c n) by (apply Hrg; set_solver).
  apply linked_app in Hlk as (Hlk1 & Hlk2 & Hj).
  apply linked_cons in Hlk2 as [Hin2 Hlk2].
  destruct (Hin2 n Hn) as [Hni Hpn].
  unfold moveToTail. rewrite decide_True by congruence.
  destruct (last l1) as [p|] eqn:Hp.
  - (* an inner entry moves *)
    assert (p ∈ l1) as Hpin by (by apply last_Some_elem_of).
    assert (l1 ≠ []) as Hl1 by (intros ->; done).
    destruct (head_is_Some_ne l1 Hl1) as [h Hh].
    assert (h ∈ l1) as Hhin by (by apply head_Some_elem_of).
    assert (head_ c = h) as Ehead by (apply Hhd; by rewrite head_app_ne).
    rewrite decide_False by (rewrite Ehead; intros ->; done).
    destruct (Hj p i eq_refl eq_refl) as [Hpi Hip].
    rewrite Hip, Hni. simpl. eexists. split; [done|].
    split; [|by constructor].
    assert (Hrp : inRange c p) by (apply Hrg; set_solver).
    unfold connect; simpl. rewrite !store_insert by (done || (rewrite Etail; done)).
    rewrite Etail.
    assert (p ≠ t) as Hpt by (intros ->; by apply (Hdisj t)).
    assert (p ≠ n) as Hpn' by (intros ->; by apply (Hdisj n)).
    assert (i ≠ p) as Hip' by (intros ->; done).
    constructor; simpl; [done| | | |].
    + intros a. rewrite head_app_ne by done. intros Ha. apply Hhd.
      by rewrite head_app_ne.
    + intros a. rewrite !last_app. simpl. naive_solver.
    + apply linked_app. split; [|split].
      * eapply linked_frame; [done| | |exact Hlk1].
        -- intros a Ha Hlast. rewrite !lookup_insert_ne; [done| |].
           ++ solve_ne Hdisj.
           ++ solve_ne Hdisj.
        -- intros b Hb _. rewrite !lookup_insert_ne; [done| |].
           ++ solve_ne Hdisj.
           ++ solve_ne Hdisj.
      * apply linked_app. split; [|split; [done|]].
        -- eapply linked_frame; [done| | |exact Hlk2].
           ++ intros a Ha Hlast. rewrite !lookup_insert_ne; [done| |].
              ** solve_ne Hdisj.
              ** solve_ne Hdisj.
           ++ intros b Hb Hhead. rewrite !lookup_insert_ne; [done| |].
              ** solve_ne Hdisj.
              ** solve_ne Hdisj.
        -- intros a b Ha [= <-]. rewrite Ht in Ha. injection Ha as <-.
           by rewrite !lookup_insert_eq.
      * intros a b Ha Hb. rewrite Hp in Ha. injection Ha as <-.
        rewrite head_app_ne in Hb by done. rewrite Hn in Hb. injection Hb as <-.
        rewrite lookup_insert_ne by done. rewrite lookup_insert_eq.
        rewrite lookup_insert_ne by done. rewrite lookup_insert_eq. done.
    + intros j Hj'. apply Hrg. set_solver.
  - (* the head moves *)
    apply last_None in Hp. subst l1. simpl in *. clear Hj.
    rewrite decide_True by (symmetry; by apply Hhd).
    rewrite Hni. simpl. eexists. split; [done|].
    split; [|by constructor].
    unfold connect; simpl. rewrite !store_insert by (done || (rewrite Etail; done)).
    rewrite Etail.
    constructor; simpl; [done| | | |].
    + intros a. rewrite head_app_ne by done. congruence.
    + intros a. rewrite last_app. simpl. naive_solver.
    + apply linked_app. split; [|split; [done|]].
      * eapply linked_frame; [done| | |exact Hlk2].
        -- intros a Ha Hlast. rewrite lookup_insert_ne; [done|]. solve_ne Hdisj.
        -- intros b Hb _. rewrite lookup_insert_ne; [done|]. solve_ne Hdisj.
      * intros a b Ha [= <-]. rewrite Ht in Ha. injection Ha as <-.
        by rewrite !lookup_insert_eq.
    + intros j Hj. apply Hrg. set_solver.
Qed.


Lemma Config_same c c' :
  Config c → max_ c' = max_ c → maxSize c' = maxSize c →
  maxEntrySize c' = maxEntrySize c → arrayClass c' = arrayClass c → Config c'.
Proof.
  intros [H1 H2 H3 H4] E1 E2 E3 E4. unfold tracksSize in *.
  constructor; unfold tracksSize; rewrite ?E1, ?E2, ?E3, ?E4; done.
Qed.

Lemma Store_inRange c l extra i :
  Store c l extra → i ∈ l ∨ i ∈ extra ++ free c → inRange c i.
Proof.
  intros Hs Hi Hmax. apply (st_lt _ _ _ Hs) in Hi.
  destruct (st_max _ _ _ Hs Hmax). lia.
Qed.

Lemma sumSizes_perm c l l' : l ≡ₚ l' → sumSizes c l = sumSizes c l'.
Proof.
  unfold sumSizes. induction 1; simpl; lia.
Qed.

(** Relinking: the data is the same and the list is permuted. *)
Lemma Store_relink c c' l l' :
  Store c l [] → sameData c c' → l ≡ₚ l' → l ≠ [] → Store c' l' [].
Proof.
  intros [H1 H2 H3 H4 H5 H6 H7 H8 H9] [] Hp Hne.
  assert (l' ≠ []) as Hne' by (intros ->; by apply Permutation_nil_r in Hp).
  assert (length l' = length l) as Hlen by (by rewrite Hp).
  assert (∀ i, i ∈ l' ↔ i ∈ l) as Hin by (intros; by rewrite Hp).
  constructor; rewrite ?sd_free0, ?sd_initialFill0, ?sd_size0, ?sd_keyMap0, ?sd_keyList0,
    ?sd_max0, ?Hlen; try done.
  - intros k i Hk. rewrite Hin. by apply H3.
  - intros i Hi. apply Hin, H4 in Hi.
    eapply itemOk_ext; [done|by rewrite ?sd_keyList0|by rewrite ?sd_valList0|by rewrite ?sd_sizes0| |..].
    + intros k Hk. rewrite sd_keyMap0. destruct Hi as (k' & v & Hk' & Hm & _). congruence.
    + unfold tracksSize. by rewrite sd_maxEntrySize0.
    + done.
  - intros i Hi. rewrite Hin. by apply H6.
  - intros i Hi. apply H7. by rewrite <- Hin.
  - intros _. apply H8. by destruct l.
Qed.

Lemma Sized_relink c c' l l' :
  Sized c l → sameData c c' → l ≡ₚ l' → Sized c' l'.
Proof.
  intros Hs [] Hp. unfold Sized, tracksSize in *.
  rewrite sd_maxEntrySize0, sd_calculatedSize0, sd_maxSize0.
  intros Ht. destruct (Hs Ht) as [E Hle]. split; [|done].
  rewrite E. rewrite (sumSizes_perm c l l' Hp). symmetry. apply sumSizes_ext.
  intros. by rewrite sd_sizes0.
Qed.


Lemma peek_get c k i : keyMap c !! k = Some i → peek k c = valList c !! i.
Proof. unfold peek. intros ->. done. Qed.

Lemma get_repr c l k :
  Config c → Repr c l →
  ∃ c' l', get k c = Ok (peek k c, c') ∧ Repr c' l' ∧ Config c' ∧ sameData c c' ∧
           match keyMap c !! k with
           | Some i => ∃ l1 l2, l = l1 ++ i :: l2 ∧ l' = l1 ++ l2 ++ [i]
           | None => l' = l
           end.
Proof.
  intros Hcfg (Hl & Hs & Hz). unfold get, peek.
  destruct (keyMap c !! k) as [i|] eqn:Hk; simpl.
  - destruct (st_keyMap _ _ _ Hs _ _ Hk) as [Hi _].
    apply list_elem_of_split in Hi as (l1 & l2 & ->).
    destruct (moveToTail_spec c l1 i l2 Hcfg Hl) as (c' & Hm & Hl' & Hsd).
    rewrite Hm. simpl. exists c', (l1 ++ l2 ++ [i]).
    assert (l1 ++ i :: l2 ≡ₚ l1 ++ l2 ++ [i]) as Hp.
    { apply Permutation_app_head. rewrite Permutation_app_comm. done. }
    split; [done|]. split; [|split; [|split; [done|eauto]]].
    + split; [done|]. split.
      * eapply Store_relink; [done..|]. by destruct l1.
      * eapply Sized_relink; done.
    + destruct Hsd. eapply Config_same; done.
  - exists c, l. split; [done|]. split; [done|]. split; [done|]. split; [by constructor|done].
Qed.

(** [c'] keeps what [c] holds at the indexes [L], and binds no new key. *)
Record frame c c' (L : list nat) : Prop := {
  fr_max : max_ c' = max_ c;
  fr_maxSize : maxSize c' = maxSize c;
  fr_maxEntrySize : maxEntrySize c' = maxEntrySize c;
  fr_sizeCalculation : sizeCalculation c' = sizeCalculation c;
  fr_arrayClass : arrayClass c' = arrayClass c;
  fr_keyList : ∀ i, i ∈ L → keyList c' !! i = keyList c !! i;
  fr_valList : ∀ i, i ∈ L → valList c' !! i = valList c !! i;
  fr_sizes : ∀ i, i ∈ L → sizes c' !! i = sizes c !! i;
  fr_keyMap : ∀ k i, keyMap c' !! k = Some i → keyMap c !! k = Some i;
  fr_keyMap_keep : ∀ k i, i ∈ L → keyMap c !! k = Some i → keyMap c' !! k = Some i
}.

Lemma frame_refl c L : frame c c L.
Proof. by constructor. Qed.

Lemma frame_trans c1 c2 c3 L L' :
  frame c1 c2 L → frame c2 c3 L' → L' ⊆ L → frame c1 c3 L'.
Proof.
  intros [] [] Hsub. constructor; try congruence.
  - intros i Hi. rewrite fr_keyList1 by done. apply fr_keyList0. by apply Hsub.
  - intros i Hi. rewrite fr_valList1 by done. apply fr_valList0. by apply Hsub.
  - intros i Hi. rewrite fr_sizes1 by done. apply fr_sizes0. by apply Hsub.
  - eauto.
  - intros k i Hi Hk. apply fr_keyMap_keep1; [done|]. apply fr_keyMap_keep0; [|done].
    by apply Hsub.
Qed.

Lemma frame_tracksSize c c' L : frame c c' L → tracksSize c' = tracksSize c.
Proof. intros []. unfold tracksSize. congruence. Qed.

Lemma frame_Config c c' L : frame c c' L → Config c → Config c'.
Proof. intros [] ?. eapply Config_same; done. Qed.

Lemma evict_spec toFree c a r :
  Config c → Links c (a :: r) → Store c (a :: r) [] → r ≠ [] →
  ∃ c', evict toFree c = Ok (a, c') ∧ Links c' r ∧
        Store c' r (if toFree then [] else [a]) ∧
        calculatedSize c' =
          (if tracksSize c then calculatedSize c - default 0 (sizes c !! a)
           else calculatedSize c) ∧
        frame c c' r.
Proof.
  intros Hcfg Hl Hs Hr.
  destruct Hl as [Hnd Hhd Htl Hlk Hrg].
  assert (head_ c = a) as Ehead by (by apply Hhd).
  apply NoDup_cons in Hnd as [Ha Hnd].
  destruct (head_is_Some_ne r Hr) as [b Hb].
  apply linked_cons in Hlk as [Hab Hlk]. destruct (Hab b Hb) as [Hnab Hpba].
  assert (itemOk c a) as (k & v & Hka & Hma & Hva & Hsz) by (apply Hs; set_solver).
  destruct Hs as [S1 S2 S3 S4 S5 S6 S7 S8 S9]. simpl in *.
  assert (∀ i, i ∈ r → i ≠ a) as Hne by (intros i Hi ->; done).
  unfold evict, removeItemSize. rewrite Ehead, Hka.
  set (c1 := if tracksSize c
             then with_sizes (<[a:=0]> (sizes c))
                    (with_calculatedSize (calculatedSize c - default 0 (sizes c !! a)) c)
             else c).
  assert ((if tracksSize c
           then let? sz := of_option (sizes c !! a) in
                Ok (with_sizes (<[a:=0]> (sizes c))
                      (with_calculatedSize (calculatedSize c - sz) c))
           else Ok c) = Ok c1) as ->.
  { unfold c1. destruct (tracksSize c) eqn:Et; [|done].
    destruct (Hsz eq_refl) as (f & _ & -> & _). done. }
  simpl.
  assert (next c1 = next c ∧ prev c1 = prev c ∧ keyMap c1 = keyMap c ∧
          keyList c1 = keyList c ∧ valList c1 = valList c ∧ free c1 = free c ∧
          head_ c1 = head_ c ∧ tail_ c1 = tail_ c ∧ size_ c1 = size_ c ∧
          initialFill c1 = initialFill c ∧ max_ c1 = max_ c ∧
          maxSize c1 = maxSize c ∧ maxEntrySize c1 = maxEntrySize c ∧
          sizeCalculation c1 = sizeCalculation c ∧ arrayClass c1 = arrayClass c ∧
          (∀ i, i ≠ a → sizes c1 !! i = sizes c !! i))
    as (E1 & E2 & E3 & E4 & E5 & E6 & E7 & E8 & E9 & E10 & E11 & E12 & E13 & E14 & E15 & E16).
  { unfold c1. destruct (tracksSize c); simpl; repeat split; try done.
    intros i Hi. by rewrite lookup_insert_ne. }
  assert (calculatedSize c1 =
          (if tracksSize c then calculatedSize c - default 0 (sizes c !! a)
           else calculatedSize c)) as Ecalc.
  { unfold c1. by destruct (tracksSize c). }
  clearbody c1.
  destruct toFree; simpl; rewrite ?E1, Hnab; simpl; eexists; (split; [done|]).
  - split; [|split; [|split; [done|]]].
    + constructor; simpl; rewrite ?E1, ?E2, ?E8; try done.
      * intros x Hx. congruence.
      * intros x Hx. apply Htl. by rewrite last_cons_ne.
      * intros i Hi. unfold inRange. simpl. rewrite E11. apply Hrg. set_solver.
    + constructor; simpl; rewrite ?E3, ?E4, ?E5, ?E6, ?E9, ?E10, ?E11.
      * rewrite S1. simpl. lia.
      * done.
      * intros k' i Hk'. apply lookup_delete_Some in Hk' as [Hkk Hk'].
        destruct (S3 _ _ Hk') as [Hi Hki].
        assert (i ≠ a) by (intros ->; congruence).
        split; [set_solver|]. by rewrite lookup_delete_ne.
      * intros i Hi. assert (i ≠ a) by auto.
        eapply itemOk_ext; [apply S4; set_solver|simpl..].
        -- by rewrite ?E4, lookup_delete_ne.
        -- by rewrite ?E5, lookup_delete_ne.
        -- auto.
        -- intros k' Hk'. rewrite ?E3. rewrite lookup_delete_ne.
           ++ destruct (S4 i) as (k'' & ? & ? & ? & _); [set_solver|]. congruence.
           ++ intros <-. destruct (S4 i) as (k'' & ? & ? & ? & _); [set_solver|]. congruence.
        -- unfold tracksSize. simpl. by rewrite ?E13.
        -- done.
      * simpl. apply NoDup_cons. split; [|done]. intros Hf. apply (S6 a); set_solver.
      * intros i Hi. apply elem_of_cons in Hi as [->|Hi]; [done|].
        intros Hir. apply (S6 i); set_solver.
      * intros i Hi. apply S7. set_solver.
      * intros _. simpl. rewrite S8 by done. simpl. lia.
      * intros Hm. specialize (S9 Hm). simpl in *. lia.
    + constructor; simpl; rewrite ?E3, ?E4, ?E5, ?E11, ?E12, ?E13, ?E14, ?E15; try done.
      * intros i Hi. rewrite lookup_delete_ne; [done|]. intros <-. by apply (Hne a).
      * intros i Hi. rewrite lookup_delete_ne; [done|]. intros <-. by apply (Hne a).
      * intros i Hi. apply E16. auto.
      * intros k' i Hk'. by apply lookup_delete_Some in Hk' as [_ ?].
      * intros k' i Hi Hk'. rewrite lookup_delete_ne; [done|].
        intros <-. apply (Hne i Hi). congruence.
  - split; [|split; [|split; [done|]]].
    + constructor; simpl; rewrite ?E1, ?E2, ?E8; try done.
      * intros x Hx. congruence.
      * intros x Hx. apply Htl. by rewrite last_cons_ne.
      * intros i Hi. unfold inRange. simpl. rewrite E11. apply Hrg. set_solver.
    + constructor; simpl; rewrite ?E3, ?E4, ?E5, ?E6, ?E9, ?E10, ?E11.
      * rewrite S1. simpl. lia.
      * done.
      * intros k' i Hk'. apply lookup_delete_Some in Hk' as [Hkk Hk'].
        destruct (S3 _ _ Hk') as [Hi Hki].
        assert (i ≠ a) by (intros ->; congruence).
        split; [set_solver|]. done.
      * intros i Hi. assert (i ≠ a) by auto.
        eapply itemOk_ext; [apply S4; set_solver|simpl..].
        -- by rewrite ?E4.
        -- by rewrite ?E5.
        -- auto.
        -- intros k' Hk'. rewrite ?E3. rewrite lookup_delete_ne.
           ++ destruct (S4 i) as (k'' & ? & ? & ? & _); [set_solver|]. congruence.
           ++ intros <-. destruct (S4 i) as (k'' & ? & ? & ? & _); [set_solver|]. congruence.
        -- unfold tracksSize. simpl. by rewrite ?E13.
        -- done.
      * simpl. apply NoDup_cons. split; [|done]. intros Hf. apply (S6 a); set_solver.
      * intros i Hi. apply elem_of_cons in Hi as [->|Hi]; [done|].
        intros Hir. apply (S6 i); set_solver.
      * intros i Hi. apply S7. set_solver.
      * intros _. simpl. rewrite S8 by done. simpl. lia.
      * intros Hm. specialize (S9 Hm). simpl in *. lia.
    + constructor; simpl; rewrite ?E3, ?E4, ?E5, ?E11, ?E12, ?E13, ?E14, ?E15; try done.
      * intros i Hi. apply E16. auto.
      * intros k' i Hk'. by apply lookup_delete_Some in Hk' as [_ ?].
      * intros k' i Hi Hk'. rewrite lookup_delete_ne; [done|].
        intros <-. apply (Hne i Hi). congruence.
Qed.


Lemma evictWhile_spec fuel limit c l x :
  Config c → tracksSize c = true →
  Links c (l ++ [x]) → Store c (l ++ [x]) [] →
  calculatedSize c = sumSizes c l → 0 ≤ limit → (length l ≤ fuel)%nat →
  ∃ c' l1 l2,
    evictWhile fuel limit c = Ok c' ∧ l = l1 ++ l2 ∧
    Links c' (l2 ++ [x]) ∧ Store c' (l2 ++ [x]) [] ∧
    calculatedSize c' = sumSizes c' l2 ∧ calculatedSize c' ≤ limit ∧
    frame c c' (l2 ++ [x]) ∧
    (∀ l1' a, l1 = l1' ++ [a] → limit < sumSizes c (a :: l2)).
Proof.
  revert fuel c. induction l as [|a l IH]; intros fuel c Hcfg Ht Hl Hs Hcalc Hlim Hfuel.
  - exists c, [], []. simpl in *.
    assert (evictWhile fuel limit c = Ok c) as ->.
    { destruct fuel; simpl; rewrite Hcalc;
        (destruct (0 >? limit) eqn:E; [lia|done]). }
    split_and!; try done; try lia; try apply frame_refl.
    intros [|??] ? ?; done.
  - destruct (calculatedSize c >? limit) eqn:Hgt.
    + destruct fuel as [|fuel]; [simpl in Hfuel; lia|].
      simpl. rewrite Hgt.
      destruct (evict_spec true c a (l ++ [x]) Hcfg Hl Hs) as (c1 & Hev & Hl1 & Hs1 & Hc1 & Hfr);
        [by destruct l|].
      rewrite Hev. simpl. rewrite Ht in Hc1.
      assert (sumSizes c1 l = sumSizes c l) as Hsum.
      { apply sumSizes_ext. intros i Hi. apply (fr_sizes _ _ _ Hfr). set_solver. }
      destruct (IH fuel c1) as (c' & l1 & l2 & Hw & El & Hl' & Hs' & Hcalc' & Hle & Hfr' & Hmin).
      * by eapply frame_Config.
      * by rewrite (frame_tracksSize _ _ _ Hfr).
      * done.
      * done.
      * rewrite Hc1, Hsum, Hcalc. simpl. lia.
      * done.
      * simpl in Hfuel. lia.
      * exists c', (a :: l1), l2. rewrite Hw. subst l.
        split; [done|]. split; [done|]. split; [done|]. split; [done|].
        split; [done|]. split; [done|]. split.
        -- eapply frame_trans; [done..|]. set_solver.
        -- intros l1' a' E. destruct l1' as [|a'' l1''].
           ++ simpl in E. injection E as <- El1. symmetry in El1. subst l1.
              simpl in *. rewrite Hcalc in Hgt. lia.
           ++ simpl in E. injection E as <- El1.
              specialize (Hmin _ _ El1).
              assert (sumSizes c1 (a' :: l2) = sumSizes c (a' :: l2)) as E.
              { apply sumSizes_ext. intros i Hi. apply (fr_sizes _ _ _ Hfr).
                subst l1. set_solver. }
              unfold sumSizes in *. simpl in *. lia.
    + exists c, [], (a :: l).
      assert (evictWhile fuel limit c = Ok c) as ->.
      { destruct fuel; simpl; by rewrite Hgt. }
      split_and!; try done; try lia; try apply frame_refl.
      intros [|??] ? ?; done.
Qed.


Lemma newIndex_spec c l :
  Config c → Links c l → Store c l [] →
  ∃ idx c1 l1,
    newIndex c = Ok (idx, c1) ∧ Links c1 l1 ∧ Store c1 l1 [idx] ∧
    (l1 = [] → head_ c1 = idx ∧ tail_ c1 = idx) ∧
    frame c c1 l1 ∧
    (l1 = l ∧ calculatedSize c1 = calculatedSize c ∨
     ∃ a, l = a :: l1 ∧ size_ c = max_ c ∧
          calculatedSize c1 =
            (if tracksSize c then calculatedSize c - default 0 (sizes c !! a)
             else calculatedSize c)).
Proof.
  intros Hcfg Hl Hs. unfold newIndex.
  destruct (decide (size_ c = 0%nat)) as [Hz|Hnz].
  { assert (l = []) as -> by (apply length_zero_iff_nil; by rewrite <- (st_size _ _ _ Hs)).
    destruct (st_empty _ _ _ Hs eq_refl eq_refl) as (Eh & Et & Ef & Ei).
    exists (tail_ c), c, []. split; [done|]. split; [done|].
    destruct Hs as [S1 S2 S3 S4 S5 S6 S7 S8 S9].
    split; [|split; [by rewrite Eh, Et|split; [apply frame_refl|by left]]].
    constructor; rewrite ?Et, ?Ef, ?Ei; simpl; try done.
    - apply NoDup_singleton.
    - intros i. set_solver.
    - intros i [Hi|Hi]; [set_solver|]. apply list_elem_of_singleton in Hi as ->. lia.
    - intros Hm. specialize (S9 Hm). simpl in *. lia. }
  assert (l ≠ []) as Hne.
  { intros ->. rewrite (st_size _ _ _ Hs) in Hnz. done. }
  destruct (decide (size_ c = max_ c ∧ max_ c ≠ 0%nat)) as [[Hfull Hmax]|Hnf].
  { destruct l as [|a r]; [done|].
    assert (r ≠ []) as Hr.
    { intros ->. rewrite (st_size _ _ _ Hs) in Hfull. simpl in Hfull.
      by apply (cfg_max1 _ Hcfg). }
    destruct (evict_spec false c a r Hcfg Hl Hs Hr) as (c1 & Hev & Hl1 & Hs1 & Hc1 & Hfr).
    exists a, c1, r. split; [done|]. split; [done|]. split; [done|].
    split; [done|]. split; [done|]. right. eauto. }
  destruct Hs as [S1 S2 S3 S4 S5 S6 S7 S8 S9]. simpl in *.
  assert (max_ c ≠ 0%nat → (length l < max_ c)%nat) as Hlt.
  { intros Hm. destruct (S9 Hm). rewrite <- S1 in *.
    destruct (decide (size_ c = max_ c)); [|lia]. exfalso. by apply Hnf. }
  destruct Hl as [L1 L2 L3 L4 L5].
  destruct (free c) as [|i rest] eqn:Hfree.
  - exists (initialFill c), (with_initialFill (S (initialFill c)) c), l.
    split; [done|]. split; [by constructor|].
    split; [|split; [done|split; [by constructor|by left]]].
    rewrite app_nil_r in *.
    constructor; simpl; rewrite ?Hfree, ?app_nil_r; try done.
    + apply NoDup_singleton.
    + intros i Hi. apply list_elem_of_singleton in Hi as ->.
      intros Hi. specialize (S7 _ (or_introl Hi)). lia.
    + intros i [Hi|Hi].
      * specialize (S7 _ (or_introl Hi)). lia.
      * apply list_elem_of_singleton in Hi as ->. lia.
    + intros _. rewrite S8 by done. simpl. lia.
    + intros Hm. specialize (Hlt Hm). rewrite S8 by done. simpl. lia.
  - exists i, (with_free rest c), l.
    split; [done|]. split; [by constructor|].
    split; [|split; [done|split; [by constructor|by left]]].
    rewrite app_nil_r in *.
    constructor; simpl; try done.
    + intros _. rewrite S8 by done. simpl. lia.
    + intros Hm. specialize (Hlt Hm). destruct (S9 Hm). simpl. lia.
Qed.

(** The assignments of [set] that bind [k] to [v] at a new index: from
    [this.keyList[index] = k] to [this.size++]. *)
Definition linkNew (k : K) (v : V) (index : nat) c : LRUCache K V :=
  let c := with_keyList (<[index:=k]> (keyList c)) c in
  let c := with_valList (<[index:=v]> (valList c)) c in
  let c := with_keyMap (<[k:=index]> (keyMap c)) c in
  let c := with_next (store (arrayClass c) (max_ c) (next c) (tail_ c) index) c in
  let c := with_prev (store (arrayClass c) (max_ c) (prev c) index (tail_ c)) c in
  let c := with_tail index c in
  with_size (S (size_ c)) c.

Lemma linkNew_spec c l idx k v sz :
  Config c → Links c l → Store c l [idx] →
  (l = [] → head_ c = idx ∧ tail_ c = idx) →
  keyMap c !! k = None →
  (tracksSize c = true → ∃ f, sizeCalculation c = Some f ∧ sz = f v ∧ 0 < sz) →
  let c2 := linkNew k v idx c in
  let c3 := if tracksSize c then with_sizes (<[idx:=sz]> (sizes c2)) c2 else c2 in
  Links c3 (l ++ [idx]) ∧ Store c3 (l ++ [idx]) [] ∧
  keyMap c3 = <[k:=idx]> (keyMap c) ∧
  keyList c3 !! idx = Some k ∧ valList c3 !! idx = Some v ∧
  (∀ i, i ∈ l → keyList c3 !! i = keyList c !! i ∧ valList c3 !! i = valList c !! i ∧
                sizes c3 !! i = sizes c !! i) ∧
  calculatedSize c3 = calculatedSize c ∧
  max_ c3 = max_ c ∧ maxSize c3 = maxSize c ∧ maxEntrySize c3 = maxEntrySize c ∧
  sizeCalculation c3 = sizeCalculation c ∧ arrayClass c3 = arrayClass c ∧
  size_ c3 = S (size_ c) ∧
  (tracksSize c = true → sizes c3 !! idx = Some sz).
Proof.
  intros Hcfg [L1 L2 L3 L4 L5] Hs Hemp Hk Hsz c2 c3.
  assert (Hs' := Hs). destruct Hs' as [S1 S2 S3 S4 S5 S6 S7 S8 S9]. simpl in *.
  assert (idx ∉ l) as Hidx by (apply S6; set_solver).
  assert (inRange c idx) as Hri by (eapply Store_inRange; [done|]; set_solver).
  assert (inRange c (tail_ c)) as Hrt.
  { destruct (decide (l = [])) as [->|Hne].
    - destruct Hemp as [_ ->]; done.
    - destruct (last_is_Some_ne l Hne) as [t Ht]. rewrite (L3 _ Ht).
      apply L5. by apply last_Some_elem_of. }
  assert (∀ i, i ∈ l → i ≠ idx) as Hne by (intros i Hi ->; done).
  assert (next c2 = <[tail_ c := idx]> (next c) ∧ prev c2 = <[idx := tail_ c]> (prev c) ∧
          keyMap c2 = <[k:=idx]> (keyMap c) ∧ keyList c2 = <[idx:=k]> (keyList c) ∧
          valList c2 = <[idx:=v]> (valList c) ∧ head_ c2 = head_ c ∧ tail_ c2 = idx ∧
          free c2 = free c ∧ initialFill c2 = initialFill c ∧ size_ c2 = S (size_ c) ∧
          sizes c2 = sizes c ∧ calculatedSize c2 = calculatedSize c ∧
          max_ c2 = max_ c ∧ maxSize c2 = maxSize c ∧ maxEntrySize c2 = maxEntrySize c ∧
          sizeCalculation c2 = sizeCalculation c ∧ arrayClass c2 = arrayClass c)
    as (E1 & E2 & E3 & E4 & E5 & E6 & E7 & E8 & E9 & E10 & E11 & E12 & E13 & E14 & E15 & E16 & E17).
  { unfold c2, linkNew. simpl. rewrite !store_insert by done. done. }
  clearbody c2.
  assert (next c3 = next c2 ∧ prev c3 = prev c2 ∧ keyMap c3 = keyMap c2 ∧
          keyList c3 = keyList c2 ∧ valList c3 = valList c2 ∧ head_ c3 = head_ c2 ∧
          tail_ c3 = tail_ c2 ∧ free c3 = free c2 ∧ initialFill c3 = initialFill c2 ∧
          size_ c3 = size_ c2 ∧ calculatedSize c3 = calculatedSize c2 ∧
          max_ c3 = max_ c2 ∧ maxSize c3 = maxSize c2 ∧ maxEntrySize c3 = maxEntrySize c2 ∧
          sizeCalculation c3 = sizeCalculation c2 ∧ arrayClass c3 = arrayClass c2 ∧
          (∀ i, i ≠ idx → sizes c3 !! i = sizes c2 !! i) ∧
          (tracksSize c = true → sizes c3 !! idx = Some sz))
    as (F1 & F2 & F3 & F4 & F5 & F6 & F7 & F8 & F9 & F10 & F11 & F12 & F13 & F14 & F15 & F16 & F17 & F18).
  { unfold c3. destruct (tracksSize c); simpl; split_and!; try done.
    - intros i Hi. rewrite lookup_insert_ne; [by rewrite ?E11|congruence].
    - intros _. by rewrite lookup_insert_eq. }
  clearbody c3.
  assert (tracksSize c3 = tracksSize c) as Etr by (unfold tracksSize; congruence).
  split_and!; try congruence.
  - constructor; rewrite ?F1, ?F2, ?F6, ?F7, ?E1, ?E2, ?E6, ?E7.
    + apply NoDup_app. split; [done|]. split; [|apply NoDup_singleton].
      intros i Hi Hi'. apply list_elem_of_singleton in Hi' as ->. done.
    + intros a Ha. destruct (decide (l = [])) as [->|Hl].
      * simpl in Ha. injection Ha as <-. by destruct Hemp.
      * rewrite head_app_ne in Ha by done. auto.
    + intros a. rewrite last_snoc. congruence.
    + apply linked_app. split; [|split; [done|]].
      * eapply linked_frame; [done| | |exact L4].
        -- intros a Ha Hlast. rewrite lookup_insert_ne; [done|].
           intros Heq. apply Hlast. destruct (last_is_Some_ne l) as [t Ht]; [by intros ->; set_solver|].
           rewrite Ht. f_equal. rewrite <- Heq. symmetry. by apply L3.
        -- intros b Hb _. rewrite lookup_insert_ne; [done|]. intros ->. done.
      * intros a b Ha [= <-]. rewrite (L3 _ Ha). by rewrite !lookup_insert_eq.
    + intros i Hi. unfold inRange. rewrite F12, E13.
      apply elem_of_app in Hi as [Hi|Hi]; [by apply L5|].
      apply list_elem_of_singleton in Hi as ->. done.
  - constructor; rewrite ?F3, ?F4, ?F8, ?F9, ?F10, ?F12, ?E3, ?E4, ?E8, ?E9, ?E10, ?E13;
      simpl in *.
    + rewrite length_app. simpl. lia.
    + intros Hl. by destruct l.
    + intros k' i Hk'. apply lookup_insert_Some in Hk' as [[<- <-]|[Hkk Hk']].
      * split; [set_solver|]. by rewrite lookup_insert_eq.
      * destruct (S3 _ _ Hk') as [Hi Hki]. split; [set_solver|].
        rewrite lookup_insert_ne; [done|]. intros <-. done.
    + intros i Hi. apply elem_of_app in Hi as [Hi|Hi].
      * assert (i ≠ idx) by auto.
        eapply itemOk_ext; [by apply S4| | | | |done|congruence].
        -- rewrite F4, E4. by rewrite lookup_insert_ne.
        -- rewrite F5, E5. by rewrite lookup_insert_ne.
        -- rewrite F17 by done. by rewrite E11.
        -- intros k' Hk'. rewrite F3, E3. rewrite lookup_insert_ne.
           ++ destruct (S4 i Hi) as (k'' & ? & ? & ? & _). congruence.
           ++ intros <-. destruct (S4 i Hi) as (k'' & ? & ? & ? & _). congruence.
      * apply list_elem_of_singleton in Hi as ->.
        exists k, v. rewrite F3, F4, F5, E3, E4, E5, !lookup_insert_eq.
        split; [done|]. split; [done|]. split; [done|].
        rewrite Etr. intros Ht. destruct (Hsz Ht) as (f & Hf & -> & Hpos).
        exists f. rewrite F15, E16, (F18 Ht). done.
    + by apply NoDup_cons in S5 as [_ ?].
    + intros i Hi. apply NoDup_cons in S5 as [Hnf _].
      intros Hi'. apply elem_of_app in Hi' as [Hi'|Hi'].
      * apply (S6 i); [set_solver|done].
      * apply list_elem_of_singleton in Hi' as ->. done.
    + intros i [Hi|Hi]; apply S7; set_solver.
    + intros _. rewrite length_app. simpl. rewrite S8 by (by destruct l). simpl. lia.
    + intros Hm. specialize (S9 Hm). rewrite length_app. simpl in *. lia.
  - by rewrite F4, E4, lookup_insert_eq.
  - by rewrite F5, E5, lookup_insert_eq.
  - intros i Hi. assert (i ≠ idx) by auto.
    rewrite F4, F5, E4, E5, !lookup_insert_ne by done.
    rewrite F17 by done. rewrite E11. done.
  - done.
Qed.


Lemma sumSizes_nonneg c l : Store c l [] → tracksSize c = true → 0 ≤ sumSizes c l.
Proof.
  intros Hs Ht. assert (∀ i, i ∈ l → 0 < default 0 (sizes c !! i)) as Hpos.
  { intros i Hi. destruct (st_items _ _ _ Hs i Hi) as (k & v & _ & _ & _ & Hsz).
    destruct (Hsz Ht) as (f & _ & -> & ?). done. }
  clear Hs. unfold sumSizes. induction l as [|a l IH]; simpl; [done|].
  specialize (Hpos a ltac:(set_solver)) as Ha.
  assert (0 ≤ foldr (λ i acc, default 0 (sizes c !! i) + acc) 0 l); [|lia].
  apply IH. intros; apply Hpos; set_solver.
Qed.

Lemma clear_repr c : Config c → Repr (clear c) [] ∧ Config (clear c).
Proof.
  intros Hcfg. split; [split; [|split]|].
  - constructor; simpl; try done.
    + apply NoDup_nil_2.
    + intros i Hi. by apply elem_of_nil in Hi.
  - constructor; simpl; try done.
    + intros i Hi. by apply elem_of_nil in Hi.
    + apply NoDup_nil_2.
    + intros i Hi. by apply elem_of_nil in Hi.
    + intros i [Hi|Hi]; by apply elem_of_nil in Hi.
    + intros Hm. split; lia.
  - intros Ht. simpl. split; [done|].
    apply Z.lt_le_incl. by apply (cfg_pos _ Hcfg).
  - by eapply Config_same.
Qed.

Lemma delete_repr c l k :
  Config c → Repr c l →
  ∃ b c' l', delete k c = Ok (b, c') ∧ Repr c' l' ∧ Config c' ∧ frame c c' l' ∧
             keyMap c' !! k = None ∧
             match keyMap c !! k with
             | Some i => b = true ∧ ∃ l1 l2, l = l1 ++ i :: l2 ∧ l' = l1 ++ l2
             | None => b = false ∧ l' = l ∧ c' = c
             end.
Proof.
  intros Hcfg (Hl & Hs & Hz). unfold delete.
  destruct (keyMap c !! k) as [i|] eqn:Hk.
  2: { exists false, c, l. destruct (decide (size_ c ≠ 0%nat));
         (split; [done|]); (split; [done|]); (split; [done|]);
         (split; [apply frame_refl|done]). }
  destruct (st_keyMap _ _ _ Hs _ _ Hk) as [Hi Hki].
  rewrite decide_True by (rewrite (st_size _ _ _ Hs); by destruct l; [set_solver|]).
  apply list_elem_of_split in Hi as (l1 & l2 & ->).
  destruct (decide (size_ c = 1%nat)) as [Hone|Hmany].
  { rewrite (st_size _ _ _ Hs), length_app in Hone. simpl in Hone.
    assert (l1 = []) as -> by (destruct l1; [done|simpl in Hone; lia]).
    assert (l2 = []) as -> by (destruct l2; [done|simpl in Hone; lia]).
    destruct (clear_repr c Hcfg) as [Hr Hc].
    exists true, (clear c), []. split; [done|]. split; [done|]. split; [done|].
    split.
    { constructor; simpl; try done.
      - intros ? Hx. by apply elem_of_nil in Hx.
      - intros ? Hx. by apply elem_of_nil in Hx.
      - intros ? Hx. by apply elem_of_nil in Hx.
      - intros ? ? Hx. by apply elem_of_nil in Hx. }
    split; [done|]. split; [done|]. by exists [], []. }
  assert (length l1 + length l2 ≠ 0)%nat as Hlen.
  { rewrite (st_size _ _ _ Hs), length_app in Hmany. simpl in Hmany. lia. }
  destruct Hl as [Hnd Hhd Htl Hlk Hrg].
  assert (Hnd' := Hnd). apply NoDup_mid in Hnd' as (Hnd1 & Hnd2 & Hi1 & Hi2 & Hdisj).
  assert (NoDup (l1 ++ l2)) as Hnd3.
  { apply NoDup_app. split; [done|]. split; [|done]. intros x Hx. by apply Hdisj. }
  assert (itemOk c i) as (k' & v & Hka & Hma & Hva & Hsz) by (apply Hs; set_solver).
  assert (k' = k) as -> by congruence.
  destruct Hs as [S1 S2 S3 S4 S5 S6 S7 S8 S9]. simpl in *.
  unfold removeItemSize.
  set (c1 := if tracksSize c
             then with_sizes (<[i:=0]> (sizes c))
                    (with_calculatedSize (calculatedSize c - default 0 (sizes c !! i)) c)
             else c).
  assert ((if tracksSize c
           then let? sz := of_option (sizes c !! i) in
                Ok (with_sizes (<[i:=0]> (sizes c))
                      (with_calculatedSize (calculatedSize c - sz) c))
           else Ok c) = Ok c1) as ->.
  { unfold c1. destruct (tracksSize c) eqn:Et; [|done].
    destruct (Hsz eq_refl) as (f & _ & -> & _). done. }
  simpl.
  assert (next c1 = next c ∧ prev c1 = prev c ∧ keyMap c1 = keyMap c ∧
          keyList c1 = keyList c ∧ valList c1 = valList c ∧ free c1 = free c ∧
          head_ c1 = head_ c ∧ tail_ c1 = tail_ c ∧ size_ c1 = size_ c ∧
          initialFill c1 = initialFill c ∧ max_ c1 = max_ c ∧
          maxSize c1 = maxSize c ∧ maxEntrySize c1 = maxEntrySize c ∧
          sizeCalculation c1 = sizeCalculation c ∧ arrayClass c1 = arrayClass c ∧
          (∀ j, j ≠ i → sizes c1 !! j = sizes c !! j))
    as (E1 & E2 & E3 & E4 & E5 & E6 & E7 & E8 & E9 & E10 & E11 & E12 & E13 & E14 & E15 & E16).
  { unfold c1. destruct (tracksSize c); simpl; split_and!; try done.
    intros j Hj. rewrite lookup_insert_ne; [done|congruence]. }
  assert (tracksSize c = true →
          calculatedSize c1 = sumSizes c (l1 ++ l2) ∧ calculatedSize c1 ≤ maxSize c) as Ecalc.
  { intros Ht. destruct (Hz Ht) as [Hc Hle]. unfold c1. rewrite Ht. simpl.
    rewrite Hc in *. rewrite !sumSizes_app, sumSizes_cons in *.
    destruct (Hsz Ht) as (f & _ & Hsi & Hpos). rewrite Hsi in *. simpl in *. lia. }
  clearbody c1.
  (* the state after the relinking, whichever branch is taken *)
  assert (∃ c2,
    (if decide (i = tail_ c1)
     then let? p := of_option (prev c1 !! i) in
          Ok (with_tail p
                (with_valList (base.delete i (valList c1))
                   (with_keyList (base.delete i (keyList c1))
                      (with_keyMap (base.delete k (keyMap c1)) c1))))
     else if decide (i = head_ c1)
     then let? n := of_option (next c1 !! i) in
          Ok (with_head n
                (with_valList (base.delete i (valList c1))
                   (with_keyList (base.delete i (keyList c1))
                      (with_keyMap (base.delete k (keyMap c1)) c1))))
     else let? p := of_option (prev c1 !! i) in
          let? n := of_option (next c1 !! i) in
          Ok (with_prev (store (arrayClass c1) (max_ c1) (prev c1) n p)
                (with_next (store (arrayClass c1) (max_ c1) (next c1) p n)
                   (with_valList (base.delete i (valList c1))
                      (with_keyList (base.delete i (keyList c1))
                         (with_keyMap (base.delete k (keyMap c1)) c1)))))) = Ok c2 ∧
    Links c2 (l1 ++ l2) ∧
    keyMap c2 = base.delete k (keyMap c) ∧ keyList c2 = base.delete i (keyList c) ∧
    valList c2 = base.delete i (valList c) ∧ free c2 = free c ∧ size_ c2 = size_ c ∧
    initialFill c2 = initialFill c ∧ max_ c2 = max_ c ∧ maxSize c2 = maxSize c ∧
    maxEntrySize c2 = maxEntrySize c ∧ sizeCalculation c2 = sizeCalculation c ∧
    arrayClass c2 = arrayClass c ∧ sizes c2 = sizes c1 ∧
    calculatedSize c2 = calculatedSize c1) as (c2 & Hrun & Hl2 & G).
  { apply linked_app in Hlk as (Hlk1 & Hlk2 & Hj).
    apply linked_cons in Hlk2 as [Hin2 Hlk2].
    rewrite E7, E8, E1, E2.
    destruct (decide (l2 = [])) as [->|Hl2].
    - (* the tail goes *)
      assert (l1 ≠ []) as Hl1 by (intros ->; simpl in Hlen; lia).
      destruct (last_is_Some_ne l1 Hl1) as [p Hp].
      destruct (Hj p i Hp eq_refl) as [Hpi Hip].
      rewrite decide_True by (symmetry; apply Htl; by rewrite last_snoc).
      rewrite Hip. simpl. eexists. split; [done|].
      rewrite app_nil_r in *. split; [|simpl; rewrite ?E3, ?E4, ?E5; split_and!; done].
      constructor; simpl; rewrite ?E1, ?E2, ?E7.
      + done.
      + intros a Ha. apply Hhd. by rewrite head_app_ne.
      + intros a Ha. congruence.
      + done.
      + intros j Hj'. unfold inRange. simpl. rewrite E11. apply Hrg. set_solver.
    - destruct (head_is_Some_ne l2 Hl2) as [n Hn].
      destruct (last_is_Some_ne l2 Hl2) as [t Ht].
      destruct (Hin2 n Hn) as [Hni Hpn].
      assert (n ∈ l2) as Hnin by (by apply head_Some_elem_of).
      assert (t ∈ l2) as Htin by (by apply last_Some_elem_of).
      assert (tail_ c = t) as Etail.
      { apply Htl. rewrite last_app, last_cons_ne by done. by rewrite Ht. }
      rewrite decide_False by (rewrite Etail; intros ->; done).
      destruct (last l1) as [p|] eqn:Hp.
      + (* an inner entry goes *)
        assert (p ∈ l1) as Hpin by (by apply last_Some_elem_of).
        assert (l1 ≠ []) as Hl1 by (intros ->; done).
        destruct (head_is_Some_ne l1 Hl1) as [h Hh].
        assert (h ∈ l1) as Hhin by (by apply head_Some_elem_of).
        assert (head_ c = h) as Ehead by (apply Hhd; by rewrite head_app_ne).
        rewrite decide_False by (rewrite Ehead; intros ->; done).
        destruct (Hj p i eq_refl eq_refl) as [Hpi Hip].
        rewrite Hip, Hni. simpl. eexists. split; [done|].
        split; [|simpl; rewrite ?E3, ?E4, ?E5; split_and!; done].
        assert (inRange c1 p ∧ inRange c1 n) as [Hrp Hrn].
        { unfold inRange. rewrite E11. split; apply Hrg; set_solver. }
        assert (Config c1) as Hcfg1 by (by eapply Config_same).
        rewrite !store_insert by done.
        constructor; simpl; rewrite ?E1, ?E2, ?E7, ?E8.
        * done.
        * intros a Ha. apply Hhd. rewrite head_app_ne in Ha by done. by rewrite head_app_ne.
        * intros a Ha. apply Htl. rewrite last_app in Ha. rewrite Ht in Ha.
          rewrite last_app, last_cons_ne by done. by rewrite Ht.
        * apply linked_app. split; [|split].
          -- eapply linked_frame; [done| | |exact Hlk1].
             ++ intros a Ha Hlast. rewrite lookup_insert_ne; [done|]. solve_ne Hdisj.
             ++ intros b Hb _. rewrite lookup_insert_ne; [done|]. solve_ne Hdisj.
          -- eapply linked_frame; [done| | |exact Hlk2].
             ++ intros a Ha Hlast. rewrite lookup_insert_ne; [done|]. solve_ne Hdisj.
             ++ intros b Hb Hhead. rewrite lookup_insert_ne; [done|]. solve_ne Hdisj.
          -- intros a b Ha Hb. rewrite Hp in Ha. injection Ha as <-.
             rewrite Hn in Hb. injection Hb as <-. by rewrite !lookup_insert_eq.
        * intros j Hj'. unfold inRange. simpl. rewrite E11. apply Hrg. set_solver.
      + (* the head goes *)
        apply last_None in Hp. subst l1. simpl in *.
        rewrite decide_True by (symmetry; by apply Hhd).
        rewrite Hni. simpl. eexists. split; [done|].
        split; [|simpl; rewrite ?E3, ?E4, ?E5; split_and!; done].
        constructor; simpl; rewrite ?E1, ?E2, ?E8.
        * done.
        * intros a Ha. congruence.
        * intros a Ha. apply Htl. by rewrite last_cons_ne.
        * done.
        * intros j Hj'. unfold inRange. simpl. rewrite E11. apply Hrg. set_solver. }
  destruct G as (G1 & G2 & G3 & G4 & G5 & G6 & G7 & G8 & G9 & G10 & G11 & G12 & G13).
  rewrite Hrun. simpl.
  assert (∀ j, j ∈ l1 ++ l2 → j ≠ i) as Hne.
  { intros j Hj ->. apply elem_of_app in Hj as [?|?]; done. }
  eexists true, _, (l1 ++ l2). split; [done|].
  assert (frame c (with_free (i :: free c2) (with_size (size_ c2 - 1) c2)) (l1 ++ l2)) as Hfr.
  { constructor; simpl; rewrite ?G1, ?G2, ?G3, ?G7, ?G8, ?G9, ?G10, ?G11, ?G12; try done.
    - intros j Hj. rewrite lookup_delete_ne; [done|]. intros <-. by apply (Hne i).
    - intros j Hj. rewrite lookup_delete_ne; [done|]. intros <-. by apply (Hne i).
    - intros j Hj. apply E16. auto.
    - intros k' j Hk'. by apply lookup_delete_Some in Hk' as [_ ?].
    - intros k' j Hj Hk'. rewrite lookup_delete_ne; [done|].
      intros <-. apply (Hne j Hj). congruence. }
  split; [split; [|split]|split; [by eapply frame_Config|split; [done|split]]].
  - destruct Hl2. constructor; simpl; try done.
  - constructor; simpl; rewrite ?G1, ?G2, ?G3, ?G4, ?G5, ?G6, ?G7.
    + rewrite S1, !length_app. simpl. lia.
    + intros Hnil. apply (f_equal length) in Hnil. rewrite length_app in Hnil.
      simpl in Hnil. lia.
    + intros k' j Hk'. apply lookup_delete_Some in Hk' as [Hkk Hk'].
      destruct (S3 _ _ Hk') as [Hj Hkj].
      assert (j ≠ i) by (intros ->; congruence).
      split; [set_solver|]. by rewrite lookup_delete_ne.
    + intros j Hj. assert (j ≠ i) by auto.
      eapply itemOk_ext; [apply S4; set_solver|simpl..].
      * apply (fr_keyList _ _ _ Hfr j Hj).
      * apply (fr_valList _ _ _ Hfr j Hj).
      * apply (fr_sizes _ _ _ Hfr j Hj).
      * intros k' Hk'. apply (fr_keyMap_keep _ _ _ Hfr); [done|].
        destruct (S4 j) as (k'' & ? & ? & ? & _); [set_solver|]. congruence.
      * apply (frame_tracksSize _ _ _ Hfr).
      * apply (fr_sizeCalculation _ _ _ Hfr).
    + simpl. apply NoDup_cons. split; [|done]. intros Hf. apply (S6 i); set_solver.
    + intros j Hj. apply elem_of_cons in Hj as [->|Hj].
      * intros Hj. by apply (Hne i).
      * intros Hjr. apply (S6 j); set_solver.
    + intros j Hj. apply S7. set_solver.
    + intros _. simpl. rewrite S8 by (by destruct l1). rewrite !length_app. simpl. lia.
    + intros Hm. specialize (S9 Hm). rewrite !length_app in *. simpl in *. lia.
  - intros Ht. rewrite (frame_tracksSize _ _ _ Hfr) in Ht. simpl.
    rewrite G13, ?G8. destruct (Ecalc Ht) as [Hc Hle]. split; [|done].
    rewrite Hc. symmetry. apply sumSizes_ext. apply (fr_sizes _ _ _ Hfr).
  - simpl. rewrite G1. apply lookup_delete_eq.
  - split; [done|]. by exists l1, l2.
Qed.


Lemma Links_calculatedSize c l z : Links c l → Links (with_calculatedSize z c) l.
Proof. intros []. by constructor. Qed.

Lemma Store_calculatedSize c l z : Store c l [] → Store (with_calculatedSize z c) l [].
Proof. intros []. by constructor. Qed.

Lemma addItemSize_spec c2 L idx sz :
  let c3 := if tracksSize c2 then with_sizes (<[idx:=sz]> (sizes c2)) c2 else c2 in
  Config c3 → Links c3 (L ++ [idx]) → Store c3 (L ++ [idx]) [] →
  (tracksSize c2 = true → calculatedSize c3 = sumSizes c3 L ∧ 0 < sz ≤ maxSize c3) →
  ∃ c' dropped l2,
    addItemSize idx sz c2 = Ok c' ∧ L = dropped ++ l2 ∧
    Repr c' (l2 ++ [idx]) ∧ Config c' ∧ frame c3 c' (l2 ++ [idx]) ∧
    (tracksSize c2 = false → dropped = []) ∧
    (∀ d a, dropped = d ++ [a] → maxSize c3 - sz < sumSizes c3 (a :: l2)).
Proof.
  intros c3 Hcfg Hl Hs Hsz. unfold addItemSize.
  destruct (tracksSize c2) eqn:Ht.
  - fold c3. destruct (Hsz eq_refl) as [Hcalc [Hpos Hle]].
    assert (tracksSize c3 = true) as Ht3 by (unfold c3, tracksSize in *; done).
    assert (negb (maxSize c3 =? 0) = true) as ->.
    { apply negb_true_iff, Z.eqb_neq. lia. }
    assert (sizes c3 !! idx = Some sz) as Hidx by (unfold c3; simpl; by rewrite lookup_insert_eq).
    destruct (evictWhile_spec (size_ c3) (maxSize c3 - sz) c3 L idx)
      as (c4 & l1 & l2 & Hw & El & Hl4 & Hs4 & Hcalc4 & Hle4 & Hfr & Hmin); try done.
    { lia. }
    { rewrite (st_size _ _ _ Hs), length_app. simpl. lia. }
    rewrite Hw. simpl.
    rewrite (fr_sizes _ _ _ Hfr) by set_solver. rewrite Hidx. simpl.
    exists (with_calculatedSize (calculatedSize c4 + sz) c4), l1, l2.
    split; [done|]. split; [done|]. split; [split; [|split]|split; [|split; [|split]]].
    + by apply Links_calculatedSize.
    + by apply Store_calculatedSize.
    + intros _. simpl. rewrite (fr_maxSize _ _ _ Hfr).
      rewrite sumSizes_app. unfold sumSizes at 2. simpl.
      rewrite (fr_sizes _ _ _ Hfr) by set_solver. rewrite Hidx. simpl.
      assert (sumSizes (with_calculatedSize (calculatedSize c4 + sz) c4) l2 = sumSizes c4 l2)
        as -> by (by apply sumSizes_ext).
      assert (maxSize c3 = maxSize c2) by done. lia.
    + eapply Config_same; [eapply frame_Config; done|done..].
    + destruct Hfr. by constructor.
    + done.
    + done.
  - exists c2, [], L. split; [done|]. split; [done|].
    split; [split; [done|split; [done|]]|].
    + intros Ht'. congruence.
    + split; [done|]. split; [apply frame_refl|]. split; [done|].
      intros [|??] ? ?; done.
Qed.

(** [c'] holds at the indexes [L] what [c] holds there, in a cache of the same
    configuration. *)
Record keeps c c' (L : list nat) : Prop := {
  kp_max : max_ c' = max_ c;
  kp_maxSize : maxSize c' = maxSize c;
  kp_maxEntrySize : maxEntrySize c' = maxEntrySize c;
  kp_sizeCalculation : sizeCalculation c' = sizeCalculation c;
  kp_arrayClass : arrayClass c' = arrayClass c;
  kp_keyList : ∀ i, i ∈ L → keyList c' !! i = keyList c !! i;
  kp_valList : ∀ i, i ∈ L → valList c' !! i = valList c !! i;
  kp_sizes : ∀ i, i ∈ L → sizes c' !! i = sizes c !! i
}.

Lemma frame_keeps c c' L : frame c c' L → keeps c c' L.
Proof. intros []. by constructor. Qed.

Lemma keeps_mono c c' L L' : keeps c c' L → L' ⊆ L → keeps c c' L'.
Proof. intros [] Hsub. constructor; auto. Qed.

Lemma keeps_trans c1 c2 c3 L L' :
  keeps c1 c2 L → keeps c2 c3 L' → L' ⊆ L → keeps c1 c3 L'.
Proof.
  intros [] [] Hsub. constructor; try congruence.
  - intros i Hi. rewrite kp_keyList1 by done. apply kp_keyList0. by apply Hsub.
  - intros i Hi. rewrite kp_valList1 by done. apply kp_valList0. by apply Hsub.
  - intros i Hi. rewrite kp_sizes1 by done. apply kp_sizes0. by apply Hsub.
Qed.


(** The list of [c] without the index bound to [k], if any. *)
Definition others c (k : K) l (B : list nat) : Prop :=
  match keyMap c !! k with
  | Some i => ∃ l1 l3, l = l1 ++ i :: l3 ∧ B = l1 ++ l3
  | None => B = l
  end.

Lemma requireSize_cases c v :
  (∃ msg, requireSize v c = Exn (TypeError msg)) ∨
  (∃ sz, requireSize v c = Ok sz ∧
         (tracksSize c = true → ∃ f, sizeCalculation c = Some f ∧ sz = f v ∧ 0 < sz)).
Proof.
  unfold requireSize. destruct (tracksSize c).
  - destruct (sizeCalculation c) as [f|]; [|eauto].
    unfold isPosInt. destruct (0 <? f v) eqn:E; [|eauto].
    right. exists (f v). split; [done|]. intros _. exists f. apply Z.ltb_lt in E. done.
  - destruct (sizeCalculation c); [eauto|]. right. exists 0. split; done.
Qed.

Lemma set_eq k v c :
  set k v c =
  let? size := requireSize v c in
  if negb (maxEntrySize c =? 0) && (size >? maxEntrySize c)
  then let? '(_, c) := LRU.delete k c in Ok c
  else match (if decide (size_ c = 0%nat) then None else keyMap c !! k) with
       | None =>
           let? '(index, c) := newIndex c in
           addItemSize index size (linkNew k v index c)
       | Some index =>
           let? c := moveToTail index c in
           if decide (valList c !! index = Some v) then Ok c
           else let? c := removeItemSize index c in
                addItemSize index size (with_valList (<[index:=v]> (valList c)) c)
       end.
Proof. reflexivity. Qed.

Lemma Links_same c c' l :
  Links c l → next c' = next c → prev c' = prev c → head_ c' = head_ c →
  tail_ c' = tail_ c → max_ c' = max_ c → Links c' l.
Proof.
  intros [] E1 E2 E3 E4 E5. constructor; unfold inRange; rewrite ?E1, ?E2, ?E3, ?E4, ?E5; done.
Qed.

(** The value held at index [i] is replaced. *)
Lemma Store_update c c' L i v :
  Store c (L ++ [i]) [] →
  keyMap c' = keyMap c → keyList c' = keyList c → free c' = free c →
  initialFill c' = initialFill c → size_ c' = size_ c → max_ c' = max_ c →
  maxEntrySize c' = maxEntrySize c → sizeCalculation c' = sizeCalculation c →
  (∀ j, j ≠ i → valList c' !! j = valList c !! j ∧ sizes c' !! j = sizes c !! j) →
  valList c' !! i = Some v →
  (tracksSize c = true →
   ∃ f, sizeCalculation c = Some f ∧ sizes c' !! i = Some (f v) ∧ 0 < f v) →
  Store c' (L ++ [i]) [].
Proof.
  intros [S1 S2 S3 S4 S5 S6 S7 S8 S9] E1 E2 E3 E4 E5 E6 E7 E8 Hoth Hv Hsz.
  assert (tracksSize c' = tracksSize c) as Etr by (unfold tracksSize; congruence).
  constructor; rewrite ?E1, ?E2, ?E3, ?E4, ?E5, ?E6; try done.
  - intros Hnil. by destruct L.
  - intros j Hj. destruct (decide (j = i)) as [->|Hne].
    + destruct (S4 i Hj) as (k & v' & Hk & Hm & _).
      exists k, v. rewrite E1, E2, Etr, E8. done.
    + destruct (Hoth j Hne) as [Ev Es].
      eapply itemOk_ext; [by apply S4|by rewrite E2|done|done| |done|done].
      intros k Hk. rewrite E1. destruct (S4 j Hj) as (k' & ? & ? & ? & _). congruence.
Qed.

Lemma set_repr c l k v :
  Config c → Repr c l →
  (∃ msg, requireSize v c = Exn (TypeError msg) ∧ set k v c = Exn (TypeError msg)) ∨
  (∃ sz c' l',
     requireSize v c = Ok sz ∧ set k v c = Ok c' ∧ Repr c' l' ∧ Config c' ∧
     if negb (maxEntrySize c =? 0) && (sz >? maxEntrySize c)
     then LRU.delete k c = Ok (bool_decide (is_Some (keyMap c !! k)), c')
     else ∃ idx B dropped l2,
       l' = l2 ++ [idx] ∧ others c k l B ∧ B = dropped ++ l2 ∧
       keeps c c' l2 ∧
       keyMap c' !! k = Some idx ∧ keyList c' !! idx = Some k ∧
       valList c' !! idx = Some v ∧
       (max_ c = 0%nat → ∀ d a, dropped = d ++ [a] →
                          maxSize c - sz < sumSizes c (a :: l2))).
Proof.
  intros Hcfg Hr. rewrite set_eq.
  destruct (requireSize_cases c v) as [[msg Hq]|(sz & Hq & Hszf)].
  { left. exists msg. rewrite Hq. done. }
  right. exists sz. rewrite Hq. cbn [res_bind].
  destruct (negb (maxEntrySize c =? 0) && (sz >? maxEntrySize c)) eqn:Hover.
  { destruct (delete_repr c l k Hcfg Hr) as (b & c' & l' & Hd & Hr' & Hc' & _ & _ & Hm).
    exists c', l'. rewrite Hd. cbn [res_bind].
    split; [done|]. split; [done|]. split; [done|]. split; [done|].
    destruct (keyMap c !! k); destruct Hm as [-> _]; done. }
  assert (tracksSize c = true → 0 < sz ≤ maxSize c) as Hfit.
  { intros Ht. destruct (Hszf Ht) as (f & _ & _ & Hpos). split; [done|].
    unfold tracksSize in Ht. rewrite Ht in Hover. simpl in Hover.
    rewrite (cfg_entry _ Hcfg) in Hover. lia. }
  destruct Hr as (Hl & Hs & Hz).
  assert ((if decide (size_ c = 0%nat) then None else keyMap c !! k) = keyMap c !! k) as ->.
  { destruct (decide (size_ c = 0%nat)) as [Hz0|]; [|done].
    destruct (keyMap c !! k) as [i|] eqn:Hk; [|done].
    destruct (st_keyMap _ _ _ Hs _ _ Hk) as [Hi _].
    rewrite (st_size _ _ _ Hs) in Hz0. destruct l; [by apply elem_of_nil in Hi|done]. }
  destruct (keyMap c !! k) as [i|] eqn:Hk.
  - (* update *)
    destruct (st_keyMap _ _ _ Hs _ _ Hk) as [Hi Hki].
    apply list_elem_of_split in Hi as (l1 & l3 & ->).
    destruct (moveToTail_spec c l1 i l3 Hcfg Hl) as (c1 & Hm & Hl1 & Hsd).
    rewrite Hm. cbn [res_bind].
    assert (l1 ++ i :: l3 ≡ₚ (l1 ++ l3) ++ [i]) as Hp.
    { rewrite <- app_assoc. apply Permutation_app_head. rewrite Permutation_app_comm. done. }
    assert (Store c1 ((l1 ++ l3) ++ [i]) []) as Hs1.
    { eapply Store_relink; [done..|]. by destruct l1. }
    assert (Sized c1 ((l1 ++ l3) ++ [i])) as Hz1 by (eapply Sized_relink; done).
    assert (Config c1) as Hcfg1 by (destruct Hsd; eapply Config_same; done).
    rewrite app_assoc in Hl1.
    assert (i ∉ l1 ++ l3) as Hni.
    { destruct Hl1 as [Hnd _ _ _ _]. apply NoDup_app in Hnd as (_ & Hnd & _).
      intros Hi. apply (Hnd i Hi). set_solver. }
    assert (keeps c c1 (l1 ++ l3)) as Hk1.
    { destruct Hsd. constructor; intros; congruence. }
    assert (tracksSize c1 = tracksSize c) as Etr1.
    { destruct Hsd. unfold tracksSize. congruence. }
    destruct (decide (valList c1 !! i = Some v)) as [Hsame|Hdiff].
    + exists c1, ((l1 ++ l3) ++ [i]).
      split; [done|]. split; [done|]. split; [done|]. split; [done|].
      exists i, (l1 ++ l3), [], (l1 ++ l3).
      split; [done|]. split; [unfold others; rewrite Hk; eauto|]. split; [done|].
      split; [done|]. destruct Hsd. rewrite sd_keyMap0, sd_keyList0.
      split; [done|]. split; [done|]. split; [done|].
      intros _ [|??] ? ?; done.
    + assert (itemOk c1 i) as (k' & v0 & Hka & Hma & Hva & Hsz0).
      { apply Hs1. set_solver. }
      unfold removeItemSize. rewrite Etr1.
      set (c1' := if tracksSize c
                  then with_sizes (<[i:=0]> (sizes c1))
                         (with_calculatedSize (calculatedSize c1 - default 0 (sizes c1 !! i)) c1)
                  else c1).
      assert ((if tracksSize c
               then let? sz0 := of_option (sizes c1 !! i) in
                    Ok (with_sizes (<[i:=0]> (sizes c1))
                          (with_calculatedSize (calculatedSize c1 - sz0) c1))
               else Ok c1) = Ok c1') as ->.
      { unfold c1'. destruct (tracksSize c) eqn:Et; [|done].
        rewrite Etr1 in Hsz0. destruct (Hsz0 eq_refl) as (f & _ & -> & _). done. }
      cbn [res_bind].
      set (c2 := with_valList (<[i:=v]> (valList c1')) c1').
      assert (tracksSize c2 = tracksSize c) as Etr2.
      { unfold c2, c1', tracksSize in *. destruct (negb (maxEntrySize c =? 0)); simpl; done. }
      pose (c3 := if tracksSize c2 then with_sizes (<[i:=sz]> (sizes c2)) c2 else c2).
      assert (next c3 = next c1 ∧ prev c3 = prev c1 ∧ head_ c3 = head_ c1 ∧
              tail_ c3 = tail_ c1 ∧ max_ c3 = max_ c1 ∧ keyMap c3 = keyMap c1 ∧
              keyList c3 = keyList c1 ∧ free c3 = free c1 ∧
              initialFill c3 = initialFill c1 ∧ size_ c3 = size_ c1 ∧
              maxEntrySize c3 = maxEntrySize c1 ∧ maxSize c3 = maxSize c1 ∧
              sizeCalculation c3 = sizeCalculation c1 ∧ arrayClass c3 = arrayClass c1 ∧
              valList c3 = <[i:=v]> (valList c1) ∧
              (∀ j, j ≠ i → sizes c3 !! j = sizes c1 !! j) ∧
              (tracksSize c = true → sizes c3 !! i = Some sz ∧
                 calculatedSize c3 = calculatedSize c1 - default 0 (sizes c1 !! i)))
        as (E1 & E2 & E3 & E4 & E5 & E6 & E7 & E8 & E9 & E10 & E11 & E12 & E13 & E14 & E15 & E16 & E17).
      { unfold c3. rewrite Etr2. unfold c2, c1'.
        destruct (tracksSize c); simpl; split_and!; try done.
        - intros j Hj. rewrite !lookup_insert_ne by congruence. done.
        - intros _. by rewrite lookup_insert_eq. }
      destruct (addItemSize_spec c2 (l1 ++ l3) i sz)
        as (c' & dropped & l2 & Ha & EB & Hr' & Hc' & Hfr & _ & Hmin); fold c3.
      * eapply Config_same; [exact Hcfg1|done..].
      * eapply Links_same; done.
      * eapply (Store_update c1 c3); try done.
        -- intros j Hj. rewrite E15, lookup_insert_ne by congruence. split; [done|auto].
        -- by rewrite E15, lookup_insert_eq.
        -- rewrite Etr1. intros Ht. destruct (Hszf Ht) as (f & Hf & -> & Hpos).
           exists f. destruct Hsd. rewrite sd_sizeCalculation0. split; [done|].
           split; [|done]. by apply E17.
      * rewrite Etr2. intros Ht. destruct (E17 Ht) as [Ei Ec]. rewrite Ec, E12.
        destruct Hsd. rewrite sd_maxSize0. split; [|by apply Hfit].
        rewrite <- Etr1 in Ht. destruct (Hz1 Ht) as [Hc _]. rewrite Hc.
        rewrite sumSizes_app. unfold sumSizes at 2. simpl.
        assert (sumSizes c3 (l1 ++ l3) = sumSizes c1 (l1 ++ l3)) as ->; [|lia].
        apply sumSizes_ext. intros j Hj. apply E16. intros ->. done.
      * fold c3 in Hfr, Hmin. exists c', (l2 ++ [i]). rewrite Ha.
        split; [done|]. split; [done|]. split; [done|]. split; [done|].
        exists i, (l1 ++ l3), dropped, l2.
        split; [done|]. split; [unfold others; rewrite Hk; eauto|]. split; [done|].
        assert (keeps c1 c3 (l1 ++ l3)) as Hk3.
        { constructor; try done.
          - intros j Hj. by rewrite E7.
          - intros j Hj. rewrite E15, lookup_insert_ne; [done|]. intros ->. done.
          - intros j Hj. apply E16. intros ->. done. }
        split.
        { apply (keeps_trans c c3 c' (l1 ++ l3) l2).
          - eapply keeps_trans; [exact Hk1|exact Hk3|done].
          - eapply keeps_mono; [apply frame_keeps; exact Hfr|set_solver].
          - rewrite EB. set_solver. }
        split.
        { apply (fr_keyMap_keep _ _ _ Hfr); [set_solver|]. rewrite E6.
          destruct Hsd. by rewrite sd_keyMap0. }
        split.
        { rewrite (fr_keyList _ _ _ Hfr) by set_solver. rewrite E7.
          destruct Hsd. by rewrite sd_keyList0. }
        split.
        { rewrite (fr_valList _ _ _ Hfr) by set_solver. by rewrite E15, lookup_insert_eq. }
        intros _ d a Ed. specialize (Hmin d a Ed). rewrite E12 in Hmin.
        destruct Hsd. rewrite sd_maxSize0 in Hmin.
        assert (sumSizes c3 (a :: l2) = sumSizes c (a :: l2)) as <-; [|done].
        apply sumSizes_ext. intros j Hj.
        assert (j ∈ l1 ++ l3) as Hj'.
        { rewrite EB, Ed. set_solver. }
        rewrite E16 by (intros ->; done). by rewrite sd_sizes0.
  - (* addition *)
    destruct (newIndex_spec c l Hcfg Hl Hs) as (idx & c1 & l1 & Hn & Hl1 & Hs1 & Hemp & Hfr1 & Hcase).
    rewrite Hn. cbn [res_bind].
    assert (Config c1) as Hcfg1 by (by eapply frame_Config).
    assert (tracksSize c1 = tracksSize c) as Etr1 by (by eapply frame_tracksSize).
    assert (keyMap c1 !! k = None) as Hk1.
    { destruct (keyMap c1 !! k) as [j|] eqn:E; [|done].
      apply (fr_keyMap _ _ _ Hfr1) in E. congruence. }
    destruct (linkNew_spec c1 l1 idx k v sz Hcfg1 Hl1 Hs1 Hemp Hk1)
      as (Hl3 & Hs3 & G1 & G2 & G3 & G4 & G5 & G6 & G7 & G8 & G9 & G10 & G11 & G12).
    { rewrite Etr1. intros Ht. destruct (Hszf Ht) as (f & Hf & Hsz & Hpos).
      exists f. by rewrite (fr_sizeCalculation _ _ _ Hfr1). }
    set (c2 := linkNew k v idx c1) in *.
    assert (tracksSize c2 = tracksSize c1) as Etr2 by done.
    rewrite <- Etr2 in Hl3, Hs3, G1, G2, G3, G4, G5, G6, G7, G8, G9, G10, G11.
    set (c3 := if tracksSize c2 then with_sizes (<[idx:=sz]> (sizes c2)) c2 else c2) in *.
    destruct (addItemSize_spec c2 l1 idx sz)
      as (c' & dropped & l2 & Ha & EB & Hr' & Hc' & Hfr & Hnt & Hmin); fold c3.
    + eapply Config_same; [exact Hcfg1|done..].
    + done.
    + done.
    + intros Ht. rewrite Etr2, Etr1 in Ht. rewrite G5, G7.
      rewrite (fr_maxSize _ _ _ Hfr1). split; [|by apply Hfit].
      assert (sumSizes c3 l1 = sumSizes c1 l1) as ->.
      { apply sumSizes_ext. intros j Hj. by apply G4. }
      assert (sumSizes c1 l1 = sumSizes c l1) as ->.
      { apply sumSizes_ext. intros j Hj. by apply (fr_sizes _ _ _ Hfr1). }
      destruct (Hz Ht) as [Hc _].
      destruct Hcase as [[-> Ec]|(a & -> & _ & Ec)].
      * by rewrite Ec.
      * rewrite Ec, Ht, Hc. rewrite sumSizes_cons. lia.
    + fold c3 in Hfr, Hmin. exists c', (l2 ++ [idx]). rewrite Ha.
      split; [done|]. split; [done|]. split; [done|]. split; [done|].
      assert (keeps c c3 l1) as Hk3.
      { constructor; rewrite ?G6, ?G7, ?G8, ?G9, ?G10; try apply Hfr1.
        - intros j Hj. destruct (G4 j Hj) as (-> & _ & _). by apply (fr_keyList _ _ _ Hfr1).
        - intros j Hj. destruct (G4 j Hj) as (_ & -> & _). by apply (fr_valList _ _ _ Hfr1).
        - intros j Hj. destruct (G4 j Hj) as (_ & _ & ->). by apply (fr_sizes _ _ _ Hfr1). }
      assert (keeps c c' l2) as Hkeep.
      { apply (keeps_trans c c3 c' l1 l2).
        - done.
        - eapply keeps_mono; [apply frame_keeps; exact Hfr|set_solver].
        - rewrite EB. set_solver. }
      assert (keyMap c' !! k = Some idx) as Hkm.
      { apply (fr_keyMap_keep _ _ _ Hfr); [set_solver|]. by rewrite G1, lookup_insert_eq. }
      assert (keyList c' !! idx = Some k) as Hkl.
      { rewrite (fr_keyList _ _ _ Hfr) by set_solver. done. }
      assert (valList c' !! idx = Some v) as Hvl.
      { rewrite (fr_valList _ _ _ Hfr) by set_solver. done. }
      destruct Hcase as [[El1 Ec]|(a & El & Hfull & Ec)].
      * subst l1. exists idx, l, dropped, l2.
        split; [done|]. split; [unfold others; by rewrite Hk|]. split; [done|].
        split; [done|]. split; [done|]. split; [done|]. split; [done|].
        intros _ d a Ed. specialize (Hmin d a Ed). rewrite G7 in Hmin.
        rewrite (fr_maxSize _ _ _ Hfr1) in Hmin.
        assert (sumSizes c3 (a :: l2) = sumSizes c (a :: l2)) as <-; [|done].
        apply sumSizes_ext. intros j Hj. apply (kp_sizes _ _ _ Hk3).
        rewrite EB, Ed. set_solver.
      * subst l. exists idx, (a :: l1), (a :: dropped), l2.
        split; [done|]. split; [unfold others; by rewrite Hk|].
        split; [by rewrite EB|].
        split; [done|]. split; [done|]. split; [done|]. split; [done|].
        intros Hmax. rewrite (st_size _ _ _ Hs), Hmax in Hfull. done.
Qed.


(** *** The constructor *)

Lemma zeros_lookup {A} (z : A) max i : (i < max)%nat → zeros z max !! i = Some z.
Proof.
  intros Hi. unfold zeros. apply elem_of_list_to_map.
  - rewrite <- list_fmap_compose. simpl. rewrite list_fmap_id. apply NoDup_seq.
  - apply list_elem_of_fmap. exists i. split; [done|]. apply elem_of_seq. lia.
Qed.

Lemma new_wf max maxSz sizeCalc c :
  new max maxSz sizeCalc = Ok c → max ≠ 1%nat →
  wf c ∧ Repr c [] ∧ max_ c = max ∧ maxSize c = maxSz ∧ sizeCalculation c = sizeCalc.
Proof.
  unfold new. intros Hnew Hmax.
  destruct (if decide (max = 0%nat) then Ok PlainArray
            else match getUintArray max with
                 | Some cls => Ok cls
                 | None => Exn (RangeError "invalid max value")
                 end) as [cls|] eqn:Hcls; [|done].
  cbn [res_bind] in Hnew.
  repeat match type of Hnew with
         | (if ?b then _ else _) = _ => destruct b eqn:?; [done|]
         end.
  injection Hnew as <-.
  assert (maxSz = 0 ∨ 0 < maxSz) as Hsz.
  { unfold isPosInt in *. destruct (maxSz =? 0) eqn:E0; [left; lia|].
    simpl in *. right. destruct (0 <? maxSz) eqn:E; [lia|done]. }
  assert (Config
            {| max_ := max; maxSize := maxSz; maxEntrySize := maxSz;
               sizeCalculation := sizeCalc; arrayClass := cls; keyMap := ∅;
               keyList := ∅; valList := ∅;
               next := match cls with UintArray _ => zeros 0%nat max | PlainArray => ∅ end;
               prev := match cls with UintArray _ => zeros 0%nat max | PlainArray => ∅ end;
               head_ := 0; tail_ := 0; free := []; initialFill := 1; size_ := 0;
               calculatedSize := 0;
               sizes := if maxSz =? 0 then ∅ else zeros 0 max |}) as Hcfg.
  { constructor; simpl; try done.
    - unfold tracksSize. simpl. intros Ht. destruct Hsz as [->|?]; [done|lia].
    - destruct cls as [|bits]; [done|].
      destruct (decide (max = 0%nat)) as [->|Hm]; [done|]. split; [done|].
      unfold getUintArray in Hcls.
      destruct (N.of_nat max =? 0)%N; [done|].
      destruct (N.of_nat max <=? 2 ^ 8)%N eqn:E8;
        [inversion Hcls; subst; by apply N.leb_le|].
      destruct (N.of_nat max <=? 2 ^ 16)%N eqn:E16;
        [inversion Hcls; subst; by apply N.leb_le|].
      destruct (N.of_nat max <=? 2 ^ 32)%N eqn:E32;
        [inversion Hcls; subst; by apply N.leb_le|].
      destruct (N.of_nat max <=? 2 ^ 53 - 1)%N; done. }
  assert (Repr
            {| max_ := max; maxSize := maxSz; maxEntrySize := maxSz;
               sizeCalculation := sizeCalc; arrayClass := cls; keyMap := ∅;
               keyList := ∅; valList := ∅;
               next := match cls with UintArray _ => zeros 0%nat max | PlainArray => ∅ end;
               prev := match cls with UintArray _ => zeros 0%nat max | PlainArray => ∅ end;
               head_ := 0; tail_ := 0; free := []; initialFill := 1; size_ := 0;
               calculatedSize := 0;
               sizes := if maxSz =? 0 then ∅ else zeros 0 max |} []) as Hr.
  { split; [|split].
    - constructor; simpl; try done.
      + apply NoDup_nil_2.
      + intros i Hi. by apply elem_of_nil in Hi.
    - constructor; simpl; try done.
      + intros i Hi. by apply elem_of_nil in Hi.
      + apply NoDup_nil_2.
      + intros i Hi. by apply elem_of_nil in Hi.
      + intros i [Hi|Hi]; by apply elem_of_nil in Hi.
      + intros Hm. split; lia.
    - intros Ht. simpl. split; [done|]. unfold tracksSize in Ht. simpl in Ht.
      destruct Hsz as [->|?]; [done|lia]. }
  split; [split; [done|eauto]|]. done.
Qed.

(** *** The bindings in order *)

Definition entryAt c (i : nat) : option (K * V) :=
  k ← keyList c !! i; v ← valList c !! i; Some (k, v).

Definition entries c l : list (K * V) := omap (entryAt c) l.

Lemma rentries_entries c : rentries c = entries c (rindexes c).
Proof. done. Qed.

Lemma rindexesFrom_spec c fuel i r :
  NoDup (i :: r) → linked (next c) (prev c) (i :: r) →
  (∀ j, j ∈ i :: r → itemOk c j) → last (i :: r) = Some (tail_ c) →
  (length (i :: r) ≤ fuel)%nat →
  rindexesFrom fuel i c = i :: r.
Proof.
  revert fuel i. induction r as [|b r IH]; intros fuel i Hnd Hlk Hit Hlast Hfuel.
  - destruct fuel as [|fuel]; [simpl in Hfuel; lia|]. simpl.
    destruct (Hit i) as (k & v & -> & Hm & _); [set_solver|].
    rewrite decide_True by done. simpl in Hlast. injection Hlast as <-.
    by rewrite decide_True.
  - destruct fuel as [|fuel]; [simpl in Hfuel; lia|]. simpl.
    destruct (Hit i) as (k & v & -> & Hm & _); [set_solver|].
    rewrite decide_True by done.
    apply NoDup_cons in Hnd as [Hi Hnd].
    rewrite decide_False.
    2: { intros ->. apply Hi. apply (last_Some_elem_of (b :: r)).
         by rewrite last_cons_ne in Hlast. }
    apply linked_cons in Hlk as [Hib Hlk]. destruct (Hib b eq_refl) as [-> _].
    f_equal. apply IH; try done.
    + intros j Hj. apply Hit. set_solver.
    + simpl in Hfuel. simpl. lia.
Qed.

Lemma rindexes_Repr c l : Repr c l → rindexes c = l.
Proof.
  intros ([Hnd Hhd Htl Hlk Hrg] & Hs & _). unfold rindexes.
  rewrite (st_size _ _ _ Hs). destruct l as [|i r]; [done|].
  rewrite decide_False by done. rewrite (Hhd i eq_refl).
  apply rindexesFrom_spec; try done.
  - apply (st_items _ _ _ Hs).
  - destruct (last_is_Some_ne (i :: r)) as [t Ht]; [done|]. rewrite Ht. f_equal.
    symmetry. by apply Htl.
Qed.

Lemma entries_cons c i L kv :
  entryAt c i = Some kv → entries c (i :: L) = kv :: entries c L.
Proof. intros Hi. unfold entries. simpl. by rewrite Hi. Qed.

Lemma entries_app c l1 l2 : entries c (l1 ++ l2) = entries c l1 ++ entries c l2.
Proof. unfold entries. apply omap_app. Qed.

Lemma entries_keeps c c' L : keeps c c' L → entries c' L = entries c L.
Proof.
  intros Hk. unfold entries. induction L as [|i L IH]; [done|].
  assert (entryAt c' i = entryAt c i) as Hi.
  { unfold entryAt. rewrite (kp_keyList _ _ _ Hk), (kp_valList _ _ _ Hk) by set_solver. done. }
  assert (omap (entryAt c') L = omap (entryAt c) L) as HL.
  { apply IH. eapply keeps_mono; [done|set_solver]. }
  change (omap (entryAt c') (i :: L))
    with (match entryAt c' i with
          | Some y => y :: omap (entryAt c') L
          | None => omap (entryAt c') L
          end).
  by rewrite Hi, HL.
Qed.

(** The sum of [f] over the values of a list of bindings. *)
Definition sizeOf (f : V → Z) (es : list (K * V)) : Z :=
  foldr (λ kv acc, f kv.2 + acc) 0 es.

Lemma sizeOf_app f es1 es2 : sizeOf f (es1 ++ es2) = sizeOf f es1 + sizeOf f es2.
Proof. unfold sizeOf. induction es1; simpl; lia. Qed.

Lemma sumSizes_entries c L f :
  (∀ i, i ∈ L → itemOk c i) → tracksSize c = true → sizeCalculation c = Some f →
  sumSizes c L = sizeOf f (entries c L).
Proof.
  intros Hit Ht Hf. unfold entries. induction L as [|i L IH]; [done|].
  rewrite sumSizes_cons. simpl.
  destruct (Hit i) as (k & v & Hk & _ & Hv & Hsz); [set_solver|].
  destruct (Hsz Ht) as (f' & Hf' & Hs & _).
  assert (f' = f) as -> by congruence.
  unfold entryAt at 1. rewrite Hk, Hv. simpl. rewrite Hs. simpl.
  rewrite IH; [done|]. intros; apply Hit; set_solver.
Qed.

Lemma entryAt_item c i : itemOk c i → ∃ k v, entryAt c i = Some (k, v) ∧ keyMap c !! k = Some i.
Proof.
  intros (k & v & Hk & Hm & Hv & _). exists k, v. unfold entryAt. by rewrite Hk, Hv.
Qed.

Lemma entries_length c L : (∀ i, i ∈ L → itemOk c i) → length (entries c L) = length L.
Proof.
  intros Hit. induction L as [|i L IH]; [done|].
  destruct (entryAt_item c i) as (k & v & Hi & _); [apply Hit; set_solver|].
  rewrite (entries_cons _ _ _ _ Hi). simpl. rewrite IH; [done|].
  intros; apply Hit; set_solver.
Qed.

(** The cache accounts exactly for what it holds, within its capacity. *)
Lemma wf_bounded c :
  wf c → tracksSize c = true →
  (is_Some (sizeCalculation c) → residentSize c = calculatedSize c) ∧
  residentSize c ≤ maxSize c ∧ calculatedSize c ≤ maxSize c.
Proof.
  intros (Hcfg & l & Hr) Ht. assert (Hr' := Hr). destruct Hr' as (Hl & Hs & Hz).
  destruct (Hz Ht) as [Hc Hle]. unfold residentSize.
  rewrite rentries_entries, (rindexes_Repr c l Hr).
  destruct (sizeCalculation c) as [f|] eqn:Hf.
  - change (foldr (λ kv acc, f kv.2 + acc) 0 (entries c l)) with (sizeOf f (entries c l)).
    rewrite <- (sumSizes_entries c l f); [|apply (st_items _ _ _ Hs)|done..].
    rewrite <- Hc. done.
  - split; [by intros [? ?]|]. split; [|done].
    apply Z.lt_le_incl. by apply (cfg_pos _ Hcfg).
Qed.


(** *** What a client of the cache can rely on *)

(** Two caches of the same configuration. *)
Definition sameConfig c c' : Prop :=
  max_ c' = max_ c ∧ maxSize c' = maxSize c ∧ maxEntrySize c' = maxEntrySize c ∧
  sizeCalculation c' = sizeCalculation c.

Lemma wf_get c k :
  wf c →
  ∃ c', get k c = Ok (peek k c, c') ∧ wf c' ∧ sameConfig c c' ∧
        (∀ k', peek k' c' = peek k' c) ∧ calculatedSize c' = calculatedSize c.
Proof.
  intros (Hcfg & l & Hr).
  destruct (get_repr c l k Hcfg Hr) as (c' & l' & Hg & Hr' & Hc' & Hsd & _).
  exists c'. split; [done|]. split; [split; eauto|].
  destruct Hsd. split; [by repeat split|]. split; [|done].
  intros k'. unfold peek. by rewrite sd_keyMap0, sd_valList0.
Qed.

Lemma peek_Repr c l k v :
  Repr c l → peek k c = Some v ↔ ∃ i, i ∈ l ∧ keyList c !! i = Some k ∧ valList c !! i = Some v.
Proof.
  intros (Hl & Hs & _). unfold peek. split.
  - destruct (keyMap c !! k) as [i|] eqn:Hk; [|done]. simpl. intros Hv.
    destruct (st_keyMap _ _ _ Hs _ _ Hk). eauto.
  - intros (i & Hi & Hk & Hv). destruct (st_items _ _ _ Hs i Hi) as (k' & v' & Hk' & Hm & _).
    assert (k' = k) as -> by congruence. rewrite Hm. done.
Qed.

Lemma wf_delete c k :
  wf c →
  ∃ b c', LRU.delete k c = Ok (b, c') ∧ wf c' ∧ sameConfig c c' ∧
          b = bool_decide (is_Some (peek k c)) ∧
          peek k c' = None ∧ (∀ k', k' ≠ k → peek k' c' = peek k' c).
Proof.
  intros (Hcfg & l & Hr).
  destruct (delete_repr c l k Hcfg Hr) as (b & c' & l' & Hd & Hr' & Hc' & Hfr & Hnone & Hm).
  exists b, c'. split; [done|]. split; [split; eauto|].
  split; [destruct Hfr; by repeat split|].
  assert (Hr0 := Hr). destruct Hr0 as (Hl & Hs & _).
  split.
  { unfold peek. destruct (keyMap c !! k) as [i|] eqn:Hk.
    - destruct Hm as [-> _]. simpl.
      destruct (st_keyMap _ _ _ Hs _ _ Hk) as [Hi _].
      destruct (st_items _ _ _ Hs i Hi) as (? & v & _ & _ & -> & _).
      by rewrite bool_decide_true.
    - by destruct Hm as [-> _]. }
  split; [unfold peek; by rewrite Hnone|].
  intros k' Hne. destruct (keyMap c !! k) as [i|] eqn:Hk.
  - destruct Hm as (_ & l1 & l2 & -> & ->).
    unfold peek. destruct (keyMap c !! k') as [j|] eqn:Hk'.
    + destruct (st_keyMap _ _ _ Hs _ _ Hk') as [Hj Hkj].
      destruct (st_keyMap _ _ _ Hs _ _ Hk) as [_ Hki].
      assert (j ≠ i) by (intros ->; congruence).
      assert (j ∈ l1 ++ l2) as Hj' by set_solver.
      rewrite (fr_keyMap_keep _ _ _ Hfr _ _ Hj' Hk'). simpl.
      by apply (fr_valList _ _ _ Hfr).
    + destruct (keyMap c' !! k') as [j|] eqn:Hk''; [|done].
      apply (fr_keyMap _ _ _ Hfr) in Hk''. congruence.
  - destruct Hm as (_ & _ & ->). done.
Qed.

(** [v] fits in the cache: [set] stores it. *)
Definition fits c (v : V) : Prop :=
  ∃ sz, requireSize v c = Ok sz ∧ (negb (maxEntrySize c =? 0) && (sz >? maxEntrySize c)) = false.

Lemma wf_set c k v :
  wf c →
  (∃ msg, requireSize v c = Exn (TypeError msg) ∧ set k v c = Exn (TypeError msg)) ∨
  (∃ c', set k v c = Ok c' ∧ wf c' ∧ sameConfig c c' ∧
         (fits c v → peek k c' = Some v) ∧
         (¬ fits c v → peek k c' = None) ∧
         (∀ k', k' ≠ k → peek k' c' = peek k' c ∨ peek k' c' = None)).
Proof.
  intros (Hcfg & l & Hr).
  destruct (set_repr c l k v Hcfg Hr) as [?|(sz & c' & l' & Hq & Hset & Hr' & Hc' & Hcase)];
    [by left|right].
  exists c'. split; [done|]. split; [split; eauto|].
  destruct (negb (maxEntrySize c =? 0) && (sz >? maxEntrySize c)) eqn:Hover.
  - destruct (wf_delete c k) as (b & c'' & Hd & _ & Hsc & _ & Hnone & Hoth); [split; eauto|].
    rewrite Hcase in Hd. injection Hd as _ <-.
    split; [done|]. split; [|split].
    + intros (sz' & Hq' & Hfit). congruence.
    + done.
    + intros k' Hne. left. by apply Hoth.
  - destruct Hcase as (idx & B & dropped & l2 & -> & HB & -> & Hkeep & Hkm & Hkl & Hvl & _).
    split; [destruct Hkeep; by repeat split|].
    split; [intros _; unfold peek; by rewrite Hkm|].
    split; [intros Hnf; exfalso; apply Hnf; by exists sz|].
    intros k' Hne. unfold peek at 1.
    destruct (keyMap c' !! k') as [j|] eqn:Hk'; [|right; unfold peek; by rewrite Hk'].
    simpl. left.
    destruct Hr' as (Hl' & Hs' & _). destruct (st_keyMap _ _ _ Hs' _ _ Hk') as [Hj Hkj].
    assert (j ≠ idx) by (intros ->; congruence).
    assert (j ∈ l2) as Hj2 by set_solver.
    rewrite (kp_valList _ _ _ Hkeep j Hj2). rewrite (kp_keyList _ _ _ Hkeep j Hj2) in Hkj.
    assert (j ∈ l) as Hjl.
    { unfold others in HB.
      destruct (keyMap c !! k) as [i|]; [destruct HB as (l1 & l3 & -> & HB)|subst l];
        [|set_solver].
      assert (j ∈ dropped ++ l2) as Hin by set_solver. rewrite HB in Hin. set_solver. }
    destruct Hr as (_ & Hs & _).
    destruct (st_items _ _ _ Hs j Hjl) as (k0 & v' & Hk0 & Hm0 & Hv0 & _).
    assert (k0 = k') as -> by congruence.
    unfold peek. rewrite Hm0. done.
Qed.

Lemma entries_filter_other c L k :
  (∀ j, j ∈ L → itemOk c j) → (∀ j, j ∈ L → keyMap c !! k ≠ Some j) →
  filter (λ e, e.1 ≠ k) (entries c L) = entries c L.
Proof.
  intros Hit Hk. induction L as [|j L IH]; [done|].
  destruct (entryAt_item c j) as (k' & v' & Hj & Hm); [apply Hit; set_solver|].
  rewrite (entries_cons _ _ _ _ Hj). rewrite filter_cons_True.
  - f_equal. apply IH; intros; [apply Hit|apply Hk]; set_solver.
  - simpl. intros ->. by apply (Hk j); [set_solver|].
Qed.

Lemma entries_filter c l k B :
  Repr c l → others c k l B → filter (λ e, e.1 ≠ k) (entries c l) = entries c B.
Proof.
  intros (Hl & Hs & _) HB. unfold others in HB.
  destruct (keyMap c !! k) as [i|] eqn:Hk.
  - destruct HB as (l1 & l3 & -> & ->).
    destruct (st_keyMap _ _ _ Hs _ _ Hk) as [Hi Hki].
    destruct (st_items _ _ _ Hs i Hi) as (k' & v & Hk' & _ & Hv & _).
    assert (entryAt c i = Some (k, v)) as Hei by (unfold entryAt; by rewrite Hki, Hv).
    destruct Hl as [Hnd _ _ _ _]. apply NoDup_mid in Hnd as (_ & _ & Hi1 & Hi3 & _).
    rewrite !entries_app, (entries_cons _ _ _ _ Hei), filter_app, filter_cons_False
      by (simpl; intros Hne; by apply Hne).
    f_equal; apply entries_filter_other.
    + intros j Hj. apply (st_items _ _ _ Hs). set_solver.
    + intros j Hj. rewrite Hk. intros [= ->]. done.
    + intros j Hj. apply (st_items _ _ _ Hs). set_solver.
    + intros j Hj. rewrite Hk. intros [= ->]. done.
  - subst B. apply entries_filter_other.
    + apply (st_items _ _ _ Hs).
    + intros j _. by rewrite Hk.
Qed.

Lemma entries_sameData c c' L : sameData c c' → entries c' L = entries c L.
Proof.
  intros Hsd. unfold entries. f_equal. unfold entryAt.
  by rewrite (sd_keyList _ _ Hsd), (sd_valList _ _ Hsd).
Qed.

(** A get moves the binding of its key to the most recently used end, and
    leaves the order of the others as it was. *)
Lemma wf_get_order c k :
  wf c →
  ∃ c', get k c = Ok (peek k c, c') ∧
        rentries c' = match peek k c with
                      | Some v => filter (λ e, e.1 ≠ k) (rentries c) ++ [(k, v)]
                      | None => rentries c
                      end.
Proof.
  intros (Hcfg & l & Hr).
  destruct (get_repr c l k Hcfg Hr) as (c' & l' & Hg & Hr' & Hc' & Hsd & Hl').
  exists c'. split; [done|].
  rewrite !rentries_entries, (rindexes_Repr _ _ Hr), (rindexes_Repr _ _ Hr').
  rewrite (entries_sameData _ _ _ Hsd).
  assert (Hr0 := Hr). destruct Hr0 as (Hl & Hs & _).
  unfold peek. destruct (keyMap c !! k) as [i|] eqn:Hk; simpl.
  - destruct Hl' as (l1 & l2 & -> & ->).
    destruct (st_keyMap _ _ _ Hs _ _ Hk) as [Hi Hki].
    destruct (st_items _ _ _ Hs i Hi) as (k' & v & Hk' & _ & Hv & _).
    assert (entryAt c i = Some (k, v)) as Hei by (unfold entryAt; by rewrite Hki, Hv).
    rewrite Hv.
    rewrite (entries_filter c (l1 ++ i :: l2) k (l1 ++ l2) Hr).
    + rewrite !entries_app, (entries_cons _ _ _ _ Hei). simpl. by rewrite <- app_assoc.
    + unfold others. rewrite Hk. by exists l1, l2.
  - by subst l'.
Qed.

(** Inserting a binding that fits evicts the least recently used bindings
    first, and only as many as it takes. *)
Lemma wf_set_evicts c k v f :
  wf c → max_ c = 0%nat → sizeCalculation c = Some f → 0 < f v ≤ maxSize c →
  ∃ c' evicted kept,
    set k v c = Ok c' ∧ wf c' ∧
    filter (λ e, e.1 ≠ k) (rentries c) = evicted ++ kept ∧
    rentries c' = kept ++ [(k, v)] ∧
    sizeOf f kept + f v ≤ maxSize c ∧
    (∀ ev e, evicted = ev ++ [e] → maxSize c < f e.2 + sizeOf f kept + f v).
Proof.
  intros (Hcfg & l & Hr) Hmax Hf Hv.
  assert (tracksSize c = true) as Ht.
  { unfold tracksSize. rewrite (cfg_entry _ Hcfg). apply negb_true_iff, Z.eqb_neq. lia. }
  assert (requireSize v c = Ok (f v)) as Hq.
  { unfold requireSize. rewrite Ht, Hf. unfold isPosInt.
    destruct (0 <? f v) eqn:E; [done|lia]. }
  destruct (set_repr c l k v Hcfg Hr)
    as [(msg & Hq' & _)|(sz & c' & l' & Hq' & Hset & Hr' & Hc' & Hcase)]; [congruence|].
  assert (sz = f v) as -> by congruence.
  assert (negb (maxEntrySize c =? 0) && (f v >? maxEntrySize c) = false) as Hover.
  { rewrite (cfg_entry _ Hcfg). apply andb_false_iff. right. lia. }
  rewrite Hover in Hcase.
  destruct Hcase as (idx & B & dropped & l2 & -> & HB & -> & Hkeep & Hkm & Hkl & Hvl & Hmin).
  exists c', (entries c dropped), (entries c l2).
  split; [done|]. split; [split; eauto|].
  rewrite !rentries_entries, (rindexes_Repr _ _ Hr), (rindexes_Repr _ _ Hr').
  assert (Hr0 := Hr). destruct Hr0 as (Hl & Hs & Hz).
  assert (∀ j, j ∈ dropped ++ l2 → j ∈ l) as Hsub.
  { intros j Hj. unfold others in HB.
    destruct (keyMap c !! k) as [i|]; [destruct HB as (l1 & l3 & -> & HB)|by subst l].
    rewrite HB in Hj. set_solver. }
  assert (entryAt c' idx = Some (k, v)) as Hidx by (unfold entryAt; by rewrite Hkl, Hvl).
  split; [by rewrite (entries_filter c l k _ Hr HB), entries_app|].
  split.
  { rewrite entries_app, (entries_cons _ _ _ _ Hidx). simpl.
    by rewrite (entries_keeps c c' l2 Hkeep). }
  assert (sumSizes c l2 = sizeOf f (entries c l2)) as El2.
  { apply sumSizes_entries; [|done..]. intros j Hj. apply (st_items _ _ _ Hs), Hsub. set_solver. }
  split.
  { destruct Hr' as (_ & Hs' & Hz').
    assert (tracksSize c' = true) as Ht'.
    { destruct Hkeep. unfold tracksSize in *. congruence. }
    destruct (Hz' Ht') as [Hc Hle]. rewrite Hc in Hle.
    rewrite (kp_maxSize _ _ _ Hkeep) in Hle.
    rewrite sumSizes_app in Hle. unfold sumSizes at 2 in Hle. simpl in Hle.
    destruct (st_items _ _ _ Hs' idx) as (? & v' & _ & _ & Hv' & Hsz'); [set_solver|].
    destruct (Hsz' Ht') as (f' & Hf' & Hsi & _).
    rewrite (kp_sizeCalculation _ _ _ Hkeep), Hf in Hf'. injection Hf' as <-.
    rewrite Hvl in Hv'. injection Hv' as <-.
    rewrite Hsi in Hle. simpl in Hle.
    assert (sumSizes c' l2 = sumSizes c l2) as E.
    { apply sumSizes_ext. apply (kp_sizes _ _ _ Hkeep). }
    rewrite E, El2 in Hle. lia. }
  intros ev e Hev.
  destruct dropped as [|a0 d0] using rev_ind.
  { destruct ev; done. }
  clear IHd0.
  destruct (entryAt_item c a0) as (ka & va & Ha & _).
  { apply (st_items _ _ _ Hs), Hsub. set_solver. }
  rewrite entries_app, (entries_cons _ _ _ _ Ha) in Hev. simpl in Hev.
  apply app_inj_tail in Hev as [_ <-].
  specialize (Hmin Hmax d0 a0 eq_refl).
  assert (sumSizes c (a0 :: l2) = sizeOf f (entries c (a0 :: l2))) as E.
  { apply sumSizes_entries; [|done..]. intros j Hj. apply (st_items _ _ _ Hs), Hsub. set_solver. }
  rewrite E, (entries_cons _ _ _ _ Ha) in Hmin. unfold sizeOf at 1 in Hmin. simpl in Hmin.
  fold (sizeOf f (entries c l2)) in Hmin. simpl. lia.
Qed.

End Invariant.
End LRUFacts.

(** * Executions of coroutines *)

(** The events an action adds to the trace. *)
Definition emitted {X} (a : World → X * World) (w : World) : list Event :=
  drop (length (trace w)) (trace (a w).2).

(** [completes I E c evs r]: an execution of [c] to its end.  Each action
    runs in a world of the dispatcher that satisfies [I], every awaited
    promise that rejects does so with a reason in [E]; [evs] are the events
    of the actions of [c] and [r] is its outcome. *)
Fixpoint completes {R} (I : World → Prop) (E : Err → Prop)
    (c : Co R) (evs : list Event) (r : res R) : Prop :=
  match c with
  | Ret x => evs = [] ∧ r = Ok x
  | Throw e => evs = [] ∧ r = Exn e
  | Hang => False
  | Act a k =>
      ∃ w evs', I w ∧ evs = emitted a w ++ evs' ∧ completes I E (k (a w).1) evs' r
  | Await p k => ∃ s, (∀ e, s = Exn e → E e) ∧ completes I E (k s) evs r
  | Pause k => completes I E k evs r
  end.

(** [holds I A E Q c]: every action of [c] satisfies [A], and [c] can only end
    with an outcome in [Q], in the executions that [completes I E] describes. *)
Fixpoint holds {R} (I : World → Prop) (A : ∀ X, (World → X * World) → Prop)
    (E : Err → Prop) (Q : res R → Prop) (c : Co R) : Prop :=
  match c with
  | Ret x => Q (Ok x)
  | Throw e => Q (Exn e)
  | Hang => True
  | Act a k => A _ a ∧ ∀ w, I w → holds I A E Q (k (a w).1)
  | Await p k => ∀ s, (∀ e, s = Exn e → E e) → holds I A E Q (k s)
  | Pause k => holds I A E Q k
  end.

(** A coroutine between two runs keeps the property. *)
Definition taskHolds {R} (I : World → Prop) (A : ∀ X, (World → X * World) → Prop)
    (E : Err → Prop) (Q : res R → Prop) (t : Task R) : Prop :=
  match t with
  | Waiting p k => ∀ s, (∀ e, s = Exn e → E e) → holds I A E Q (k s)
  | Paused k => holds I A E Q k
  | Finished r => Q r
  | Hung => True
  end.

Section Holds.
Context (I : World → Prop) (A : ∀ X, (World → X * World) → Prop) (E : Err → Prop).

Lemma holds_mono {R} (Q Q' : res R → Prop) c :
  (∀ r, Q r → Q' r) → holds I A E Q c → holds I A E Q' c.
Proof.
  intros HQ. induction c as [| | |X a k IH|p k IH|k IH]; simpl; eauto.
  intros [Ha Hk]. split; [done|]. eauto.
Qed.

Lemma holds_bind {R S} (Q : res S → Prop) (c : Co R) (f : R → Co S) :
  holds I A E (λ r, match r with
                    | Ok x => holds I A E Q (f x)
                    | Exn e => Q (Exn e)
                    end) c →
  holds I A E Q (bind c f).
Proof.
  induction c as [| | |X a k IH|p k IH|k IH]; simpl; eauto.
  intros [Ha Hk]. split; [done|]. eauto.
Qed.

Lemma holds_tryCatch {R} (Q : res R → Prop) (c : Co R) (h : Err → Co R) :
  holds I A E (λ r, match r with
                    | Ok x => Q (Ok x)
                    | Exn e => holds I A E Q (h e)
                    end) c →
  holds I A E Q (tryCatch c h).
Proof.
  induction c as [| | |X a k IH|p k IH|k IH]; simpl; eauto.
  intros [Ha Hk]. split; [done|]. eauto.
Qed.

Lemma holds_call {R} (Q : res R → Prop) (c : Co R) :
  holds I A E Q c → holds I A E Q (call c).
Proof.
  induction c as [| | |X a k IH|p k IH|k IH]; simpl; eauto.
  intros [Ha Hk]. split; [done|]. eauto.
Qed.

Lemma holds_bind_actRes {X S} (Q : res S → Prop) (a : World → res X * World)
    (f : X → Co S) :
  A _ a →
  (∀ w, I w → match (a w).1 with
              | Ok x => holds I A E Q (f x)
              | Exn e => Q (Exn e)
              end) →
  holds I A E Q (bind (actRes a) f).
Proof.
  intros Ha Hk. split; [done|]. intros w Hw. specialize (Hk w Hw).
  by destruct (a w).1.
Qed.

Lemma holds_bind_act {X S} (Q : res S → Prop) (a : World → X * World)
    (f : X → Co S) :
  A _ a → (∀ w, I w → holds I A E Q (f (a w).1)) →
  holds I A E Q (bind (act a) f).
Proof. intros Ha Hk. split; [done|]. intros w Hw. by apply Hk. Qed.

(** What [holds] says of the executions. *)
Lemma holds_completes {R} (Q : res R → Prop) (c : Co R) evs r :
  holds I A E Q c → completes I E c evs r → Q r.
Proof.
  revert evs. induction c as [| | |X a k IH|p k IH|k IH]; simpl; intros evs Hh Hc.
  - by destruct Hc as [_ ->].
  - by destruct Hc as [_ ->].
  - done.
  - destruct Hh as [_ Hk]. destruct Hc as (w & evs' & Hw & _ & Hc). eauto.
  - destruct Hc as (s & Hs & Hc). eauto.
  - eauto.
Qed.

Lemma holds_events {R} (Q : res R → Prop) (P : Event → Prop) (c : Co R) evs r :
  (∀ X a w, A X a → I w → Forall P (emitted a w)) →
  holds I A E Q c → completes I E c evs r → Forall P evs.
Proof.
  intros HA. revert evs.
  induction c as [| | |X a k IH|p k IH|k IH]; simpl; intros evs Hh Hc.
  - by destruct Hc as [-> _].
  - by destruct Hc as [-> _].
  - done.
  - destruct Hh as [Ha Hk]. destruct Hc as (w & evs' & Hw & -> & Hc).
    apply Forall_app. split; eauto.
  - destruct Hc as (s & Hs & Hc). eauto.
  - eauto.
Qed.

(** What [holds] says of one run of the scheduler. *)
Lemma holds_runSync {R} (Q : res R → Prop) (c : Co R) w t w' :
  (∀ X a w, A X a → I w → I (a w).2) →
  holds I A E Q c → I w → runSync c w = (t, w') →
  I w' ∧ taskHolds I A E Q t.
Proof.
  intros HA. revert w.
  induction c as [| | |X a k IH|p k IH|k IH]; simpl; intros w Hh Hw Hrun;
    try (injection Hrun as <- <-; done).
  destruct Hh as [Ha Hk]. specialize (Hk w Hw). specialize (HA _ a w Ha Hw).
  destruct (a w) as [x w1]. simpl in *. by apply (IH x w1).
Qed.

End Holds.

(** * The actions of the backend methods *)

(** The actions of the methods that cannot throw. *)
Inductive prim : ∀ X : Type, (World → X * World) → Prop :=
| p_fetchHead url : prim Val (fetchHead url)
| p_fetchRange url first last : prim Val (fetchRange url first last)
| p_newArrayBuffer len : prim nat (newArrayBuffer len)
| p_viewRead view : prim (list byte) (viewRead view)
| p_debug sys msg : prim unit (log (EvDebug sys msg))
| p_warn msg : prim unit (log (EvWarn msg))
| p_getSwapNeeded : prim bool getSwapNeeded
| p_getMaxPageSize : prim Z getMaxPageSize.

(** The actions of the methods that can throw, but for the assignment to
    entry.pageSize. *)
Inductive primRes : ∀ X : Type, (World → res X * World) → Prop :=
| p_filesGet url : primRes Val (filesGet url)
| p_filesSet url v : primRes unit (filesSet url v)
| p_cacheGet key : primRes Val (cacheGet key)
| p_cacheSet key v : primRes unit (cacheSet key v)
| p_cacheDelete key : primRes unit (cacheDelete key)
| p_entryOf entry : primRes FileEntry (entryOf entry)
| p_thenConst resp v : primRes Val (thenConst resp v)
| p_viewSet view src : primRes unit (viewSet view src)
| p_viewStoreElement view len v : primRes unit (viewStoreElement view len v).

(** The errors that the methods throw themselves, the page-boundary error
    apart. *)
Definition thrown (e : Err) : Prop :=
  match e with
  | ErrSpansPageBoundary _ _ | FetchFailed _ | UndefinedIndex => False
  | _ => True
  end.

Definition errs {R} (Ex : Err → Prop) (r : res R) : Prop :=
  match r with
  | Ok _ => True
  | Exn e => Ex e
  end.

(** An action that can throw, with the errors it throws. *)
Definition fallible (I : World → Prop) (A : ∀ X, (World → X * World) → Prop)
    (Ex : Err → Prop) {X} (a : World → res X * World) : Prop :=
  A _ a ∧ ∀ w e, I w → (a w).1 = Exn e → Ex e.

Section Methods.
Context (I : World → Prop) (A : ∀ X, (World → X * World) → Prop)
        (E Ex : Err → Prop).
Hypothesis HE : ∀ e, E e → Ex e.
Hypothesis Hthrown : ∀ e, thrown e → Ex e.
Hypothesis HA : ∀ X a, prim X a → A X a.
Hypothesis HR : ∀ X a, primRes X a → fallible I A Ex a.

Local Abbreviation ok c := (holds I A E (errs Ex) c).

Lemma h_bind {R S} (c : Co R) (f : R → Co S) :
  ok c → (∀ x, ok (f x)) → ok (bind c f).
Proof.
  intros Hc Hf. apply holds_bind. revert Hc. apply holds_mono.
  intros [x|e]; simpl; eauto.
Qed.

Lemma h_act {X} (a : World → X * World) : prim X a → ok (act a).
Proof. intros Ha. split; [by apply HA|]. by intros. Qed.

Lemma h_fallible {X} (a : World → res X * World) : fallible I A Ex a → ok (actRes a).
Proof.
  intros [Ha He]. split; [done|]. intros w Hw.
  destruct (a w).1 as [x|e] eqn:Er; simpl; eauto.
Qed.

Lemma h_actRes {X} (a : World → res X * World) : primRes X a → ok (actRes a).
Proof. intros Ha. by apply h_fallible, HR. Qed.

Lemma h_yield v : ok (yield v).
Proof.
  destruct v; simpl; try by apply Hthrown.
  intros [x|e] Hs; simpl; eauto.
Qed.

Lemma h_awaitIfPromise v : ok (awaitIfPromise v).
Proof. unfold awaitIfPromise. destruct (isPromise v); [apply h_yield|done]. Qed.

Lemma h_forEach {X} (l : list X) body : (∀ x, ok (body x)) → ok (forEach l body).
Proof. intros Hb. induction l; simpl; [done|]. by apply h_bind. Qed.

Lemma h_call {R} (c : Co R) : ok c → ok (call c).
Proof. apply holds_call. Qed.

Lemma h_tryCatch {R} (c : Co R) h : ok c → (∀ e, ok (h e)) → ok (tryCatch c h).
Proof.
  intros Hc Hh. apply holds_tryCatch. revert Hc. apply holds_mono.
  intros [x|e]; simpl; eauto.
Qed.

Ltac hstep :=
  first
    [ apply h_bind
    | apply h_awaitIfPromise
    | apply h_yield
    | apply h_forEach
    | apply h_actRes; constructor
    | apply h_act; constructor
    | apply Hthrown; exact Logic.I
    | progress intros
    | exact Logic.I
    | lazymatch goal with
      | |- holds _ _ _ _ (if ?b then _ else _) => destruct b
      | |- holds _ _ _ _ (match ?x with _ => _ end) => destruct x
      end
    | progress simpl ].

Ltac hsolve := repeat hstep.

Lemma h_xOpen m : ok (xOpen m).
Proof. unfold xOpen. hsolve. Qed.

Lemma h_xAccess m consumer : ok (xAccess m consumer).
Proof.
  unfold xAccess. apply h_bind; [|done].
  apply h_tryCatch; [|intros; apply h_actRes; constructor].
  apply h_bind; [apply h_call, h_xOpen|]. hsolve.
Qed.

Lemma h_xFilesize m consumer : ok (xFilesize m consumer).
Proof. unfold xFilesize. hsolve. Qed.

Lemma h_chunkSizeFor entry id page : ok (chunkSizeFor entry id page).
Proof. unfold chunkSizeFor, debug. hsolve. Qed.

Lemma h_download m entry id page pageStart chunkSize :
  ok (download m entry id page pageStart chunkSize).
Proof. unfold download, debug. hsolve. Qed.

Lemma h_dereference id pageSize pageStart data :
  ok (dereference id pageSize pageStart data).
Proof. unfold dereference, debug. hsolve. Qed.

Lemma h_lookup id pageSize page pageStart : ok (lookup id pageSize page pageStart).
Proof. unfold lookup. hsolve. apply h_dereference. Qed.

Lemma h_fetchMiss m entry id page pageStart : ok (fetchMiss m entry id page pageStart).
Proof.
  unfold fetchMiss, debug. apply h_bind; [hsolve|intros].
  apply h_bind; [apply h_chunkSizeFor|intros; apply h_download].
Qed.

Lemma h_copyOut buffer data offset pageStart n :
  ok (copyOut buffer data offset pageStart n).
Proof. unfold copyOut. hsolve. Qed.

Lemma h_serve m buffer entry id pageSize page pageStart offset n :
  ok (serve m buffer entry id pageSize page pageStart offset n).
Proof.
  unfold serve, debug.
  apply h_bind; [apply h_lookup|]. intros [data start].
  apply h_bind; [|intros; apply h_copyOut].
  destruct data; try apply h_fetchMiss; hsolve.
Qed.

Section Read.
Hypothesis Hspan : ∀ offset n, Ex (ErrSpansPageBoundary offset n).
(** The assignments to entry.pageSize are made to an entry whose page size
    was unknown. *)
Hypothesis Hset : ∀ entry w e, I w → (entryOf entry w).1 = Ok e →
  pageSizeUnknown e = true → ∀ v, fallible I A Ex (setPageSize entry v).

Lemma h_readPage m buffer entry offset n : ok (readPage m buffer entry offset n).
Proof.
  unfold readPage, debug. apply h_bind; [hsolve|intros e].
  destruct (pageSize e) as [p|]; [|by apply Hthrown].
  destruct (p =? 0); [by apply Hthrown|].
  apply h_bind; [hsolve|intros].
  destruct (_ <? _); [apply Hspan|apply h_serve].
Qed.

Lemma h_storePageSize entry id pageDataBuffer r :
  (∀ v, fallible I A Ex (setPageSize entry v)) →
  ok (storePageSize entry id pageDataBuffer r).
Proof.
  intros Hs. unfold storePageSize, debug, warn.
  destruct (decide (r ≠ 0)); [done|].
  do 2 (apply h_bind; [hsolve|intros]).
  apply h_bind; [by apply h_fallible|intros]. hsolve.
Qed.

Lemma h_discoverPageSize xRead m entry :
  (∀ m buffer, ok (xRead m buffer)) → ok (discoverPageSize xRead m entry).
Proof.
  intros Hrec. unfold discoverPageSize.
  destruct (HR _ _ (p_entryOf entry)) as [Ha Herr].
  apply holds_bind_actRes; [done|]. intros w Hw.
  destruct (entryOf entry w).1 as [e|err] eqn:He; [|by eapply Herr].
  destruct (pageSizeUnknown e) eqn:Hu; [|done].
  pose proof (Hset entry w e Hw He Hu) as Hs.
  apply h_bind; [by apply h_fallible|intros].
  apply h_bind; [hsolve|intros].
  apply h_bind; [apply h_call, Hrec|intros].
  by apply h_storePageSize.
Qed.

Lemma h_xReadBody xRead m buffer :
  (∀ m buffer, ok (xRead m buffer)) → ok (xReadBody xRead m buffer).
Proof.
  intros Hrec. unfold xReadBody.
  apply h_bind; [hsolve|intros entry].
  destruct (negb (truthy entry)); [by apply Hthrown|].
  apply h_bind; [hsolve|intros entry'].
  destruct (n m) as [n|]; [|by apply Hthrown].
  destruct (offset m) as [offset|]; [|by apply Hthrown].
  apply h_bind; [by apply h_discoverPageSize|].
  intros [r|]; [done|apply h_readPage].
Qed.

Lemma h_xReadN depth m buffer : ok (xReadN depth m buffer).
Proof.
  revert m buffer. induction depth; intros m buffer; simpl; [by apply Hthrown|].
  by apply h_xReadBody.
Qed.

Lemma h_xRead m consumer : ok (xRead m consumer).
Proof. apply h_xReadN. Qed.

Lemma h_inherited name member : inherited name = Some member → ok (invoke member).
Proof.
  unfold inherited. intros Hm. repeat case_decide; simplify_eq; simpl; [done|].
  by apply Hthrown.
Qed.

Lemma h_backendAsyncMethods data this member :
  backendAsyncMethods data this = Some member → ok (invoke member).
Proof.
  unfold backendAsyncMethods. intros Hc.
  destruct (msg data); [inversion Hc; subst; cbn [invoke]; apply h_call..|].
  - apply h_xOpen.
  - apply h_xAccess.
  - apply h_xRead.
  - apply h_xFilesize.
  - by eapply h_inherited.
Qed.

End Read.
End Methods.

(** * Executions of composed coroutines *)

Section Completes.
Context (I : World → Prop) (E : Err → Prop).

Lemma completes_bind {R S} (c : Co R) (f : R → Co S) evs r :
  completes I E (bind c f) evs r ↔
  (∃ e1 x e2, completes I E c e1 (Ok x) ∧ completes I E (f x) e2 r ∧ evs = e1 ++ e2) ∨
  (∃ e, completes I E c evs (Exn e) ∧ r = Exn e).
Proof.
  revert evs. induction c as [x|e| |X a k IH|p k IH|k IH]; simpl; intros evs.
  - split.
    + intros Hc. left. by exists [], x, evs.
    + intros [(e1 & y & e2 & [-> Hy] & Hc & ->)|(e & [_ Hx] & _)]; [|done].
      by injection Hy as ->.
  - split.
    + intros [-> ->]. right. by exists e.
    + intros [(e1 & y & e2 & [_ Hy] & _)|(e' & [-> He] & ->)]; [done|].
      by injection He as ->.
  - split; [done|]. by intros [(?&?&?&[]&_)|(?&[]&_)].
  - split.
    + intros (w & evs' & Hw & -> & Hc). apply IH in Hc.
      destruct Hc as [(e1 & x & e2 & H1 & H2 & ->)|(e & H1 & ->)].
      * left. exists (emitted a w ++ e1), x, e2. split_and!; [|done|by rewrite app_assoc].
        by exists w, e1.
      * right. exists e. split; [|done]. by exists w, evs'.
    + intros [(e1 & x & e2 & (w & e1' & Hw & -> & H1) & H2 & ->)|(e & (w & e1' & Hw & -> & H1) & ->)].
      * exists w, (e1' ++ e2). split_and!; [done|by rewrite app_assoc|].
        apply IH. left. by exists e1', x, e2.
      * exists w, e1'. split_and!; [done..|]. apply IH. right. by exists e.
  - split.
    + intros (s & Hs & Hc). apply IH in Hc.
      destruct Hc as [(e1 & x & e2 & H1 & H2 & ->)|(e & H1 & ->)].
      * left. exists e1, x, e2. split_and!; [|done..]. by exists s.
      * right. exists e. split; [|done]. by exists s.
    + intros [(e1 & x & e2 & (s & Hs & H1) & H2 & ->)|(e & (s & Hs & H1) & ->)].
      * exists s. split; [done|]. apply IH. left. by exists e1, x, e2.
      * exists s. split; [done|]. apply IH. right. by exists e.
  - apply IH.
Qed.

Lemma completes_tryCatch {R} (c : Co R) (h : Err → Co R) evs r :
  completes I E (tryCatch c h) evs r ↔
  (∃ x, completes I E c evs (Ok x) ∧ r = Ok x) ∨
  (∃ e1 e e2, completes I E c e1 (Exn e) ∧ completes I E (h e) e2 r ∧ evs = e1 ++ e2).
Proof.
  revert evs. induction c as [x|e| |X a k IH|p k IH|k IH]; simpl; intros evs.
  - split.
    + intros [-> ->]. left. by exists x.
    + intros [(y & [-> Hy] & ->)|(e1 & e & e2 & [_ Hx] & _)]; [|done].
      by injection Hy as ->.
  - split.
    + intros Hc. right. by exists [], e, evs.
    + intros [(y & [_ Hy] & _)|(e1 & e' & e2 & [-> He] & Hc & ->)]; [done|].
      by injection He as ->.
  - split; [done|]. by intros [(?&[]&_)|(?&?&?&[]&_)].
  - split.
    + intros (w & evs' & Hw & -> & Hc). apply IH in Hc.
      destruct Hc as [(x & H1 & ->)|(e1 & e & e2 & H1 & H2 & ->)].
      * left. exists x. split; [|done]. by exists w, evs'.
      * right. exists (emitted a w ++ e1), e, e2. split_and!; [|done|by rewrite app_assoc].
        by exists w, e1.
    + intros [(x & (w & e1' & Hw & -> & H1) & ->)|(e1 & e & e2 & (w & e1' & Hw & -> & H1) & H2 & ->)].
      * exists w, e1'. split_and!; [done..|]. apply IH. left. by exists x.
      * exists w, (e1' ++ e2). split_and!; [done|by rewrite app_assoc|].
        apply IH. right. by exists e1', e, e2.
  - split.
    + intros (s & Hs & Hc). apply IH in Hc.
      destruct Hc as [(x & H1 & ->)|(e1 & e & e2 & H1 & H2 & ->)].
      * left. exists x. split; [|done]. by exists s.
      * right. exists e1, e, e2. split_and!; [|done..]. by exists s.
    + intros [(x & (s & Hs & H1) & ->)|(e1 & e & e2 & (s & Hs & H1) & H2 & ->)].
      * exists s. split; [done|]. apply IH. left. by exists x.
      * exists s. split; [done|]. apply IH. right. by exists e1, e, e2.
  - apply IH.
Qed.

Lemma completes_call {R} (c : Co R) evs r :
  completes I E (call c) evs r ↔ completes I E c evs r.
Proof.
  revert evs. induction c as [x|e| |X a k IH|p k IH|k IH]; simpl; intros evs;
    try done.
  - split; intros (w & evs' & Hw & -> & Hc); exists w, evs'; split_and!; try done;
      by apply IH.
  - split; intros (s & Hs & Hc); exists s; split; try done; by apply IH.
Qed.

Lemma completes_act {X} (a : World → X * World) evs r :
  completes I E (act a) evs r ↔ ∃ w, I w ∧ evs = emitted a w ∧ r = Ok (a w).1.
Proof.
  simpl. split.
  - intros (w & evs' & Hw & -> & -> & ->). exists w. by rewrite app_nil_r.
  - intros (w & Hw & -> & ->). exists w, []. by rewrite app_nil_r.
Qed.

Lemma completes_actRes {X} (a : World → res X * World) evs r :
  completes I E (actRes a) evs r ↔ ∃ w, I w ∧ evs = emitted a w ∧ r = (a w).1.
Proof.
  simpl. split.
  - intros (w & evs' & Hw & -> & Hc). exists w.
    destruct (a w).1; destruct Hc as [-> ->]; by rewrite app_nil_r.
  - intros (w & Hw & -> & ->). exists w, []. rewrite app_nil_r.
    split_and!; [done..|]. by destruct (a w).1.
Qed.

End Completes.

(** * The events of the actions *)

Lemma emitted_same {X} (a : World → X * World) w :
  trace (a w).2 = trace w → emitted a w = [].
Proof. unfold emitted. intros ->. by rewrite drop_all. Qed.

Lemma emitted_one {X} (a : World → X * World) w ev :
  trace (a w).2 = trace w ++ [ev] → emitted a w = [ev].
Proof. unfold emitted. intros ->. by rewrite drop_app_length. Qed.

Lemma emitted_log ev w : emitted (log ev) w = [ev].
Proof. by apply emitted_one. Qed.

Lemma viewSet_trace view src w : trace (viewSet view src w).2 = trace w.
Proof. unfold viewSet. by repeat case_match. Qed.

Lemma viewStoreElement_trace view len v w :
  trace (viewStoreElement view len v w).2 = trace w.
Proof. unfold viewStoreElement. case_match; [apply viewSet_trace|done]. Qed.

Lemma entryOf_world entry w : (entryOf entry w).2 = w.
Proof. unfold entryOf. by repeat case_match. Qed.

Lemma primRes_trace X a w : primRes X a → trace (a w).2 = trace w.
Proof.
  destruct 1; auto using viewSet_trace, viewStoreElement_trace;
    try (unfold filesGet, filesSet, cacheGet, cacheSet, cacheDelete, entryOf, thenConst;
         by repeat case_match).
Qed.

Lemma primRes_emitted X a w : primRes X a → emitted a w = [].
Proof. intros Ha. by apply emitted_same, primRes_trace. Qed.

(** The events that the other actions of the methods add. *)
Definition methodEvent (ev : Event) : Prop :=
  match ev with
  | EvFetchHead _ _ | EvFetchRange _ _ _ _ | EvDebug _ _ | EvWarn _ => True
  | _ => False
  end.

Lemma prim_emitted X a w : prim X a → Forall methodEvent (emitted a w).
Proof.
  destruct 1;
    first [ rewrite emitted_same by done; constructor
          | erewrite emitted_one by done; by repeat constructor ].
Qed.

Lemma setPageSize_emitted entry v w :
  emitted (setPageSize entry v) w = [] ∨
  ∃ e, (entryOf entry w).1 = Ok e ∧ emitted (setPageSize entry v) w = [EvSetPageSize (e_id e) v].
Proof.
  destruct (entryOf entry w) as [[e|err] w'] eqn:He.
  - right. exists e. split; [done|]. apply emitted_one.
    unfold setPageSize. by rewrite He.
  - left. apply emitted_same. unfold setPageSize. by rewrite He.
Qed.

Lemma bytesLE_length len z : length (bytesLE len z) = len.
Proof. revert z. induction len; intros; simpl; [done|]. by rewrite IHlen. Qed.

Lemma elementBytes_length le len z : length (elementBytes le len z) = len.
Proof.
  unfold elementBytes. destruct le; [|rewrite length_reverse]; apply bytesLE_length.
Qed.

Lemma viewStoreElement_ok view len v w : (viewStoreElement view len v w).1 = Ok tt.
Proof.
  unfold viewStoreElement, viewSet. simpl.
  rewrite elementBytes_length. repeat case_match; try done. lia.
Qed.

(** Atomics.store does not throw. *)
Lemma storeLock_ok consumer v w : (storeLock consumer v w).1 = Ok tt.
Proof. apply viewStoreElement_ok. Qed.

Lemma storeLock_emitted consumer v w :
  emitted (storeLock consumer v) w = [EvAtomicsStore (c_id consumer) v].
Proof.
  apply emitted_one. unfold storeLock. by rewrite viewStoreElement_trace.
Qed.

(** * The dispatcher's handler (workMessage) *)

(** What reaches a consumer: the status cell, the wake-up and the messages. *)
Definition toConsumer (ev : Event) : bool :=
  match ev with
  | EvAtomicsStore _ _ | EvAtomicsNotify _ | EvPostMessage _ => true
  | _ => false
  end.

(** The status of a method that returned or threw. *)
Definition statusOf (r : res Z) : Z :=
  match r with
  | Ok v => v
  | Exn _ => 1
  end.

Definition anyWorld (w : World) : Prop := True.
Definition anyErr (e : Err) : Prop := True.

Lemma completes_log I E ev evs (r : res unit) :
  completes I E (act (log ev)) evs r → evs = [ev] ∧ r = Ok tt.
Proof.
  intros (w & _ & -> & ->)%completes_act. by rewrite emitted_log.
Qed.

Lemma completes_atomicsStore I E consumer v evs r :
  completes I E (atomicsStore consumer v) evs r →
  evs = [EvAtomicsStore (c_id consumer) v] ∧ r = Ok tt.
Proof.
  intros (w & _ & -> & ->)%completes_actRes.
  by rewrite storeLock_emitted, storeLock_ok.
Qed.

(** The methods write nothing to the consumer's status cell. *)
Lemma methods_quiet data this h evs r :
  backendAsyncMethods data this = Some h →
  completes anyWorld anyErr (invoke h) evs r →
  Forall (λ ev, toConsumer ev = false) evs.
Proof.
  intros Hh Hc.
  set (A := λ X (a : World → X * World),
              ∀ w, Forall (λ ev, toConsumer ev = false) (emitted a w)).
  apply (holds_events anyWorld A anyErr (errs anyErr) _ (invoke h) evs r); [by auto| |done].
  apply (h_backendAsyncMethods anyWorld A anyErr anyErr) with data this; try done.
  - intros X a Ha w. eapply Forall_impl; [by apply prim_emitted|].
    by intros [].
  - intros X a Ha. split; [|done]. intros w. by rewrite primRes_emitted.
  - intros entry _ _ _ _ _ v. split; [|done]. intros w.
    destruct (setPageSize_emitted entry v w) as [->|(e & _ & ->)]; by repeat constructor.
Qed.

Lemma workMessageWith_status handler this evs r :
  completes anyWorld anyErr (workMessageWith handler this) evs r →
  r = Ok tt ∧
  ∃ evs_h r_h,
    match handler with
    | Some h => completes anyWorld anyErr (invoke h) evs_h r_h
    | None => evs_h = [] ∧ ∃ msg, r_h = Exn (TypeError msg)
    end ∧
    evs = [EvDebug "threads" "Received new work message"] ++ evs_h ++
          [match r_h with
           | Ok _ => EvDebug "threads" "operation successful"
           | Exn e => EvError e
           end;
           EvAtomicsStore (c_id this) (statusOf r_h);
           EvAtomicsNotify (c_id this)].
Proof.
  unfold workMessageWith, debug, consoleError, atomicsNotify.
  set (H := match handler with Some member => invoke member | None => Throw _ end).
  assert (HH : ∀ evs_h r_h, completes anyWorld anyErr H evs_h r_h →
            match handler with
            | Some h => completes anyWorld anyErr (invoke h) evs_h r_h
            | None => evs_h = [] ∧ ∃ msg, r_h = Exn (TypeError msg)
            end).
  { intros evs_h r_h. unfold H. destruct handler; [done|].
    intros [-> ->]. eauto. }
  clearbody H.
  intros [(e1 & [] & e2 & [-> _]%completes_log & Hc & ->)
         |(e & [_ [=]]%completes_log & _)]%completes_bind.
  apply completes_bind in Hc
    as [(e3 & y & e4 & Hc & [-> ->]%completes_log & ->)|(e & Hc & ->)].
  - split; [done|].
    apply completes_tryCatch in Hc
      as [(x & Hc & _)|(e5 & e & e6 & Hc & Hhandler & ->)].
    + apply completes_bind in Hc as [(e5 & v & e6 & Hh & Hc & ->)|(e & _ & [=])].
      apply completes_bind in Hc
        as [(e7 & [] & e8 & [-> _]%completes_log & [-> _]%completes_atomicsStore & ->)
           |(e & _ & [=])].
      exists e5, (Ok v). split; [by apply HH|]. by rewrite <- !app_assoc.
    + apply completes_bind in Hhandler
        as [(e7 & [] & e8 & [-> _]%completes_log & [-> _]%completes_atomicsStore & ->)
           |(e' & [_ [=]]%completes_log & _)].
      apply completes_bind in Hc as [(e9 & v & e10 & Hh & Hc & ->)|(e' & Hh & [= <-])].
      * apply completes_bind in Hc
          as [(? & [] & ? & _ & [_ [=]]%completes_atomicsStore & _)
             |(? & [_ [=]]%completes_log & _)].
      * exists e5, (Exn e). split; [by apply HH|]. by rewrite <- !app_assoc.
  - apply completes_tryCatch in Hc
      as [(x & _ & [=])|(e5 & e' & e6 & _ & Hhandler & _)].
    apply completes_bind in Hhandler
      as [(? & [] & ? & _ & [_ [=]]%completes_atomicsStore & _)
         |(? & [_ [=]]%completes_log & _)].
Qed.

(** ** The methods return 0 *)

Definition anyAct (X : Type) (a : World → X * World) : Prop := True.

Definition returns {R} (P : R → Prop) (r : res R) : Prop :=
  match r with
  | Ok x => P x
  | Exn _ => True
  end.

Local Abbreviation ret P c := (holds anyWorld anyAct anyErr (returns P) c).

Lemma ret_any {R} (c : Co R) : ret (λ _, True) c.
Proof.
  induction c as [| | |X a k IH|p k IH|k IH]; by simpl.
Qed.

Lemma ret_bind {R S} (P : S → Prop) (Q : R → Prop) (c : Co R) (f : R → Co S) :
  ret Q c → (∀ x, Q x → ret P (f x)) → ret P (bind c f).
Proof.
  intros Hc Hf. apply holds_bind. revert Hc. apply holds_mono.
  intros [x|e]; simpl; auto.
Qed.

Lemma ret_seq {R S} (P : S → Prop) (c : Co R) (f : R → Co S) :
  (∀ x, ret P (f x)) → ret P (bind c f).
Proof. intros Hf. apply ret_bind with (λ _, True); [apply ret_any|auto]. Qed.

Lemma ret_xOpen m : ret (λ v, v = 0) (xOpen m).
Proof.
  unfold xOpen. do 2 (apply ret_seq; intros). case_match; [done|].
  by do 4 (apply ret_seq; intros).
Qed.

Lemma ret_xAccess m consumer : ret (λ v, v = 0) (xAccess m consumer).
Proof. unfold xAccess. by apply ret_seq. Qed.

Lemma ret_xFilesize m consumer : ret (λ v, v = 0) (xFilesize m consumer).
Proof.
  unfold xFilesize. apply ret_seq; intros. case_match; [done|].
  by do 3 (apply ret_seq; intros).
Qed.

Lemma ret_readPage m buffer entry offset n :
  ret (λ v, v = 0) (readPage m buffer entry offset n).
Proof.
  unfold readPage. apply ret_seq; intros e.
  destruct (pageSize e) as [p|]; [|done]. destruct (p =? 0); [done|].
  apply ret_seq; intros. destruct (_ <? _); [done|]. unfold serve.
  apply ret_seq; intros [data start]. apply ret_seq; intros data'.
  unfold copyOut. case_match; try done. by apply ret_seq.
Qed.

Lemma ret_xReadN depth m buffer : ret (λ v, v = 0) (xReadN depth m buffer).
Proof.
  revert m buffer. induction depth as [|depth IH]; intros m buffer; [done|].
  change (xReadN (S depth) m buffer) with (xReadBody (xReadN depth) m buffer).
  unfold xReadBody. apply ret_seq; intros entry. destruct (negb _); [done|].
  apply ret_seq; intros entry'.
  destruct (n m); [|done]. destruct (offset m); [|done].
  apply ret_bind with (λ early, early = None); [|by intros ? ->; apply ret_readPage].
  unfold discoverPageSize. apply ret_seq; intros e. case_match; [|done].
  do 2 (apply ret_seq; intros).
  apply ret_bind with (λ v, v = 0); [apply holds_call, IH|intros r ->].
  unfold storePageSize. case_match; [done|].
  do 5 (apply ret_seq; intros). apply ret_seq; intros maxPS. by case_match.
Qed.

Lemma methods_return_zero data this h evs v :
  backendAsyncMethods data this = Some h →
  completes anyWorld anyErr (invoke h) evs (Ok v) → v = 0.
Proof.
  intros Hh Hc.
  apply (holds_completes anyWorld anyAct anyErr (returns (λ v, v = 0)) (invoke h) evs (Ok v));
    [|done].
  unfold backendAsyncMethods in Hh.
  destruct (msg data);
    [inversion Hh; subst; cbn [invoke]; apply holds_call;
     auto using ret_xOpen, ret_xAccess, ret_xFilesize; apply ret_xReadN..|].
  unfold inherited in Hh. repeat case_decide; by simplify_eq.
Qed.

(** An execution of xOpen: the registry is empty, the probe is sent and its
    promise rejects. *)
Lemma xOpen_probe_fails :
  completes anyWorld anyErr (xOpen (mkMsg MXOpen "u" None None))
    [EvFetchHead "u" 0] (Exn (FetchFailed "net")).
Proof.
  pose (w0 := {| options := None; consumers := ∅;
                 files := LRU.mkLRU 32 0 0 None (LRU.UintArray 8) ∅ ∅ ∅
                            (LRU.zeros 0%nat 32) (LRU.zeros 0%nat 32) 0 0 [] 1 0 0 ∅;
                 cache := None; nextId := 1; heap := ∅; promises := ∅;
                 nextPromise := 0; buffers := ∅; nextBuffer := 0;
                 swapNeeded := true; trace := [] |}).
  unfold xOpen. apply completes_bind. left.
  exists [], VUndefined, [EvFetchHead "u" 0]. split; [|split; [|reflexivity]].
  - apply completes_actRes. exists w0. split; [exact Logic.I|].
    split; vm_compute; reflexivity.
  - cbn [awaitIfPromise isPromise bind]. rewrite decide_False by (intros H; by apply H).
    apply completes_bind. left.
    exists [EvFetchHead "u" 0], (VPromise 0), []. split; [|split; [|reflexivity]].
    + apply completes_act. exists w0.
      split; [exact Logic.I|]. split; vm_compute; reflexivity.
    + apply completes_bind. left.
      exists [], tt, []. split; [|split; [|reflexivity]].
      * apply completes_actRes. exists w0. split; [exact Logic.I|].
        split; vm_compute; reflexivity.
      * apply completes_bind. right. exists (FetchFailed "net").
        split; [|reflexivity].
        exists (Exn (FetchFailed "net")). split; [done|]. split; reflexivity.
Qed.

(** * The caches of the dispatcher *)

(** The page cache as an init message makes it, with the capacity of one of the
    options [os]. *)
Definition cacheOk (os : list (option Options)) (w : World) : Prop :=
  match cache w with
  | Some c =>
      LRUFacts.wf c ∧ LRU.max_ c = 0%nat ∧
      LRU.sizeCalculation c = Some sizeCalculation ∧
      LRU.tracksSize c = true ∧
      ∃ o, o ∈ os ∧ LRU.maxSize c = maxSizeOf o
  | None => True
  end.

(** The file registry: at most 32 entries, no sizes. *)
Definition filesOk (f : LRU.LRUCache string Val) : Prop :=
  LRUFacts.wf f ∧ LRU.tracksSize f = false ∧ LRU.sizeCalculation f = None.

Definition worldOk (os : list (option Options)) (w : World) : Prop :=
  filesOk (files w) ∧ cacheOk os w.

(** An action preserves a property of the world. *)
Definition preserves (I : World → Prop) (X : Type) (a : World → X * World) : Prop :=
  ∀ w, I w → I (a w).2.

Lemma tracksSize_same {K} `{Countable K} {V} (c c' : LRU.LRUCache K V) :
  LRUFacts.sameConfig c c' → LRU.tracksSize c' = LRU.tracksSize c.
Proof. intros (_ & _ & Hm & _). unfold LRU.tracksSize. by rewrite Hm. Qed.

Lemma cacheOk_same os (w : World) c c' :
  cache w = Some c → cacheOk os w → LRUFacts.wf c' → LRUFacts.sameConfig c c' →
  cacheOk os (with_cache (Some c') w).
Proof.
  unfold cacheOk. intros -> (_ & Hmax & Hcalc & Htr & o & Ho & Hsz) Hwf Hsame.
  pose proof (tracksSize_same _ _ Hsame) as Ht.
  destruct Hsame as (Hm1 & Hm2 & _ & Hm4). simpl.
  split_and!; [done|congruence..|]. exists o. split; [done|congruence].
Qed.

Section World.
Context (os : list (option Options)).

Lemma filesOk_same f f' :
  filesOk f → LRUFacts.wf f' → LRUFacts.sameConfig f f' → filesOk f'.
Proof.
  intros (_ & Htr & Hcalc) Hwf Hsame.
  pose proof (tracksSize_same _ _ Hsame) as Ht.
  destruct Hsame as (_ & _ & _ & Hm4). split_and!; [done|congruence..].
Qed.

Lemma preserves_filesGet url : preserves (worldOk os) _ (filesGet url).
Proof.
  intros w [Hf Hc]. unfold filesGet.
  destruct (LRUFacts.wf_get (files w) url (proj1 Hf)) as (f' & -> & Hwf & Hsame & _).
  split; [by eapply filesOk_same|done].
Qed.

Lemma preserves_filesSet url v : preserves (worldOk os) _ (filesSet url v).
Proof.
  intros w [Hf Hc]. unfold filesSet.
  destruct (LRUFacts.wf_set (files w) url v (proj1 Hf))
    as [(msg & _ & ->)|(f' & -> & Hwf & Hsame & _)]; [by split|].
  split; [by eapply filesOk_same|done].
Qed.

Lemma preserves_cacheGet key : preserves (worldOk os) _ (cacheGet key).
Proof.
  intros w [Hf Hc]. unfold cacheGet. destruct (cache w) as [c|] eqn:Ec; [|by split].
  pose proof Hc as Hc'. unfold cacheOk in Hc'. rewrite Ec in Hc'.
  destruct Hc' as (Hwf & _).
  destruct (LRUFacts.wf_get c key Hwf) as (c' & -> & Hwf' & Hsame & _).
  split; [done|]. by eapply cacheOk_same.
Qed.

Lemma preserves_cacheSet key v : preserves (worldOk os) _ (cacheSet key v).
Proof.
  intros w [Hf Hc]. unfold cacheSet. destruct (cache w) as [c|] eqn:Ec; [|by split].
  pose proof Hc as Hc'. unfold cacheOk in Hc'. rewrite Ec in Hc'.
  destruct Hc' as (Hwf & _).
  destruct (LRUFacts.wf_set c key v Hwf) as [(msg & _ & ->)|(c' & -> & Hwf' & Hsame & _)];
    [by split|].
  split; [done|]. by eapply cacheOk_same.
Qed.

Lemma preserves_cacheDelete key : preserves (worldOk os) _ (cacheDelete key).
Proof.
  intros w [Hf Hc]. unfold cacheDelete. destruct (cache w) as [c|] eqn:Ec; [|by split].
  pose proof Hc as Hc'. unfold cacheOk in Hc'. rewrite Ec in Hc'.
  destruct Hc' as (Hwf & _).
  destruct (LRUFacts.wf_delete c key Hwf) as (b & c' & -> & Hwf' & Hsame & _).
  split; [done|]. by eapply cacheOk_same.
Qed.

(** Whatever leaves the two caches alone preserves them well formed. *)
Lemma worldOk_caches w w' :
  files w' = files w → cache w' = cache w → worldOk os w → worldOk os w'.
Proof. unfold worldOk, cacheOk. by intros -> ->. Qed.

Lemma viewSet_caches view src w :
  files (viewSet view src w).2 = files w ∧ cache (viewSet view src w).2 = cache w.
Proof. unfold viewSet. by repeat case_match. Qed.

Lemma viewStoreElement_caches view len v w :
  files (viewStoreElement view len v w).2 = files w ∧
  cache (viewStoreElement view len v w).2 = cache w.
Proof. unfold viewStoreElement. case_match; [apply viewSet_caches|done]. Qed.

Lemma preserves_setPageSize entry v : preserves (worldOk os) _ (setPageSize entry v).
Proof.
  intros w. unfold setPageSize. destruct (entryOf entry w) as [[e|err] w'];
    by apply worldOk_caches.
Qed.

Lemma preserves_primRes X a : primRes X a → preserves (worldOk os) _ a.
Proof.
  destruct 1;
    auto using preserves_filesGet, preserves_filesSet, preserves_cacheGet, preserves_cacheSet,
      preserves_cacheDelete;
    intros w; apply worldOk_caches;
    try apply viewSet_caches; try apply viewStoreElement_caches;
    try (unfold entryOf, thenConst; by repeat case_match).
Qed.

Lemma preserves_prim X a : prim X a → preserves (worldOk os) _ a.
Proof. destruct 1; intros w; by apply worldOk_caches. Qed.

Lemma preserves_storeLock consumer v : preserves (worldOk os) _ (storeLock consumer v).
Proof.
  intros w. unfold storeLock. intros Hw.
  eapply worldOk_caches; [apply viewStoreElement_caches..|done].
Qed.

End World.

(** * Invariants of the event loop *)

(** The events that the dispatcher's handler logs itself. *)
Definition logged (ev : Event) : Prop :=
  match ev with
  | EvDebug _ _ | EvWarn _ | EvError _ | EvAtomicsNotify _ => True
  | _ => False
  end.

(** A coroutine all of whose actions keep [I]. *)
Definition safe {R} (I : World → Prop) (c : Co R) : Prop :=
  holds I (preserves I) anyErr (λ _, True) c.

Definition taskSafe {R} (I : World → Prop) (t : Task R) : Prop :=
  taskHolds I (preserves I) anyErr (λ _, True) t.

Section Invariant.
Context (I : World → Prop) (allowed : Input → Prop).
Hypothesis Hprim : ∀ X a, prim X a → preserves I X a.
Hypothesis HprimRes : ∀ X a, primRes X a → preserves I _ a.
Hypothesis Hset : ∀ entry w e, I w → (entryOf entry w).1 = Ok e →
  pageSizeUnknown e = true → ∀ v, preserves I _ (setPageSize entry v).
Hypothesis Hlog : ∀ ev, logged ev → preserves I _ (log ev).
Hypothesis Hstore : ∀ consumer v, preserves I _ (storeLock consumer v).
Hypothesis Hctl : ∀ data w, allowed (Control data) → I w → I (onmessage data w).2.
Hypothesis Hsettle : ∀ p r w, I w → I (settle p r w).
Hypothesis Hhead : ∀ url head w, I w → I (headCallback url head w).2.

Lemma safe_method data this h :
  backendAsyncMethods data this = Some h → safe I (invoke h).
Proof.
  intros Hh. unfold safe.
  apply holds_mono with (errs anyErr); [done|].
  apply (h_backendAsyncMethods I (preserves I) anyErr anyErr) with data this;
    try done.
  - intros X a Ha. split; [by apply HprimRes|done].
  - intros entry w e Hw He Hu v. split; [by eapply Hset|done].
Qed.

Lemma safe_workMessage this data : safe I (workMessage this data).
Proof.
  unfold workMessage, workMessageWith, debug, consoleError, atomicsStore, atomicsNotify.
  assert (Hstored : ∀ ev v (Q : res unit → Prop),
            logged ev → Q (Ok tt) →
            holds I (preserves I) anyErr Q
              (bind (act (log ev)) (λ _, actRes (storeLock this v)))).
  { intros ev v Q Hev HQ. apply holds_bind_act; [by apply Hlog|]. intros _ _.
    split; [apply Hstore|]. intros w _. by rewrite storeLock_ok. }
  apply holds_bind_act; [by apply Hlog|]. intros _ _.
  apply holds_bind, holds_tryCatch, holds_bind.
  assert (Hnotify : holds I (preserves I) anyErr (λ _ : res unit, True)
                      (act (log (EvAtomicsNotify (c_id this))))).
  { split; [by apply Hlog|done]. }
  destruct (backendAsyncMethods data this) as [h|] eqn:Hh.
  - eapply holds_mono; [|by eapply safe_method].
    intros [v|e] _; by apply Hstored.
  - by apply Hstored.
Qed.

Lemma safe_runSync {R} (c : Co R) w t w' :
  safe I c → I w → runSync c w = (t, w') → I w' ∧ taskSafe I t.
Proof. apply holds_runSync. intros X a w0 Ha Hw0. by apply Ha. Qed.

Definition sysSafe (s : Sys) : Prop :=
  I (world s) ∧ Forall (taskSafe I) (tasks s).

Lemma step_safe s i s' : sysSafe s → allowed i → step s i = Some s' → sysSafe s'.
Proof.
  intros [Hw Ht] Hi Hstep. destruct i as [data|id data|j|p head|p body|p reason];
    unfold step in Hstep.
  - injection Hstep as <-. split; [by apply Hctl|done].
  - destruct (consumers (world s) !! id) as [this|]; [|done].
    cbn [mbind option_bind] in Hstep.
    destruct (runSync _ _) as [t w'] eqn:Hrun. injection Hstep as <-.
    apply safe_runSync in Hrun as [Hw' Ht']; [|apply safe_workMessage|done].
    split; [done|]. apply Forall_app. by split; [|constructor].
  - destruct (tasks s !! j) as [t|] eqn:Hj; [|done].
    cbn [mbind option_bind] in Hstep.
    pose proof (Forall_lookup_1 _ _ _ _ Ht Hj) as Hsafe.
    destruct t as [p k|k|r|]; try done.
    + destruct (settled (world s) p) as [r|]; [|done].
      cbn [mbind option_bind] in Hstep.
      destruct (runSync _ _) as [t w'] eqn:Hrun. injection Hstep as <-.
      apply safe_runSync in Hrun as [Hw' Ht']; [|by apply Hsafe|done].
      split; [done|]. by apply Forall_insert.
    + destruct (runSync _ _) as [t w'] eqn:Hrun. injection Hstep as <-.
      apply safe_runSync in Hrun as [Hw' Ht']; [|by apply Hsafe|done].
      split; [done|]. by apply Forall_insert.
  - destruct (promises (world s) !! p) as [[url| | | |]|]; try done.
    destruct (headCallback url head (world s)) as [r w'] eqn:Hcb.
    injection Hstep as <-. split; [|done]. apply Hsettle.
    specialize (Hhead url head _ Hw). by rewrite Hcb in Hhead.
  - destruct (promises (world s) !! p) as [[| | | |]|]; try done.
    injection Hstep as <-. split; [|done]. by apply Hsettle.
  - destruct (promises (world s) !! p) as [[| | | |]|]; try done;
      injection Hstep as <-; (split; [|done]); by apply Hsettle.
Qed.

Lemma run_safe s inputs s' :
  sysSafe s → Forall allowed inputs → run s inputs = Some s' → sysSafe s'.
Proof.
  revert s. induction inputs as [|i inputs IH]; intros s Hs Hall Hrun; simpl in Hrun.
  - by injection Hrun as <-.
  - destruct (step s i) as [s1|] eqn:Hstep; [|done]. simpl in Hrun.
    apply Forall_cons in Hall as [Hi Hall].
    eapply IH; [|done..]. by eapply step_safe.
Qed.

End Invariant.

Lemma new_tracksSize {K} `{Countable K} {V} `{EqDecision V} maxSz sizeCalc
    (c : LRU.LRUCache K V) :
  LRU.new 0 maxSz sizeCalc = Ok c → LRU.tracksSize c = true.
Proof.
  unfold LRU.new. simpl. destruct (maxSz =? 0) eqn:Hz.
  - rewrite !andb_true_r. simpl. by destruct (bool_decide (is_Some sizeCalc)).
  - rewrite !andb_false_r. simpl. destruct (LRU.isPosInt maxSz); [|done].
    simpl. intros [= <-]. unfold LRU.tracksSize. simpl. by rewrite Hz.
Qed.

Lemma worldOk_onmessage os data w :
  (∀ o, data = Init o → o ∈ os) → worldOk os w → worldOk os (onmessage data w).2.
Proof.
  intros Hin Hw. unfold onmessage. destruct data as [id|o| |].
  - match goal with |- context [if ?b then _ else _] => destruct b end; [done|].
    destruct (newArrayBuffer _ _) as [shm w1] eqn:Hbuf.
    injection Hbuf as <- <-.
    match goal with |- context [viewStoreElement ?v ?l ?x ?w0] =>
      pose proof (viewStoreElement_caches v l x w0) as [Hf Hc];
      destruct (viewStoreElement v l x w0) as [[|e] w2] end;
      simpl in *; by eapply worldOk_caches.
  - destruct (LRU.new 0 (maxSizeOf o) (Some sizeCalculation)) as [c|e] eqn:Hnew;
      [|done].
    destruct Hw as [Hf _]. split; [done|].
    destruct (LRUFacts.new_wf _ _ _ _ Hnew) as (Hwf & _ & Hmax & Hsz & Hcalc); [done|].
    unfold cacheOk. simpl. split_and!; [done..|by eapply new_tracksSize|].
    exists o. split; [by apply Hin|done].
  - done.
  - done.
Qed.

Lemma worldOk_boot os le s : boot le = Ok s → worldOk os (world s).
Proof.
  unfold boot, initialWorld.
  destruct (LRU.new 32 0 None) as [f|e] eqn:Hnew; [|done]. simpl. intros [= <-].
  split; [|done]. simpl.
  destruct (LRUFacts.new_wf _ _ _ _ Hnew) as (Hwf & _ & _ & Hsz & Hcalc); [done|].
  split_and!; [done| |done]. unfold LRU.new in Hnew. simpl in Hnew.
  by injection Hnew as <-.
Qed.

Lemma boot_tasks le s : boot le = Ok s → tasks s = [].
Proof.
  unfold boot. destruct (initialWorld le); [|done]. by intros [= <-].
Qed.

Lemma worldOk_after le inputs s :
  after le inputs = Some s → worldOk (inits inputs) (world s).
Proof.
  unfold after. destruct (boot le) as [s0|] eqn:Hboot; [|done]. intros Hrun.
  set (os := inits inputs).
  set (allowed := λ i, ∀ o, i = Control (Init o) → o ∈ os).
  apply (run_safe (worldOk os) allowed) with (s := s0) (inputs := inputs) (s' := s);
    try done.
  - apply preserves_prim.
  - apply preserves_primRes.
  - intros. apply preserves_setPageSize.
  - intros ev _ w. by apply worldOk_caches.
  - apply preserves_storeLock.
  - intros data w Ha. apply worldOk_onmessage. intros o ->. by apply Ha.
  - intros url head w. apply worldOk_caches; unfold headCallback;
      by repeat case_match.
  - split; [by eapply worldOk_boot|]. apply boot_tasks in Hboot as ->. constructor.
  - apply Forall_forall. intros i Hi o ->. unfold os, inits.
    apply list_elem_of_omap. by exists (Control (Init o)).
Qed.



(** * One run of a coroutine *)

Lemma runSync_bind {R S} (c : Co R) (f : R → Co S) w :
  runSync (bind c f) w =
  match runSync c w with
  | (Finished (Ok x), w') => runSync (f x) w'
  | (Finished (Exn e), w') => (Finished (Exn e), w')
  | (Waiting p k, w') => (Waiting p (λ s, bind (k s) f), w')
  | (Paused k, w') => (Paused (bind k f), w')
  | (Hung, w') => (Hung, w')
  end.
Proof.
  revert w. induction c as [x|e| |X a k IH|p k IH|k IH]; intros w; simpl; try done.
  destruct (a w) as [x w']. apply IH.
Qed.

Lemma runSync_tryCatch {R} (c : Co R) (h : Err → Co R) w :
  runSync (tryCatch c h) w =
  match runSync c w with
  | (Finished (Ok x), w') => (Finished (Ok x), w')
  | (Finished (Exn e), w') => runSync (h e) w'
  | (Waiting p k, w') => (Waiting p (λ s, tryCatch (k s) h), w')
  | (Paused k, w') => (Paused (tryCatch k h), w')
  | (Hung, w') => (Hung, w')
  end.
Proof.
  revert w. induction c as [x|e| |X a k IH|p k IH|k IH]; intros w; simpl; try done.
  destruct (a w) as [x w']. apply IH.
Qed.

Lemma runSync_call {R} (c : Co R) w :
  runSync (call c) w =
  match runSync c w with
  | (Finished r, w') => (Paused (match r with Ok x => Ret x | Exn e => Throw e end), w')
  | (Waiting p k, w') => (Waiting p (λ s, call (k s)), w')
  | (Paused k, w') => (Paused (call k), w')
  | (Hung, w') => (Hung, w')
  end.
Proof.
  revert w. induction c as [x|e| |X a k IH|p k IH|k IH]; intros w; simpl; try done.
  destruct (a w) as [x w']. apply IH.
Qed.

Lemma runSync_act {X} (a : World → X * World) w :
  runSync (act a) w = (Finished (Ok (a w).1), (a w).2).
Proof. simpl. by destruct (a w). Qed.

Lemma runSync_actRes {X} (a : World → res X * World) w :
  runSync (actRes a) w = (Finished (a w).1, (a w).2).
Proof. simpl. by destruct (a w) as [[x|e] w']. Qed.

Lemma runSync_bind_act {X S} (a : World → X * World) (f : X → Co S) w :
  runSync (bind (act a) f) w = runSync (f (a w).1) (a w).2.
Proof. by rewrite runSync_bind, runSync_act. Qed.

Lemma runSync_bind_actRes {X S} (a : World → res X * World) (f : X → Co S) w :
  runSync (bind (actRes a) f) w =
  match (a w).1 with
  | Ok x => runSync (f x) (a w).2
  | Exn e => (Finished (Exn e), (a w).2)
  end.
Proof. rewrite runSync_bind, runSync_actRes. by destruct (a w).1. Qed.

(** A coroutine that fails with [e] when it is resumed, and does nothing else:
    a throw, possibly after returns from calls. *)
Fixpoint failsWith {R} (e : Err) (c : Co R) : Prop :=
  match c with
  | Throw e' => e' = e
  | Pause k => failsWith e k
  | _ => False
  end.

Lemma failsWith_bind {R S} e (c : Co R) (f : R → Co S) :
  failsWith e c → failsWith e (bind c f).
Proof. induction c; simpl; auto; done. Qed.

Lemma failsWith_call {R} e (c : Co R) : failsWith e c → failsWith e (call c).
Proof. induction c; simpl; auto; done. Qed.

(** The awaited promise rejects with [e]: the coroutine fails with [e]. *)
Definition rejects {R} (k : res Val → Co R) : Prop :=
  ∀ e, failsWith e (k (Exn e)).

Lemma rejects_bind {R S} (k : res Val → Co R) (f : R → Co S) :
  rejects k → rejects (λ s, bind (k s) f).
Proof. intros Hk e. by apply failsWith_bind. Qed.

Lemma rejects_call {R} (k : res Val → Co R) : rejects k → rejects (λ s, call (k s)).
Proof. intros Hk e. by apply failsWith_call. Qed.

Lemma rejects_yield :
  rejects (λ s : res Val, match s with Ok v => Ret v | Exn e => Throw e end).
Proof. by intros e. Qed.

(** [failsWith] in terms of the scheduler: every resumption leaves the world
    as it is, until the task has finished with the error. *)
Lemma failsWith_runSync {R} e (c : Co R) w :
  failsWith e c →
  runSync c w = (Finished (Exn e), w) ∨
  ∃ k, runSync c w = (Paused k, w) ∧ failsWith e k.
Proof.
  destruct c; simpl; try done.
  - intros ->. by left.
  - intros Hk. right. by exists c.
Qed.

(** * The caches in a well-formed world *)

(** The page cache is there, as an init message made it. *)
Definition cacheReady (c : LRU.LRUCache string Val) : Prop :=
  LRUFacts.wf c ∧ LRU.max_ c = 0%nat ∧
  LRU.sizeCalculation c = Some sizeCalculation ∧ LRU.tracksSize c = true.

Lemma cacheReady_same c c' :
  cacheReady c → LRUFacts.wf c' → LRUFacts.sameConfig c c' → cacheReady c'.
Proof.
  intros (_ & Hmax & Hcalc & Htr) Hwf Hsame.
  pose proof (tracksSize_same _ _ Hsame) as Ht.
  destruct Hsame as (Hm1 & Hm2 & _ & Hm4). split_and!; [done|congruence..].
Qed.

Lemma cacheOk_ready os w c : cacheOk os w → cache w = Some c → cacheReady c.
Proof. unfold cacheOk. intros Hok Hc. rewrite Hc in Hok. by destruct Hok as (?&?&?&?&_). Qed.

Lemma filesGet_spec w url :
  filesOk (files w) →
  ∃ f', filesGet url w = (Ok (default VUndefined (LRU.peek url (files w))), with_files f' w) ∧
        filesOk f' ∧ ∀ k, LRU.peek k f' = LRU.peek k (files w).
Proof.
  intros Hf. unfold filesGet.
  destruct (LRUFacts.wf_get (files w) url (proj1 Hf))
    as (f' & -> & Hwf & Hsame & Hpeek & _).
  exists f'. split_and!; [done|by eapply filesOk_same|done].
Qed.

Lemma filesSet_spec w url v :
  filesOk (files w) →
  ∃ f', filesSet url v w = (Ok tt, with_files f' w) ∧
        filesOk f' ∧ LRU.peek url f' = Some v.
Proof.
  intros Hf. unfold filesSet. pose proof Hf as (Hwf & Htr & Hcalc).
  assert (Hreq : LRU.requireSize v (files w) = Ok 0).
  { unfold LRU.requireSize. by rewrite Htr, Hcalc. }
  destruct (LRUFacts.wf_set (files w) url v Hwf)
    as [(msg & Hreq' & _)|(f' & -> & Hwf' & Hsame & Hfit & _)]; [congruence|].
  exists f'. split_and!; [done|by eapply filesOk_same|].
  apply Hfit. exists 0. split; [done|].
  unfold LRU.tracksSize in Htr. apply negb_false_iff in Htr. by rewrite Htr.
Qed.

Lemma cacheGet_spec w c key :
  cache w = Some c → cacheReady c →
  ∃ c', cacheGet key w = (Ok (default VUndefined (LRU.peek key c)), with_cache (Some c') w) ∧
        cacheReady c' ∧ LRU.maxSize c' = LRU.maxSize c ∧
        ∀ k, LRU.peek k c' = LRU.peek k c.
Proof.
  intros Hc Hready. unfold cacheGet. rewrite Hc.
  destruct (LRUFacts.wf_get c key (proj1 Hready)) as (c' & -> & Hwf & Hsame & Hpeek & _).
  exists c'. split_and!; [done|by eapply cacheReady_same|apply Hsame|done].
Qed.

Lemma requireSize_ready c v :
  cacheReady c → 0 < sizeCalculation v → LRU.requireSize v c = Ok (sizeCalculation v).
Proof.
  intros (_ & _ & Hcalc & Htr) Hv. unfold LRU.requireSize. rewrite Htr, Hcalc.
  unfold LRU.isPosInt. by destruct (Z.ltb_spec 0 (sizeCalculation v)); [|lia].
Qed.

Lemma cacheSet_spec w c key v :
  cache w = Some c → cacheReady c → 0 < sizeCalculation v →
  ∃ c', cacheSet key v w = (Ok tt, with_cache (Some c') w) ∧
        cacheReady c' ∧ LRU.maxSize c' = LRU.maxSize c ∧
        (sizeCalculation v ≤ LRU.maxSize c → LRU.peek key c' = Some v) ∧
        ∀ k, k ≠ key → LRU.peek k c' = LRU.peek k c ∨ LRU.peek k c' = None.
Proof.
  intros Hc Hready Hv. unfold cacheSet. rewrite Hc.
  pose proof (requireSize_ready c v Hready Hv) as Hreq.
  destruct (LRUFacts.wf_set c key v (proj1 Hready))
    as [(msg & Hreq' & _)|(c' & -> & Hwf & Hsame & Hfit & _ & Hother)];
    [congruence|].
  exists c'. split_and!; [done|by eapply cacheReady_same|apply Hsame| |done].
  intros Hle. apply Hfit. exists (sizeCalculation v). split; [done|].
  destruct Hready as (Hwfc & _ & _ & Htr).
  destruct Hwfc as [Hcfg _]. pose proof (LRUFacts.cfg_entry _ Hcfg) as Hentry.
  apply andb_false_iff. right. rewrite Z.gtb_ltb. apply Z.ltb_ge. lia.
Qed.

Lemma cacheDelete_spec w c key :
  cache w = Some c → cacheReady c →
  ∃ c', cacheDelete key w = (Ok tt, with_cache (Some c') w) ∧
        cacheReady c' ∧ LRU.maxSize c' = LRU.maxSize c ∧ LRU.peek key c' = None ∧
        ∀ k, k ≠ key → LRU.peek k c' = LRU.peek k c.
Proof.
  intros Hc Hready. unfold cacheDelete. rewrite Hc.
  destruct (LRUFacts.wf_delete c key (proj1 Hready))
    as (b & c' & -> & Hwf & Hsame & _ & Hkey & Hother).
  exists c'. split_and!; [done|by eapply cacheReady_same|apply Hsame|done..].
Qed.

(** * Opening a file *)

(** A method that finds a promise in the registry awaits it, and fails with
    its error when it rejects. *)
Definition awaitsEntry {R} (c : Co R) (url : string) (p : nat) (w : World) : Prop :=
  ∃ k f',
    runSync c w = (Waiting p k, with_files f' w) ∧ (∀ e, k (Exn e) = Throw e) ∧
    filesOk f' ∧ ∀ key, LRU.peek key f' = LRU.peek key (files w).

Lemma xOpen_awaits m p w :
  filesOk (files w) → LRU.peek (url m) (files w) = Some (VPromise p) →
  awaitsEntry (xOpen m) (url m) p w.
Proof.
  intros Hf Hp. unfold awaitsEntry, xOpen. rewrite runSync_bind_actRes.
  destruct (filesGet_spec w (url m) Hf) as (f' & -> & Hf' & Hpeek).
  rewrite Hp. cbn [fst snd default from_option id]. rewrite runSync_bind. cbn.
  by eexists _, f'.
Qed.

Lemma xFilesize_awaits m consumer p w :
  filesOk (files w) → LRU.peek (url m) (files w) = Some (VPromise p) →
  awaitsEntry (xFilesize m consumer) (url m) p w.
Proof.
  intros Hf Hp. unfold awaitsEntry, xFilesize. rewrite runSync_bind_actRes.
  destruct (filesGet_spec w (url m) Hf) as (f' & -> & Hf' & Hpeek).
  rewrite Hp. cbn [fst snd default from_option id truthy negb]. rewrite runSync_bind. cbn.
  by eexists _, f'.
Qed.

Lemma xRead_awaits m consumer p w :
  filesOk (files w) → LRU.peek (url m) (files w) = Some (VPromise p) →
  awaitsEntry (xRead m consumer) (url m) p w.
Proof.
  intros Hf Hp. unfold awaitsEntry, xRead, maxNesting.
  change (xReadN 16 m (buffer consumer))
    with (xReadBody (xReadN 15) m (buffer consumer)).
  unfold xReadBody. rewrite runSync_bind_actRes.
  destruct (filesGet_spec w (url m) Hf) as (f' & -> & Hf' & Hpeek).
  rewrite Hp. cbn [fst snd default from_option id truthy negb]. rewrite runSync_bind. cbn.
  by eexists _, f'.
Qed.

(** xAccess awaits the promise too; when it rejects, xAccess stores 0, not
    accessible, in its result and returns 0. *)
Lemma xAccess_awaits m consumer p w :
  filesOk (files w) → LRU.peek (url m) (files w) = Some (VPromise p) →
  ∃ k f',
    runSync (xAccess m consumer) w = (Waiting p k, with_files f' w) ∧
    filesOk f' ∧ (∀ key, LRU.peek key f' = LRU.peek key (files w)) ∧
    ∀ e w2, ∃ k2,
      runSync (k (Exn e)) w2 = (Paused k2, w2) ∧
      ∀ w3, runSync k2 w3 =
            (Finished (Ok 0), (viewStoreElement (mkView (shm consumer) 0 4) 4 0 w3).2).
Proof.
  intros Hf Hp. destruct (xOpen_awaits m p w Hf Hp) as (k & f' & Hrun & Hrej & Hf' & Hpeek).
  unfold xAccess. rewrite runSync_bind, runSync_tryCatch, runSync_bind, runSync_call, Hrun.
  eexists _, f'. split_and!; [done..|]. intros e w2. cbv beta. rewrite Hrej. cbn.
  eexists. split; [done|]. intros w3. cbn.
  pose proof (viewStoreElement_ok (mkView (shm consumer) 0 4) 4 0 w3) as Hok.
  by destruct (viewStoreElement _ _ _ _) as [[[]|] w4].
Qed.

(** The first xOpen of a url starts the probe and enters its promise in the
    registry; resumed with the entry, it enters the entry and returns 0;
    resumed with a rejection, it throws and leaves the registry alone. *)
Lemma xOpen_probe w m :
  filesOk (files w) → LRU.peek (url m) (files w) = None →
  ∃ k f1,
    runSync (xOpen m) w = (Waiting (nextPromise w) k, with_files f1 (fetchHead (url m) w).2) ∧
    filesOk f1 ∧ LRU.peek (url m) f1 = Some (VPromise (nextPromise w)) ∧
    (∀ e, k (Exn e) = Throw e) ∧
    (∀ v w2, filesOk (files w2) →
       ∃ f2, runSync (k (Ok v)) w2 = (Finished (Ok 0), with_files f2 w2) ∧
             filesOk f2 ∧ LRU.peek (url m) f2 = Some v).
Proof.
  intros Hf Hp. unfold xOpen. rewrite runSync_bind_actRes.
  destruct (filesGet_spec w (url m) Hf) as (f0 & -> & Hf0 & Hpeek0).
  rewrite Hp. cbn [fst snd default from_option id]. rewrite runSync_bind.
  cbn [awaitIfPromise isPromise runSync]. rewrite decide_False by (by intros []).
  rewrite runSync_bind_act, runSync_bind_actRes.
  destruct (fetchHead (url m) (with_files f0 w)) as [v w1] eqn:Hfetch.
  injection Hfetch as <- <-. cbn [fst snd].
  match goal with |- context [filesSet ?u ?v ?w1] =>
    destruct (filesSet_spec w1 u v Hf0) as (f1 & -> & Hf1 & Hpeek1) end.
  cbn [fst snd]. rewrite runSync_bind. cbn [yield runSync].
  eexists _, f1. split_and!; [done..|].
  intros v w2 Hf2. cbv beta. cbn [bind]. rewrite runSync_bind_actRes.
  destruct (filesSet_spec w2 (url m) v Hf2) as (f2 & -> & Hf2' & Hpeek2).
  by exists f2.
Qed.

(** An xOpen that finds the entry returns 0 at once. *)
Lemma xOpen_reuse w m entry :
  filesOk (files w) → LRU.peek (url m) (files w) = Some (VEntry entry) →
  ∃ f1, runSync (xOpen m) w = (Finished (Ok 0), with_files f1 w) ∧
        filesOk f1 ∧ ∀ key, LRU.peek key f1 = LRU.peek key (files w).
Proof.
  intros Hf Hp. unfold xOpen. rewrite runSync_bind_actRes.
  destruct (filesGet_spec w (url m) Hf) as (f0 & -> & Hf0 & Hpeek0).
  rewrite Hp. cbn [fst snd default from_option id]. rewrite runSync_bind.
  cbn [awaitIfPromise isPromise runSync]. rewrite decide_True by done.
  by exists f0.
Qed.

(** The entry that the callback of the probe makes does not depend on the
    status of the response: the callback fails on a Content-Length that is not
    an integer, and on nothing else. *)
Lemma headCallback_outcome url head w :
  (headCallback url head w).1 =
  match contentLength head with
  | CLMalformed => Exn (TypeError "Cannot convert to a BigInt")
  | _ => Ok (VEntry (nextId w))
  end.
Proof. unfold headCallback. by destruct (acceptRanges head), (contentLength head). Qed.

Lemma settled_settle p r w : settled (settle p r w) p = Some r.
Proof. unfold settled, settle. simpl. rewrite lookup_insert_eq. by destruct r. Qed.

(** The network answers the probe, or the fetch fails. *)
Lemma step_RespondHead s p url head :
  promises (world s) !! p = Some (PendingHead url) →
  ∃ s', step s (RespondHead p head) = Some s' ∧ tasks s' = tasks s ∧
        settled (world s') p = Some (headCallback url head (world s)).1.
Proof.
  intros Hp. unfold step. rewrite Hp.
  destruct (headCallback url head (world s)) as [r w'].
  eexists. split_and!; [done..|]. apply settled_settle.
Qed.

Lemma step_FailFetch s p url reason :
  promises (world s) !! p = Some (PendingHead url) →
  ∃ s', step s (FailFetch p reason) = Some s' ∧ tasks s' = tasks s ∧
        settled (world s') p = Some (Exn (FetchFailed reason)).
Proof.
  intros Hp. unfold step. rewrite Hp.
  eexists. split_and!; [done..|]. apply settled_settle.
Qed.

(** * Reading a page *)

(** The page cache is there and well formed, with capacity [cap]. *)
Definition hasCache (w : World) (cap : Z) : Prop :=
  ∃ c, cache w = Some c ∧ cacheReady c ∧ LRU.maxSize c = cap.

(** Two worlds that differ in the page cache, and in the promises made by
    [then] and their number. *)
Definition sameButCache (w w' : World) : Prop :=
  ∃ c ps n, w' = with_cache c (with_nextPromise n (with_promises ps w)) ∧
            (nextPromise w ≤ n)%nat ∧
            ∀ p, (p < nextPromise w)%nat → ps !! p = promises w !! p.

Lemma sameButCache_refl w cap : hasCache w cap → sameButCache w w.
Proof.
  intros _. exists (cache w), (promises w), (nextPromise w).
  split_and!; [by destruct w|done..].
Qed.

Lemma sameButCache_trans w1 w2 w3 :
  sameButCache w1 w2 → sameButCache w2 w3 → sameButCache w1 w3.
Proof.
  intros (c & ps & n & -> & Hn & Hps) (c' & ps' & n' & -> & Hn' & Hps').
  exists c', ps', n'. simpl in *. split_and!; [done|lia|].
  intros p Hp. rewrite Hps' by lia. by apply Hps.
Qed.

Lemma sameButCache_cache w c : sameButCache w (with_cache c w).
Proof.
  exists c, (promises w), (nextPromise w). split_and!; [by destruct w|done..].
Qed.

Lemma sameButCache_trace w w' : sameButCache w w' → trace w' = trace w.
Proof. by intros (c & ps & n & -> & _). Qed.

Lemma sameButCache_heap w w' : sameButCache w w' → heap w' = heap w.
Proof. by intros (c & ps & n & -> & _). Qed.

Lemma sameButCache_files w w' : sameButCache w w' → files w' = files w.
Proof. by intros (c & ps & n & -> & _). Qed.

Lemma sameButCache_buffers w w' : sameButCache w w' → buffers w' = buffers w.
Proof. by intros (c & ps & n & -> & _). Qed.

Lemma cacheSet_ready w cap key v :
  hasCache w cap → 0 < sizeCalculation v →
  ∃ w', cacheSet key v w = (Ok tt, w') ∧ hasCache w' cap ∧ sameButCache w w' ∧
        nextPromise w' = nextPromise w.
Proof.
  intros (c & Hc & Hready & Hcap) Hv.
  destruct (cacheSet_spec w c key v Hc Hready Hv) as (c' & -> & Hready' & Hsz & _).
  exists (with_cache (Some c') w). split_and!; [done| |apply sameButCache_cache|done].
  exists c'. split_and!; [done..|congruence].
Qed.

(** The references to the page of a chunk that is being downloaded. *)
Lemma references_pending w cap resp (page : Num) id (pages : list Num) :
  hasCache w cap →
  ∃ w', runSync (forEach pages (λ i,
                   bind (actRes (thenConst (VPromise resp) (VNum page)))
                     (λ ref, actRes (cacheSet (cacheIdOf id i) ref)))) w
        = (Finished (Ok tt), w') ∧
        hasCache w' cap ∧ sameButCache w w'.
Proof.
  revert w. induction pages as [|i pages IH]; intros w Hw.
  - exists w. split_and!; [done..|by eapply sameButCache_refl].
  - cbn [forEach]. rewrite runSync_bind, runSync_bind_actRes. cbn [thenConst fst snd].
    set (w1 := with_nextPromise _ _).
    assert (Hw1 : hasCache w1 cap) by done.
    destruct (cacheSet_ready w1 cap (cacheIdOf id i) (VPromise (nextPromise w)) Hw1)
      as (w2 & Hset & Hw2 & Hsame & _); [done|].
    rewrite runSync_actRes, Hset. cbn [fst snd].
    destruct (IH w2 Hw2) as (w3 & -> & Hw3 & Hsame3).
    exists w3. split_and!; [done..|].
    eapply sameButCache_trans; [|done]. eapply sameButCache_trans; [|done].
    exists (cache w), (<[nextPromise w := ThenConst resp (VNum page)]> (promises w)),
      (S (nextPromise w)).
    split_and!; [by destruct w|lia|].
    intros p Hp. apply lookup_insert_ne. lia.
Qed.

(** The references to the page of a chunk that has arrived. *)
Lemma references_resident w cap (page : Num) id (pages : list Num) :
  hasCache w cap →
  ∃ w', runSync (forEach pages (λ i, actRes (cacheSet (cacheIdOf id i) (VNum page)))) w
        = (Finished (Ok tt), w') ∧
        hasCache w' cap ∧ sameButCache w w'.
Proof.
  revert w. induction pages as [|i pages IH]; intros w Hw.
  - exists w. split_and!; [done..|by eapply sameButCache_refl].
  - cbn [forEach]. rewrite runSync_bind.
    destruct (cacheSet_ready w cap (cacheIdOf id i) (VNum page) Hw)
      as (w2 & Hset & Hw2 & Hsame & _); [done|].
    rewrite runSync_actRes, Hset. cbn [fst snd].
    destruct (IH w2 Hw2) as (w3 & -> & Hw3 & Hsame3).
    exists w3. split_and!; [done..|]. by eapply sameButCache_trans.
Qed.

(** ** Numbers *)

(** A BigInt up to 2^53 is the same Number. *)
Lemma toNumber_exact z : Z.abs z ≤ 2 ^ 53 → toNumber z = NFin z.
Proof. intros Hz. unfold toNumber. by rewrite (proj2 (Z.leb_le _ _) Hz). Qed.

(** Below 10^21 the key of a Number is the key of the BigInt. *)
Lemma cacheIdOf_exact id z : Z.abs z < 10 ^ 21 → cacheIdOf id (NFin z) = cacheId id z.
Proof.
  intros Hz. unfold cacheIdOf, cacheId, numberToString.
  by rewrite (proj2 (Z.ltb_lt _ _) Hz).
Qed.

(** The key of the page before, for a page up to 2^53. *)
Lemma previousKey_exact id page :
  0 < page ≤ 2 ^ 53 →
  cacheIdOf id (numAdd (toNumber page) (-1)) = cacheId id (page - 1).
Proof.
  intros Hpage. rewrite toNumber_exact by lia. cbn [numAdd].
  rewrite toNumber_exact by lia. apply cacheIdOf_exact. lia.
Qed.

Lemma numLt_ofNum x : numLt x (ofNum x) = false.
Proof. destruct x; simpl; [|done..]. apply Z.ltb_ge. lia. Qed.

Lemma countUp_none fuel i bound : numLt i bound = false → countUp fuel i bound = Some [].
Proof. intros Hlt. destruct fuel; simpl; by rewrite Hlt. Qed.

(** A chunk of one page covers no page after its own, whatever the page. *)
Lemma coveredPages_one page ps : coveredPages page ps ps = Some [].
Proof.
  unfold coveredPages. apply countUp_none.
  assert (Hone : ps ≠ 0 → numDiv ps ps = DFin 1 1).
  { intros Hnz. unfold numDiv. rewrite (proj2 (Z.eqb_neq _ _) Hnz).
    assert (Hr : ∀ d, d ≠ 0 → roundRat d d = DFin 1 1).
    { intros d Hd. unfold roundRat. rewrite Z.mod_same, Z.div_same by done. done. }
    destruct (0 <? ps); apply Hr; lia. }
  destruct (decide (ps = 0)) as [->|Hnz].
  - assert (dblAdd page (numDiv 0 0) = DNaN) as -> by by destruct page.
    by destruct (numAdd page 1).
  - rewrite (Hone Hnz). destruct page as [z| |]; [|done..].
    cbn [dblAdd numAdd]. unfold roundRat.
    rewrite Z.mod_1_r, Z.div_1_r, Z.mul_1_r. simpl. apply numLt_ofNum.
Qed.

(** The pages that a chunk of [k] pages covers, up to page 2^53. *)
Lemma countUp_exact fuel first k :
  0 ≤ k → first + k ≤ 2 ^ 53 → - 2 ^ 53 ≤ first → (Z.to_nat k < fuel)%nat →
  countUp fuel (NFin first) (DFin (first + k) 1) = Some (NFin <$> seqZ first k).
Proof.
  revert first k. induction fuel as [|fuel IH]; intros first k Hk Hmax Hmin Hfuel; [lia|].
  cbn [countUp numLt]. destruct (Z.ltb_spec (first * 1) (first + k)) as [Hlt|Hge].
  - cbn [numAdd]. rewrite toNumber_exact by lia.
    rewrite decide_False by (intros [=]; lia).
    rewrite (seqZ_cons first k) by lia.
    replace (first + k) with (first + 1 + (k - 1)) by lia.
    rewrite IH by lia. cbn [mbind option_bind].
    by rewrite fmap_cons, <- Z.add_1_r, <- Z.sub_1_r.
  - assert (k = 0) as -> by lia. done.
Qed.

Lemma roundRat_integer n d : d ≠ 0 → roundRat (n * d) d = ofNum (toNumber n).
Proof. intros Hd. unfold roundRat. by rewrite Z.mod_mul, Z.div_mul. Qed.

Lemma coveredPages_exact page k ps :
  0 ≤ page → 0 < ps → 0 < k → page + k ≤ 2 ^ 53 →
  coveredPages (toNumber page) (k * ps) ps = Some (NFin <$> seqZ (page + 1) (k - 1)).
Proof.
  intros Hpage Hps Hk Hmax. unfold coveredPages, numDiv.
  rewrite (proj2 (Z.eqb_neq _ _)) by lia. rewrite (proj2 (Z.ltb_lt _ _) Hps).
  rewrite roundRat_integer by lia.
  rewrite !toNumber_exact by lia. cbn [ofNum dblAdd numAdd].
  rewrite <- (Z.mul_1_r (page * 1 + k)), roundRat_integer by lia.
  rewrite !toNumber_exact by lia. cbn [ofNum stepsTo].
  replace (page * 1 + k) with (page + 1 + (k - 1)) by lia.
  apply countUp_exact; try lia.
  rewrite Z.div_1_r. lia.
Qed.

(** The download of a chunk: the request is sent and its promise is entered in
    the cache under the page.  Then the references to it are entered and the
    coroutine awaits the promise, unless the loop over the covered pages never
    ends.  When the promise rejects, the coroutine throws the error.  When it
    is fulfilled with bytes, they are entered in the cache and returned. *)
Lemma download_spec w cap m i e ps id page pageStart chunkSize :
  hasCache w cap → heap w !! i = Some e → pageSize e = Some ps →
  ∃ t w0 w1,
    runSync (download m (VEntry i) id page pageStart chunkSize) w = (t, w1) ∧
    hasCache w1 cap ∧
    cacheSet (cacheId id page) (VPromise (nextPromise w))
      (fetchRange (url m) pageStart (pageStart + (chunkSize - 1))
         (emit (EvDebug "http" "downloading page") w)).2 = (Ok tt, w0) ∧
    (4 ≤ cap → ∃ c0, cache w0 = Some c0 ∧
       LRU.peek (cacheId id page) c0 = Some (VPromise (nextPromise w))) ∧
    sameButCache w0 w1 ∧
    trace w1 = trace w ++
      [EvDebug "http" "downloading page";
       EvFetchRange (url m) pageStart (pageStart + (chunkSize - 1)) (nextPromise w)] ∧
    settled w1 (nextPromise w) = None ∧
    match coveredPages (toNumber page) chunkSize ps with
    | Some pages =>
        (pages = [] → w1 = w0) ∧
        ∃ k, t = Waiting (nextPromise w) k ∧
          (∀ err, k (Exn err) = Throw err) ∧
          (∀ b w2, hasCache w2 cap → b ≠ [] →
             ∃ w3, runSync (k (Ok (VBytes b))) w2 = (Finished (Ok (VBytes b)), w3) ∧
                   hasCache w3 cap ∧ sameButCache w2 w3)
    | None => t = Hung
    end.
Proof.
  intros Hw He Hps. unfold download, debug.
  rewrite runSync_bind_actRes. cbn [entryOf]. rewrite He. cbn [fst snd]. rewrite Hps.
  cbn [default from_option Datatypes.id].
  rewrite runSync_bind_act. cbn [log fst snd]. rewrite runSync_bind_act.
  set (w0 := emit _ w).
  set (wf := (fetchRange (url m) pageStart (pageStart + (chunkSize - 1)) w0).2).
  assert (Hwf : hasCache wf cap) by done.
  cbn [fetchRange fst]. fold wf.
  change (nextPromise w0) with (nextPromise w).
  rewrite runSync_bind.
  destruct Hwf as (c & Hc & Hready & Hcap).
  destruct (cacheSet_spec wf c (cacheId id page) (VPromise (nextPromise w)) Hc Hready)
    as (c1 & Hset & Hready1 & Hsz1 & Hpeek1 & _); [done|].
  rewrite runSync_actRes, Hset. cbn [fst snd].
  set (w1 := with_cache (Some c1) wf).
  assert (Hw1 : hasCache w1 cap).
  { exists c1. split_and!; [done..|congruence]. }
  assert (Hpending : ∀ w2, sameButCache w1 w2 → settled w2 (nextPromise w) = None).
  { intros w2 (c2 & ps2 & n2 & -> & Hn2 & Hps2). unfold settled. simpl.
    rewrite Hps2 by (simpl; lia). simpl. by rewrite lookup_insert_eq. }
  assert (Htrace : ∀ w2, sameButCache w1 w2 → trace w2 = trace w ++
            [EvDebug "http" "downloading page";
             EvFetchRange (url m) pageStart (pageStart + (chunkSize - 1)) (nextPromise w)]).
  { intros w2 Hsame. rewrite (sameButCache_trace _ _ Hsame). simpl.
    by rewrite <- app_assoc. }
  assert (Hpeek : 4 ≤ cap → ∃ c0, cache w1 = Some c0 ∧
            LRU.peek (cacheId id page) c0 = Some (VPromise (nextPromise w))).
  { intros Hfour. exists c1. split; [done|]. apply Hpeek1. simpl. lia. }
  destruct (coveredPages (toNumber page) chunkSize ps) as [pages|].
  - rewrite runSync_bind.
    destruct (references_pending w1 cap (nextPromise w) (toNumber page) id pages Hw1)
      as (w2 & Hrun2 & Hw2 & Hsame2).
    rewrite Hrun2, runSync_bind. cbn [yield runSync].
    eexists _, w1, w2. split_and!; [done..|by apply Htrace|by apply Hpending| |].
    + intros ->. cbn in Hrun2. by injection Hrun2.
    + eexists. split_and!; [done|done|].
      intros b w3 Hw3 Hb. cbv beta. cbn [bind].
      rewrite decide_False by (by destruct b).
      rewrite runSync_bind.
      destruct (cacheSet_ready w3 cap (cacheId id page) (VBytes b) Hw3)
        as (w4 & Hset4 & Hw4 & Hsame4 & _).
      { simpl. destruct b; [done|]. simpl. lia. }
      rewrite runSync_actRes, Hset4. cbn [fst snd]. rewrite runSync_bind.
      destruct (references_resident w4 cap (toNumber page) id pages Hw4)
        as (w5 & -> & Hw5 & Hsame5).
      exists w5. split_and!; [done..|]. by eapply sameButCache_trans.
  - cbn [runSync]. exists Hung, w1, w1. split_and!; [done..| | | |done].
    + by eapply sameButCache_refl.
    + apply Htrace. by eapply sameButCache_refl.
    + apply Hpending. by eapply sameButCache_refl.
Qed.

(** ** A task that runs alone

    The task is resumed as soon as the promise that it awaits is settled, and
    nothing else happens in between: the [Resume] steps of the event loop for
    one task. *)
Inductive runsAlone {R} : Task R * World → Task R * World → Prop :=
| alone_here tw : runsAlone tw tw
| alone_resume p k w s tw :
    settled w p = Some s → runsAlone (runSync (k s) w) tw →
    runsAlone (Waiting p k, w) tw
| alone_continue k w tw :
    runsAlone (runSync k w) tw → runsAlone (Paused k, w) tw.

(** What the page before resolves to: no chunk, the bytes of a resident chunk,
    the error of a promise that rejects, or a promise that is pending. *)
Inductive Resolution : Type :=
| NotResident
| Resident (b : list byte)
| Fails (e : Err)
| Pending (p : nat).

(** What a value is once it is awaited: itself, unless it is a promise. *)
Definition awaited (w : World) (v : Val) : option (res Val) :=
  match v with
  | VPromise p => settled w p
  | _ => Some (Ok v)
  end.

(** The entry that a reference names; any other value is its own. *)
Definition rootOf (c : LRU.LRUCache string Val) (id : Z) (v : Val) : Val :=
  match v with
  | VNum r => default VUndefined (LRU.peek (cacheIdOf id r) c)
  | _ => v
  end.

Definition resolveData (w : World) (v : Val) : Resolution :=
  match awaited w v with
  | Some (Ok (VBytes b)) => Resident b
  | Some (Ok _) => NotResident
  | Some (Exn e) => Fails e
  | None => match v with VPromise p => Pending p | _ => NotResident end
  end.

(** What the page before [page] resolves to in the cache [c]: the entry under
    the key of [Number(page) - 1], awaited when it is a promise, followed to
    the root when it is a reference, and awaited again. *)
Definition pageBefore (w : World) (c : LRU.LRUCache string Val) (id page : Z)
  : Resolution :=
  if page >? 0 then
    let prev :=
      default VUndefined (LRU.peek (cacheIdOf id (numAdd (toNumber page) (-1))) c) in
    if truthy prev then
      match awaited w prev with
      | Some (Ok v) => resolveData w (rootOf c id v)
      | Some (Exn e) => Fails e
      | None => match prev with VPromise p => Pending p | _ => NotResident end
      end
    else NotResident
  else NotResident.

(** The length of the chunk to download. *)
Definition chunkLength (ps : Z) (r : Resolution) : Z :=
  match r with
  | Resident b => Z.of_nat (length b) * 2
  | _ => ps
  end.

(** Two worlds that differ in the order of the page cache only. *)
Definition reordered (w w' : World) : Prop :=
  ∃ c c', cache w = Some c ∧ w' = with_cache (Some c') w ∧ cacheReady c' ∧
          LRU.maxSize c' = LRU.maxSize c ∧ ∀ k, LRU.peek k c' = LRU.peek k c.

Lemma reordered_refl w c : cache w = Some c → cacheReady c → reordered w w.
Proof.
  intros Hc Hready. exists c, c. split_and!; [done| |done..].
  destruct w. simpl in *. by rewrite Hc.
Qed.

Lemma reordered_trans w1 w2 w3 : reordered w1 w2 → reordered w2 w3 → reordered w1 w3.
Proof.
  intros (c1 & c2 & Hc1 & -> & Hr2 & Hm2 & Hp2) (c2' & c3 & Hc2 & -> & Hr3 & Hm3 & Hp3).
  simpl in Hc2. injection Hc2 as <-.
  exists c1, c3. split_and!; [done..|congruence|]. intros k. by rewrite Hp3.
Qed.

Lemma reordered_hasCache w w' cap : reordered w w' → hasCache w cap → hasCache w' cap.
Proof.
  intros (c & c' & Hc & -> & Hr & Hm & _) (c0 & Hc0 & _ & Hcap).
  exists c'. split_and!; [done..|congruence].
Qed.

Lemma cacheGet_reordered w c key :
  cache w = Some c → cacheReady c →
  ∃ w', cacheGet key w = (Ok (default VUndefined (LRU.peek key c)), w') ∧ reordered w w'.
Proof.
  intros Hc Hready.
  destruct (cacheGet_spec w c key Hc Hready) as (c' & -> & Hready' & Hsz & Hpeek).
  eexists. split; [done|]. by exists c, c'.
Qed.

Lemma reordered_settled w w' p : reordered w w' → settled w' p = settled w p.
Proof. by intros (c & c' & _ & -> & _). Qed.

Lemma reordered_trace w w' : reordered w w' → trace w' = trace w.
Proof. by intros (c & c' & _ & -> & _). Qed.

Lemma reordered_heap w w' : reordered w w' → heap w' = heap w.
Proof. by intros (c & c' & _ & -> & _). Qed.

Lemma reordered_nextPromise w w' : reordered w w' → nextPromise w' = nextPromise w.
Proof. by intros (c & c' & _ & -> & _). Qed.

Lemma reordered_emit ev w w' : reordered w w' → reordered (emit ev w) (emit ev w').
Proof.
  intros (c & c' & Hc & -> & Hr & Hm & Hp). exists c, c'. by split_and!.
Qed.

(** ** Runs of composed coroutines *)

Lemma runsAlone_trans {R} (a b c : Task R * World) :
  runsAlone a b → runsAlone b c → runsAlone a c.
Proof.
  induction 1 as [tw|p k w s tw Hs _ IH|k w tw _ IH]; intros Hbc; [done| |].
  - eapply alone_resume; [done|]. by apply IH.
  - apply alone_continue. by apply IH.
Qed.

Definition bindTask {R S} (f : R → Co S) (tw : Task R * World) : Task S * World :=
  match tw with
  | (Finished (Ok x), w') => runSync (f x) w'
  | (Finished (Exn e), w') => (Finished (Exn e), w')
  | (Waiting p k, w') => (Waiting p (λ s, bind (k s) f), w')
  | (Paused k, w') => (Paused (bind k f), w')
  | (Hung, w') => (Hung, w')
  end.

Lemma runsAlone_bindTask {R S} (f : R → Co S) (a b : Task R * World) :
  runsAlone a b → runsAlone (bindTask f a) (bindTask f b).
Proof.
  induction 1 as [tw|p k w s tw Hs _ IH|k w tw _ IH]; [apply alone_here| |].
  - cbn [bindTask]. eapply alone_resume; [done|]. cbv beta.
    rewrite runSync_bind. exact IH.
  - cbn [bindTask]. apply alone_continue. rewrite runSync_bind. exact IH.
Qed.

Lemma runsAlone_bind {R S} (c : Co R) (f : R → Co S) w tw :
  runsAlone (runSync c w) tw → runsAlone (runSync (bind c f) w) (bindTask f tw).
Proof. intros H. rewrite runSync_bind. by apply (runsAlone_bindTask f) in H. Qed.

Definition catchTask {R} (h : Err → Co R) (tw : Task R * World) : Task R * World :=
  match tw with
  | (Finished (Ok x), w') => (Finished (Ok x), w')
  | (Finished (Exn e), w') => runSync (h e) w'
  | (Waiting p k, w') => (Waiting p (λ s, tryCatch (k s) h), w')
  | (Paused k, w') => (Paused (tryCatch k h), w')
  | (Hung, w') => (Hung, w')
  end.

Lemma runsAlone_catchTask {R} (h : Err → Co R) (a b : Task R * World) :
  runsAlone a b → runsAlone (catchTask h a) (catchTask h b).
Proof.
  induction 1 as [tw|p k w s tw Hs _ IH|k w tw _ IH]; [apply alone_here| |].
  - cbn [catchTask]. eapply alone_resume; [done|]. cbv beta.
    rewrite runSync_tryCatch. exact IH.
  - cbn [catchTask]. apply alone_continue. rewrite runSync_tryCatch. exact IH.
Qed.

Lemma runsAlone_tryCatch {R} (c : Co R) (h : Err → Co R) w tw :
  runsAlone (runSync c w) tw → runsAlone (runSync (tryCatch c h) w) (catchTask h tw).
Proof. intros H. rewrite runSync_tryCatch. by apply (runsAlone_catchTask h) in H. Qed.

Definition callTask {R} (tw : Task R * World) : Task R * World :=
  match tw with
  | (Finished r, w') => (Paused (match r with Ok x => Ret x | Exn e => Throw e end), w')
  | (Waiting p k, w') => (Waiting p (λ s, call (k s)), w')
  | (Paused k, w') => (Paused (call k), w')
  | (Hung, w') => (Hung, w')
  end.

Lemma runsAlone_callTask {R} (a b : Task R * World) :
  runsAlone a b → runsAlone (callTask a) (callTask b).
Proof.
  induction 1 as [tw|p k w s tw Hs _ IH|k w tw _ IH]; [apply alone_here| |].
  - cbn [callTask]. eapply alone_resume; [done|]. cbv beta.
    rewrite runSync_call. exact IH.
  - cbn [callTask]. apply alone_continue. rewrite runSync_call. exact IH.
Qed.

Lemma runsAlone_call {R} (c : Co R) w tw :
  runsAlone (runSync c w) tw → runsAlone (runSync (call c) w) (callTask tw).
Proof. intros H. rewrite runSync_call. by apply runsAlone_callTask in H. Qed.

(** [if (v instanceof Promise) v = yield v], for a task that runs alone. *)
Lemma alone_awaitIfPromise {S} v (f : Val → Co S) w :
  match awaited w v with
  | Some (Ok v') =>
      ∀ tw, runsAlone (runSync (f v') w) tw →
            runsAlone (runSync (bind (awaitIfPromise v) f) w) tw
  | Some (Exn e) =>
      runsAlone (runSync (bind (awaitIfPromise v) f) w) (Finished (Exn e), w)
  | None =>
      ∃ p k, v = VPromise p ∧ runSync (bind (awaitIfPromise v) f) w = (Waiting p k, w) ∧
             ∀ e, k (Exn e) = Throw e
  end.
Proof.
  destruct v as [| |n|b|p|j]; cbn [awaited]; try (by intros tw Htw).
  destruct (settled w p) as [[v'|e]|] eqn:Hs.
  - intros tw Htw. cbn [awaitIfPromise isPromise yield bind runSync].
    eapply alone_resume; [done|]. done.
  - cbn [awaitIfPromise isPromise yield bind runSync].
    eapply alone_resume; [done|]. apply alone_here.
  - by eexists p, _.
Qed.

(** The value under the root of a reference, awaited: the second half of the
    look at the page before. *)
Lemma resolveData_alone w c ps id v :
  cache w = Some c → cacheReady c →
  ∃ t w0 w1,
    runsAlone
      (runSync
         (bind (match v with
                | VNum r => actRes (cacheGet (cacheIdOf id r))
                | _ => Ret v
                end)
            (λ prev, bind (awaitIfPromise prev)
               (λ prev, match prev with
                        | VBytes b =>
                            bind (debug "cache" "downloading super page")
                              (λ _, Ret (Z.of_nat (length b) * 2))
                        | _ => Ret ps
                        end))) w) (t, w1) ∧
    reordered w w0 ∧
    match resolveData w (rootOf c id v) with
    | NotResident => t = Finished (Ok ps) ∧ w1 = w0
    | Resident b =>
        t = Finished (Ok (Z.of_nat (length b) * 2)) ∧
        w1 = emit (EvDebug "cache" "downloading super page") w0
    | Fails err => t = Finished (Exn err) ∧ w1 = w0
    | Pending p =>
        (∃ k, t = Waiting p k ∧ ∀ e, k (Exn e) = Throw e) ∧ w1 = w0 ∧ settled w p = None
    end.
Proof.
  intros Hc Hready.
  assert (Hsecond : ∀ w0 v2, reordered w w0 →
    ∃ t w1,
      runsAlone
        (runSync (bind (awaitIfPromise v2)
               (λ prev, match prev with
                        | VBytes b =>
                            bind (debug "cache" "downloading super page")
                              (λ _, Ret (Z.of_nat (length b) * 2))
                        | _ => Ret ps
                        end)) w0) (t, w1) ∧
      match resolveData w v2 with
      | NotResident => t = Finished (Ok ps) ∧ w1 = w0
      | Resident b =>
          t = Finished (Ok (Z.of_nat (length b) * 2)) ∧
          w1 = emit (EvDebug "cache" "downloading super page") w0
      | Fails err => t = Finished (Exn err) ∧ w1 = w0
      | Pending p =>
          (∃ k, t = Waiting p k ∧ ∀ e, k (Exn e) = Throw e) ∧ w1 = w0 ∧ settled w p = None
      end).
  { intros w0 v2 Hre.
    pose proof (alone_awaitIfPromise v2
      (λ prev, match prev with
               | VBytes b =>
                   bind (debug "cache" "downloading super page")
                     (λ _, Ret (Z.of_nat (length b) * 2))
               | _ => Ret ps
               end) w0) as Hawait.
    assert (Haw : awaited w0 v2 = awaited w v2).
    { destruct v2; try done. by apply reordered_settled. }
    rewrite Haw in Hawait. unfold resolveData.
    destruct (awaited w v2) as [[v3|err]|] eqn:Hv3.
    - destruct v3 as [| |n3|b3|p3|j3];
        try (eexists _, w0; split; [apply Hawait, alone_here|done]).
      eexists _, _. split; [apply Hawait; unfold debug; rewrite runSync_bind_act;
                            apply alone_here|done].
    - eexists _, w0. split; [exact Hawait|done].
    - destruct Hawait as (p & k & -> & Hrun & Hrej). rewrite Hrun.
      eexists _, w0. split; [apply alone_here|]. split_and!; [by eexists|done|done]. }
  assert (Hother : ∀ v', rootOf c id v' = v' →
    ∃ t w0 w1,
      runsAlone
        (runSync
           (bind (Ret v')
              (λ prev, bind (awaitIfPromise prev)
                 (λ prev, match prev with
                          | VBytes b =>
                              bind (debug "cache" "downloading super page")
                                (λ _, Ret (Z.of_nat (length b) * 2))
                          | _ => Ret ps
                          end))) w) (t, w1) ∧
      reordered w w0 ∧
      match resolveData w (rootOf c id v') with
      | NotResident => t = Finished (Ok ps) ∧ w1 = w0
      | Resident b =>
          t = Finished (Ok (Z.of_nat (length b) * 2)) ∧
          w1 = emit (EvDebug "cache" "downloading super page") w0
      | Fails err => t = Finished (Exn err) ∧ w1 = w0
      | Pending p =>
          (∃ k, t = Waiting p k ∧ ∀ e, k (Exn e) = Throw e) ∧ w1 = w0 ∧ settled w p = None
      end).
  { intros v' ->. cbn [bind].
    destruct (Hsecond w v' (reordered_refl w c Hc Hready)) as (t & w1 & Hrun & Hres).
    exists t, w, w1. split_and!; [done|by eapply reordered_refl|done]. }
  destruct v as [| |r|b|p|j]; [by apply Hother..| |by apply Hother|by apply Hother|by apply Hother].
  cbn [rootOf]. rewrite runSync_bind.
  destruct (cacheGet_reordered w c (cacheIdOf id r) Hc Hready) as (w0 & Hget & Hre).
  rewrite runSync_actRes, Hget. cbn [fst snd].
  destruct (Hsecond w0 (default VUndefined (LRU.peek (cacheIdOf id r) c)) Hre)
    as (t & w1 & Hrun & Hres).
  by exists t, w0, w1.
Qed.

(** The look at the page before, for a task that runs alone. *)
Lemma chunkSizeFor_alone w c i e ps id page :
  cache w = Some c → cacheReady c → heap w !! i = Some e → pageSize e = Some ps →
  ∃ t w0 w1,
    runsAlone (runSync (chunkSizeFor (VEntry i) id page) w) (t, w1) ∧
    reordered w w0 ∧
    match pageBefore w c id page with
    | NotResident => t = Finished (Ok ps) ∧ w1 = w0
    | Resident b =>
        t = Finished (Ok (Z.of_nat (length b) * 2)) ∧
        w1 = emit (EvDebug "cache" "downloading super page") w0
    | Fails err => t = Finished (Exn err) ∧ w1 = w0
    | Pending p =>
        (∃ k, t = Waiting p k ∧ ∀ e, k (Exn e) = Throw e) ∧ w1 = w0 ∧ settled w p = None
    end.
Proof.
  intros Hc Hready He Hps. unfold chunkSizeFor.
  rewrite runSync_bind_actRes. cbn [entryOf]. rewrite He. cbn [fst snd].
  rewrite Hps. cbn [default from_option Datatypes.id]. rewrite runSync_bind.
  unfold pageBefore. destruct (page >? 0).
  - destruct (cacheGet_reordered w c (cacheIdOf id (numAdd (toNumber page) (-1))) Hc Hready)
      as (w0 & Hget & Hre).
    rewrite runSync_actRes, Hget. cbn [fst snd].
    set (prev := default VUndefined _).
    destruct (truthy prev) eqn:Htruthy.
    + pose proof Hre as (c0 & c1 & Hc0 & Hw0 & Hr1 & Hm1 & Hp1).
      assert (c0 = c) as -> by congruence.
      assert (Hc1 : cache w0 = Some c1) by by subst w0.
      pose proof (alone_awaitIfPromise prev
        (λ prev0, bind (match prev0 with
                        | VNum r => actRes (cacheGet (cacheIdOf id r))
                        | _ => Ret prev0
                        end)
           (λ prev1, bind (awaitIfPromise prev1)
              (λ prev2, match prev2 with
                        | VBytes b =>
                            bind (debug "cache" "downloading super page")
                              (λ _, Ret (Z.of_nat (length b) * 2))
                        | _ => Ret ps
                        end))) w0) as Hawait.
      assert (Haw : awaited w0 prev = awaited w prev).
      { destruct prev; try done. by apply reordered_settled. }
      rewrite Haw in Hawait.
      destruct (awaited w prev) as [[v1|err]|] eqn:Hv1.
      * destruct (resolveData_alone w0 c1 ps id v1 Hc1 Hr1) as (t & w2 & w3 & Hrun & Hre2 & Hres).
        exists t, w2, w3. split; [by apply Hawait|]. split; [by eapply reordered_trans|].
        assert (Hroot : rootOf c1 id v1 = rootOf c id v1).
        { destruct v1; try done. cbn [rootOf]. by rewrite Hp1. }
        assert (Hdata : resolveData w0 (rootOf c id v1) = resolveData w (rootOf c id v1)).
        { unfold resolveData.
          assert (awaited w0 (rootOf c id v1) = awaited w (rootOf c id v1)) as ->; [|done].
          destruct (rootOf c id v1); try done. by apply reordered_settled. }
        rewrite Hroot, Hdata in Hres.
        destruct (resolveData w (rootOf c id v1)); try done.
        destruct Hres as (Hk & -> & Hs). split_and!; [done..|].
        by rewrite <- (reordered_settled w w0).
      * by exists (Finished (Exn err)), w0, w0.
      * destruct Hawait as (p & k & Hprev & Hrun & Hrej). rewrite Hrun, Hprev.
        eexists _, w0, w0. split; [apply alone_here|]. split; [done|].
        rewrite Hprev in Hv1. split_and!; [by eexists|done|done].
    + cbn [runSync]. eexists _, w0, w0. split; [apply alone_here|]. by split.
  - cbn [runSync truthy]. eexists _, w, w. split; [apply alone_here|].
    split; [by eapply reordered_refl|done].
Qed.

(** ** The cache miss *)

(** An event of the log. *)
Definition logEvent (ev : Event) : Prop := ∃ sys msg, ev = EvDebug sys msg.

Lemma logEvents_fetches evs :
  Forall logEvent evs →
  omap (λ ev, match ev with
              | EvFetchRange url first last p => Some (url, first, last, p)
              | _ => None
              end) evs = [].
Proof. induction 1 as [|ev evs (sys & msg & ->) _ IH]; [done|]. simpl. exact IH. Qed.

Lemma logEvents_statuses consumer evs :
  Forall logEvent evs →
  omap (λ ev, match ev with
              | EvAtomicsStore id v =>
                  if decide (id = consumer ∧ v ≠ HANDSHAKE) then Some v else None
              | _ => None
              end) evs = [].
Proof. induction 1 as [|ev evs (sys & msg & ->) _ IH]; [done|]. simpl. exact IH. Qed.

(** The miss has sent the request for [len] bytes from [pageStart], as
    promise [p], after it has logged what it does.  It has entered the promise
    in the cache under the key of the page, then the references to it under
    the keys of the pages that the chunk covers, and awaits the promise,
    unless the loop over the covered pages never ends. *)
Definition requested (m : WorkMsg) (ps id page pageStart len : Z) (cap : Z) (p : nat)
    (before : World) (t : Task Val) (after : World) : Prop :=
  (∃ evs, trace after = trace before ++ evs ++
                        [EvFetchRange (url m) pageStart (pageStart + (len - 1)) p] ∧
          Forall logEvent evs) ∧
  settled after p = None ∧
  (4 ≤ cap →
   ∃ w0 c0, cache w0 = Some c0 ∧ LRU.peek (cacheId id page) c0 = Some (VPromise p) ∧
            sameButCache w0 after ∧
            (coveredPages (toNumber page) len ps = Some [] → after = w0)) ∧
  match coveredPages (toNumber page) len ps with
  | Some pages =>
      ∃ k, t = Waiting p k ∧
        (∀ err, k (Exn err) = Throw err) ∧
        (∀ b w2, hasCache w2 cap → b ≠ [] →
           ∃ w3, runSync (k (Ok (VBytes b))) w2 = (Finished (Ok (VBytes b)), w3) ∧
                 hasCache w3 cap ∧ sameButCache w2 w3)
  | None => t = Hung
  end.

Lemma requested_fetches m ps id page pageStart len cap p before t after :
  requested m ps id page pageStart len cap p before t after →
  fetches after = fetches before ++ [(url m, pageStart, pageStart + (len - 1), p)].
Proof.
  intros ((evs & Htrace & Hevs) & _). unfold fetches.
  rewrite Htrace, !omap_app, (logEvents_fetches _ Hevs). done.
Qed.

Lemma requested_statuses m ps id page pageStart len cap p before t after consumer :
  requested m ps id page pageStart len cap p before t after →
  statuses consumer after = statuses consumer before.
Proof.
  intros ((evs & Htrace & Hevs) & _). unfold statuses.
  rewrite Htrace, !omap_app, (logEvents_statuses _ _ Hevs). simpl.
  by rewrite app_nil_r.
Qed.

(** The miss of a task that runs alone: the look at the page before, then the
    request. *)
Lemma fetchMiss_alone w c i e ps id page pageStart m :
  cache w = Some c → cacheReady c → heap w !! i = Some e → pageSize e = Some ps →
  ∃ t w1,
    runsAlone (runSync (fetchMiss m (VEntry i) id page pageStart) w) (t, w1) ∧
    hasCache w1 (LRU.maxSize c) ∧
    match pageBefore w c id page with
    | Pending p =>
        (∃ k, t = Waiting p k ∧ ∀ err, k (Exn err) = Throw err) ∧
        settled w1 p = None ∧ reordered (emit (EvDebug "cache" "cache miss") w) w1
    | Fails err =>
        t = Finished (Exn err) ∧ reordered (emit (EvDebug "cache" "cache miss") w) w1
    | r => requested m ps id page pageStart (chunkLength ps r) (LRU.maxSize c)
             (nextPromise w) w t w1
    end.
Proof.
  intros Hc Hready He Hps. unfold fetchMiss, debug.
  rewrite runSync_bind_act. cbn [log fst snd].
  set (wm := emit (EvDebug "cache" "cache miss") w).
  destruct (chunkSizeFor_alone wm c i e ps id page Hc Hready He Hps)
    as (t0 & w0 & w1 & Hrun & Hre & Hres).
  change (pageBefore wm c id page) with (pageBefore w c id page) in Hres.
  apply (runsAlone_bind _ (λ chunkSize, download m (VEntry i) id page pageStart chunkSize))
    in Hrun.
  assert (Hcache0 : hasCache w0 (LRU.maxSize c)).
  { eapply reordered_hasCache; [done|]. by exists c. }
  assert (Hrequest : ∀ len w2,
            hasCache w2 (LRU.maxSize c) → heap w2 = heap w →
            nextPromise w2 = nextPromise w →
            (∃ evs, trace w2 = trace w ++ evs ∧ Forall logEvent evs) →
            ∃ t w3, runSync (download m (VEntry i) id page pageStart len) w2 = (t, w3) ∧
                    hasCache w3 (LRU.maxSize c) ∧
                    requested m ps id page pageStart len (LRU.maxSize c) (nextPromise w)
                      w t w3).
  { intros len w2 Hw2 Hheap Hnext (evs & Htrace & Hevs).
    destruct (download_spec w2 (LRU.maxSize c) m i e ps id page pageStart len Hw2)
      as (t & w3 & w4 & Hrun4 & Hw4 & Hset & Hpeek & Hsame & Htrace4 & Hpending & Hcases);
      [by rewrite Hheap|done|].
    rewrite Hnext in Htrace4, Hpending, Hcases, Hpeek.
    exists t, w4. split; [done|]. split; [done|]. unfold requested. split_and!.
    - exists (evs ++ [EvDebug "http" "downloading page"]). split.
      + rewrite Htrace4, Htrace, <- !app_assoc. done.
      + apply Forall_app. split; [done|]. repeat constructor. by eexists _, _.
    - done.
    - intros Hfour. destruct (Hpeek Hfour) as (c0 & Hc0 & Hp0).
      exists w3, c0. split_and!; [done..|].
      intros Hnil. rewrite Hnil in Hcases. destruct Hcases as [Heq _]. by apply Heq.
    - destruct (coveredPages (toNumber page) len ps); [|done].
      destruct Hcases as (_ & k & -> & Hrej & Hful). by exists k. }
  assert (Hheap0 : heap w0 = heap w) by by rewrite (reordered_heap _ _ Hre).
  assert (Hnext0 : nextPromise w0 = nextPromise w) by by rewrite (reordered_nextPromise _ _ Hre).
  assert (Htrace0 : trace w0 = trace w ++ [EvDebug "cache" "cache miss"])
    by by rewrite (reordered_trace _ _ Hre).
  destruct (pageBefore w c id page) as [|b|err|p].
  - destruct Hres as [-> ->]. cbn [bindTask] in Hrun.
    destruct (Hrequest ps w0) as (t & w3 & Hrun3 & Hw3 & Hreq); try done.
    { eexists. split; [done|]. repeat constructor; by eexists _, _. }
    rewrite Hrun3 in Hrun. by exists t, w3.
  - destruct Hres as [-> ->]. cbn [bindTask] in Hrun.
    destruct (Hrequest (Z.of_nat (length b) * 2)
                (emit (EvDebug "cache" "downloading super page") w0))
      as (t & w3 & Hrun3 & Hw3 & Hreq); try done.
    { exists [EvDebug "cache" "cache miss"; EvDebug "cache" "downloading super page"].
      split; [simpl; by rewrite Htrace0, <- app_assoc|].
      repeat constructor; by eexists _, _. }
    rewrite Hrun3 in Hrun. by exists t, w3.
  - destruct Hres as [-> ->]. cbn [bindTask] in Hrun.
    by eexists _, w0.
  - destruct Hres as ((k & -> & Hrej) & -> & Hs). cbn [bindTask] in Hrun.
    eexists _, w0. split; [exact Hrun|]. split; [done|]. split_and!; [| |done].
    + eexists. split; [done|]. intros err. cbv beta. by rewrite Hrej.
    + by rewrite (reordered_settled _ _ _ Hre).
Qed.

(** What the page before resolves to depends on what the keys hold and on the
    promises only. *)
Lemma pageBefore_same w w' c c' id page :
  (∀ k, LRU.peek k c' = LRU.peek k c) → (∀ p, settled w' p = settled w p) →
  pageBefore w' c' id page = pageBefore w c id page.
Proof.
  intros Hpeek Hsettled.
  assert (Haw : ∀ v, awaited w' v = awaited w v).
  { intros v. destruct v; try done. apply Hsettled. }
  assert (Hroot : ∀ v, rootOf c' id v = rootOf c id v).
  { intros v. destruct v; try done. cbn [rootOf]. by rewrite Hpeek. }
  unfold pageBefore, resolveData. rewrite Hpeek.
  destruct (page >? 0); [|done].
  destruct (truthy _); [|done]. rewrite Haw.
  destruct (awaited w _) as [[v|err]|]; [|done..].
  by rewrite Hroot, Haw.
Qed.

(** The read [offset, offset + n) goes past the end of the page of [offset]. *)
Definition spans (ps offset n : Z) : Prop :=
  (offset `quot` ps) * ps + ps < offset + n.

(** The world in which the read goes on after the alignment check. *)
Definition aligned (ps offset : Z) (w : World) : World :=
  if decide ((offset `quot` ps) * ps ≠ offset)
  then emit (EvDebug "vfs" "Read chunk is not page-aligned") w
  else w.

Lemma readPage_spans w i e ps m buffer offset n :
  heap w !! i = Some e → pageSize e = Some ps → ps ≠ 0 → spans ps offset n →
  runSync (readPage m buffer (VEntry i) offset n) w
  = (Finished (Exn (ErrSpansPageBoundary offset n)), aligned ps offset w).
Proof.
  intros He Hps Hnz Hspan. unfold readPage, debug, aligned.
  rewrite runSync_bind_actRes. cbn [entryOf]. rewrite He. cbn [fst snd]. rewrite Hps.
  apply Z.eqb_neq in Hnz. rewrite Hnz. rewrite runSync_bind.
  unfold spans in Hspan. apply Z.ltb_lt in Hspan.
  destruct (decide _); cbn; by rewrite Hspan.
Qed.

Lemma readPage_serve w i e ps m buffer offset n :
  heap w !! i = Some e → pageSize e = Some ps → ps ≠ 0 → ¬ spans ps offset n →
  runSync (readPage m buffer (VEntry i) offset n) w
  = runSync (serve m buffer (VEntry i) (e_id e) ps (offset `quot` ps)
               ((offset `quot` ps) * ps) offset n) (aligned ps offset w).
Proof.
  intros He Hps Hnz Hspan. unfold readPage, debug, aligned.
  rewrite runSync_bind_actRes. cbn [entryOf]. rewrite He. cbn [fst snd]. rewrite Hps.
  apply Z.eqb_neq in Hnz. rewrite Hnz. rewrite runSync_bind.
  unfold spans in Hspan. apply Z.ltb_nlt in Hspan.
  destruct (decide _); cbn [runSync act log]; by rewrite Hspan.
Qed.

(** The page is being downloaded: the read awaits the download, sends no
    request, and fails when the download fails. *)
Lemma serve_pending w c m buffer entry id ps page pageStart offset n p :
  cache w = Some c → cacheReady c →
  LRU.peek (cacheId id page) c = Some (VPromise p) →
  ∃ k w1,
    runSync (serve m buffer entry id ps page pageStart offset n) w = (Waiting p k, w1) ∧
    reordered w w1 ∧ ∀ err, k (Exn err) = Throw err.
Proof.
  intros Hc Hready Hp. unfold serve, lookup.
  rewrite runSync_bind, runSync_bind.
  destruct (cacheGet_reordered w c (cacheId id page) Hc Hready) as (w1 & Hget & Hre).
  rewrite runSync_actRes, Hget, Hp. cbn [fst snd default from_option Datatypes.id].
  rewrite runSync_bind. cbn [awaitIfPromise isPromise yield runSync].
  by eexists _, w1.
Qed.

(** The bytes of a page that is resident are copied from the cache. *)
Lemma serve_resident w c m buffer entry id ps page pageStart offset n b :
  cache w = Some c → cacheReady c →
  LRU.peek (cacheId id page) c = Some (VBytes b) →
  ∃ w1, reordered w w1 ∧
    runSync (serve m buffer entry id ps page pageStart offset n) w
    = runSync (copyOut buffer (VBytes b) offset pageStart n)
        (emit (EvDebug "cache" "cache hit") w1).
Proof.
  intros Hc Hready Hp. unfold serve, lookup.
  rewrite runSync_bind, runSync_bind.
  destruct (cacheGet_reordered w c (cacheId id page) Hc Hready) as (w1 & Hget & Hre).
  rewrite runSync_actRes, Hget, Hp. cbn [fst snd default from_option Datatypes.id].
  rewrite runSync_bind. cbn [awaitIfPromise isPromise runSync dereference].
  rewrite runSync_bind. unfold debug. rewrite runSync_bind_act.
  cbn [log fst snd runSync]. by exists w1.
Qed.

(** The cache holds nothing for the page: the read goes on as a miss. *)
Lemma serve_miss w c m buffer entry id ps page pageStart offset n :
  cache w = Some c → cacheReady c →
  default VUndefined (LRU.peek (cacheId id page) c) = VUndefined →
  ∃ w1, reordered w w1 ∧
    runSync (serve m buffer entry id ps page pageStart offset n) w
    = runSync (bind (fetchMiss m entry id page pageStart)
                 (λ data, copyOut buffer data offset pageStart n)) w1.
Proof.
  intros Hc Hready Hp. unfold serve, lookup.
  rewrite runSync_bind, runSync_bind.
  destruct (cacheGet_reordered w c (cacheId id page) Hc Hready) as (w1 & Hget & Hre).
  rewrite runSync_actRes, Hget, Hp. cbn [fst snd].
  rewrite runSync_bind. cbn [awaitIfPromise isPromise runSync dereference].
  by exists w1.
Qed.

(** A value of the cache that is neither the bytes of a page nor a promise. *)
Definition notResident (v : option Val) : Prop :=
  match v with
  | Some (VBytes _) | Some (VPromise _) => False
  | _ => True
  end.

(** The look under the root of a reference. *)
Lemma serve_reference w c m buffer entry id ps page pageStart offset n root :
  cache w = Some c → cacheReady c →
  LRU.peek (cacheId id page) c = Some (VNum (NFin root)) →
  ∃ w1, reordered (emit (EvDebug "cache" "cache hit (multi-page segment)") w) w1 ∧
    runSync (serve m buffer entry id ps page pageStart offset n) w
    = runSync
        (bind (bind (awaitIfPromise
                       (default VUndefined (LRU.peek (cacheIdOf id (NFin root)) c)))
                 (λ data, match data with
                          | VBytes _ => Ret (data, root * ps)
                          | _ => Ret (VUndefined, pageStart)
                          end))
           (λ found, let '(data, pageStart) := found in
              bind (match data with
                    | VUndefined => fetchMiss m entry id page pageStart
                    | _ => bind (debug "cache" "cache hit") (λ _, Ret data)
                    end)
                (λ data, copyOut buffer data offset pageStart n))) w1.
Proof.
  intros Hc Hready Hp. unfold serve, lookup.
  rewrite runSync_bind, runSync_bind.
  destruct (cacheGet_reordered w c (cacheId id page) Hc Hready) as (w1 & Hget & Hre).
  rewrite runSync_actRes, Hget, Hp. cbn [fst snd default from_option Datatypes.id].
  rewrite runSync_bind. cbn [awaitIfPromise isPromise runSync dereference].
  unfold debug at 1. rewrite runSync_bind_act. cbn [log fst snd]. rewrite runSync_bind.
  destruct Hre as (c0 & c1 & Hc0 & -> & Hr1 & Hm1 & Hp1).
  set (w1 := emit (EvDebug "cache" "cache hit (multi-page segment)")
               (with_cache (Some c1) w)).
  assert (Hc1 : cache w1 = Some c1) by done.
  destruct (cacheGet_reordered w1 c1 (cacheIdOf id (NFin root)) Hc1 Hr1)
    as (w2 & Hget2 & Hre2).
  rewrite runSync_actRes, Hget2, Hp1.
  assert (c0 = c) as -> by congruence.
  exists w2. split.
  - destruct Hre2 as (c1' & c2 & Hc1' & -> & Hr2 & Hm2 & Hp2).
    simpl in Hc1'. injection Hc1' as <-.
    exists c, c2. split_and!; [done..|congruence|]. intros k. by rewrite Hp2.
  - cbn [fst snd]. by rewrite !runSync_bind.
Qed.

(** The page is a reference to a page that is not resident: the read goes on
    as a miss, from the start of the page itself. *)
Lemma serve_stale w c m buffer entry id ps page pageStart offset n root :
  cache w = Some c → cacheReady c →
  LRU.peek (cacheId id page) c = Some (VNum (NFin root)) →
  notResident (LRU.peek (cacheIdOf id (NFin root)) c) →
  ∃ w1, reordered (emit (EvDebug "cache" "cache hit (multi-page segment)") w) w1 ∧
    runSync (serve m buffer entry id ps page pageStart offset n) w
    = runSync (bind (fetchMiss m entry id page pageStart)
                 (λ data, copyOut buffer data offset pageStart n)) w1.
Proof.
  intros Hc Hready Hp Hroot.
  destruct (serve_reference w c m buffer entry id ps page pageStart offset n root
              Hc Hready Hp) as (w1 & Hre & ->).
  exists w1. split; [done|].
  by destruct (LRU.peek (cacheIdOf id (NFin root)) c) as [[| | | | |]|].
Qed.

(** The page is a reference to a page that is resident: the read is served
    from the bytes of that page, which start at [root * ps]. *)
Lemma serve_root_resident w c m buffer entry id ps page pageStart offset n root b :
  cache w = Some c → cacheReady c →
  LRU.peek (cacheId id page) c = Some (VNum (NFin root)) →
  LRU.peek (cacheIdOf id (NFin root)) c = Some (VBytes b) →
  ∃ w1, reordered (emit (EvDebug "cache" "cache hit (multi-page segment)") w) w1 ∧
    runSync (serve m buffer entry id ps page pageStart offset n) w
    = runSync (copyOut buffer (VBytes b) offset (root * ps) n)
        (emit (EvDebug "cache" "cache hit") w1).
Proof.
  intros Hc Hready Hp Hroot.
  destruct (serve_reference w c m buffer entry id ps page pageStart offset n root
              Hc Hready Hp) as (w1 & Hre & ->).
  exists w1. split; [done|]. rewrite Hroot.
  cbn [default from_option Datatypes.id awaitIfPromise isPromise bind].
  unfold debug. by rewrite runSync_bind, runSync_bind_act.
Qed.

(** The page is a reference to a page that is being downloaded, or whose
    download has failed: the read awaits the promise under the key of that
    page and sends no request.  It fails when the promise rejects; it is
    served from the bytes that the promise gives; it goes on as a miss when
    the promise gives anything else. *)
Lemma serve_root_promise w c m buffer entry id ps page pageStart offset n root q :
  cache w = Some c → cacheReady c →
  LRU.peek (cacheId id page) c = Some (VNum (NFin root)) →
  LRU.peek (cacheIdOf id (NFin root)) c = Some (VPromise q) →
  ∃ k w1,
    runSync (serve m buffer entry id ps page pageStart offset n) w = (Waiting q k, w1) ∧
    reordered (emit (EvDebug "cache" "cache hit (multi-page segment)") w) w1 ∧
    (∀ err, k (Exn err) = Throw err) ∧
    (∀ b w2, runSync (k (Ok (VBytes b))) w2
             = runSync (copyOut buffer (VBytes b) offset (root * ps) n)
                 (emit (EvDebug "cache" "cache hit") w2)) ∧
    (∀ v w2, (∀ b, v ≠ VBytes b) →
             runSync (k (Ok v)) w2
             = runSync (bind (fetchMiss m entry id page pageStart)
                          (λ data, copyOut buffer data offset pageStart n)) w2).
Proof.
  intros Hc Hready Hp Hroot.
  destruct (serve_reference w c m buffer entry id ps page pageStart offset n root
              Hc Hready Hp) as (w1 & Hre & ->).
  rewrite Hroot.
  cbn [default from_option Datatypes.id awaitIfPromise isPromise yield bind runSync].
  eexists _, w1. split_and!; [done|done|done| |].
  - intros b w2. cbv beta. cbn [bind]. unfold debug.
    by rewrite runSync_bind, runSync_bind_act.
  - intros v w2 Hv. cbv beta. destruct v; try done. by destruct (Hv b).
Qed.

(** C3, as stated, fails: the range request for page 5 fails, and the cache
    still holds the promise of the request under the key of the page; the read
    is tried again and fails again, with no second request. *)
Lemma failed_fetch_stays_cached :
  (s ← after true failedRead; Some (cached (world s), statuses 7 (world s)))
  = Some ([("1|0", VNum (NFin 1024)); ("1|5", VPromise 2)], [0; 0; 1]) ∧
  (s ← after true retriedRead;
   Some (cached (world s), statuses 7 (world s), fetches (world s)))
  = Some ([("1|0", VNum (NFin 1024)); ("1|5", VPromise 2)], [0; 0; 1; 1],
          [("u", 0, 1023, 1%nat); ("u", 5120, 6143, 2%nat)]).
Proof. split; vm_compute; reflexivity. Qed.

(** C1.  The code at the failing input.  Consumer 7 downloads page 5; the
    consumers 8 and 9 then read page 6, find no entry for it, and suspend on
    the promise of page 5 before either has entered a promise for page 6.
    When page 5 arrives both go on and each sends the request for the bytes
    6144-8191: two requests for the page (1, 6) are outstanding at once, and
    the two tasks await different promises. *)
Theorem same_page_fetched_twice :
  (s ← after true concurrentReads; Some (outstanding (world s), taskStates s))
  = Some ([(3%nat, "u", 6144, 8191); (5%nat, "u", 6144, 8191)],
          [TDone; TDone; TPaused; TAwaits 3; TAwaits 5]).
Proof. vm_compute. reflexivity. Qed.

(** The same read as the event loop runs it: the read of page 2
    is answered with the bytes 2048-3071 of the file, which the consumer
    receives. *)
Lemma stale_reference_refetched :
  (s ← after true rereadEvicted;
   r ← received 7 1024 (world s);
   Some (fetches (world s), statuses 7 (world s), bool_decide (r = rangeOf db1024 2048 3071)))
  = Some ([("u", 0, 1023, 1%nat); ("u", 1024, 3071, 2%nat); ("u", 5120, 6143, 4%nat);
           ("u", 2048, 3071, 5%nat)], [0; 0; 0; 0; 0], true).
Proof. vm_compute. reflexivity. Qed.

(** * Reads across a page boundary *)

(** In a well-formed world the actions of the methods throw nothing but the
    errors of [thrown]. *)
Lemma primRes_errors os w X a e :
  worldOk os w → primRes X a → (a w).1 = Exn e → thrown e.
Proof.
  intros [Hf Hc] Ha. destruct Ha as [url|url v|key|key v|key|entry|resp v|view src|view len v].
  - destruct (filesGet_spec w url Hf) as (f' & -> & _). done.
  - destruct (filesSet_spec w url v Hf) as (f' & -> & _). done.
  - unfold cacheGet. destruct (cache w) as [c|] eqn:Ec; [|by intros [= <-]].
    destruct (cacheGet_spec w c key Ec (cacheOk_ready _ _ _ Hc Ec)) as (c' & Hget & _).
    unfold cacheGet in Hget. rewrite Ec in Hget. by rewrite Hget.
  - unfold cacheSet. destruct (cache w) as [c|] eqn:Ec; [|by intros [= <-]].
    destruct (LRUFacts.wf_set c key v (proj1 (cacheOk_ready _ _ _ Hc Ec)))
      as [(msg & _ & ->)|(c' & -> & _)]; [by intros [= <-]|done].
  - unfold cacheDelete. destruct (cache w) as [c|] eqn:Ec; [|by intros [= <-]].
    destruct (cacheDelete_spec w c key Ec (cacheOk_ready _ _ _ Hc Ec)) as (c' & Hdel & _).
    unfold cacheDelete in Hdel. rewrite Ec in Hdel. by rewrite Hdel.
  - unfold entryOf. repeat case_match; by intros [= <-].
  - unfold thenConst. repeat case_match; by intros [= <-].
  - unfold viewSet. repeat case_match; by intros [= <-].
  - by rewrite viewStoreElement_ok.
Qed.

(** The file is open, and its page size is [ps]. *)
Definition pageKnown (os : list (option Options)) (url : string) (i ps : Z)
    (w : World) : Prop :=
  worldOk os w ∧ LRU.peek url (files w) = Some (VEntry i) ∧
  ∃ e, heap w !! i = Some e ∧ pageSize e = Some ps.

(** No promise that the worker awaits rejects with the page-boundary error. *)
Definition notSpanning (e : Err) : Prop :=
  ∀ offset n, e ≠ ErrSpansPageBoundary offset n.

Lemma thrown_notSpanning e : thrown e → notSpanning e.
Proof. intros He offset n ->. done. Qed.

Lemma serve_notSpanning os url i ps m buffer entry id pageSize page pageStart offset n
    evs r :
  completes (pageKnown os url i ps) notSpanning
    (serve m buffer entry id pageSize page pageStart offset n) evs r →
  errs notSpanning r.
Proof.
  apply (holds_completes (pageKnown os url i ps) anyAct notSpanning).
  apply h_serve; try done.
  - apply thrown_notSpanning.
  - intros X a Ha. split; [done|]. intros w e [Hw _] He.
    by eapply thrown_notSpanning, primRes_errors.
Qed.

(** The read of a file whose page size is known comes down to [readPage]. *)
Lemma xRead_known os i ps m consumer off len evs r :
  ps ≠ 0 → offset m = Some off → n m = Some len →
  completes (pageKnown os (url m) i ps) notSpanning (xRead m consumer) evs r →
  completes (pageKnown os (url m) i ps) notSpanning
    (readPage m (buffer consumer) (VEntry i) off len) evs r.
Proof.
  intros Hnz Hoff Hlen. unfold xRead, maxNesting.
  change (xReadN 16 m (buffer consumer))
    with (xReadBody (xReadN 15) m (buffer consumer)).
  unfold xReadBody. rewrite completes_bind.
  intros [(e1 & x & e2 & H1 & H2 & ->)|(e & H1 & _)].
  - apply completes_actRes in H1 as (w & (Hw & Hp & _) & -> & Hx).
    destruct (filesGet_spec w (url m) (proj1 Hw)) as (f' & Hget & _).
    rewrite Hget, Hp in Hx. injection Hx as ->.
    rewrite emitted_same by (by rewrite Hget).
    cbn [truthy negb awaitIfPromise isPromise bind] in H2.
    rewrite Hoff, Hlen in H2. apply completes_bind in H2.
    destruct H2 as [(e3 & early & e4 & H3 & H4 & ->)|(e & H3 & _)].
    + unfold discoverPageSize in H3. apply completes_bind in H3.
      destruct H3 as [(e5 & fe & e6 & H5 & H6 & ->)|(e & H5 & _)].
      * apply completes_actRes in H5 as (w' & (_ & _ & fe' & Hfe & Hps) & -> & Hx).
        cbn [entryOf] in Hx. rewrite Hfe in Hx. injection Hx as ->.
        unfold pageSizeUnknown in H6. rewrite Hps in H6.
        apply Z.eqb_neq in Hnz. rewrite Hnz in H6.
        destruct H6 as [-> [= ->]]. rewrite emitted_same by (by rewrite entryOf_world).
        done.
      * apply completes_actRes in H5 as (w' & (_ & _ & fe' & Hfe & Hps) & _ & Hx).
        cbn [entryOf] in Hx. by rewrite Hfe in Hx.
    + unfold discoverPageSize in H3. apply completes_bind in H3.
      destruct H3 as [(e5 & fe & e6 & H5 & H6 & ->)|(e' & H5 & _)].
      * apply completes_actRes in H5 as (w' & (_ & _ & fe' & Hfe & Hps) & -> & Hx).
        cbn [entryOf] in Hx. rewrite Hfe in Hx. injection Hx as ->.
        unfold pageSizeUnknown in H6. rewrite Hps in H6.
        apply Z.eqb_neq in Hnz. rewrite Hnz in H6. by destruct H6.
      * apply completes_actRes in H5 as (w' & (_ & _ & fe' & Hfe & Hps) & _ & Hx).
        cbn [entryOf] in Hx. by rewrite Hfe in Hx.
  - apply completes_actRes in H1 as (w & (Hw & Hp & _) & _ & Hx).
    destruct (filesGet_spec w (url m) (proj1 Hw)) as (f' & Hget & _).
    by rewrite Hget in Hx.
Qed.

(** A read that spans a page boundary has an execution. *)
Lemma xRead_spans_completes os i ps m consumer off len w :
  pageKnown os (url m) i ps w → ps ≠ 0 → offset m = Some off → n m = Some len →
  spans ps off len →
  completes (pageKnown os (url m) i ps) notSpanning (xRead m consumer)
    (if decide ((off `quot` ps) * ps ≠ off)
     then [EvDebug "vfs" "Read chunk is not page-aligned"] else [])
    (Exn (ErrSpansPageBoundary off len)).
Proof.
  intros Hw Hnz Hoff Hlen Hspan. pose proof Hw as (Hok & Hp & e & He & Hps).
  set (evs := if decide _ then _ else _).
  unfold xRead, maxNesting.
  change (xReadN 16 m (buffer consumer))
    with (xReadBody (xReadN 15) m (buffer consumer)).
  unfold xReadBody. apply completes_bind. left.
  destruct (filesGet_spec w (url m) (proj1 Hok)) as (f' & Hget & _).
  exists [], (VEntry i), evs. split_and!; [|clear Hget|reflexivity].
  { apply completes_actRes. exists w. rewrite Hget, Hp.
    split_and!; [done| |done]. by rewrite emitted_same by (by rewrite Hget). }
  cbn [truthy negb awaitIfPromise isPromise bind]. rewrite Hoff, Hlen.
  apply completes_bind. left. exists [], None, evs. split_and!; [| |reflexivity].
  { unfold discoverPageSize. apply completes_bind. left.
    exists [], e, []. split_and!; [| |reflexivity].
    - apply completes_actRes. exists w. cbn [entryOf]. rewrite He.
      split_and!; [done| |done]. by rewrite emitted_same by (by rewrite entryOf_world).
    - unfold pageSizeUnknown. rewrite Hps. apply Z.eqb_neq in Hnz. by rewrite Hnz. }
  unfold readPage. apply completes_bind. left. exists [], e, evs.
  split_and!; [| |reflexivity].
  { apply completes_actRes. exists w. cbn [entryOf]. rewrite He.
    split_and!; [done| |done]. by rewrite emitted_same by (by rewrite entryOf_world). }
  rewrite Hps. pose proof Hnz as Hnz'. apply Z.eqb_neq in Hnz'. rewrite Hnz'.
  apply completes_bind. left.
  unfold spans in Hspan. apply Z.ltb_lt in Hspan. unfold evs.
  destruct (decide ((off `quot` ps) * ps ≠ off)).
  - exists [EvDebug "vfs" "Read chunk is not page-aligned"], tt, [].
    split_and!; [| |reflexivity].
    + apply completes_act. exists w. split_and!; [done| |done]. by rewrite emitted_log.
    + by rewrite Hspan.
  - exists [], tt, []. split_and!; [done| |reflexivity]. by rewrite Hspan.
Qed.

(** C5.  Cross-page read rejection.  The file is open and its page size is
    [ps], not 0.  An xRead of [len] bytes from [off] that comes to its end
    throws the page-boundary error exactly when
    (off / ps) * ps + ps < off + len, with the division of integers that
    truncates; the error is the one of this read.  A read that stays within
    its page and whose offset is not a multiple of the page size logs that
    the chunk is not page-aligned and goes on.  So the read of 1024 bytes from
    100 fails for ps = 1024 and gives the consumer the status 1, and the read
    of 100 bytes from 100 is logged and gives the status 0 and the bytes (the
    other logged read of the two scenarios is the one of the bytes 16-17 that
    discovered the page size). *)
Theorem xRead_cross_page os i ps m consumer off len evs r :
  ps ≠ 0 → offset m = Some off → n m = Some len →
  completes (pageKnown os (url m) i ps) notSpanning (xRead m consumer) evs r →
  ((∃ o k, r = Exn (ErrSpansPageBoundary o k)) ↔ (off `quot` ps) * ps + ps < off + len) ∧
  ((off `quot` ps) * ps + ps < off + len → r = Exn (ErrSpansPageBoundary off len)) ∧
  (¬ (off `quot` ps) * ps + ps < off + len → (off `quot` ps) * ps ≠ off →
   ∃ evs', evs = EvDebug "vfs" "Read chunk is not page-aligned" :: evs') ∧
  (100 `quot` 1024) * 1024 + 1024 < 100 + 1024 ∧
  (s ← after true (readWithin 100 1024); Some (statuses 7 (world s), misaligned (world s)))
  = Some ([0; 0; 1], 2%nat) ∧
  (s ← after true (readWithin 100 100); r ← received 7 100 (world s);
   Some (statuses 7 (world s), misaligned (world s), bool_decide (r = rangeOf db1024 100 199)))
  = Some ([0; 0; 0], 2%nat, true).
Proof.
  intros Hnz Hoff Hlen Hc. apply xRead_known with (off := off) (len := len) in Hc; try done.
  assert (Hcases :
    (spans ps off len → r = Exn (ErrSpansPageBoundary off len)) ∧
    (¬ spans ps off len → errs notSpanning r ∧
       ((off `quot` ps) * ps ≠ off →
        ∃ evs', evs = EvDebug "vfs" "Read chunk is not page-aligned" :: evs'))).
  { unfold readPage in Hc. apply completes_bind in Hc.
    destruct Hc as [(e1 & e & e2 & H1 & H2 & ->)|(e & H1 & _)].
    2:{ apply completes_actRes in H1 as (w' & (_ & _ & fe' & Hfe & Hps) & _ & Hx).
        cbn [entryOf] in Hx. by rewrite Hfe in Hx. }
    apply completes_actRes in H1 as (w' & (_ & _ & fe' & Hfe & Hps) & -> & Hx).
    cbn [entryOf] in Hx. rewrite Hfe in Hx. injection Hx as ->.
    rewrite emitted_same by (by rewrite entryOf_world).
    rewrite Hps in H2. pose proof Hnz as Hnz'. apply Z.eqb_neq in Hnz'.
    rewrite Hnz' in H2. apply completes_bind in H2.
    destruct H2 as [(e3 & [] & e4 & H3 & H4 & ->)|(e & H3 & ->)].
    2:{ destruct (decide _); [by apply completes_log in H3 as [_ [=]]|by destruct H3]. }
    assert (He3 : (off `quot` ps) * ps ≠ off →
                  e3 = [EvDebug "vfs" "Read chunk is not page-aligned"]).
    { intros Hmis. rewrite decide_True in H3 by done.
      by apply completes_log in H3 as [-> _]. }
    unfold spans. split.
    - intros Hspan. apply Z.ltb_lt in Hspan. rewrite Hspan in H4. by destruct H4.
    - intros Hspan. apply Z.ltb_nlt in Hspan. rewrite Hspan in H4. split.
      + by eapply serve_notSpanning.
      + intros Hmis. rewrite (He3 Hmis). by eexists. }
  destruct Hcases as [Hyes Hno]. unfold spans in Hyes, Hno. split_and!.
  - split.
    + intros (o & k & ->).
      destruct (decide ((off `quot` ps) * ps + ps < off + len)) as [|Hn]; [done|].
      destruct (Hno Hn) as [Herr _]. by destruct (Herr o k).
    + intros Hspan. exists off, len. by apply Hyes.
  - done.
  - intros Hn Hmis. by apply Hno.
  - done.
  - vm_compute. reflexivity.
  - vm_compute. reflexivity.
Qed.

Lemma xRead_cross_page_witness :
  ∃ s,
    after true (opened None 200 ++ firstRead db1024) = Some s ∧
    completes (pageKnown (inits (opened None 200 ++ firstRead db1024)) "u" 1 1024)
      notSpanning (xRead (readMsg 100 1024) (mkConsumer 7 0 (mkView 0 4096 4) (mkView 0 0 4096)))
      [EvDebug "vfs" "Read chunk is not page-aligned"]
      (Exn (ErrSpansPageBoundary 100 1024)) ∧
    ((∃ o k, @Exn Z (ErrSpansPageBoundary 100 1024) = Exn (ErrSpansPageBoundary o k))
     ↔ (100 `quot` 1024) * 1024 + 1024 < 100 + 1024).
Proof.
  assert (Hobs : (s ← after true (opened None 200 ++ firstRead db1024);
                  Some (heap (world s) !! 1, LRU.peek "u" (files (world s))))
                 = Some (Some (mkEntry "u" 1 8192 (Some 1024)), Some (VEntry 1)))
    by (vm_compute; reflexivity).
  destruct (after true (opened None 200 ++ firstRead db1024)) as [s|] eqn:Hs;
    [|discriminate Hobs].
  cbn [mbind option_bind] in Hobs. injection Hobs as Hheap Hpeek.
  assert (Hknown : pageKnown (inits (opened None 200 ++ firstRead db1024)) "u" 1 1024
                     (world s)).
  { split; [exact (worldOk_after _ _ _ Hs)|]. split; [exact Hpeek|].
    eexists. split; [exact Hheap|reflexivity]. }
  pose proof (xRead_spans_completes _ 1 1024 (readMsg 100 1024)
              (mkConsumer 7 0 (mkView 0 4096 4) (mkView 0 0 4096)) 100 1024 (world s)
              Hknown ltac:(discriminate) eq_refl eq_refl eq_refl) as Hc.
  exists s. split; [reflexivity|]. split; [exact Hc|].
  exact (proj1 (xRead_cross_page _ 1 1024 (readMsg 100 1024) _ 100 1024 _ _
                  ltac:(discriminate) eq_refl eq_refl Hc)).
Defined.

(** * The page size of a file *)

(** The entries are where their ids say, and the ids not yet given are free. *)
Definition heapOk (w : World) : Prop :=
  (∀ j e, heap w !! j = Some e → e_id e = j) ∧
  (∀ j, nextId w ≤ j → heap w !! j = None).

Lemma heapOk_same w w' : heap w' = heap w → nextId w' = nextId w → heapOk w → heapOk w'.
Proof. unfold heapOk. by intros -> ->. Qed.

Lemma viewSet_heap view src w :
  heap (viewSet view src w).2 = heap w ∧ nextId (viewSet view src w).2 = nextId w.
Proof. unfold viewSet. by repeat case_match. Qed.

Lemma viewStoreElement_heap view len v w :
  heap (viewStoreElement view len v w).2 = heap w ∧
  nextId (viewStoreElement view len v w).2 = nextId w.
Proof. unfold viewStoreElement. case_match; [apply viewSet_heap|done]. Qed.

Lemma primRes_heap X a w :
  primRes X a → heap (a w).2 = heap w ∧ nextId (a w).2 = nextId w.
Proof.
  destruct 1; auto using viewSet_heap, viewStoreElement_heap;
    unfold filesGet, filesSet, cacheGet, cacheSet, cacheDelete, entryOf, thenConst;
    by repeat case_match.
Qed.

Lemma prim_heap X a w :
  prim X a → heap (a w).2 = heap w ∧ nextId (a w).2 = nextId w.
Proof. by destruct 1. Qed.

Lemma heapOk_setPageSize entry v w : heapOk w → heapOk (setPageSize entry v w).2.
Proof.
  intros [Hid Hfree]. unfold setPageSize.
  destruct (entryOf entry w) as [[e|err] w'] eqn:He; [|done].
  unfold entryOf in He. destruct entry as [| | | | |j]; try done.
  destruct (heap w !! j) as [e'|] eqn:Hj; [|done]. injection He as <- <-.
  pose proof (Hid j e' Hj) as Hje. split; simpl.
  - intros k e. rewrite Hje. destruct (decide (k = j)) as [->|Hk].
    + rewrite lookup_insert_eq. by intros [= <-].
    + rewrite lookup_insert_ne by done. apply Hid.
  - intros k Hk. rewrite Hje. rewrite lookup_insert_ne; [by apply Hfree|].
    intros ->. by rewrite Hfree in Hj.
Qed.

Lemma heapOk_headCallback url head w : heapOk w → heapOk (headCallback url head w).2.
Proof.
  intros [Hid Hfree]. unfold headCallback.
  set (w0 := if acceptRanges head then w else _).
  assert (Hh : heap w0 = heap w ∧ nextId w0 = nextId w)
    by (unfold w0; by destruct (acceptRanges head)).
  destruct Hh as [Hh Hn].
  assert (Hok : heapOk (with_nextId (nextId w0 + 1) w0)).
  { split; simpl; rewrite Hh.
    - done.
    - intros j Hj. apply Hfree. lia. }
  assert (Hins : heapOk (with_heap (<[nextId w0 := mkEntry url (nextId w0)
                          match contentLength head with CLInteger z => z | _ => 0 end None]>
                          (heap (with_nextId (nextId w0 + 1) w0)))
                          (with_nextId (nextId w0 + 1) w0))).
  { split; simpl; rewrite Hh, Hn.
    - intros k e. destruct (decide (k = nextId w)) as [->|Hk].
      + rewrite lookup_insert_eq. by intros [= <-].
      + rewrite lookup_insert_ne by done. apply Hid.
    - intros j Hj. rewrite lookup_insert_ne by lia. apply Hfree. lia. }
  by destruct (contentLength head).
Qed.

Lemma heapOk_onmessage data w : heapOk w → heapOk (onmessage data w).2.
Proof.
  intros Hw. unfold onmessage. destruct data as [id|o| |]; try done.
  - match goal with |- context [if ?b then _ else _] => destruct b end; [done|].
    destruct (newArrayBuffer _ _) as [shm w1] eqn:Hbuf. injection Hbuf as <- <-.
    match goal with |- context [viewStoreElement ?v ?l ?x ?w0] =>
      pose proof (viewStoreElement_heap v l x w0) as [Hh Hn];
      destruct (viewStoreElement v l x w0) as [[|e] w2] end;
      simpl in *; by eapply heapOk_same.
  - by destruct (LRU.new 0 (maxSizeOf o) (Some sizeCalculation)).
Qed.

Lemma heapOk_after le inputs s : after le inputs = Some s → heapOk (world s).
Proof.
  unfold after. destruct (boot le) as [s0|] eqn:Hboot; [|done]. intros Hrun.
  apply (run_safe heapOk (λ _, True)) with (s := s0) (inputs := inputs) (s' := s);
    try done.
  - intros X a Ha w. apply heapOk_same; by apply prim_heap.
  - intros X a Ha w. apply heapOk_same; by apply primRes_heap.
  - intros entry w e _ _ _ v w'. apply heapOk_setPageSize.
  - intros ev _ w. by apply heapOk_same.
  - intros consumer v w. unfold storeLock.
    intros Hw. eapply heapOk_same; [apply viewStoreElement_heap..|done].
  - intros data w _. apply heapOk_onmessage.
  - intros url head w. apply heapOk_headCallback.
  - split; [|apply boot_tasks in Hboot as ->; constructor].
    unfold boot, initialWorld in Hboot.
    destruct (LRU.new 32 0 None); [|done]. simpl in Hboot. injection Hboot as <-.
    split; simpl; intros; by rewrite ?lookup_empty in *.
  - by apply Forall_forall.
Qed.

(** The page size of the entry [i] is [ps], and [sets] are the values that
    were assigned to it. *)
Definition resolved (i ps : Z) (sets : list Z) (w : World) : Prop :=
  heapOk w ∧ i < nextId w ∧
  (∃ e, heap w !! i = Some e ∧ pageSize e = Some ps) ∧
  pageSizes i w = sets.

Lemma pageSizes_trace i w w' : trace w' = trace w → pageSizes i w' = pageSizes i w.
Proof. unfold pageSizes. by intros ->. Qed.

Lemma pageSizes_emit i ev w :
  (∀ v, ev ≠ EvSetPageSize i v) → pageSizes i (emit ev w) = pageSizes i w.
Proof.
  intros Hev. unfold pageSizes. simpl. rewrite omap_app. simpl.
  destruct ev as [| | | | |j v| | |]; try by rewrite app_nil_r.
  destruct (decide (j = i)) as [->|]; [by destruct (Hev v)|by rewrite app_nil_r].
Qed.

Lemma resolved_same i ps sets w w' :
  heap w' = heap w → nextId w' = nextId w → pageSizes i w' = pageSizes i w →
  resolved i ps sets w → resolved i ps sets w'.
Proof.
  intros Hh Hn Hp (Hok & Hi & He & Hs). unfold resolved.
  rewrite Hh, Hn, Hp. split; [by eapply heapOk_same|done].
Qed.

Lemma prim_pageSizes X a w i : prim X a → pageSizes i (a w).2 = pageSizes i w.
Proof.
  destruct 1; try done; unfold pageSizes; simpl; rewrite omap_app; simpl;
    by rewrite app_nil_r.
Qed.

Lemma resolved_setPageSize i ps sets j v w :
  j ≠ i → resolved i ps sets w → resolved i ps sets (setPageSize (VEntry j) v w).2.
Proof.
  intros Hj Hw. pose proof Hw as (Hok & Hi & (e & He & Hps) & Hs).
  pose proof (heapOk_setPageSize (VEntry j) v w Hok) as Hok'.
  unfold setPageSize in *. cbn [entryOf] in *.
  destruct (heap w !! j) as [e'|] eqn:Hje; [|exact Hw].
  pose proof (proj1 Hok j e' Hje) as Hid. split_and!; [done|done| |].
  - exists e. split; [|done]. simpl. rewrite Hid. by rewrite lookup_insert_ne.
  - cbn [snd]. rewrite pageSizes_emit; [done|]. rewrite Hid. by intros v' [= ->].
Qed.

Lemma resolved_headCallback i ps sets url head w :
  resolved i ps sets w → resolved i ps sets (headCallback url head w).2.
Proof.
  intros (Hok & Hi & (e & He & Hps) & Hs).
  pose proof (heapOk_headCallback url head w Hok) as Hok'.
  unfold headCallback in *.
  set (w0 := if acceptRanges head then w else _) in *.
  assert (Hh : heap w0 = heap w ∧ nextId w0 = nextId w ∧ pageSizes i w0 = pageSizes i w).
  { unfold w0. destruct (acceptRanges head); [done|].
    split_and!; [done..|]. by apply pageSizes_emit. }
  destruct Hh as (Hh & Hn & Hp).
  destruct (contentLength head);
    (split_and!; [done|simpl; lia| |by rewrite <- Hs, <- Hp]);
    exists e; simpl; rewrite ?Hh, ?Hn; rewrite ?lookup_insert_ne by lia; done.
Qed.

Lemma resolved_onmessage i ps sets data w :
  resolved i ps sets w → resolved i ps sets (onmessage data w).2.
Proof.
  intros Hw. unfold onmessage. cbv zeta.
  set (w0 := emit (EvDebug "threads" "Received new control message") w).
  assert (Hw0 : resolved i ps sets w0).
  { apply (resolved_same i ps sets w); [done..|by apply pageSizes_emit|done]. }
  clearbody w0. clear Hw w. destruct data as [id|o| |].
  - match goal with |- context [if ?b then _ else _] => destruct b end; [done|].
    destruct (newArrayBuffer _ _) as [shm w1] eqn:Hbuf. injection Hbuf as <- <-.
    match goal with |- context [viewStoreElement ?v ?l ?x ?w1] =>
      pose proof (viewStoreElement_heap v l x w1) as [Hh Hn];
      pose proof (viewStoreElement_trace v l x w1) as Ht;
      destruct (viewStoreElement v l x w1) as [[|e] w2] end;
      simpl in *; apply (resolved_same i ps sets w0); try done;
      unfold pageSizes; simpl; rewrite ?Ht, ?omap_app; simpl; by rewrite ?app_nil_r.
  - by destruct (LRU.new 0 (maxSizeOf o) (Some sizeCalculation)).
  - apply (resolved_same i ps sets w0); [done..|by apply pageSizes_emit|done].
  - done.
Qed.

(** From a state in which the page size is [ps], not 0, and every coroutine
    keeps it, the page size stays and is not assigned again. *)
Lemma resolved_run i ps sets s inputs s' :
  ps ≠ 0 → resolved i ps sets (world s) →
  Forall (taskSafe (resolved i ps sets)) (tasks s) →
  run s inputs = Some s' → resolved i ps sets (world s').
Proof.
  intros Hnz Hw Ht Hrun.
  apply (run_safe (resolved i ps sets) (λ _, True)) with (s := s) (inputs := inputs)
    (s' := s'); try done.
  - intros X a Ha w. apply resolved_same; [by apply prim_heap..|by apply prim_pageSizes].
  - intros X a Ha w.
    apply resolved_same; [by apply primRes_heap..|]. by apply pageSizes_trace, primRes_trace.
  - intros entry w e (Hok & Hi & (e' & He' & Hps') & Hs) He Hu v.
    unfold entryOf in He. destruct entry as [| | | | |j]; try done.
    destruct (heap w !! j) as [e0|] eqn:Hj; [|done]. injection He as ->.
    intros w'. apply resolved_setPageSize. intros ->.
    rewrite Hj in He'. injection He' as ->.
    unfold pageSizeUnknown in Hu. rewrite Hps' in Hu. by apply Z.eqb_eq in Hu.
  - intros ev Hev w. apply resolved_same; [done..|]. apply pageSizes_emit.
    intros v ->. done.
  - intros consumer v w. unfold storeLock. intros Hw'.
    apply (resolved_same i ps sets w); [| | |done].
    + by rewrite (proj1 (viewStoreElement_heap _ _ _ _)).
    + by rewrite (proj2 (viewStoreElement_heap _ _ _ _)).
    + rewrite (pageSizes_trace i _ _ (viewStoreElement_trace _ _ _ _)).
      by apply pageSizes_emit.
  - intros data w _. apply resolved_onmessage.
  - intros url head w. apply resolved_headCallback.
  - by apply Forall_forall.
Qed.

(** ntoh16 on the element that a Uint16Array reads from two bytes gives their
    big-endian value, whatever the byte order of the platform. *)
Lemma ntoh16_bigEndian swap hi lo :
  ntoh16 swap (elementValue swap [hi; lo]) = 256 * byteToZ hi + byteToZ lo.
Proof.
  assert (Hb : ∀ b, 0 ≤ byteToZ b < 256).
  { intros b. unfold byteToZ. pose proof (Byte.to_N_bounded b). lia. }
  destruct swap; unfold ntoh16, elementValue; simpl; [|lia].
  assert (Hall : forallb (λ h, forallb (λ l,
            Z.lor (Z.shiftr (Z.land (h + 256 * (l + 256 * 0)) 65280) 8)
                  (Z.shiftl (Z.land (h + 256 * (l + 256 * 0)) 255) 8)
            =? 256 * h + l) (seqZ 0 256)) (seqZ 0 256) = true)
    by (vm_compute; reflexivity).
  rewrite forallb_forall in Hall.
  specialize (Hall (byteToZ hi)). rewrite forallb_forall in Hall.
  apply Z.eqb_eq, Hall; apply list_elem_of_In, elem_of_seqZ; pose proof (Hb hi); pose proof (Hb lo); lia.
Qed.

(** The page size read by the discovery is stored, and checked against the
    limit. *)
Lemma storePageSize_spec w c j e buf hi lo :
  cache w = Some c → cacheReady c → heap w !! j = Some e → e_id e = j →
  buffers w !! buf = Some [hi; lo] →
  let v := 256 * byteToZ hi + byteToZ lo in
  ∃ w',
    runSync (storePageSize (VEntry j) j buf 0) w
      = (Finished (if v >? maxPageSizeOf (options w)
                   then Exn (ErrPageSizeOver v (maxPageSizeOf (options w)))
                   else Ok None), w') ∧
    heap w' !! j = Some (mkEntry (e_url e) j (e_size e) (Some v)) ∧
    pageSizes j w' = pageSizes j w ++ [v].
Proof.
  intros Hc Hready He Hid Hbuf v. unfold storePageSize, debug, warn.
  rewrite decide_False by (intros H; by apply H).
  rewrite runSync_bind_act. cbn [viewRead fst snd]. rewrite runSync_bind_act.
  cbn [getSwapNeeded fst snd].
  assert (Hbytes : viewBytes (mkView buf 0 2) w = [hi; lo]).
  { unfold viewBytes. simpl. by rewrite Hbuf. }
  rewrite Hbytes, ntoh16_bigEndian. fold v.
  rewrite runSync_bind_actRes. unfold setPageSize at 1 2. cbn [entryOf]. rewrite He.
  cbn [fst snd]. rewrite Hid. rewrite runSync_bind_act. cbn [log fst snd].
  set (w1 := emit _ (emit _ _)).
  assert (Hh1 : heap w1 !! j = Some (mkEntry (e_url e) j (e_size e) (Some v))).
  { unfold w1. simpl. apply lookup_insert_eq. }
  assert (Hp1 : pageSizes j w1 = pageSizes j w ++ [v]).
  { unfold w1, pageSizes. simpl. rewrite !omap_app. simpl.
    rewrite decide_True by done. by rewrite app_nil_r. }
  rewrite runSync_bind.
  assert (Hdel : ∃ w2, runSync (if decide (v ≠ 1024)
                                then bind (act (log (EvWarn "Page size is not the recommended 1024")))
                                       (λ _, actRes (cacheDelete (cacheId j 0)))
                                else Ret tt) w1 = (Finished (Ok tt), w2) ∧
                       heap w2 = heap w1 ∧ pageSizes j w2 = pageSizes j w1 ∧
                       options w2 = options w).
  { destruct (decide (v ≠ 1024)); [|by exists w1].
    rewrite runSync_bind_act. cbn [log fst snd].
    destruct (cacheDelete_spec (emit (EvWarn "Page size is not the recommended 1024") w1)
                c (cacheId j 0)) as (c' & Hd & _); [done..|].
    rewrite runSync_actRes, Hd. eexists. split_and!; [done..| |done].
    unfold pageSizes. simpl. rewrite !omap_app. simpl. by rewrite !app_nil_r. }
  destruct Hdel as (w2 & -> & Hh2 & Hp2 & Ho2).
  rewrite runSync_bind_act. cbn [getMaxPageSize fst snd]. rewrite Ho2.
  exists w2. rewrite Hh2, Hp2. split_and!; [|done..].
  by destruct (v >? maxPageSizeOf (options w)).
Qed.

(** A read of a file whose page size is known, and not 0, discovers nothing. *)
Lemma discoverPageSize_known xr m i e ps w :
  heap w !! i = Some e → pageSize e = Some ps → ps ≠ 0 →
  runSync (discoverPageSize xr m (VEntry i)) w = (Finished (Ok None), w).
Proof.
  intros He Hps Hnz. unfold discoverPageSize. rewrite runSync_bind_actRes.
  cbn [entryOf]. rewrite He. cbn [fst snd]. unfold pageSizeUnknown. rewrite Hps.
  apply Z.eqb_neq in Hnz. by rewrite Hnz.
Qed.

(** The discovery: the page size is set to 1024 for the time of a read of the
    bytes 16 and 17 into a buffer of its own, and then to what was read. *)
Lemma discoverPageSize_unknown xr m j e w :
  heap w !! j = Some e → e_id e = j → pageSizeUnknown e = true →
  runSync (discoverPageSize xr m (VEntry j)) w
  = runSync (bind (call (xr {| msg := MXRead; url := url m; offset := Some 16; n := Some 2 |}
                           (mkView (nextBuffer w) 0 2)))
               (λ r, storePageSize (VEntry j) j (nextBuffer w) r))
      (newArrayBuffer 2 (setPageSize (VEntry j) 1024 w).2).2.
Proof.
  intros He Hid Hu. unfold discoverPageSize. rewrite runSync_bind_actRes.
  cbn [entryOf]. rewrite He. cbn [fst snd]. rewrite Hu, Hid.
  rewrite runSync_bind_actRes. unfold setPageSize. cbn [entryOf]. rewrite He.
  cbn [fst snd]. by rewrite runSync_bind_act.
Qed.




(** * A read, from the message to the status *)

(** The copy of the requested part of the bytes [b], which start at
    [pageStart], to the buffer of the consumer. *)
Definition servedFrom (buffer : View) (offset pageStart n : Z) (b : list byte)
    (w : World) : Task Z * World :=
  (Finished (match (viewSet buffer
                      (subarray b (offset - pageStart) (offset - pageStart + n)) w).1 with
             | Ok _ => Ok 0
             | Exn err => Exn err
             end),
   (viewSet buffer (subarray b (offset - pageStart) (offset - pageStart + n)) w).2).

Lemma copyOut_bytes buffer b offset pageStart n w :
  runSync (copyOut buffer (VBytes b) offset pageStart n) w
  = servedFrom buffer offset pageStart n b w.
Proof.
  unfold copyOut, servedFrom. rewrite runSync_bind_actRes.
  by destruct (viewSet _ _ _) as [[[]|err] w4].
Qed.

(** The read has sent its request and awaits it: when the request fails the
    read throws its error, and when bytes arrive it copies the requested part
    of them. *)
Definition awaitsBytes (buffer : View) (offset pageStart n cap : Z) (p : nat)
    (t : Task Z) : Prop :=
  ∃ k, t = Waiting p k ∧
    (∀ err, k (Exn err) = Throw err) ∧
    ∀ b w2, hasCache w2 cap → b ≠ [] →
      ∃ w3, sameButCache w2 w3 ∧
            runSync (k (Ok (VBytes b))) w2 = servedFrom buffer offset pageStart n b w3.

(** The miss of a read that runs alone. *)
Lemma miss_alone w c i e ps id page pageStart m buffer offset n :
  cache w = Some c → cacheReady c → heap w !! i = Some e → pageSize e = Some ps →
  ∃ t w1,
    runsAlone
      (runSync (bind (fetchMiss m (VEntry i) id page pageStart)
                 (λ data, copyOut buffer data offset pageStart n)) w) (t, w1) ∧
    hasCache w1 (LRU.maxSize c) ∧
    match pageBefore w c id page with
    | Pending p =>
        (∃ k, t = Waiting p k ∧ ∀ err, k (Exn err) = Throw err) ∧
        settled w1 p = None ∧ reordered (emit (EvDebug "cache" "cache miss") w) w1
    | Fails err =>
        t = Finished (Exn err) ∧ reordered (emit (EvDebug "cache" "cache miss") w) w1
    | r =>
        ∃ tv, requested m ps id page pageStart (chunkLength ps r) (LRU.maxSize c)
                (nextPromise w) w tv w1 ∧
              match coveredPages (toNumber page) (chunkLength ps r) ps with
              | Some _ => awaitsBytes buffer offset pageStart n (LRU.maxSize c)
                            (nextPromise w) t
              | None => t = Hung
              end
    end.
Proof.
  intros Hc Hready He Hps.
  destruct (fetchMiss_alone w c i e ps id page pageStart m Hc Hready He Hps)
    as (tv & w1 & Hrun & Hw1 & Hres).
  apply (runsAlone_bind _ (λ data, copyOut buffer data offset pageStart n)) in Hrun.
  assert (Hreq : ∀ r,
            requested m ps id page pageStart (chunkLength ps r) (LRU.maxSize c)
              (nextPromise w) w tv w1 →
            ∃ t, bindTask (λ data, copyOut buffer data offset pageStart n) (tv, w1) = (t, w1) ∧
                 match coveredPages (toNumber page) (chunkLength ps r) ps with
                 | Some _ => awaitsBytes buffer offset pageStart n (LRU.maxSize c)
                               (nextPromise w) t
                 | None => t = Hung
                 end).
  { intros r (_ & _ & _ & Hcases).
    destruct (coveredPages (toNumber page) (chunkLength ps r) ps).
    - destruct Hcases as (k & -> & Hrej & Hful). cbn [bindTask].
      eexists. split; [done|]. eexists. split; [done|]. split.
      + intros err. cbv beta. by rewrite Hrej.
      + intros b w2 Hw2 Hb. destruct (Hful b w2 Hw2 Hb) as (w3 & Hrun3 & _ & Hsame).
        exists w3. split; [done|]. cbv beta.
        by rewrite runSync_bind, Hrun3, copyOut_bytes.
    - subst tv. by exists Hung. }
  destruct (pageBefore w c id page) as [|b|err|p].
  - destruct (Hreq NotResident Hres) as (t & Ht & Hcases). rewrite Ht in Hrun.
    exists t, w1. split_and!; [done..|]. by exists tv.
  - destruct (Hreq (Resident b) Hres) as (t & Ht & Hcases). rewrite Ht in Hrun.
    exists t, w1. split_and!; [done..|]. by exists tv.
  - destruct Hres as [-> Hre]. cbn [bindTask] in Hrun. by eexists _, w1.
  - destruct Hres as ((k & -> & Hrej) & Hs & Hre). cbn [bindTask] in Hrun.
    eexists _, w1. split; [exact Hrun|]. split; [done|]. split_and!; [|done..].
    eexists. split; [done|]. intros err. cbv beta. by rewrite Hrej.
Qed.

(** A read of a file that is open and whose page size is known goes on with
    the page: only the order of the registry changes. *)
Lemma xRead_readPage w m consumer i e ps off len :
  filesOk (files w) → LRU.peek (url m) (files w) = Some (VEntry i) →
  heap w !! i = Some e → pageSize e = Some ps → ps ≠ 0 →
  offset m = Some off → n m = Some len →
  ∃ f', filesOk f' ∧ (∀ k, LRU.peek k f' = LRU.peek k (files w)) ∧
        runSync (xRead m consumer) w
        = runSync (readPage m (buffer consumer) (VEntry i) off len) (with_files f' w).
Proof.
  intros Hf Hp He Hps Hnz Hoff Hlen.
  destruct (filesGet_spec w (url m) Hf) as (f' & Hget & Hf' & Hpeek).
  exists f'. split; [done|]. split; [done|].
  unfold xRead, maxNesting.
  change (xReadN 16 m (buffer consumer))
    with (xReadBody (xReadN 15) m (buffer consumer)).
  unfold xReadBody. rewrite runSync_bind_actRes, Hget, Hp.
  cbn [fst snd default from_option Datatypes.id truthy negb].
  rewrite runSync_bind. cbn [awaitIfPromise isPromise runSync].
  rewrite Hoff, Hlen. rewrite runSync_bind.
  by rewrite (discoverPageSize_known _ m i e ps (with_files f' w)).
Qed.

(** ** The status of a read *)

(** The world after the dispatcher has reported the outcome [r] of a member:
    the log, the status in the lock of the consumer, the notification. *)
Definition reported (this : Consumer) (r : res Z) (w : World) : World :=
  emit (EvAtomicsNotify (c_id this))
    (storeLock this (statusOf r)
       (emit (match r with
              | Ok _ => EvDebug "threads" "operation successful"
              | Exn e => EvError e
              end) w)).2.

Lemma reported_trace this r w :
  trace (reported this r w) = trace w ++
    [match r with
     | Ok _ => EvDebug "threads" "operation successful"
     | Exn e => EvError e
     end; EvAtomicsStore (c_id this) (statusOf r); EvAtomicsNotify (c_id this)].
Proof.
  unfold reported, storeLock. simpl. rewrite viewStoreElement_trace. simpl.
  by rewrite <- !app_assoc.
Qed.

Lemma reported_caches this r w :
  files (reported this r w) = files w ∧ cache (reported this r w) = cache w ∧
  promises (reported this r w) = promises w.
Proof.
  unfold reported, storeLock. simpl.
  destruct (viewStoreElement_caches (lock this) 4 (statusOf r)
              (emit (EvAtomicsStore (c_id this) (statusOf r))
                 (emit (match r with
                        | Ok _ => EvDebug "threads" "operation successful"
                        | Exn e => EvError e
                        end) w))) as [-> ->].
  split_and!; [done..|].
  unfold viewStoreElement, viewSet. by repeat case_match.
Qed.

(** What the handler does with the task of the member: what it awaits, the
    handler awaits; when it has ended, the handler reports its outcome in its
    next microtask. *)
Definition handled (this : Consumer) (tw : Task Z * World) : Task unit * World :=
  bindTask (λ _, atomicsNotify this)
    (catchTask (λ e, bind (consoleError e) (λ _, atomicsStore this 1))
       (bindTask (λ r, bind (debug "threads" "operation successful")
                         (λ _, atomicsStore this r))
          (callTask tw))).

Lemma workMessage_handled this data method w tw :
  backendAsyncMethods data this = Some (Method method) →
  runsAlone (runSync method (emit (EvDebug "threads" "Received new work message") w)) tw →
  runsAlone (runSync (workMessage this data) w) (handled this tw).
Proof.
  intros Hm Hrun. unfold workMessage, workMessageWith. rewrite Hm. cbn [invoke].
  unfold debug at 1. rewrite runSync_bind_act. cbn [log fst snd].
  unfold handled.
  apply runsAlone_bind, runsAlone_tryCatch, runsAlone_bind, runsAlone_call, Hrun.
Qed.

(** The handler of a member that has ended reports its outcome. *)
Lemma handled_finished this r w :
  runsAlone (handled this (Finished r, w)) (Finished (Ok tt), reported this r w).
Proof.
  unfold handled. cbn [callTask bindTask catchTask].
  apply alone_continue. rewrite runSync_bind, runSync_tryCatch.
  unfold reported, debug, consoleError, atomicsStore, atomicsNotify.
  destruct r as [x|e]; cbn [bind runSync].
  - change (Act (log (EvDebug "threads" "operation successful")) ?k)
      with (bind (act (log (EvDebug "threads" "operation successful"))) k).
    rewrite runSync_bind_act, runSync_actRes, storeLock_ok. cbn [log fst snd].
    rewrite runSync_act. apply alone_here.
  - rewrite runSync_bind_act, runSync_actRes, storeLock_ok. cbn [log fst snd].
    rewrite runSync_act. apply alone_here.
Qed.

(** The handler of a member that awaits a promise awaits it; when the member
    throws the error of the promise, the handler reports the error. *)
Lemma handled_waiting this p k w :
  ∃ k', handled this (Waiting p k, w) = (Waiting p k', w) ∧
    ∀ err, k (Exn err) = Throw err →
      ∀ w2, runsAlone (runSync (k' (Exn err)) w2)
              (Finished (Ok tt), reported this (Exn err) w2).
Proof.
  unfold handled. cbn [callTask bindTask catchTask].
  eexists. split; [reflexivity|].
  intros err Hrej w2. cbv beta. rewrite Hrej.
  pose proof (handled_finished this (Exn err) w2) as Hfin.
  unfold handled in Hfin. cbn [callTask bindTask catchTask] in Hfin.
  cbn [call bind tryCatch runSync]. exact Hfin.
Qed.

Lemma handled_hung this w : handled this (Hung, w) = (Hung, w).
Proof. reflexivity. Qed.

Lemma fetches_app w evs w' :
  trace w' = trace w ++ evs →
  fetches w' = fetches w ++
    omap (λ ev, match ev with
                | EvFetchRange url first last p => Some (url, first, last, p)
                | _ => None
                end) evs.
Proof. intros Ht. unfold fetches. by rewrite Ht, omap_app. Qed.

Lemma statuses_app consumer w evs w' :
  trace w' = trace w ++ evs →
  statuses consumer w' = statuses consumer w ++
    omap (λ ev, match ev with
                | EvAtomicsStore id v =>
                    if decide (id = consumer ∧ v ≠ HANDSHAKE) then Some v else None
                | _ => None
                end) evs.
Proof. intros Ht. unfold statuses. by rewrite Ht, omap_app. Qed.

Lemma reported_statuses this err w :
  statuses (c_id this) (reported this (Exn err) w) = statuses (c_id this) w ++ [1] ∧
  fetches (reported this (Exn err) w) = fetches w.
Proof.
  split.
  - rewrite (statuses_app _ w _ _ (reported_trace this (Exn err) w)). simpl.
    rewrite decide_True; [done|]. split; [done|]. unfold HANDSHAKE. lia.
  - rewrite (fetches_app w _ _ (reported_trace this (Exn err) w)). simpl.
    apply app_nil_r.
Qed.

(** The handler runs the member as far as it goes. *)
Lemma workMessage_run this data method w :
  backendAsyncMethods data this = Some (Method method) →
  runSync (workMessage this data) w
  = handled this (runSync method (emit (EvDebug "threads" "Received new work message") w)).
Proof.
  intros Hm. unfold workMessage, workMessageWith. rewrite Hm. cbn [invoke].
  unfold debug at 1. rewrite runSync_bind_act. cbn [log fst snd].
  rewrite runSync_bind, runSync_tryCatch, runSync_bind, runSync_call.
  unfold handled.
  by destruct (runSync method _) as [[p k|k|[x|e]|] w'].
Qed.

Lemma handled_alone this (a b : Task Z * World) :
  runsAlone a b → runsAlone (handled this a) (handled this b).
Proof.
  intros H. unfold handled.
  by apply runsAlone_bindTask, runsAlone_catchTask, runsAlone_bindTask, runsAlone_callTask.
Qed.

(** ** Worlds that differ by what was logged *)

Definition quiet (w w' : World) : Prop :=
  ∃ evs, trace w' = trace w ++ evs ∧ Forall logEvent evs.

Lemma quiet_refl w : quiet w w.
Proof. exists []. by rewrite app_nil_r. Qed.

Lemma quiet_trans w1 w2 w3 : quiet w1 w2 → quiet w2 w3 → quiet w1 w3.
Proof.
  intros (e1 & H1 & F1) (e2 & H2 & F2). exists (e1 ++ e2).
  split; [by rewrite H2, H1, app_assoc|]. by apply Forall_app.
Qed.

Lemma quiet_debug sys msg w w' : trace w' = trace w → quiet w (emit (EvDebug sys msg) w').
Proof.
  intros Ht. exists [EvDebug sys msg]. split; [simpl; by rewrite Ht|].
  repeat constructor. by eexists _, _.
Qed.

Lemma quiet_same w w' : trace w' = trace w → quiet w w'.
Proof. intros Ht. exists []. by rewrite app_nil_r. Qed.

Lemma quiet_fetches w w' : quiet w w' → fetches w' = fetches w.
Proof.
  intros (evs & Ht & Hevs). rewrite (fetches_app w evs w' Ht), (logEvents_fetches _ Hevs).
  apply app_nil_r.
Qed.

Lemma quiet_statuses consumer w w' : quiet w w' → statuses consumer w' = statuses consumer w.
Proof.
  intros (evs & Ht & Hevs).
  rewrite (statuses_app _ w evs w' Ht), (logEvents_statuses _ _ Hevs).
  apply app_nil_r.
Qed.

Lemma quiet_requested m ps id page pageStart len cap p w w0 t w1 :
  quiet w w0 → requested m ps id page pageStart len cap p w0 t w1 →
  requested m ps id page pageStart len cap p w t w1.
Proof.
  intros (e0 & Ht0 & He0) ((evs & Ht & Hevs) & Hrest).
  split; [|done]. exists (e0 ++ evs). split; [by rewrite Ht, Ht0, <- !app_assoc|].
  by apply Forall_app.
Qed.

(** The same cache but for the order of use. *)
Definition sameContent (c : LRU.LRUCache string Val) (w0 : World) : Prop :=
  ∃ c0, cache w0 = Some c0 ∧ cacheReady c0 ∧ LRU.maxSize c0 = LRU.maxSize c ∧
        ∀ k, LRU.peek k c0 = LRU.peek k c.

Lemma aligned_fields ps off w :
  quiet w (aligned ps off w) ∧ cache (aligned ps off w) = cache w ∧
  heap (aligned ps off w) = heap w ∧ promises (aligned ps off w) = promises w ∧
  nextPromise (aligned ps off w) = nextPromise w.
Proof.
  unfold aligned. destruct (decide _); [|split; [apply quiet_refl|done]].
  split; [by apply quiet_debug|done].
Qed.

(** A read of a page that the cache does not hold, in a task that runs alone:
    the world [w0] in which the miss begins differs from [w] by the log and by
    the order of the registry and of the cache. *)
Lemma xRead_miss_alone w c m consumer i e ps off len :
  filesOk (files w) → LRU.peek (url m) (files w) = Some (VEntry i) →
  heap w !! i = Some e → pageSize e = Some ps → ps ≠ 0 →
  offset m = Some off → n m = Some len → ¬ spans ps off len →
  cache w = Some c → cacheReady c →
  default VUndefined (LRU.peek (cacheId (e_id e) (off `quot` ps)) c) = VUndefined →
  ∃ t w0 w1,
    runsAlone (runSync (xRead m consumer) w) (t, w1) ∧
    quiet w w0 ∧ nextPromise w0 = nextPromise w ∧
    match pageBefore w c (e_id e) (off `quot` ps) with
    | Pending p =>
        (∃ k, t = Waiting p k ∧ ∀ err, k (Exn err) = Throw err) ∧
        settled w1 p = None ∧ sameContent c w1 ∧ quiet w w1
    | Fails err => t = Finished (Exn err) ∧ sameContent c w1 ∧ quiet w w1
    | r =>
        (∃ tv, requested m ps (e_id e) (off `quot` ps) ((off `quot` ps) * ps)
                 (chunkLength ps r) (LRU.maxSize c) (nextPromise w) w0 tv w1) ∧
        match coveredPages (toNumber (off `quot` ps)) (chunkLength ps r) ps with
        | Some _ => awaitsBytes (buffer consumer) off ((off `quot` ps) * ps) len
                      (LRU.maxSize c) (nextPromise w) t
        | None => t = Hung
        end
    end.
Proof.
  intros Hf Hp He Hps Hnz Hoff Hlen Hspan Hc Hready Hmiss.
  destruct (xRead_readPage w m consumer i e ps off len Hf Hp He Hps Hnz Hoff Hlen)
    as (f' & _ & _ & ->).
  rewrite (readPage_serve _ i e ps) by done.
  set (wb := with_files f' w).
  destruct (aligned_fields ps off wb) as (Hq & Hcache & Hheap & Hprom & Hnext).
  set (wc := aligned ps off wb) in *.
  assert (Hcc : cache wc = Some c) by by rewrite Hcache.
  destruct (serve_miss wc c m (buffer consumer) (VEntry i) (e_id e) ps (off `quot` ps)
              ((off `quot` ps) * ps) off len Hcc Hready Hmiss) as (w0 & Hre & ->).
  pose proof Hre as (c' & c0 & Hc' & Hw0 & Hr0 & Hm0 & Hp0).
  assert (c' = c) as -> by congruence.
  assert (Hc0 : cache w0 = Some c0) by by subst w0.
  assert (He0 : heap w0 !! i = Some e).
  { rewrite (reordered_heap _ _ Hre), Hheap. done. }
  destruct (miss_alone w0 c0 i e ps (e_id e) (off `quot` ps) ((off `quot` ps) * ps) m
              (buffer consumer) off len Hc0 Hr0 He0 Hps) as (t & w1 & Hrun & Hw1 & Hres).
  assert (Hsettled : ∀ p, settled w0 p = settled w p).
  { intros p. rewrite (reordered_settled _ _ p Hre). unfold settled. by rewrite Hprom. }
  rewrite (pageBefore_same w w0 c c0 (e_id e) (off `quot` ps) Hp0 Hsettled) in Hres.
  assert (Hn0 : nextPromise w0 = nextPromise w).
  { by rewrite (reordered_nextPromise _ _ Hre), Hnext. }
  assert (Hq0 : quiet w w0).
  { eapply quiet_trans; [exact Hq|]. apply quiet_same. by apply reordered_trace. }
  rewrite Hn0, Hm0 in Hres.
  assert (Hmissed : ∀ w2, reordered (emit (EvDebug "cache" "cache miss") w0) w2 →
            sameContent c w2 ∧ quiet w w2).
  { intros w2 Hre2. split.
    - destruct Hre2 as (c1 & c2 & Hc1 & -> & Hr2 & Hm2 & Hp2).
      simpl in Hc1. rewrite Hc0 in Hc1. injection Hc1 as <-.
      exists c2. split_and!; [done|done|congruence|]. intros k. by rewrite Hp2.
    - eapply quiet_trans; [exact Hq0|]. eapply quiet_trans; [by apply quiet_debug|].
      apply quiet_same. by apply reordered_trace. }
  exists t, w0, w1. split; [done|]. split; [done|]. split; [done|].
  destruct (pageBefore w c (e_id e) (off `quot` ps)) as [|b|err|p].
  - destruct Hres as (tv & Hreq & Hcases). split; [by exists tv|done].
  - destruct Hres as (tv & Hreq & Hcases). split; [by exists tv|done].
  - destruct Hres as (-> & Hre2). destruct (Hmissed w1 Hre2). by split_and!.
  - destruct Hres as (Hk & Hs & Hre2). destruct (Hmissed w1 Hre2). by split_and!.
Qed.

(** * The claims on the cache miss *)

(** C4, as stated, fails: the request for page 5 has failed and its promise is
    still under the key of the page.  A read of page 6 misses the cache; the
    page before is not resident, but no request of one page is sent: the read
    awaits the promise of page 5 and fails with it. *)
Lemma failed_page_before_sends_nothing :
  (s ← after true readAfterFailed;
   Some (statuses 7 (world s), fetches (world s), cached (world s)))
  = Some ([0; 0; 1; 1], [("u", 0, 1023, 1%nat); ("u", 5120, 6143, 2%nat)],
          [("1|0", VNum (NFin 1024)); ("1|5", VPromise 2)]).
Proof. vm_compute. reflexivity. Qed.

(** C4, amended.  Coalescing chunk size.  A miss of [page], in a task that
    runs alone, looks under the key of [Number(page) - 1] when the page is
    past page 0 (up to page 2^53 that is the key of the page before), awaits
    what it finds if it is a promise, follows it to its root if it is a
    reference, and awaits again.  If that gives the bytes of a resident chunk,
    the request is for twice their length from the start of the page; if it
    gives nothing of the kind, for one page; if a promise on the way rejects,
    no request is sent and the miss fails with the error of the promise; if
    one is pending, the miss awaits it and has sent no request yet.  Reading
    the pages 0, 1, 2, 3 in order sends requests of 1, 2 and 4 pages (page 2
    is a hit), reading 0, 5, 2 sends requests of one page each. *)
Theorem fetch_length w c i e ps id page pageStart m :
  cache w = Some c → cacheReady c → heap w !! i = Some e → pageSize e = Some ps →
  (∃ t w1,
     runsAlone (runSync (fetchMiss m (VEntry i) id page pageStart) w) (t, w1) ∧
     match pageBefore w c id page with
     | NotResident =>
         fetches w1 = fetches w ++
           [(url m, pageStart, pageStart + (ps - 1), nextPromise w)]
     | Resident b =>
         fetches w1 = fetches w ++
           [(url m, pageStart, pageStart + (Z.of_nat (length b) * 2 - 1), nextPromise w)]
     | Fails err => t = Finished (Exn err) ∧ fetches w1 = fetches w
     | Pending p => (∃ k, t = Waiting p k) ∧ settled w1 p = None ∧ fetches w1 = fetches w
     end) ∧
  (page ≤ 0 → pageBefore w c id page = NotResident) ∧
  (0 < page ≤ 2 ^ 53 →
   cacheIdOf id (numAdd (toNumber page) (-1)) = cacheId id (page - 1)) ∧
  (0 < page → LRU.peek (cacheIdOf id (numAdd (toNumber page) (-1))) c = None →
   pageBefore w c id page = NotResident) ∧
  (∀ b, 0 < page →
     LRU.peek (cacheIdOf id (numAdd (toNumber page) (-1))) c = Some (VBytes b) →
     pageBefore w c id page = Resident b) ∧
  (s ← after true sequential; Some (fetches (world s)))
  = Some [("u", 0, 1023, 1%nat); ("u", 1024, 3071, 2%nat); ("u", 3072, 7167, 4%nat)] ∧
  (s ← after true scattered; Some (fetches (world s)))
  = Some [("u", 0, 1023, 1%nat); ("u", 5120, 6143, 2%nat); ("u", 2048, 3071, 3%nat)].
Proof.
  intros Hc Hready He Hps. split_and!.
  - destruct (fetchMiss_alone w c i e ps id page pageStart m Hc Hready He Hps)
      as (t & w1 & Hrun & _ & Hres).
    exists t, w1. split; [done|].
    assert (Hquiet : ∀ w2, reordered (emit (EvDebug "cache" "cache miss") w) w2 →
              fetches w2 = fetches w).
    { intros w2 Hre. apply quiet_fetches. apply quiet_trans with (emit (EvDebug "cache" "cache miss") w).
      - by apply quiet_debug.
      - apply quiet_same. by apply reordered_trace. }
    destruct (pageBefore w c id page) as [|b|err|p].
    + by apply requested_fetches in Hres.
    + by apply requested_fetches in Hres.
    + destruct Hres as [-> Hre]. split; [done|]. by apply Hquiet.
    + destruct Hres as ((k & -> & _) & Hs & Hre). split_and!; [by eexists|done|].
      by apply Hquiet.
  - intros Hpage. unfold pageBefore.
    destruct (Z.gtb_spec page 0) as [?|_]; [lia|done].
  - apply previousKey_exact.
  - intros Hpage Hp. unfold pageBefore.
    destruct (Z.gtb_spec page 0) as [_|?]; [|lia]. by rewrite Hp.
  - intros b Hpage Hp. unfold pageBefore.
    destruct (Z.gtb_spec page 0) as [_|?]; [|lia]. by rewrite Hp.
  - vm_compute. reflexivity.
  - vm_compute. reflexivity.
Qed.

(** Page 0 is resident with its 1024 bytes: the miss of page 1 asks for 2048
    bytes. *)
Lemma fetch_length_witness :
  ∃ s t w1,
    after true (opened None 200 ++ firstRead db1024) = Some s ∧
    runsAlone (runSync (fetchMiss (readMsg 1024 1024) (VEntry 1) 1 1 1024) (world s))
      (t, w1) ∧
    fetches w1 = fetches (world s) ++ [("u", 1024, 1024 + (2048 - 1), nextPromise (world s))].
Proof.
  assert (Hobs : (s ← after true (opened None 200 ++ firstRead db1024);
                  c ← cache (world s);
                  Some (heap (world s) !! 1,
                        match pageBefore (world s) c 1 1 with
                        | Resident b => Some (Z.of_nat (length b))
                        | _ => None
                        end))
                 = Some (Some (mkEntry "u" 1 8192 (Some 1024)), Some 1024))
    by (vm_compute; reflexivity).
  destruct (after true (opened None 200 ++ firstRead db1024)) as [s|] eqn:Hs;
    [|discriminate Hobs].
  cbn [mbind option_bind] in Hobs.
  destruct (cache (world s)) as [c|] eqn:Hc; [|discriminate Hobs].
  cbn [mbind option_bind] in Hobs. injection Hobs as Hheap Hprev.
  pose proof (worldOk_after _ _ _ Hs) as [_ Hok].
  destruct (fetch_length (world s) c 1 (mkEntry "u" 1 8192 (Some 1024)) 1024 1 1 1024
              (readMsg 1024 1024) Hc (cacheOk_ready _ _ _ Hok Hc) Hheap eq_refl)
    as ((t & w1 & Hrun & Hres) & _).
  destruct (pageBefore (world s) c 1 1) as [|b|err|p]; try discriminate Hprev.
  injection Hprev as Hlen.
  exists s, t, w1. split; [reflexivity|]. split; [exact Hrun|].
  rewrite Hres, Hlen. reflexivity.
Defined.

(** C7, as stated, fails: the chunk of the pages 1 and 2 was evicted, the
    request that read page 1 again has failed, and its promise is under the
    key of page 1.  A read of page 2 finds the reference to page 1, whose key
    holds no bytes; it is not treated as a miss: it awaits the rejected
    promise and fails, and sends no request. *)
Lemma rejected_root_fails_the_read :
  (s ← after true failedRoot; Some (statuses 7 (world s), fetches (world s), cached (world s)))
  = Some ([0; 0; 0; 0; 1],
          [("u", 0, 1023, 1%nat); ("u", 1024, 3071, 2%nat); ("u", 5120, 6143, 4%nat);
           ("u", 1024, 2047, 5%nat)],
          [("1|2", VNum (NFin 1)); ("1|5", VNum (NFin 1024)); ("1|1", VPromise 5)]) ∧
  (s ← after true readFailedRoot; Some (statuses 7 (world s), fetches (world s)))
  = Some ([0; 0; 0; 0; 1; 1],
          [("u", 0, 1023, 1%nat); ("u", 1024, 3071, 2%nat); ("u", 5120, 6143, 4%nat);
           ("u", 1024, 2047, 5%nat)]).
Proof. split; vm_compute; reflexivity. Qed.

(** C7, amended.  Reference after eviction.  A read finds a reference for its
    page.  When the key of the page that the reference names holds no entry,
    or one that is neither bytes nor a promise, the read does not fail at that
    point: it goes on as a miss of its own page.  As any miss it looks at the
    page before (and fails or waits with a promise found there), then sends a
    request from the start of its own page; it copies the requested part of
    the bytes that arrive, and nothing of what the cache held.  When the key
    holds a promise, the read awaits it and sends no request: it fails with
    the error of the promise when it rejects, and it is served from the bytes
    that the promise gives, which start at the page that the reference
    names. *)
Theorem stale_reference_is_a_miss w c i e ps m buffer id page pageStart offset n root :
  cache w = Some c → cacheReady c → heap w !! i = Some e → pageSize e = Some ps →
  LRU.peek (cacheId id page) c = Some (VNum (NFin root)) →
  (notResident (LRU.peek (cacheIdOf id (NFin root)) c) →
   ∃ t w1,
     runsAlone (runSync (serve m buffer (VEntry i) id ps page pageStart offset n) w)
       (t, w1) ∧
     match pageBefore w c id page with
     | Pending p => (∃ k, t = Waiting p k) ∧ settled w1 p = None ∧ fetches w1 = fetches w
     | Fails err => t = Finished (Exn err) ∧ fetches w1 = fetches w
     | r =>
         fetches w1 = fetches w ++
           [(url m, pageStart, pageStart + (chunkLength ps r - 1), nextPromise w)] ∧
         match coveredPages (toNumber page) (chunkLength ps r) ps with
         | Some _ => awaitsBytes buffer offset pageStart n (LRU.maxSize c) (nextPromise w) t
         | None => t = Hung
         end
     end) ∧
  (∀ q, LRU.peek (cacheIdOf id (NFin root)) c = Some (VPromise q) →
     ∃ k w1,
       runSync (serve m buffer (VEntry i) id ps page pageStart offset n) w
         = (Waiting q k, w1) ∧
       fetches w1 = fetches w ∧
       (∀ err w2, runSync (k (Exn err)) w2 = (Finished (Exn err), w2)) ∧
       (∀ b w2, runSync (k (Ok (VBytes b))) w2
                = servedFrom buffer offset (root * ps) n b
                    (emit (EvDebug "cache" "cache hit") w2))).
Proof.
  intros Hc Hready He Hps Hp.
  assert (Hquiet : ∀ w0, reordered (emit (EvDebug "cache" "cache hit (multi-page segment)") w)
                           w0 → quiet w w0).
  { intros w0 Hre. eapply quiet_trans; [by apply quiet_debug|].
    apply quiet_same. by apply reordered_trace. }
  split.
  - intros Hroot.
    destruct (serve_stale w c m buffer (VEntry i) id ps page pageStart offset n root
                Hc Hready Hp Hroot) as (w0 & Hre & ->).
    pose proof Hre as (c' & c0 & Hc' & Hw0 & Hr0 & Hm0 & Hp0).
    assert (c' = c) as -> by (simpl in Hc'; congruence).
    assert (Hc0 : cache w0 = Some c0) by by subst w0.
    assert (He0 : heap w0 !! i = Some e) by by rewrite (reordered_heap _ _ Hre).
    destruct (miss_alone w0 c0 i e ps id page pageStart m buffer offset n Hc0 Hr0 He0 Hps)
      as (t & w1 & Hrun & Hw1 & Hres).
    assert (Hsettled : ∀ p, settled w0 p = settled w p).
    { intros p. by rewrite (reordered_settled _ _ p Hre). }
    rewrite (pageBefore_same w w0 c c0 id page Hp0 Hsettled) in Hres.
    assert (Hn0 : nextPromise w0 = nextPromise w)
      by by rewrite (reordered_nextPromise _ _ Hre).
    rewrite Hn0, Hm0 in Hres.
    pose proof (Hquiet w0 Hre) as Hq0.
    assert (Hmissed : ∀ w2, reordered (emit (EvDebug "cache" "cache miss") w0) w2 →
              fetches w2 = fetches w).
    { intros w2 Hre2. apply quiet_fetches.
      eapply quiet_trans; [exact Hq0|]. eapply quiet_trans; [by apply quiet_debug|].
      apply quiet_same. by apply reordered_trace. }
    exists t, w1. split; [done|].
    destruct (pageBefore w c id page) as [|b|err|p].
    + destruct Hres as (tv & Hreq & Hcases). split; [|done].
      apply (quiet_requested _ _ _ _ _ _ _ _ w) in Hreq; [|done].
      by apply requested_fetches in Hreq.
    + destruct Hres as (tv & Hreq & Hcases). split; [|done].
      apply (quiet_requested _ _ _ _ _ _ _ _ w) in Hreq; [|done].
      by apply requested_fetches in Hreq.
    + destruct Hres as (-> & Hre2). split; [done|]. by apply Hmissed.
    + destruct Hres as ((k & -> & _) & Hs & Hre2).
      split_and!; [by eexists|done|]. by apply Hmissed.
  - intros q Hq.
    destruct (serve_root_promise w c m buffer (VEntry i) id ps page pageStart offset n
                root q Hc Hready Hp Hq) as (k & w1 & Hrun & Hre & Hrej & Hbytes & _).
    exists k, w1. split_and!; [done| | |].
    + apply quiet_fetches. by apply Hquiet.
    + intros err w2. by rewrite Hrej.
    + intros b w2. by rewrite Hbytes, copyOut_bytes.
Qed.

(** The chunk of the pages 1 and 2 was evicted and the key of page 1 holds
    nothing: the read of page 2 asks for its own 1024 bytes. *)
Lemma stale_reference_is_a_miss_witness :
  ∃ s t w1,
    after true evicted = Some s ∧
    runsAlone
      (runSync (serve (readMsg 2048 1024) (mkView 0 0 4096) (VEntry 1) 1 1024 2 2048 2048 1024)
         (world s)) (t, w1) ∧
    fetches w1 = fetches (world s) ++ [("u", 2048, 2048 + (1024 - 1), nextPromise (world s))] ∧
    awaitsBytes (mkView 0 0 4096) 2048 2048 1024 3072 (nextPromise (world s)) t.
Proof.
  assert (Hobs : (s ← after true evicted; c ← cache (world s);
                  Some (heap (world s) !! 1, LRU.peek (cacheId 1 2) c,
                        LRU.peek (cacheIdOf 1 (NFin 1)) c,
                        match pageBefore (world s) c 1 2 with
                        | NotResident => true
                        | _ => false
                        end, LRU.maxSize c))
                 = Some (Some (mkEntry "u" 1 8192 (Some 1024)), Some (VNum (NFin 1)), None,
                         true, 3072))
    by (vm_compute; reflexivity).
  destruct (after true evicted) as [s|] eqn:Hs; [|discriminate Hobs].
  cbn [mbind option_bind] in Hobs.
  destruct (cache (world s)) as [c|] eqn:Hc; [|discriminate Hobs].
  cbn [mbind option_bind] in Hobs.
  injection Hobs as Hheap Hpage Hroot Hprev Hmax.
  pose proof (worldOk_after _ _ _ Hs) as [_ Hok].
  destruct (stale_reference_is_a_miss (world s) c 1 (mkEntry "u" 1 8192 (Some 1024))
              1024 (readMsg 2048 1024) (mkView 0 0 4096) 1 2 2048 2048 1024 1
              Hc (cacheOk_ready _ _ _ Hok Hc) Hheap eq_refl Hpage) as [Hstale _].
  destruct Hstale as (t & w1 & Hrun & Hres).
  { rewrite Hroot. exact Logic.I. }
  destruct (pageBefore (world s) c 1 2) as [|b|err|p]; try discriminate Hprev.
  destruct Hres as [Hfetch Hcases]. cbn [chunkLength] in Hfetch, Hcases.
  rewrite (coveredPages_one (toNumber 2) 1024) in Hcases. rewrite Hmax in Hcases.
  exists s, t, w1. split; [reflexivity|]. split; [exact Hrun|].
  split; [exact Hfetch|exact Hcases].
Defined.

(** C3, amended.  A read that misses the cache, in a task that runs alone,
    first looks at the page before: when a promise found there rejects, the
    read fails without a request, and the consumer gets the status 1.
    Otherwise the read sends its request, enters the promise of the request in
    the cache under the key of the page, then the references to it, and
    awaits it (unless the loop over the covered pages never ends).  When the
    request fails, the handler logs the error, stores the status 1 and
    notifies the consumer, and nothing else: the cache is what it was, the
    rejected promise included.  A later read of the page that finds the
    promise under the key awaits it and sends no request; when the promise has
    rejected, that read gets the status 1 as well. *)
Theorem failed_fetch_stays_pending this data w c i e ps off len :
  msg data = MXRead → offset data = Some off → n data = Some len →
  filesOk (files w) → LRU.peek (url data) (files w) = Some (VEntry i) →
  heap w !! i = Some e → pageSize e = Some ps → ps ≠ 0 → ¬ spans ps off len →
  cache w = Some c → cacheReady c →
  (default VUndefined (LRU.peek (cacheId (e_id e) (off `quot` ps)) c) = VUndefined →
   ∃ t w1,
     runsAlone (runSync (workMessage this data) w) (t, w1) ∧
     match pageBefore w c (e_id e) (off `quot` ps) with
     | Pending p =>
         (∃ k, t = Waiting p k) ∧ settled w1 p = None ∧
         fetches w1 = fetches w ∧ statuses (c_id this) w1 = statuses (c_id this) w
     | Fails err =>
         t = Finished (Ok tt) ∧ fetches w1 = fetches w ∧
         statuses (c_id this) w1 = statuses (c_id this) w ++ [1]
     | r =>
         fetches w1 = fetches w ++
           [(url data, (off `quot` ps) * ps,
             (off `quot` ps) * ps + (chunkLength ps r - 1), nextPromise w)] ∧
         statuses (c_id this) w1 = statuses (c_id this) w ∧
         (4 ≤ LRU.maxSize c →
          ∃ w0 c0, cache w0 = Some c0 ∧
                   LRU.peek (cacheId (e_id e) (off `quot` ps)) c0
                     = Some (VPromise (nextPromise w)) ∧
                   sameButCache w0 w1 ∧
                   (coveredPages (toNumber (off `quot` ps)) (chunkLength ps r) ps = Some [] →
                    w1 = w0)) ∧
         match coveredPages (toNumber (off `quot` ps)) (chunkLength ps r) ps with
         | Some _ =>
             ∃ k, t = Waiting (nextPromise w) k ∧
               ∀ err w2, runsAlone (runSync (k (Exn err)) w2)
                           (Finished (Ok tt), reported this (Exn err) w2)
         | None => t = Hung
         end
     end) ∧
  (∀ p, LRU.peek (cacheId (e_id e) (off `quot` ps)) c = Some (VPromise p) →
     ∃ k w1,
       runSync (workMessage this data) w = (Waiting p k, w1) ∧
       fetches w1 = fetches w ∧ statuses (c_id this) w1 = statuses (c_id this) w ∧
       sameContent c w1 ∧
       ∀ err w2, runsAlone (runSync (k (Exn err)) w2)
                   (Finished (Ok tt), reported this (Exn err) w2)) ∧
  (∀ err w2,
     trace (reported this (Exn err) w2) = trace w2 ++
       [EvError err; EvAtomicsStore (c_id this) 1; EvAtomicsNotify (c_id this)] ∧
     statuses (c_id this) (reported this (Exn err) w2) = statuses (c_id this) w2 ++ [1] ∧
     fetches (reported this (Exn err) w2) = fetches w2 ∧
     cache (reported this (Exn err) w2) = cache w2 ∧
     promises (reported this (Exn err) w2) = promises w2).
Proof.
  intros Hmsg Hoff Hlen Hf Hp He Hps Hnz Hspan Hc Hready.
  assert (Hm : backendAsyncMethods data this = Some (Method (xRead data this))).
  { unfold backendAsyncMethods. by rewrite Hmsg. }
  set (wa := emit (EvDebug "threads" "Received new work message") w).
  assert (Hqa : quiet w wa) by by apply quiet_debug.
  split_and!.
  - intros Hmiss.
    destruct (xRead_miss_alone wa c data this i e ps off len Hf Hp He Hps Hnz Hoff Hlen
                Hspan Hc Hready Hmiss) as (t & w0 & w1 & Hrun & Hq0 & Hn0 & Hres).
    change (pageBefore wa c (e_id e) (off `quot` ps))
      with (pageBefore w c (e_id e) (off `quot` ps)) in Hres.
    change (nextPromise wa) with (nextPromise w) in Hres, Hn0.
    apply (handled_alone this) in Hrun. unfold wa in Hrun.
    rewrite <- (workMessage_run this data _ w Hm) in Hrun.
    assert (Hqw0 : quiet w w0) by (eapply quiet_trans; [exact Hqa|exact Hq0]).
    assert (Hreq : ∀ r tv,
              requested data ps (e_id e) (off `quot` ps) ((off `quot` ps) * ps)
                (chunkLength ps r) (LRU.maxSize c) (nextPromise w) w0 tv w1 →
              match coveredPages (toNumber (off `quot` ps)) (chunkLength ps r) ps with
              | Some _ => awaitsBytes (buffer this) off ((off `quot` ps) * ps) len
                            (LRU.maxSize c) (nextPromise w) t
              | None => t = Hung
              end →
              ∃ t', handled this (t, w1) = (t', w1) ∧
                fetches w1 = fetches w ++
                  [(url data, (off `quot` ps) * ps,
                    (off `quot` ps) * ps + (chunkLength ps r - 1), nextPromise w)] ∧
                statuses (c_id this) w1 = statuses (c_id this) w ∧
                (4 ≤ LRU.maxSize c →
                 ∃ w0 c0, cache w0 = Some c0 ∧
                          LRU.peek (cacheId (e_id e) (off `quot` ps)) c0
                            = Some (VPromise (nextPromise w)) ∧
                          sameButCache w0 w1 ∧
                          (coveredPages (toNumber (off `quot` ps)) (chunkLength ps r) ps
                             = Some [] → w1 = w0)) ∧
                match coveredPages (toNumber (off `quot` ps)) (chunkLength ps r) ps with
                | Some _ =>
                    ∃ k, t' = Waiting (nextPromise w) k ∧
                      ∀ err w2, runsAlone (runSync (k (Exn err)) w2)
                                  (Finished (Ok tt), reported this (Exn err) w2)
                | None => t' = Hung
                end).
    { intros r tv Hreq Hcases.
      apply (quiet_requested _ _ _ _ _ _ _ _ w) in Hreq; [|done].
      pose proof (requested_fetches _ _ _ _ _ _ _ _ _ _ _ Hreq) as Hfetch.
      pose proof (requested_statuses _ _ _ _ _ _ _ _ _ _ _ (c_id this) Hreq) as Hstat.
      destruct Hreq as (_ & _ & Hreg & _).
      destruct (coveredPages (toNumber (off `quot` ps)) (chunkLength ps r) ps).
      - destruct Hcases as (k & -> & Hrej & _).
        destruct (handled_waiting this (nextPromise w) k w1) as (k' & Hk' & Hfail).
        exists (Waiting (nextPromise w) k'). split_and!; [done..|].
        exists k'. split; [done|]. intros err w2. by apply Hfail.
      - subst t. exists Hung. by split_and!. }
    destruct (pageBefore w c (e_id e) (off `quot` ps)) as [|b|err|p].
    + destruct Hres as ((tv & Hrq) & Hcases).
      destruct (Hreq NotResident tv Hrq Hcases) as (t' & Ht' & Hrest).
      rewrite Ht' in Hrun. by exists t', w1.
    + destruct Hres as ((tv & Hrq) & Hcases).
      destruct (Hreq (Resident b) tv Hrq Hcases) as (t' & Ht' & Hrest).
      rewrite Ht' in Hrun. by exists t', w1.
    + destruct Hres as (-> & _ & Hq1).
      exists (Finished (Ok tt)), (reported this (Exn err) w1).
      split; [eapply runsAlone_trans; [exact Hrun|apply handled_finished]|].
      destruct (reported_statuses this err w1) as [Hst Hfe].
      split; [done|]. rewrite Hst, Hfe.
      assert (quiet w w1) as Hqw1 by (eapply quiet_trans; [exact Hqa|exact Hq1]).
      by rewrite (quiet_fetches _ _ Hqw1), (quiet_statuses _ _ _ Hqw1).
    + destruct Hres as ((k & -> & Hrej) & Hs & _ & Hq1).
      destruct (handled_waiting this p k w1) as (k' & Hk' & _).
      rewrite Hk' in Hrun. exists (Waiting p k'), w1. split; [done|].
      assert (quiet w w1) as Hqw1 by (eapply quiet_trans; [exact Hqa|exact Hq1]).
      split_and!; [by eexists|done|by apply quiet_fetches|by apply quiet_statuses].
  - intros p Hpromise.
    rewrite (workMessage_run this data _ w Hm). fold wa.
    destruct (xRead_readPage wa data this i e ps off len Hf Hp He Hps Hnz Hoff Hlen)
      as (f' & _ & _ & ->).
    rewrite (readPage_serve _ i e ps) by done.
    set (wb := with_files f' wa).
    destruct (aligned_fields ps off wb) as (Hq & Hcache & Hheap & Hprom & Hnext).
    set (wc := aligned ps off wb) in *.
    assert (Hcc : cache wc = Some c) by by rewrite Hcache.
    destruct (serve_pending wc c data (buffer this) (VEntry i) (e_id e) ps (off `quot` ps)
                ((off `quot` ps) * ps) off len p Hcc Hready Hpromise)
      as (k & w1 & -> & Hre & Hrej).
    destruct (handled_waiting this p k w1) as (k' & -> & Hfail).
    assert (Hqw1 : quiet w w1).
    { eapply quiet_trans; [exact Hqa|]. eapply quiet_trans; [exact Hq|].
      apply quiet_same. by apply reordered_trace. }
    exists k', w1. split_and!; [done|by apply quiet_fetches|by apply quiet_statuses| |].
    + destruct Hre as (c1 & c2 & Hc1 & -> & Hr2 & Hm2 & Hp2).
      rewrite Hcc in Hc1. injection Hc1 as <-. by exists c2.
    + intros err w2. by apply Hfail.
  - intros err w2. destruct (reported_statuses this err w2) as [Hst Hfe].
    destruct (reported_caches this (Exn err) w2) as (_ & Hca & Hpr).
    split_and!; [apply reported_trace|done..].
Qed.

(** The read of page 5 by consumer 7, with the page size known and the cache
    empty but for page 0: the request is sent, and when it fails the status 1
    is stored. *)
Lemma failed_fetch_stays_pending_witness :
  let this := mkConsumer 7 0 (mkView 0 4096 4) (mkView 0 0 4096) in
  ∃ s t w1 k,
    after true (opened None 200 ++ firstRead db1024) = Some s ∧
    runsAlone (runSync (workMessage this (readMsg 5120 1024)) (world s)) (t, w1) ∧
    fetches w1 = fetches (world s) ++ [("u", 5120, 5120 + (1024 - 1), nextPromise (world s))] ∧
    t = Waiting (nextPromise (world s)) k ∧
    ∀ err w2, runsAlone (runSync (k (Exn err)) w2)
                (Finished (Ok tt), reported this (Exn err) w2).
Proof.
  intros this.
  assert (Hobs : (s ← after true (opened None 200 ++ firstRead db1024);
                  c ← cache (world s);
                  Some (heap (world s) !! 1, LRU.peek "u" (files (world s)),
                        default VUndefined (LRU.peek (cacheId 1 5) c),
                        match pageBefore (world s) c 1 5 with
                        | NotResident => true
                        | _ => false
                        end))
                 = Some (Some (mkEntry "u" 1 8192 (Some 1024)), Some (VEntry 1),
                         VUndefined, true))
    by (vm_compute; reflexivity).
  destruct (after true (opened None 200 ++ firstRead db1024)) as [s|] eqn:Hs;
    [|discriminate Hobs].
  cbn [mbind option_bind] in Hobs.
  destruct (cache (world s)) as [c|] eqn:Hc; [|discriminate Hobs].
  cbn [mbind option_bind] in Hobs.
  injection Hobs as Hheap Hfile Hmiss Hprev.
  pose proof (worldOk_after _ _ _ Hs) as [Hfiles Hok].
  destruct (failed_fetch_stays_pending this (readMsg 5120 1024) (world s) c 1
              (mkEntry "u" 1 8192 (Some 1024)) 1024 5120 1024 eq_refl eq_refl eq_refl
              Hfiles Hfile Hheap eq_refl) as (Hmissed & _).
  - discriminate.
  - unfold spans. intros H. vm_compute in H. discriminate H.
  - exact Hc.
  - exact (cacheOk_ready _ _ _ Hok Hc).
  - destruct (Hmissed Hmiss) as (t & w1 & Hrun & Hres).
    change (e_id (mkEntry "u" 1 8192 (Some 1024))) with 1 in Hres.
    change (5120 `quot` 1024) with 5 in Hres.
    destruct (pageBefore (world s) c 1 5) as [|b|err|p]; try discriminate Hprev.
    destruct Hres as (Hfetch & _ & _ & Hcases). cbn [chunkLength] in Hfetch, Hcases.
    rewrite (coveredPages_one (toNumber 5) 1024) in Hcases.
    destruct Hcases as (k & Ht & Hfail).
    exists s, t, w1, k. split; [reflexivity|]. split; [exact Hrun|].
    split; [exact Hfetch|]. split; [exact Ht|exact Hfail].
Defined.




(** C9, as stated, fails: the server answers the HEAD request with status 404,
    and xOpen stores the status 0 of a success and enters the file in the
    registry. *)
Lemma xOpen_succeeds_on_404 :
  (s ← after true (opened None 404);
   Some (statuses 7 (world s), LRU.peek "u" (files (world s)), taskStates s))
  = Some ([0], Some (VEntry 1), [TDone]).
Proof. vm_compute. reflexivity. Qed.

(** C9, amended.  The first xOpen of a url sends the HEAD request and enters
    its promise in the registry.  It fails exactly when that promise rejects,
    and the promise rejects when the fetch fails (a network error) or when the
    Content-Length of the response is not an integer; the HTTP status of the
    response is not looked at.  Otherwise the promise is fulfilled with the
    entry, xOpen enters it in the registry under the url and returns 0.  An
    xOpen that finds the entry in the registry returns 0 without a request;
    one that does not (the registry keeps the 32 urls used last) sends the
    request again. *)
Theorem xOpen_fails_when_probe_rejects w m :
  filesOk (files w) → LRU.peek (url m) (files w) = None →
  ∃ k w1,
    runSync (xOpen m) w = (Waiting (nextPromise w) k, w1) ∧
    probes w1 = probes w ++ [(url m, nextPromise w)] ∧
    promises w1 !! nextPromise w = Some (PendingHead (url m)) ∧
    LRU.peek (url m) (files w1) = Some (VPromise (nextPromise w)) ∧
    (∀ e w2, runSync (k (Exn e)) w2 = (Finished (Exn e), w2)) ∧
    (∀ v w2, filesOk (files w2) →
       ∃ w3, runSync (k (Ok v)) w2 = (Finished (Ok 0), w3) ∧
             probes w3 = probes w2 ∧ filesOk (files w3) ∧
             LRU.peek (url m) (files w3) = Some v) ∧
    (∀ w2 entry, filesOk (files w2) →
       LRU.peek (url m) (files w2) = Some (VEntry entry) →
       ∃ w3, runSync (xOpen m) w2 = (Finished (Ok 0), w3) ∧ probes w3 = probes w2) ∧
    (∀ s head, promises (world s) !! nextPromise w = Some (PendingHead (url m)) →
       ∃ s', step s (RespondHead (nextPromise w) head) = Some s' ∧
             settled (world s') (nextPromise w) =
             Some (match contentLength head with
                   | CLMalformed => Exn (TypeError "Cannot convert to a BigInt")
                   | _ => Ok (VEntry (nextId (world s)))
                   end)) ∧
    (∀ s reason, promises (world s) !! nextPromise w = Some (PendingHead (url m)) →
       ∃ s', step s (FailFetch (nextPromise w) reason) = Some s' ∧
             settled (world s') (nextPromise w) = Some (Exn (FetchFailed reason))).
Proof.
  intros Hf Hp.
  destruct (xOpen_probe w m Hf Hp) as (k & f1 & Hrun & Hf1 & Hpeek & Hrej & Hful).
  exists k, (with_files f1 (fetchHead (url m) w).2). split_and!; try done.
  - unfold probes. simpl. by rewrite omap_app.
  - simpl. apply lookup_insert_eq.
  - intros e w2. by rewrite Hrej.
  - intros v w2 Hf2. destruct (Hful v w2 Hf2) as (f2 & Hrun2 & Hf2' & Hpeek2).
    by exists (with_files f2 w2).
  - intros w2 entry Hf2 Hp2.
    destruct (xOpen_reuse w2 m entry Hf2 Hp2) as (f2 & Hrun2 & _).
    by exists (with_files f2 w2).
  - intros s head Hpending.
    destruct (step_RespondHead s _ _ head Hpending) as (s' & Hstep & _ & Hset).
    exists s'. split; [done|]. by rewrite Hset, headCallback_outcome.
  - intros s reason Hpending.
    destruct (step_FailFetch s _ _ reason Hpending) as (s' & Hstep & _ & Hset).
    by exists s'.
Qed.

Lemma xOpen_fails_when_probe_rejects_witness :
  ∃ s, after true [Control (Init None); Control (Handshake 7)] = Some s ∧
    ∃ k w1,
      runSync (xOpen openMsg) (world s) = (Waiting (nextPromise (world s)) k, w1) ∧
      probes w1 = probes (world s) ++ [("u", nextPromise (world s))].
Proof.
  assert (Hobs : (s ← after true [Control (Init None); Control (Handshake 7)];
                  Some (LRU.peek "u" (files (world s)))) = Some None)
    by (vm_compute; reflexivity).
  destruct (after true [Control (Init None); Control (Handshake 7)]) as [s|] eqn:Hs;
    [|discriminate Hobs].
  cbn [mbind option_bind] in Hobs. injection Hobs as Hobs.
  exists s. split; [done|].
  destruct (xOpen_fails_when_probe_rejects (world s) openMsg
              (proj1 (worldOk_after _ _ _ Hs)) Hobs) as (k & w1 & Hrun & Hprobes & _).
  exists k, w1. split; [exact Hrun|exact Hprobes].
Defined.

(** C10.  A failed open poisons the registry.  While the registry holds the
    promise of a probe under the url, xOpen, xRead and xFilesize for that url
    send no request: they await that promise (only the order of the registry
    changes), and when it has rejected they fail with its error and leave the
    world as it is, the promise in the registry included.  xAccess awaits it
    too; it stores 0, not accessible, in its result and returns. *)
Theorem failed_open_poisons w m consumer p :
  filesOk (files w) → LRU.peek (url m) (files w) = Some (VPromise p) →
  (∀ method, method ∈ [xOpen m; xRead m consumer; xFilesize m consumer] →
     ∃ k f',
       runSync method w = (Waiting p k, with_files f' w) ∧
       filesOk f' ∧ LRU.peek (url m) f' = Some (VPromise p) ∧
       ∀ e w2, runSync (k (Exn e)) w2 = (Finished (Exn e), w2)) ∧
  ∃ k f',
    runSync (xAccess m consumer) w = (Waiting p k, with_files f' w) ∧
    filesOk f' ∧ LRU.peek (url m) f' = Some (VPromise p) ∧
    ∀ e w2, ∃ k2,
      runSync (k (Exn e)) w2 = (Paused k2, w2) ∧
      ∀ w3, runSync k2 w3 =
            (Finished (Ok 0), (viewStoreElement (mkView (shm consumer) 0 4) 4 0 w3).2).
Proof.
  intros Hf Hp. split.
  - intros method Hm.
    assert (Ha : awaitsEntry method (url m) p w).
    { apply elem_of_cons in Hm as [->|Hm]; [by apply xOpen_awaits|].
      apply elem_of_cons in Hm as [->|Hm]; [by apply xRead_awaits|].
      apply list_elem_of_singleton in Hm as ->. by apply xFilesize_awaits. }
    destruct Ha as (k & f' & Hrun & Hrej & Hf' & Hpeek).
    exists k, f'. split_and!; [done..|by rewrite Hpeek|].
    intros e w2. by rewrite Hrej.
  - destruct (xAccess_awaits m consumer p w Hf Hp) as (k & f' & Hrun & Hf' & Hpeek & Hrej).
    exists k, f'. split_and!; [done..|by rewrite Hpeek|done].
Qed.

Lemma failed_open_poisons_witness :
  ∃ s, after true failedOpen = Some s ∧
       statuses 7 (world s) = [1] ∧
       ∃ k f', runSync (xOpen openMsg) (world s) = (Waiting 0%nat k, with_files f' (world s)) ∧
               ∀ e w2, runSync (k (Exn e)) w2 = (Finished (Exn e), w2).
Proof.
  assert (Hobs : (s ← after true failedOpen;
                  Some (LRU.peek "u" (files (world s)), statuses 7 (world s)))
                 = Some (Some (VPromise 0), [1]))
    by (vm_compute; reflexivity).
  destruct (after true failedOpen) as [s|] eqn:Hs; [|discriminate Hobs].
  cbn [mbind option_bind] in Hobs. injection Hobs as Hpeek Hst.
  exists s. split_and!; [done..|].
  destruct (failed_open_poisons (world s) openMsg
              (mkConsumer 7 0 (mkView 0 4096 4) (mkView 0 0 4096)) 0%nat
              (proj1 (worldOk_after _ _ _ Hs)) Hpeek) as [Hmethods _].
  destruct (Hmethods (xOpen openMsg)) as (k & f' & Hrun & _ & _ & Hrej);
    [apply list_elem_of_here|].
  exists k, f'. split; [exact Hrun|exact Hrej].
Defined.

(** C10, as stated, fails for xAccess: after the failed open, xAccess awaits
    the rejected promise and sends no request, but it does not fail: the
    consumer gets the status 0 of a success (the answer, not accessible, is
    the 0 in the result cell). *)
Lemma xAccess_succeeds_after_failed_open :
  (s ← after true accessAfterFailedOpen;
   Some (statuses 7 (world s), probes (world s), taskStates s))
  = Some ([1; 0], [("u", 0%nat)], [TDone; TDone]).
Proof. vm_compute. reflexivity. Qed.

(** * Further properties of the cache and of the worker *)

(** An operation of a client of the cache. *)
Inductive CacheOp : Type :=
| OpGet (k : string)
| OpSet (k : string) (v : Val)
| OpDelete (k : string).

(** The cache after an operation; an operation that throws leaves it as it
    was. *)
Definition applyOp (c : LRU.LRUCache string Val) (op : CacheOp)
  : LRU.LRUCache string Val :=
  match op with
  | OpGet k => match LRU.get k c with Ok (_, c') => c' | Exn _ => c end
  | OpSet k v => match LRU.set k v c with Ok c' => c' | Exn _ => c end
  | OpDelete k => match LRU.delete k c with Ok (_, c') => c' | Exn _ => c end
  end.

Definition applyOps (c : LRU.LRUCache string Val) (ops : list CacheOp)
  : LRU.LRUCache string Val :=
  foldl applyOp c ops.

Lemma applyOp_wf c op : LRUFacts.wf c → LRUFacts.wf (applyOp c op).
Proof.
  intros Hwf. destruct op as [k|k v|k]; simpl.
  - by destruct (LRUFacts.wf_get c k Hwf) as (c' & -> & Hwf' & _).
  - by destruct (LRUFacts.wf_set c k v Hwf) as [(msg & _ & ->)|(c' & -> & Hwf' & _)].
  - by destruct (LRUFacts.wf_delete c k Hwf) as (b & c' & -> & Hwf' & _).
Qed.

Lemma applyOp_config c op :
  LRUFacts.wf c → LRUFacts.sameConfig c (applyOp c op).
Proof.
  intros Hwf. destruct op as [k|k v|k]; simpl.
  - by destruct (LRUFacts.wf_get c k Hwf) as (c' & -> & _ & Hsame & _).
  - by destruct (LRUFacts.wf_set c k v Hwf) as [(msg & _ & ->)|(c' & -> & _ & Hsame & _)].
  - by destruct (LRUFacts.wf_delete c k Hwf) as (b & c' & -> & _ & Hsame & _).
Qed.

Lemma applyOps_wf c ops :
  LRUFacts.wf c → LRUFacts.wf (applyOps c ops) ∧ LRUFacts.sameConfig c (applyOps c ops).
Proof.
  revert c. induction ops as [|op ops IH]; intros c Hwf; [done|].
  simpl. destruct (IH (applyOp c op) (applyOp_wf c op Hwf)) as [Hwf' Hsame].
  split; [done|]. destruct (applyOp_config c op Hwf) as (H1 & H2 & H3 & H4).
  destruct Hsame as (H1' & H2' & H3' & H4'). split_and!; congruence.
Qed.

(** X1.  The representation of the cache.  A cache made by the constructor
    with a maximal number of entries other than 1, and used through get, set
    and delete in any order, keeps its linked list, its key map and its sizes
    consistent; if it tracks sizes, the sizes it accounts for are at most its
    maxSize. *)
Theorem lru_invariant max maxSz sizeCalc c0 ops :
  LRU.new max maxSz sizeCalc = Ok c0 → max ≠ 1%nat →
  LRUFacts.wf (applyOps c0 ops) ∧
  LRU.max_ (applyOps c0 ops) = max ∧ LRU.maxSize (applyOps c0 ops) = maxSz ∧
  (LRU.tracksSize c0 = true →
   LRU.calculatedSize (applyOps c0 ops) ≤ maxSz ∧
   LRU.residentSize (applyOps c0 ops) ≤ maxSz).
Proof.
  intros Hnew Hmax.
  destruct (LRUFacts.new_wf _ _ _ _ Hnew Hmax) as (Hwf & _ & Hm & Hsz & _).
  destruct (applyOps_wf c0 ops Hwf) as [Hwf' Hsame].
  pose proof (tracksSize_same _ _ Hsame) as Htr.
  destruct Hsame as (H1 & H2 & _). split_and!; [done|congruence..|].
  intros Ht. rewrite Ht in Htr.
  destruct (LRUFacts.wf_bounded _ Hwf' Htr) as (_ & Hres & Hcalc).
  rewrite H2, Hsz in Hres, Hcalc. done.
Qed.

Lemma lru_invariant_witness :
  ∃ c0, LRU.new 0 2048 (Some sizeCalculation) = Ok c0 ∧
        LRU.residentSize
          (applyOps c0 [OpSet "1|0" (VBytes (replicate 1024 x00));
                        OpSet "1|1" (VBytes (replicate 1024 x01));
                        OpSet "1|2" (VNum (NFin 1)); OpGet "1|0"; OpDelete "1|5"]) ≤ 2048.
Proof.
  destruct (LRU.new 0 2048 (Some sizeCalculation)) as [c0|e] eqn:Hnew;
    [|vm_compute in Hnew; discriminate Hnew].
  exists c0. split; [reflexivity|].
  refine (proj2 (proj2 (proj2 (proj2 (lru_invariant 0 2048 _ c0 _ Hnew
                                        ltac:(discriminate)))) _)).
  by eapply new_tracksSize.
Defined.

(** X2.  Lookup after insertion.  In a consistent cache, a set of a value that
    the cache accepts (its size is valid and at most maxEntrySize) makes a
    get of that key return the value, as the most recent entry; a set of a
    value whose size is over maxEntrySize stores nothing and removes what the
    key held. *)
Theorem lru_set_then_get (c : LRU.LRUCache string Val) k v c' :
  LRUFacts.wf c → LRU.set k v c = Ok c' →
  (LRUFacts.fits c v →
   LRU.peek k c' = Some v ∧ ∃ c'', LRU.get k c' = Ok (Some v, c'')) ∧
  (¬ LRUFacts.fits c v → LRU.peek k c' = None).
Proof.
  intros Hwf Hset.
  destruct (LRUFacts.wf_set c k v Hwf)
    as [(msg & _ & Hexn)|(c1 & Hset1 & Hwf1 & _ & Hfit & Hnofit & _)]; [congruence|].
  assert (c1 = c') as -> by congruence. split; [|done].
  intros Hv. split; [by apply Hfit|].
  destruct (LRUFacts.wf_get c' k Hwf1) as (c'' & Hget & _).
  exists c''. by rewrite Hget, (Hfit Hv).
Qed.

Lemma lru_set_then_get_witness :
  ∃ c0 c', LRU.new 0 2048 (Some sizeCalculation) = Ok c0 ∧
           LRU.set "1|0" (VBytes (replicate 4096 x00)) c0 = Ok c' ∧
           LRU.peek "1|0" c' = None.
Proof.
  destruct (LRU.new 0 2048 (Some sizeCalculation)) as [c0|e] eqn:Hnew;
    [|vm_compute in Hnew; discriminate Hnew].
  destruct (LRUFacts.new_wf _ _ _ _ Hnew ltac:(discriminate)) as (Hwf & _).
  destruct (LRU.set "1|0" (VBytes (replicate 4096 x00)) c0) as [c'|e] eqn:Hset.
  - exists c0, c'. split; [reflexivity|]. split; [exact Hset|].
    refine (proj2 (lru_set_then_get c0 _ _ c' Hwf Hset) _).
    intros (sz & Hreq & Hover). clear Hset Hwf.
    vm_compute in Hnew. injection Hnew as <-. vm_compute in Hreq.
    injection Hreq as <-. vm_compute in Hover. discriminate Hover.
  - exfalso. vm_compute in Hnew. injection Hnew as <-. vm_compute in Hset.
    discriminate Hset.
Defined.

(** X3.  Deletion.  In a consistent cache, delete returns whether the key was
    present, the key is absent afterwards, and every other key holds what it
    held. *)
Theorem lru_delete (c : LRU.LRUCache string Val) k :
  LRUFacts.wf c →
  ∃ c', LRU.delete k c = Ok (bool_decide (is_Some (LRU.peek k c)), c') ∧
        LRU.peek k c' = None ∧
        ∀ k', k' ≠ k → LRU.peek k' c' = LRU.peek k' c.
Proof.
  intros Hwf.
  destruct (LRUFacts.wf_delete c k Hwf) as (b & c' & Hdel & _ & _ & -> & Hk & Hother).
  by exists c'.
Qed.

(** The registry holds the entries of two urls; the older one is deleted. *)
Lemma lru_delete_witness :
  ∃ c0 c' : LRU.LRUCache string Val,
    LRU.new 32 0 None = Ok c0 ∧
    LRU.delete "u" (applyOps c0 [OpSet "u" (VEntry 1); OpSet "v" (VEntry 2)])
      = Ok (true, c') ∧
    LRU.peek "u" c' = None ∧ LRU.peek "v" c' = Some (VEntry 2).
Proof.
  destruct (LRU.new (K:=string) (V:=Val) 32 0 None) as [c0|e] eqn:Hnew;
    [|vm_compute in Hnew; discriminate Hnew].
  destruct (LRUFacts.new_wf _ _ _ _ Hnew ltac:(discriminate)) as (Hwf & _).
  destruct (applyOps_wf c0 [OpSet "u" (VEntry 1); OpSet "v" (VEntry 2)] Hwf) as [Hwf2 _].
  destruct (lru_delete _ "u" Hwf2) as (c' & Hdel & Hnone & Hother).
  assert (Hobs : LRU.peek "u" (applyOps c0 [OpSet "u" (VEntry 1); OpSet "v" (VEntry 2)])
                 = Some (VEntry 1) ∧
                 LRU.peek "v" (applyOps c0 [OpSet "u" (VEntry 1); OpSet "v" (VEntry 2)])
                 = Some (VEntry 2)).
  { clear Hdel Hnone Hother Hwf Hwf2. vm_compute in Hnew. injection Hnew as <-.
    split; vm_compute; reflexivity. }
  destruct Hobs as [Hu Hv]. rewrite Hu in Hdel.
  exists c0, c'. split; [reflexivity|]. split; [exact Hdel|]. split; [exact Hnone|].
  rewrite Hother by discriminate. exact Hv.
Defined.

(** X4.  Lookup.  In a consistent cache, get returns what the key holds,
    undefined if nothing, and changes neither what any key holds nor the sizes
    accounted for: only the order of use.  The entry of the key becomes the
    most recently used one, and the others keep their order. *)
Theorem lru_get (c : LRU.LRUCache string Val) k :
  LRUFacts.wf c →
  ∃ c', LRU.get k c = Ok (LRU.peek k c, c') ∧
        (∀ k', LRU.peek k' c' = LRU.peek k' c) ∧
        LRU.calculatedSize c' = LRU.calculatedSize c ∧
        LRU.rentries c' = match LRU.peek k c with
                          | Some v => filter (λ e, e.1 ≠ k) (LRU.rentries c) ++ [(k, v)]
                          | None => LRU.rentries c
                          end.
Proof.
  intros Hwf.
  destruct (LRUFacts.wf_get c k Hwf) as (c' & Hget & _ & _ & Hpeek & Hsz).
  destruct (LRUFacts.wf_get_order c k Hwf) as (c'' & Hget' & Horder).
  assert (c'' = c') as -> by congruence.
  by exists c'.
Qed.

(** The registry holds the entries of two urls; a get of the older one makes
    it the more recent one. *)
Lemma lru_get_witness :
  ∃ c0 c' : LRU.LRUCache string Val,
    LRU.new 32 0 None = Ok c0 ∧
    LRU.get "u" (applyOps c0 [OpSet "u" (VEntry 1); OpSet "v" (VEntry 2)])
      = Ok (Some (VEntry 1), c') ∧
    LRU.rentries c' = [("v", VEntry 2); ("u", VEntry 1)].
Proof.
  destruct (LRU.new (K:=string) (V:=Val) 32 0 None) as [c0|e] eqn:Hnew;
    [|vm_compute in Hnew; discriminate Hnew].
  destruct (LRUFacts.new_wf _ _ _ _ Hnew ltac:(discriminate)) as (Hwf & _).
  destruct (applyOps_wf c0 [OpSet "u" (VEntry 1); OpSet "v" (VEntry 2)] Hwf) as [Hwf2 _].
  destruct (lru_get _ "u" Hwf2) as (c' & Hget & _ & _ & Horder).
  assert (Hobs : LRU.peek "u" (applyOps c0 [OpSet "u" (VEntry 1); OpSet "v" (VEntry 2)])
                 = Some (VEntry 1) ∧
                 LRU.rentries (applyOps c0 [OpSet "u" (VEntry 1); OpSet "v" (VEntry 2)])
                 = [("u", VEntry 1); ("v", VEntry 2)]).
  { clear Hget Horder Hwf Hwf2. vm_compute in Hnew. injection Hnew as <-.
    split; vm_compute; reflexivity. }
  destruct Hobs as [Hu Hentries]. rewrite Hu in Hget, Horder. rewrite Hentries in Horder.
  exists c0, c'. split; [reflexivity|]. split; [exact Hget|]. exact Horder.
Defined.

(** X5.  ntoh16 gives the value in network order.  Two bytes [hi], [lo] read
    through a Uint16Array and passed to ntoh16 give 256 * hi + lo, on a
    little-endian platform, where swapNeeded is true, and on a big-endian
    one, where it is false. *)
Theorem ntoh16_network_order swap hi lo :
  ntoh16 swap (elementValue swap [hi; lo]) = 256 * byteToZ hi + byteToZ lo.
Proof. apply ntoh16_bigEndian. Qed.

(** X6.  Invariants of the dispatcher.  Whatever the dispatcher has received
    since the module was loaded, the file registry and the page cache, if
    there is one, are consistent caches, the page cache tracks sizes with the
    worker's sizeCalculation and no bound on the number of entries, every
    file entry is recorded under its own id, and no id from nextId on is in
    use. *)
Theorem dispatcher_invariants le inputs s :
  after le inputs = Some s →
  LRUFacts.wf (files (world s)) ∧
  (∀ c, cache (world s) = Some c →
        LRUFacts.wf c ∧ LRU.max_ c = 0%nat ∧
        LRU.sizeCalculation c = Some sizeCalculation ∧ LRU.tracksSize c = true) ∧
  (∀ j e, heap (world s) !! j = Some e → e_id e = j ∧ j < nextId (world s)).
Proof.
  intros Hs. destruct (worldOk_after _ _ _ Hs) as [(Hf & _) Hc].
  destruct (heapOk_after _ _ _ Hs) as [Hid Hfree]. split_and!; [done| |].
  - intros c Hcache. apply (cacheOk_ready _ _ _ Hc Hcache).
  - intros j e Hj. split; [by apply Hid|].
    destruct (Z.lt_ge_cases j (nextId (world s))) as [|Hge]; [done|].
    by rewrite (Hfree j Hge) in Hj.
Qed.

Lemma dispatcher_invariants_witness :
  ∃ s, after true sequential = Some s ∧ LRUFacts.wf (files (world s)).
Proof.
  assert (Hobs : (s ← after true sequential; Some (taskStates s))
                 = Some [TDone; TDone; TDone; TDone; TDone])
    by (vm_compute; reflexivity).
  destruct (after true sequential) as [s|] eqn:Hs; [|discriminate Hobs].
  exists s. split; [reflexivity|].
  exact (proj1 (dispatcher_invariants true sequential s Hs)).
Defined.

(** X7.  A file that is not open.  xRead and xFilesize for a url that the
    registry does not hold throw the not-open error at once: no request is
    sent and nothing but the order of the registry changes.  The error of
    xRead names the url; that of xFilesize names [msg.fid], which no message
    has: `File undefined not open`. *)
Theorem not_open_is_refused w m consumer :
  filesOk (files w) → LRU.peek (url m) (files w) = None →
  ∃ f1 f2,
    runSync (xRead m consumer) w = (Finished (Exn (ErrNotOpen (url m))), with_files f1 w) ∧
    runSync (xFilesize m consumer) w
      = (Finished (Exn (ErrNotOpen "undefined")), with_files f2 w).
Proof.
  intros Hf Hp. destruct (filesGet_spec w (url m) Hf) as (f' & Hget & _).
  exists f', f'. split.
  - unfold xRead, maxNesting.
    change (xReadN 16 m (buffer consumer))
      with (xReadBody (xReadN 15) m (buffer consumer)).
    unfold xReadBody. rewrite runSync_bind_actRes, Hget, Hp. reflexivity.
  - unfold xFilesize. rewrite runSync_bind_actRes, Hget, Hp. reflexivity.
Qed.

Lemma not_open_is_refused_witness :
  ∃ s f1 f2,
    after true [Control (Init None); Control (Handshake 7)] = Some s ∧
    runSync (xRead (readMsg 0 1024) (mkConsumer 7 0 (mkView 0 4096 4) (mkView 0 0 4096)))
      (world s) = (Finished (Exn (ErrNotOpen "u")), with_files f1 (world s)) ∧
    runSync (xFilesize (mkMsg MXFilesize "u" None None)
               (mkConsumer 7 0 (mkView 0 4096 4) (mkView 0 0 4096)))
      (world s) = (Finished (Exn (ErrNotOpen "undefined")), with_files f2 (world s)).
Proof.
  assert (Hobs : (s ← after true [Control (Init None); Control (Handshake 7)];
                  Some (LRU.peek "u" (files (world s)))) = Some None)
    by (vm_compute; reflexivity).
  destruct (after true [Control (Init None); Control (Handshake 7)]) as [s|] eqn:Hs;
    [|discriminate Hobs].
  cbn [mbind option_bind] in Hobs. injection Hobs as Hobs.
  destruct (not_open_is_refused (world s) (readMsg 0 1024)
              (mkConsumer 7 0 (mkView 0 4096 4) (mkView 0 0 4096))
              (proj1 (worldOk_after _ _ _ Hs)) Hobs) as (f1 & _ & Hread & _).
  destruct (not_open_is_refused (world s) (mkMsg MXFilesize "u" None None)
              (mkConsumer 7 0 (mkView 0 4096 4) (mkView 0 0 4096))
              (proj1 (worldOk_after _ _ _ Hs)) Hobs) as (_ & f2 & _ & Hsize).
  exists s, f1, f2. split; [reflexivity|]. split; [exact Hread|exact Hsize].
Defined.

(** X8.  Mandatory arguments.  An xRead of an open file without its offset or
    without its length throws the missing-arguments error, before it looks at
    the page size or at the cache. *)
Theorem missing_arguments_are_refused w m consumer i :
  filesOk (files w) → LRU.peek (url m) (files w) = Some (VEntry i) →
  n m = None ∨ offset m = None →
  ∃ f1, runSync (xRead m consumer) w = (Finished (Exn ErrMissingArgs), with_files f1 w).
Proof.
  intros Hf Hp Hmiss. destruct (filesGet_spec w (url m) Hf) as (f' & Hget & _).
  exists f'. unfold xRead, maxNesting.
  change (xReadN 16 m (buffer consumer))
    with (xReadBody (xReadN 15) m (buffer consumer)).
  unfold xReadBody. rewrite runSync_bind_actRes, Hget, Hp.
  cbn [fst snd default from_option Datatypes.id truthy negb].
  rewrite runSync_bind. cbn [awaitIfPromise isPromise runSync].
  destruct Hmiss as [->| ->]; [reflexivity|]. by destruct (n m).
Qed.

Lemma missing_arguments_are_refused_witness :
  ∃ s f1,
    after true (opened None 200) = Some s ∧
    runSync (xRead (mkMsg MXRead "u" (Some 0) None)
               (mkConsumer 7 0 (mkView 0 4096 4) (mkView 0 0 4096)))
      (world s) = (Finished (Exn ErrMissingArgs), with_files f1 (world s)).
Proof.
  assert (Hobs : (s ← after true (opened None 200);
                  Some (LRU.peek "u" (files (world s)))) = Some (Some (VEntry 1)))
    by (vm_compute; reflexivity).
  destruct (after true (opened None 200)) as [s|] eqn:Hs; [|discriminate Hobs].
  cbn [mbind option_bind] in Hobs. injection Hobs as Hobs.
  destruct (missing_arguments_are_refused (world s) (mkMsg MXRead "u" (Some 0) None)
              (mkConsumer 7 0 (mkView 0 4096 4) (mkView 0 0 4096)) 1
              (proj1 (worldOk_after _ _ _ Hs)) Hobs (or_introl eq_refl)) as (f1 & Hread).
  exists s, f1. split; [reflexivity|exact Hread].
Defined.

(** X9.  A page that is resident.  A read that finds the bytes of its page in
    the cache sends no request: it logs the hit and copies the requested part
    of those bytes, from [offset - pageStart], to the buffer of the consumer;
    the copy throws a RangeError if the part is longer than the buffer. *)
Theorem resident_page_is_served w c m buffer entry id ps page pageStart offset n b :
  cache w = Some c → cacheReady c →
  LRU.peek (cacheId id page) c = Some (VBytes b) →
  ∃ w1 c1,
    w1 = emit (EvDebug "cache" "cache hit") (with_cache (Some c1) w) ∧
    (∀ k, LRU.peek k c1 = LRU.peek k c) ∧
    runSync (serve m buffer entry id ps page pageStart offset n) w
    = (Finished (match (viewSet buffer
                          (subarray b (offset - pageStart) (offset - pageStart + n))
                          w1).1 with
                 | Ok _ => Ok 0
                 | Exn err => Exn err
                 end),
       (viewSet buffer (subarray b (offset - pageStart) (offset - pageStart + n)) w1).2).
Proof.
  intros Hc Hready Hp.
  destruct (serve_resident w c m buffer entry id ps page pageStart offset n b Hc Hready Hp)
    as (w0 & (c0 & c1 & Hc0 & -> & _ & _ & Hpeek) & ->).
  assert (c0 = c) as -> by congruence.
  eexists _, c1. split_and!; [reflexivity|done|].
  unfold copyOut. rewrite runSync_bind_actRes.
  by destruct (viewSet _ _ _) as [[[]|err] w4].
Qed.

Lemma resident_page_is_served_witness :
  ∃ s,
    after true (opened None 200 ++ firstRead db1024) = Some s ∧
    fetches (runSync (serve (readMsg 0 1024) (mkView 0 0 4096) (VEntry 1) 1 1024 0 0 0 1024)
               (world s)).2 = fetches (world s).
Proof.
  assert (Hobs : (s ← after true (opened None 200 ++ firstRead db1024);
                  c ← cache (world s);
                  Some (match LRU.peek (cacheId 1 0) c with
                        | Some (VBytes _) => true
                        | _ => false
                        end))
                 = Some true)
    by (vm_compute; reflexivity).
  destruct (after true (opened None 200 ++ firstRead db1024)) as [s|] eqn:Hs;
    [|discriminate Hobs].
  cbn [mbind option_bind] in Hobs.
  destruct (cache (world s)) as [c|] eqn:Hc; [|discriminate Hobs].
  cbn [mbind option_bind] in Hobs.
  destruct (LRU.peek (cacheId 1 0) c) as [[| |n0|b|p0|i0]|] eqn:Hp;
    try discriminate Hobs.
  pose proof (worldOk_after _ _ _ Hs) as [_ Hok].
  destruct (resident_page_is_served (world s) c (readMsg 0 1024) (mkView 0 0 4096)
              (VEntry 1) 1 1024 0 0 0 1024 b Hc (cacheOk_ready _ _ _ Hok Hc) Hp)
    as (w1 & c1 & -> & _ & Hrun).
  exists s. split; [reflexivity|]. rewrite Hrun. cbn [snd].
  unfold fetches. rewrite viewSet_trace. simpl. rewrite omap_app. simpl.
  apply app_nil_r.
Defined.

(** X10.  The members leave the status to the dispatcher.  Whatever a member
    of backendAsyncMethods does before it returns or throws, a backend method
    or a function that the object inherits, it stores nothing in the lock of
    a consumer, notifies nobody and posts no message. *)
Theorem methods_leave_the_lock data this member evs r :
  backendAsyncMethods data this = Some member →
  completes anyWorld anyErr (invoke member) evs r →
  Forall (λ ev, toConsumer ev = false) evs.
Proof. apply methods_quiet. Qed.

(** An xOpen whose probe fails has sent the request, and nothing to the
    consumer. *)
Lemma methods_leave_the_lock_witness :
  completes anyWorld anyErr
    (invoke (Method (xOpen openMsg))) [EvFetchHead "u" 0] (Exn (FetchFailed "net")) ∧
  Forall (λ ev, toConsumer ev = false) [EvFetchHead "u" 0%nat].
Proof.
  assert (Hc : completes anyWorld anyErr
                 (invoke (Method (xOpen openMsg))) [EvFetchHead "u" 0]
                 (Exn (FetchFailed "net"))).
  { cbn [invoke]. apply completes_call. exact xOpen_probe_fails. }
  split; [exact Hc|].
  exact (methods_leave_the_lock openMsg (mkConsumer 7 0 (mkView 0 4096 4) (mkView 0 0 4096))
           (Method (xOpen openMsg)) _ _ eq_refl Hc).
Defined.

(** X11.  xAccess reports and does not throw.  Whatever happens to the open
    that it makes, an error of the probe included, an xAccess that comes to its
    end returns 0: the outcome is in the result it stored, never in an
    exception. *)
Theorem xAccess_returns m consumer evs r :
  completes anyWorld anyErr (xAccess m consumer) evs r → r = Ok 0.
Proof.
  unfold xAccess. rewrite completes_bind.
  intros [(e1 & x & e2 & _ & [_ ->] & _)|(e & Hc & _)]; [done|].
  apply completes_tryCatch in Hc as [(x & _ & [=])|(e1 & e' & e2 & _ & Hh & _)].
  apply completes_actRes in Hh as (w & _ & _ & Hx).
  by rewrite viewStoreElement_ok in Hx.
Qed.

Lemma xAccess_returns_witness :
  ∃ evs r, completes anyWorld anyErr
             (xAccess openMsg (mkConsumer 7 0 (mkView 0 4096 4) (mkView 0 0 4096)))
             evs r ∧ r = Ok 0.
Proof.
  pose (w0 := {| options := None; consumers := ∅;
                 files := LRU.mkLRU 32 0 0 None (LRU.UintArray 8) ∅ ∅ ∅
                            (LRU.zeros 0%nat 32) (LRU.zeros 0%nat 32) 0 0 [] 1 0 0 ∅;
                 cache := None; nextId := 1; heap := ∅; promises := ∅;
                 nextPromise := 0; buffers := ∅; nextBuffer := 0;
                 swapNeeded := true; trace := [] |}).
  assert (Hc : completes anyWorld anyErr
             (xAccess openMsg (mkConsumer 7 0 (mkView 0 4096 4) (mkView 0 0 4096)))
             [EvFetchHead "u" 0] (Ok 0)).
  { unfold xAccess. apply completes_bind. left.
    exists [EvFetchHead "u" 0], tt, []. split; [|split; [split; reflexivity|reflexivity]].
    apply completes_tryCatch. right.
    exists [EvFetchHead "u" 0], (FetchFailed "net"), []. split; [|split; [|reflexivity]].
    - apply completes_bind. right. exists (FetchFailed "net"). split; [|reflexivity].
      apply completes_call. unfold xOpen. apply completes_bind. left.
      exists [], VUndefined, [EvFetchHead "u" 0]. split; [|split; [|reflexivity]].
      + apply completes_actRes. exists w0. split; [exact Logic.I|].
        split; vm_compute; reflexivity.
      + cbn [awaitIfPromise isPromise bind]. rewrite decide_False by (intros H; by apply H).
        apply completes_bind. left.
        exists [EvFetchHead "u" 0], (VPromise 0), []. split; [|split; [|reflexivity]].
        * apply completes_act. exists w0.
          split; [exact Logic.I|]. split; vm_compute; reflexivity.
        * apply completes_bind. left.
          exists [], tt, []. split; [|split; [|reflexivity]].
          -- apply completes_actRes. exists w0. split; [exact Logic.I|].
             split; vm_compute; reflexivity.
          -- apply completes_bind. right. exists (FetchFailed "net").
             split; [|reflexivity].
             exists (Exn (FetchFailed "net")). split; [done|]. split; reflexivity.
    - apply completes_actRes. exists w0. split; [exact Logic.I|].
      split; vm_compute; reflexivity. }
  exists [EvFetchHead "u" 0%nat], (Ok 0). split; [exact Hc|].
  exact (xAccess_returns _ _ _ _ Hc).
Defined.

(** X12.  An init message without capacity.  When the cache size of the
    options is 0 or negative, the constructor of the cache throws a TypeError:
    the init message fails after the options were replaced, and the page cache
    stays what it was, undefined if there was none. *)
Theorem init_without_capacity o w :
  maxSizeOf o ≤ 0 →
  ∃ msg, onmessage (Init o) w
         = (Exn (TypeError msg),
            with_options o (emit (EvDebug "threads" "Received new control message") w)).
Proof.
  intros Hsz. unfold onmessage. cbv zeta.
  assert (Hnew : ∃ msg, LRU.new (K:=string) 0 (maxSizeOf o) (Some sizeCalculation)
                        = Exn (TypeError msg)).
  { unfold LRU.new. simpl. destruct (Z.eqb_spec (maxSizeOf o) 0) as [->|Hnz].
    - simpl. by eexists.
    - simpl. unfold LRU.isPosInt. destruct (Z.ltb_spec 0 (maxSizeOf o)); [lia|].
      simpl. by eexists. }
  destruct Hnew as (msg & ->). by exists msg.
Qed.

Lemma init_without_capacity_witness :
  ∃ w msg, initialWorld true = Ok w ∧
    (onmessage (Init (Some (mkOptions None (Some 0)))) w).1 = Exn (TypeError msg).
Proof.
  destruct (initialWorld true) as [w|e] eqn:Hw; [|vm_compute in Hw; discriminate Hw].
  destruct (init_without_capacity (Some (mkOptions None (Some 0))) w) as (msg & Hmsg).
  - discriminate.
  - exists w, msg. split; [reflexivity|]. rewrite Hmsg. reflexivity.
Defined.
